(** * minibatchutterancesource: chunked, randomized paging of utterances

    A shallow embedding of [Source/Readers/KaldiReader/utterancesource.h]:
    the corpus construction, the per-sweep randomization
    ([lazyrandomization]), the chunk pager and the utterance-mode
    [getbatch] / [firstvalidglobalts] entry points.

    Conventions.
    - [size_t] quantities that measure frames or time are integers in [Z]
      and every C++ [+], [-], [*] on them is written with its 64-bit
      wrap-around ([sz_add], [sz_sub], [sz_mul]).
    - positions and indices into vectors are [nat]; an access outside the
      vector, a modulo by zero or an index that would underflow is
      undefined behaviour in the source and is reported as
      [undefined_behaviour] rather than given a made-up value.
    - loops whose termination depends on random draws take fuel. *)

From Stdlib Require Import ZArith Lia.
From stdpp Require Import base numbers list gmap.


(** ** Machine integers *)

Definition SIZE_MOD : Z := 2 ^ 64.
Definition SIZE_MAX : Z := SIZE_MOD - 1.
Definition wrap (z : Z) : Z := z mod SIZE_MOD.
Definition sz_add (a b : Z) : Z := wrap (a + b).
Definition sz_sub (a b : Z) : Z := wrap (a - b).
Definition sz_mul (a b : Z) : Z := wrap (a * b).
Definition trunc (bits : Z) (z : Z) : Z := z mod 2 ^ bits.
Definition in_size_t (z : Z) : Prop := (0 <= z < SIZE_MOD)%Z.

(** ** Exceptions and results *)

Inductive exn : Type :=
  | logic_virgin_block          (* "cannot page in/out virgin block" *)
  | logic_already_in_memory     (* "requiredata: called when data is already in memory" *)
  | logic_not_in_memory         (* "releasedata: called when data is not memory" *)
  | logic_not_paged_in          (* "getutteranceframes: called when data have not been paged in" *)
  | logic_too_late_to_add       (* "frames already paged into RAM--too late to add data" *)
  | logic_outside_window        (* "requirerandomizedchunk: requested utterance outside in-memory chunk range" *)
  | logic_mangled               (* "lazyrandomization: randomization logic mangled!" *)
  | logic_frame_randomization   (* "lazyrandomization: nope, you got frame randomization wrong, dude" *)
  | logic_invalid_globalts      (* "getbatch: invalid 'globalts' parameter; must match an existing utterance boundary" *)
  | logic_boundary_marker       (* "getclassids: expected boundary marker not found" *)
  | logic_classids_out_of_sync  (* "minibatchutterancesource: classids[] out of sync" *)
  | logic_chunkforframepos      (* "chunkforframepos: dude, learn STL!" *)
  | logic_shiftedvector         (* "shiftedvector: index out of bounds" *)
  | logic_label_duration        (* "label duration inconsistent with feature file" *)
  | runtime_no_frame_bounds     (* [parsedpath::numframes] without frame bounds *)
  | runtime_short_utterance     (* "utterances < 2 frames not supported" *)
  | runtime_labels_not_consecutive
  | runtime_classid_exceeds_udim
  | runtime_classidtype_bits
  | runtime_too_many_missing    (* "too many files not found in label set" *)
  | runtime_shuffle_too_large   (* "randomshuffle: too large set" *)
  | runtime_checkoverflow       (* "checkoverflow: bit field ... too small" *)
  | io_failure                  (* an exception of the feature reader, the lattice source or the allocator *)
  | undefined_behaviour.        (* out-of-range subscript, modulo by zero *)

Inductive result (A : Type) : Type :=
  | Ok (a : A)
  | Throw (e : exn)
  | OutOfFuel.
Arguments Ok {A} a.
Arguments Throw {A} e.
Arguments OutOfFuel {A}.

Definition rbind {A B} (m : result A) (f : A -> result B) : result B :=
  match m with
  | Ok a => f a
  | Throw e => Throw e
  | OutOfFuel => OutOfFuel
  end.

#[global] Instance result_bind : MBind result := fun A B f m => rbind m f.
#[global] Instance result_ret : MRet result := fun A a => Ok a.

(** [v[i]] on a [std::vector]: out of range is undefined behaviour. *)
Definition at_ {A} (v : list A) (i : nat) : result A :=
  match v !! i with
  | Some a => Ok a
  | None => Throw undefined_behaviour
  end.

(** ** Build configuration: the width of the [frameref] fields *)

Inductive build : Type := WIN64 | WIN32.

Definition maxutterancesperchunk (b : build) : Z :=
  match b with WIN64 => 65535 | WIN32 => 255 end.
Definition maxframesperutterance (b : build) : Z :=
  match b with WIN64 => 65535 | WIN32 => 2047 end.
Definition chunkindex_bits (b : build) : Z :=
  match b with WIN64 => 16 | WIN32 => 13 end.
Definition utteranceindex_bits (b : build) : Z :=
  match b with WIN64 => 16 | WIN32 => 8 end.
Definition frameindex_bits (b : build) : Z :=
  match b with WIN64 => 16 | WIN32 => 11 end.

(** ** Data store *)

(** [utterancedesc]: the parsed path is kept as its key (the logical
    path without extension) and its number of frames. *)
Record utterancedesc : Type := mkutterancedesc {
  utt_key : nat;
  utt_numframes : Z;
  classidsbegin : Z;
}.

(** The frame cache [msra::dbn::matrix frames]: its dimensions and, per
    utterance stripe already filled by the reader, the utterance index. *)
Record matrix : Type := mkmatrix {
  numrows : Z;
  numcols : Z;
  stripes : list nat;
}.
Definition matrix_empty (m : matrix) : bool := (numrows m * numcols m =? 0)%Z.
Definition matrix_resize (r c : Z) : matrix := mkmatrix r c [].

(** A lattice slot: [None] is the null [shared_ptr], [Some key] a lattice
    fetched for that key. *)
Definition latticeptr : Type := option nat.

Record utterancechunkdata : Type := mkutterancechunkdata {
  utteranceset : list utterancedesc;
  firstframes : list Z;
  frames : matrix;
  totalframes : Z;
  lattices : list latticeptr;
}.

Definition chunkdata_numutterances (c : utterancechunkdata) : nat :=
  length (utteranceset c).
Definition isinram (c : utterancechunkdata) : bool :=
  negb (matrix_empty (frames c)).
Definition chunkdata_numframes (c : utterancechunkdata) (i : nat) : result Z :=
  u ← at_ (utteranceset c) i; Ok (utt_numframes u).
Definition getclassidsbegin (c : utterancechunkdata) (i : nat) : result Z :=
  u ← at_ (utteranceset c) i; Ok (classidsbegin u).

(** [utterancechunkdata()] and [push_back]. *)
Definition empty_chunkdata : utterancechunkdata :=
  mkutterancechunkdata [] [] (mkmatrix 0 0 []) 0 [].
Definition chunkdata_push_back (c : utterancechunkdata) (utt : utterancedesc)
  : result utterancechunkdata :=
  if isinram c then Throw logic_too_late_to_add
  else Ok (mkutterancechunkdata
             (utteranceset c ++ [utt])
             (firstframes c ++ [totalframes c])
             (frames c)
             (sz_add (totalframes c) (utt_numframes utt))
             (lattices c)).

(** ** Randomized chunks *)

(** [struct chunk]: [uttchunkdata] is the iterator into [allchunks], kept
    as its offset.  The constructor leaves the window fields unset; they
    are assigned before they are read, and start at 0 here. *)
Record chunk : Type := mkchunk {
  uttchunkdata : nat;
  utteranceposbegin : nat;
  globalts : Z;
  windowbegin : nat;
  windowend : nat;
}.

Definition set_window (c : chunk) (wb we : nat) : chunk :=
  mkchunk (uttchunkdata c) (utteranceposbegin c) (globalts c) wb we.

Section Chunks.
Variable allchunks : list utterancechunkdata.

Definition getchunkdata (c : chunk) : result utterancechunkdata :=
  at_ allchunks (uttchunkdata c).
Definition chunk_numutterances (c : chunk) : result nat :=
  d ← getchunkdata c; Ok (chunkdata_numutterances d).
Definition chunk_numframes (c : chunk) : result Z :=
  d ← getchunkdata c; Ok (totalframes d).
Definition utteranceposend (c : chunk) : result nat :=
  n ← chunk_numutterances c; Ok (utteranceposbegin c + n).
Definition globalte (c : chunk) : result Z :=
  n ← chunk_numframes c; Ok (sz_add (globalts c) n).

(** Placing the shuffled chunk references on the timeline:
    [randomizedchunks.push_back (chunk (ref, back().utteranceposend(), back().globalte()))]. *)
Fixpoint place_chunks (refs : list nat) (acc : list chunk) (sweepts : Z)
  : result (list chunk) :=
  match refs with
  | [] => Ok acc
  | r :: refs' =>
      '(pos, ts) ← match last acc with
                    | None => Ok (0, sweepts)
                    | Some b => pe ← utteranceposend b;
                                te ← globalte b; Ok (pe, te)
                    end;
      place_chunks refs' (acc ++ [mkchunk r pos ts 0 0]) sweepts
  end.

(** The two [while] loops of the window computation.  [n] bounds the
    number of iterations; the subscript leaves the vector first. *)
Fixpoint advance_windowbegin (n : nat) (rcs : list chunk) (half : Z)
    (cts : Z) (wb : nat) : result nat :=
  c ← at_ rcs wb;
  if (sz_sub cts (globalts c) >? half)%Z then
    match n with
    | 0 => OutOfFuel
    | S n' => advance_windowbegin n' rcs half cts (S wb)
    end
  else Ok wb.

Fixpoint advance_windowend (n : nat) (rcs : list chunk) (half : Z)
    (cts : Z) (we : nat) : result nat :=
  if bool_decide (we < length rcs) then
    c ← at_ rcs we;
    te ← globalte c;
    if (sz_sub te cts <? half)%Z then
      match n with
      | 0 => OutOfFuel
      | S n' => advance_windowend n' rcs half cts (S we)
      end
    else Ok we
  else Ok we.

(** Body of [foreach_index (k, randomizedchunks)] at lines 491-509. *)
Definition compute_window (rr : Z) (rcs : list chunk) (k : nat)
  : result (list chunk) :=
  c ← at_ rcs k;
  '(wb0, we0) ← match k with
                 | 0 => Ok (0, 1)
                 | S k' => p ← at_ rcs k'; Ok (windowbegin p, windowend p)
                 end;
  wb ← advance_windowbegin (length rcs) rcs (rr / 2) (globalts c) wb0;
  we ← advance_windowend (length rcs) rcs (rr / 2) (globalts c) we0;
  Ok (<[k := set_window c wb we]> rcs).

Fixpoint compute_windows_from (rr : Z) (rcs : list chunk) (k n : nat)
  : result (list chunk) :=
  match n with
  | 0 => Ok rcs
  | S n' => rcs' ← compute_window rr rcs k;
            compute_windows_from rr rcs' (S k) n'
  end.

Definition compute_windows (rr : Z) (rcs : list chunk) : result (list chunk) :=
  compute_windows_from rr rcs 0 (length rcs).
End Chunks.

(** ** Utterance and frame references *)

Record utteranceref : Type := mkutteranceref {
  chunkindex : nat;
  utteranceindex : nat;
  numframes : Z;
  ref_globalts : Z;
}.
(** [utteranceref (chunkindex, utteranceindex)]: [globalts (SIZE_MAX), numframes (0)]. *)
Definition new_utteranceref (ci ui : nat) : utteranceref :=
  mkutteranceref ci ui 0 SIZE_MAX.
Definition ref_globalte (u : utteranceref) : Z :=
  sz_add (ref_globalts u) (numframes u).
(** [utteranceref::swap]: exchanges the chunk and utterance index only. *)
Definition utteranceref_swap (a b : utteranceref) : utteranceref * utteranceref :=
  (mkutteranceref (chunkindex b) (utteranceindex b) (numframes a) (ref_globalts a),
   mkutteranceref (chunkindex a) (utteranceindex a) (numframes b) (ref_globalts b)).

(** [frameref]: three bit fields, held as the values they store. *)
Record frameref : Type := mkframeref {
  fr_chunkindex : Z;
  fr_utteranceindex : Z;
  fr_frameindex : Z;
}.

Definition checkoverflow (fieldval targetval : Z) : result unit :=
  if decide (fieldval = targetval) then Ok () else Throw runtime_checkoverflow.

(** [positionchunkwindow::isvalidforthisposition], with the defining chunk
    given by its offset in [randomizedchunks]. *)
Definition window_contains (c : chunk) (ci : nat) : bool :=
  bool_decide (windowbegin c ≤ ci) && bool_decide (ci < windowend c).
Definition isvalidforthisposition (rcs : list chunk) (definingchunk : nat)
    (utt : utteranceref) : result bool :=
  c ← at_ rcs definingchunk; Ok (window_contains c (chunkindex utt)).

(** ** The random number generator *)

(** Modelled from the spec: [msra::dbn::rand (begin, end)] and the C library
    generator behind it are not part of the sources at hand.  The spec has a
    candidate drawn "uniformly from that range" and every draw "seeded
    deterministically from the sweep number": a generator state that
    [srand] replaces, and a draw that lands in [[begin, end)]. *)
Class CRand : Type := {
  rng : Type;
  srand : Z -> rng;
  dbn_rand : rng -> nat -> nat -> nat * rng;
  RAND_MAX : Z;
  dbn_rand_range : forall r b e, b < e -> b ≤ (dbn_rand r b e).1 < e;
}.

Section Randomize.
Context `{CRand}.

(** A draw from an empty range divides by zero in the source. *)
Definition rand (r : rng) (b e : nat) : result (nat * rng) :=
  if bool_decide (b < e) then Ok (dbn_rand r b e) else Throw undefined_behaviour.

(** [randomshuffle (v, randomseed)]. *)
Fixpoint shuffle_loop {A} (v : list A) (r : rng) (i n : nat)
  : result (list A * rng) :=
  match n with
  | 0 => Ok (v, r)
  | S n' =>
      '(irand, r') ← rand r 0 (length v);
      if decide (irand = i) then shuffle_loop v r' (S i) n'
      else
        vi ← at_ v i;
        vr ← at_ v irand;
        shuffle_loop (<[irand := vi]> (<[i := vr]> v)) r' (S i) n'
  end.

Definition randomshuffle {A} (v : list A) (randomseed : Z)
  : result (list A * rng) :=
  if (Z.of_nat (length v) >? sz_mul RAND_MAX RAND_MAX)%Z
  then Throw runtime_shuffle_too_large
  else shuffle_loop v (srand (trunc 32 randomseed)) 0 (length v).

Variable allchunks : list utterancechunkdata.

(** *** Utterance mode *)

(** [positionchunkwindows]: one entry per utterance position of chunk [k]. *)
Fixpoint build_positionchunkwindows (rcs : list chunk) (k : nat)
  : result (list nat) :=
  match rcs with
  | [] => Ok []
  | c :: rest =>
      n ← chunk_numutterances allchunks c;
      tl ← build_positionchunkwindows rest (S k);
      Ok (replicate n k ++ tl)
  end.

(** [randomizedutterancerefs] before shuffling: [utteranceref (k, i)]. *)
Fixpoint build_utterancerefs (rcs : list chunk) (k : nat)
  : result (list utteranceref) :=
  match rcs with
  | [] => Ok []
  | c :: rest =>
      n ← chunk_numutterances allchunks c;
      tl ← build_utterancerefs rest (S k);
      Ok (map (new_utteranceref k) (seq 0 n) ++ tl)
  end.

(** The retry loop [for(;;)] for position [i]. *)
Fixpoint swap_retry (fuel : nat) (rcs : list chunk) (pcw : list nat)
    (refs : list utteranceref) (r : rng) (i posbegin posend : nat)
  : result (list utteranceref * rng) :=
  match fuel with
  | 0 => OutOfFuel
  | S fuel' =>
      '(j, r') ← rand r posbegin posend;
      if decide (i = j) then Ok (refs, r')
      else
        wi ← at_ pcw i;
        uj ← at_ refs j;
        okj ← isvalidforthisposition rcs wi uj;
        if negb okj then swap_retry fuel' rcs pcw refs r' i posbegin posend
        else
          wj ← at_ pcw j;
          ui ← at_ refs i;
          oki ← isvalidforthisposition rcs wj ui;
          if negb oki then swap_retry fuel' rcs pcw refs r' i posbegin posend
          else
            let '(ui', uj') := utteranceref_swap ui uj in
            Ok (<[j := uj']> (<[i := ui']> refs), r')
  end.

(** One iteration of [for (i = 0; i < randomizedutterancerefs.size(); i++)]. *)
Definition swap_position (fuel : nat) (rcs : list chunk) (pcw : list nat)
    (refs : list utteranceref) (r : rng) (i : nat)
  : result (list utteranceref * rng) :=
  k ← at_ pcw i;
  dc ← at_ rcs k;
  cb ← at_ rcs (windowbegin dc);
  ce ← (if decide (windowend dc = 0) then Throw undefined_behaviour
        else at_ rcs (windowend dc - 1));
  posend ← utteranceposend allchunks ce;
  swap_retry fuel rcs pcw refs r i (utteranceposbegin cb) posend.

Fixpoint swap_positions (fuel : nat) (rcs : list chunk) (pcw : list nat)
    (refs : list utteranceref) (r : rng) (i n : nat)
  : result (list utteranceref * rng) :=
  match n with
  | 0 => Ok (refs, r)
  | S n' =>
      '(refs', r') ← swap_position fuel rcs pcw refs r i;
      swap_positions fuel rcs pcw refs' r' (S i) n'
  end.

(** Placing the utterances on the timeline: [globalts] accumulates [numframes]. *)
Fixpoint place_utterances (rcs : list chunk) (refs : list utteranceref) (t : Z)
  : result (list utteranceref) :=
  match refs with
  | [] => Ok []
  | u :: rest =>
      c ← at_ rcs (chunkindex u);
      d ← getchunkdata allchunks c;
      n ← chunkdata_numframes d (utteranceindex u);
      let u' := mkutteranceref (chunkindex u) (utteranceindex u) n t in
      tl ← place_utterances rcs rest (ref_globalte u');
      Ok (u' :: tl)
  end.

(** "verify that we got it right". *)
Fixpoint verify_utterances (rcs : list chunk) (pcw : list nat)
    (refs : list utteranceref) (i : nat) : result unit :=
  match refs with
  | [] => Ok ()
  | u :: rest =>
      k ← at_ pcw i;
      c ← at_ rcs k;
      if bool_decide (chunkindex u < windowbegin c)
         || bool_decide (windowend c ≤ chunkindex u)
      then Throw logic_mangled
      else verify_utterances rcs pcw rest (S i)
  end.

(** [randomizedutteranceposmap[uttref.globalts] = pos]. *)
Fixpoint build_posmap (refs : list utteranceref) (pos : nat) (m : gmap Z nat)
  : gmap Z nat :=
  match refs with
  | [] => m
  | u :: rest => build_posmap rest (S pos) (<[ref_globalts u := pos]> m)
  end.

(** *** Frame mode *)

Variable b : build.

(** Innermost loop of the enumeration: the frames [m < n] of utterance [k]
    of randomized chunk [i]; each yields the [frameref] written to
    [randomizedframerefs[t]] and the entry written to [ttochunk[t]]. *)
Fixpoint enum_frames (ci ui : Z) (i : nat) (m n : nat)
  : result (list (frameref * Z)) :=
  match n with
  | 0 => Ok []
  | S n' =>
      let fi := trunc (frameindex_bits b) (Z.of_nat m) in
      _ ← checkoverflow fi (Z.of_nat m);
      let tc := trunc 16 (Z.of_nat i) in
      _ ← checkoverflow tc (Z.of_nat i);
      tl ← enum_frames ci ui i (S m) n';
      Ok ((mkframeref ci ui fi, tc) :: tl)
  end.

Fixpoint enum_utterances (ci : Z) (i : nat) (utts : list utterancedesc) (k : nat)
  : result (list (frameref * Z)) :=
  match utts with
  | [] => Ok []
  | u :: rest =>
      let ui := trunc (utteranceindex_bits b) (Z.of_nat k) in
      _ ← checkoverflow ui (Z.of_nat k);
      hd ← enum_frames ci ui i 0 (Z.to_nat (utt_numframes u));
      tl ← enum_utterances ci i rest (S k);
      Ok (hd ++ tl)
  end.

Fixpoint enum_chunks (rcs : list chunk) (i : nat) : result (list (frameref * Z)) :=
  match rcs with
  | [] => Ok []
  | c :: rest =>
      let ci := trunc (chunkindex_bits b) (Z.of_nat i) in
      _ ← checkoverflow ci (Z.of_nat i);
      d ← getchunkdata allchunks c;
      hd ← enum_utterances ci i (utteranceset d) 0;
      tl ← enum_chunks rest (S i);
      Ok (hd ++ tl)
  end.

(** Writing the enumeration to [randomizedframerefs[t]] and [ttochunk[t]]
    for [t = 0, 1, ...]; [ttochunk] was resized to [_totalframes]. *)
Definition write_enumeration (totalfr : Z) (framerefs : list frameref)
    (gen : list (frameref * Z)) : result (list frameref * list Z) :=
  if bool_decide (length gen ≤ length framerefs)
     && bool_decide (length gen ≤ Z.to_nat totalfr)
  then Ok (gen.*1 ++ drop (length gen) framerefs,
           gen.*2 ++ replicate (Z.to_nat totalfr - length gen) 0%Z)
  else Throw undefined_behaviour.

Definition in_window_Z (c : chunk) (ci : Z) : bool :=
  negb ((ci <? Z.of_nat (windowbegin c))%Z || (ci >=? Z.of_nat (windowend c))%Z).

Definition isframepositionvalid (rcs : list chunk) (framerefs : list frameref)
    (ttochunk : list Z) (t : nat) : result bool :=
  positionchunkindex ← at_ ttochunk t;
  c ← at_ rcs (Z.to_nat positionchunkindex);
  f ← at_ framerefs t;
  Ok ((fr_chunkindex f >=? Z.of_nat (windowbegin c))%Z
      && (fr_chunkindex f <? Z.of_nat (windowend c))%Z).

(** The "randomization retry loop" for frame position [t]; [c] is the chunk
    that position [t] lies in. *)
Fixpoint frame_swap_retry (fuel : nat) (rcs : list chunk) (ttochunk : list Z)
    (framerefs : list frameref) (r : rng) (t : nat) (c : chunk)
    (postbegin postend : nat) : result (list frameref * rng) :=
  match fuel with
  | 0 => OutOfFuel
  | S fuel' =>
      '(tswap, r') ← rand r postbegin postend;
      fswap ← at_ framerefs tswap;
      if negb (in_window_Z c (fr_chunkindex fswap))
      then frame_swap_retry fuel' rcs ttochunk framerefs r' t c postbegin postend
      else
        ft ← at_ framerefs t;
        targetchunkindex ← at_ ttochunk tswap;
        targetchunk ← at_ rcs (Z.to_nat targetchunkindex);
        if negb (in_window_Z targetchunk (fr_chunkindex ft))
        then frame_swap_retry fuel' rcs ttochunk framerefs r' t c postbegin postend
        else
          let swapped := <[tswap := ft]> (<[t := fswap]> framerefs) in
          vt ← isframepositionvalid rcs swapped ttochunk t;
          vs ← isframepositionvalid rcs swapped ttochunk tswap;
          if vt && vs then Ok (swapped, r')
          else frame_swap_retry fuel' rcs ttochunk framerefs r' t c postbegin postend
  end.

Definition frame_swap_position (fuel : nat) (sweepts : Z) (rcs : list chunk)
    (ttochunk : list Z) (framerefs : list frameref) (r : rng) (t : nat)
  : result (list frameref * rng) :=
  positionchunkindex ← at_ ttochunk t;
  c ← at_ rcs (Z.to_nat positionchunkindex);
  cb ← at_ rcs (windowbegin c);
  ce ← (if decide (windowend c = 0) then Throw undefined_behaviour
        else at_ rcs (windowend c - 1));
  te ← globalte allchunks ce;
  frame_swap_retry fuel rcs ttochunk framerefs r t c
    (Z.to_nat (sz_sub (globalts cb) sweepts)) (Z.to_nat (sz_sub te sweepts)).

Fixpoint frame_swap_positions (fuel : nat) (sweepts : Z) (rcs : list chunk)
    (ttochunk : list Z) (framerefs : list frameref) (r : rng) (t n : nat)
  : result (list frameref * rng) :=
  match n with
  | 0 => Ok (framerefs, r)
  | S n' =>
      '(framerefs', r') ← frame_swap_position fuel sweepts rcs ttochunk framerefs r t;
      frame_swap_positions fuel sweepts rcs ttochunk framerefs' r' (S t) n'
  end.

(** "check it --my head spins": the frame positions of chunk [c], in
    order from [t]. *)
Fixpoint check_frames (c : chunk) (framerefs : list frameref) (t n : nat)
  : result nat :=
  match n with
  | 0 => Ok t
  | S n' =>
      f ← at_ framerefs t;
      if negb (in_window_Z c (fr_chunkindex f)) then Throw logic_frame_randomization
      else check_frames c framerefs (S t) n'
  end.

Fixpoint check_utterances (c : chunk) (framerefs : list frameref)
    (utts : list utterancedesc) (t : nat) : result nat :=
  match utts with
  | [] => Ok t
  | u :: rest =>
      t' ← check_frames c framerefs t (Z.to_nat (utt_numframes u));
      check_utterances c framerefs rest t'
  end.

Fixpoint check_chunks (all : list chunk) (framerefs : list frameref) (t : nat)
  : result nat :=
  match all with
  | [] => Ok t
  | c :: rest =>
      d ← getchunkdata allchunks c;
      t' ← check_utterances c framerefs (utteranceset d) t;
      check_chunks rest framerefs t'
  end.

End Randomize.

(** ** The source object *)

Section Source.
Context `{CRand}.

(** The members of [minibatchutterancesource] that the embedded functions
    read or write, the state [crand_state] of the C library generator, and
    the count [iocalls] of calls made to the feature reader, the lattice
    source and the allocator so far. *)
Record source : Type := mksource {
  framemode : bool;
  latticesource : gset nat;
  allchunks : list utterancechunkdata;
  classids : list Z;
  numutterances : nat;
  _totalframes : Z;
  randomizationrange : Z;
  currentsweep : Z;
  randomizedchunks : list chunk;
  chunksinram : Z;
  randomizedutterancerefs : list utteranceref;
  randomizedutteranceposmap : gmap Z nat;
  positionchunkwindows : list nat;
  randomizedframerefs : list frameref;
  featdim : Z;
  crand_state : rng;
  iocalls : nat;
}.

Definition set_allchunks (s : source) (v : list utterancechunkdata) : source :=
  mksource (framemode s) (latticesource s) v (classids s) (numutterances s)
    (_totalframes s) (randomizationrange s) (currentsweep s) (randomizedchunks s)
    (chunksinram s) (randomizedutterancerefs s) (randomizedutteranceposmap s)
    (positionchunkwindows s) (randomizedframerefs s) (featdim s) (crand_state s)
    (iocalls s).
Definition set_currentsweep (s : source) (v : Z) : source :=
  mksource (framemode s) (latticesource s) (allchunks s) (classids s) (numutterances s)
    (_totalframes s) (randomizationrange s) v (randomizedchunks s)
    (chunksinram s) (randomizedutterancerefs s) (randomizedutteranceposmap s)
    (positionchunkwindows s) (randomizedframerefs s) (featdim s) (crand_state s)
    (iocalls s).
Definition set_randomizedchunks (s : source) (v : list chunk) : source :=
  mksource (framemode s) (latticesource s) (allchunks s) (classids s) (numutterances s)
    (_totalframes s) (randomizationrange s) (currentsweep s) v
    (chunksinram s) (randomizedutterancerefs s) (randomizedutteranceposmap s)
    (positionchunkwindows s) (randomizedframerefs s) (featdim s) (crand_state s)
    (iocalls s).
Definition set_chunksinram (s : source) (v : Z) : source :=
  mksource (framemode s) (latticesource s) (allchunks s) (classids s) (numutterances s)
    (_totalframes s) (randomizationrange s) (currentsweep s) (randomizedchunks s)
    v (randomizedutterancerefs s) (randomizedutteranceposmap s)
    (positionchunkwindows s) (randomizedframerefs s) (featdim s) (crand_state s)
    (iocalls s).
Definition set_randomizedutterancerefs (s : source) (v : list utteranceref) : source :=
  mksource (framemode s) (latticesource s) (allchunks s) (classids s) (numutterances s)
    (_totalframes s) (randomizationrange s) (currentsweep s) (randomizedchunks s)
    (chunksinram s) v (randomizedutteranceposmap s)
    (positionchunkwindows s) (randomizedframerefs s) (featdim s) (crand_state s)
    (iocalls s).
Definition set_randomizedutteranceposmap (s : source) (v : gmap Z nat) : source :=
  mksource (framemode s) (latticesource s) (allchunks s) (classids s) (numutterances s)
    (_totalframes s) (randomizationrange s) (currentsweep s) (randomizedchunks s)
    (chunksinram s) (randomizedutterancerefs s) v
    (positionchunkwindows s) (randomizedframerefs s) (featdim s) (crand_state s)
    (iocalls s).
Definition set_positionchunkwindows (s : source) (v : list nat) : source :=
  mksource (framemode s) (latticesource s) (allchunks s) (classids s) (numutterances s)
    (_totalframes s) (randomizationrange s) (currentsweep s) (randomizedchunks s)
    (chunksinram s) (randomizedutterancerefs s) (randomizedutteranceposmap s)
    v (randomizedframerefs s) (featdim s) (crand_state s)
    (iocalls s).
Definition set_randomizedframerefs (s : source) (v : list frameref) : source :=
  mksource (framemode s) (latticesource s) (allchunks s) (classids s) (numutterances s)
    (_totalframes s) (randomizationrange s) (currentsweep s) (randomizedchunks s)
    (chunksinram s) (randomizedutterancerefs s) (randomizedutteranceposmap s)
    (positionchunkwindows s) v (featdim s) (crand_state s)
    (iocalls s).
Definition set_featdim (s : source) (v : Z) : source :=
  mksource (framemode s) (latticesource s) (allchunks s) (classids s) (numutterances s)
    (_totalframes s) (randomizationrange s) (currentsweep s) (randomizedchunks s)
    (chunksinram s) (randomizedutterancerefs s) (randomizedutteranceposmap s)
    (positionchunkwindows s) (randomizedframerefs s) v (crand_state s)
    (iocalls s).
Definition set_crand_state (s : source) (v : rng) : source :=
  mksource (framemode s) (latticesource s) (allchunks s) (classids s) (numutterances s)
    (_totalframes s) (randomizationrange s) (currentsweep s) (randomizedchunks s)
    (chunksinram s) (randomizedutterancerefs s) (randomizedutteranceposmap s)
    (positionchunkwindows s) (randomizedframerefs s) (featdim s) v
    (iocalls s).
Definition set_iocalls (s : source) (v : nat) : source :=
  mksource (framemode s) (latticesource s) (allchunks s) (classids s) (numutterances s)
    (_totalframes s) (randomizationrange s) (currentsweep s) (randomizedchunks s)
    (chunksinram s) (randomizedutterancerefs s) (randomizedutteranceposmap s)
    (positionchunkwindows s) (randomizedframerefs s) (featdim s) (crand_state s)
    v.

(** Member functions run on the object and may throw after having changed
    it: a computation returns its result together with the object. *)
Definition M (A : Type) : Type := source -> result A * source.
Definition sret {A} (a : A) : M A := fun s => (Ok a, s).
Definition sbind {A B} (m : M A) (f : A -> M B) : M B :=
  fun s => match m s with
           | (Ok a, s') => f a s'
           | (Throw e, s') => (Throw e, s')
           | (OutOfFuel, s') => (OutOfFuel, s')
           end.
Definition lift {A} (r : result A) : M A := fun s => (r, s).
Definition gets {A} (f : source -> A) : M A := fun s => (Ok (f s), s).
Definition modify (f : source -> source) : M unit := fun s => (Ok (), f s).
Definition throw {A} (e : exn) : M A := fun s => (Throw e, s).

Notation "'let*' x := m 'in' k" := (sbind m (fun x => k))
  (at level 10, x pattern, m at level 100, k at level 200, only parsing).
Notation "m ;;; k" := (sbind m (fun _ => k))
  (at level 100, k at level 200, right associativity, only parsing).

Variable b : build.

(** The utterance-mode branch of [lazyrandomization]. *)
Definition randomize_utterances (fuel : nat) (sweep sweepts : Z) : M unit :=
  let* rcs := gets randomizedchunks in
  let* all := gets allchunks in
  modify (fun s => set_positionchunkwindows s []) ;;;
  let* pcw := lift (build_positionchunkwindows all rcs 0) in
  modify (fun s => set_positionchunkwindows s pcw) ;;;
  modify (fun s => set_randomizedutterancerefs s []) ;;;
  let* refs := lift (build_utterancerefs all rcs 0) in
  modify (fun s => set_randomizedutterancerefs s refs) ;;;
  modify (fun s => set_crand_state s (srand (trunc 32 (trunc 32 sweep + 1)))) ;;;
  let* r := gets crand_state in
  let* (refs1, r1) := lift (swap_positions all fuel rcs pcw refs r 0 (length refs)) in
  modify (fun s => set_crand_state (set_randomizedutterancerefs s refs1) r1) ;;;
  let* refs2 := lift (place_utterances all rcs refs1 sweepts) in
  modify (fun s => set_randomizedutterancerefs s refs2) ;;;
  lift (verify_utterances rcs pcw refs2 0) ;;;
  modify (fun s => set_randomizedutteranceposmap s (build_posmap refs2 0 ∅)).

(** The frame-mode branch of [lazyrandomization]. *)
Definition randomize_frames (fuel : nat) (sweep sweepts : Z) : M unit :=
  let* rcs := gets randomizedchunks in
  let* all := gets allchunks in
  let* total := gets _totalframes in
  modify (fun s => set_crand_state s (srand (trunc 32 (trunc 32 sweep + 1)))) ;;;
  let* framerefs := gets randomizedframerefs in
  let* gen := lift (enum_chunks all b rcs 0) in
  let* (framerefs0, ttochunk) := lift (write_enumeration total framerefs gen) in
  modify (fun s => set_randomizedframerefs s framerefs0) ;;;
  let* r := gets crand_state in
  let* (framerefs1, r1) :=
    lift (frame_swap_positions all fuel sweepts rcs ttochunk framerefs0 r 0
            (length framerefs0)) in
  modify (fun s => set_crand_state (set_randomizedframerefs s framerefs1) r1) ;;;
  let* _ := lift (check_chunks all rcs framerefs1 0) in
  sret ().

(** [lazyrandomization (globalts)]: returns the sweep. *)
Definition lazyrandomization (fuel : nat) (globalts : Z) : M Z :=
  let* total := gets _totalframes in
  if decide (total = 0%Z) then throw undefined_behaviour else
  let sweep := (globalts / total)%Z in
  let* cur := gets currentsweep in
  if decide (sweep = cur) then sret sweep else
  modify (fun s => set_currentsweep s sweep) ;;;
  let sweepts := sz_mul sweep total in
  let* all := gets allchunks in
  let* (randomizedchunkrefs, r) := lift (randomshuffle (seq 0 (length all)) sweep) in
  modify (fun s => set_crand_state s r) ;;;
  modify (fun s => set_randomizedchunks s []) ;;;
  let* rcs0 := lift (place_chunks all randomizedchunkrefs [] sweepts) in
  modify (fun s => set_randomizedchunks s rcs0) ;;;
  let* rr := gets randomizationrange in
  let* rcs := lift (compute_windows all rr rcs0) in
  modify (fun s => set_randomizedchunks s rcs) ;;;
  let* fm := gets framemode in
  (if fm then randomize_frames fuel sweep sweepts
   else randomize_utterances fuel sweep sweepts) ;;;
  sret sweep.

(** ** Paging *)

(** The outside world of the pager.  [io_fails n] tells whether the
    [n]-th call (counted from 0 over the life of the object) to the feature
    reader, the lattice source or the allocator throws; [archive_featdim]
    is the feature dimension [getinfo] reports. *)
Variable io_fails : nat -> bool.
Variable archive_featdim : Z.

Definition set_frames (d : utterancechunkdata) (m : matrix) : utterancechunkdata :=
  mkutterancechunkdata (utteranceset d) (firstframes d) m (totalframes d) (lattices d).
Definition set_lattices (d : utterancechunkdata) (l : list latticeptr)
  : utterancechunkdata :=
  mkutterancechunkdata (utteranceset d) (firstframes d) (frames d) (totalframes d) l.

(** [getutteranceframes (i)]: the stripe [(ts, n)] of [frames]. *)
Definition getutteranceframes (d : utterancechunkdata) (i : nat) : result (Z * Z) :=
  if negb (isinram d) then Throw logic_not_paged_in
  else ts ← at_ (firstframes d) i;
       n ← chunkdata_numframes d i;
       Ok (ts, n).
Definition getutterancelattice (d : utterancechunkdata) (i : nat) : result latticeptr :=
  if negb (isinram d) then Throw logic_not_paged_in
  else at_ (lattices d) i.

(** [releasedata ()]. *)
Definition releasedata (d : utterancechunkdata) : result utterancechunkdata :=
  if decide (chunkdata_numutterances d = 0) then Throw logic_virgin_block
  else if negb (isinram d) then Throw logic_not_in_memory
  else Ok (set_lattices (set_frames d (matrix_resize 0 0)) []).

(** The state [requiredata] works on: the chunk, [featdim] (passed by
    reference) and the count of outside calls. *)
Definition paging : Type := utterancechunkdata * Z * nat.

(** The [foreach_index (i, utteranceset)] loop inside the [try] block. *)
Fixpoint read_utterances (haslattices : bool) (d : utterancechunkdata) (n : nat)
    (i : nat) (todo : list utterancedesc) : result unit * (utterancechunkdata * nat) :=
  match todo with
  | [] => (Ok (), (d, n))
  | u :: rest =>
      match getutteranceframes d i with
      | Ok _ =>
          if io_fails n then (Throw io_failure, (d, S n))
          else
            let d1 := set_frames d (mkmatrix (numrows (frames d)) (numcols (frames d))
                                      (stripes (frames d) ++ [i])) in
            if haslattices then
              if io_fails (S n) then (Throw io_failure, (d1, S (S n)))
              else
                if bool_decide (i < length (lattices d1)) then
                  read_utterances haslattices
                    (set_lattices d1 (<[i := Some (utt_key u)]> (lattices d1)))
                    (S (S n)) (S i) rest
                else (Throw undefined_behaviour, (d1, S (S n)))
            else read_utterances haslattices d1 (S n) (S i) rest
      | Throw e => (Throw e, (d, n))
      | OutOfFuel => (OutOfFuel, (d, n))
      end
  end.

(** The [try] block of [requiredata]. *)
Definition requiredata_try (haslattices : bool) (p : paging) : result unit * paging :=
  let '(d, fd, n) := p in
  let getinfo :=
    if decide (fd = 0%Z)
    then (if io_fails n then (Throw io_failure, fd, S n)
          else (Ok (), archive_featdim, S n))
    else (Ok (), fd, n) in
  match getinfo with
  | (Ok _, fd1, n1) =>
      if io_fails n1 then (Throw io_failure, (d, fd1, S n1))
      else
        let d1 := set_frames d (matrix_resize fd1 (totalframes d)) in
        let d2 := if haslattices
                  then set_lattices d1
                         (take (length (utteranceset d1))
                            (lattices d1 ++ replicate (length (utteranceset d1)) None))
                  else d1 in
        let '(r, (d3, n3)) := read_utterances haslattices d2 (S n1) 0 (utteranceset d2) in
        (r, (d3, fd1, n3))
  | (r, fd1, n1) => (r, (d, fd1, n1))
  end.

(** [requiredata (featkind, featdim, sampperiod, latticesource)]: the
    [catch (...)] handler calls [releasedata ()] and rethrows; an exception
    of [releasedata] itself leaves the handler in place of the first. *)
Definition requiredata (haslattices : bool) (p : paging) : result unit * paging :=
  let '(d, fd, n) := p in
  if decide (chunkdata_numutterances d = 0) then (Throw logic_virgin_block, p)
  else if isinram d then (Throw logic_already_in_memory, p)
  else
    match requiredata_try haslattices p with
    | (Ok u, p') => (Ok u, p')
    | (r, (d', fd', n')) =>
        match releasedata d' with
        | Ok d'' => (r, (d'', fd', n'))
        | Throw e => (Throw e, (d', fd', n'))
        | OutOfFuel => (OutOfFuel, (d', fd', n'))
        end
    end.

(** Modelled from the spec: [msra::util::attempt (retries, body)] of
    basetypes.h is not part of the sources at hand.  The spec has the chunk
    read "with up to 5 retry attempts on transient I/O failure before
    propagating the error": the body runs until it succeeds, at most
    [retries] times, and the last failure is rethrown. *)
Fixpoint attempt_loop {A} (more : nat) (body : M A) : M A :=
  fun s =>
    match body s with
    | (Throw e, s') =>
        match more with
        | 0 => (Throw e, s')
        | S more' => attempt_loop more' body s'
        end
    | other => other
    end.
Definition attempt {A} (retries : nat) (body : M A) : M A :=
  attempt_loop (retries - 1) body.

(** [chunkdata.requiredata (featkind, featdim, sampperiod, this->lattices)]
    on the chunk at offset [ci] of [allchunks]. *)
Definition requiredata_at (ci : nat) : M unit :=
  fun s =>
    match allchunks s !! ci with
    | None => (Throw undefined_behaviour, s)
    | Some d =>
        let '(r, (d', fd', n')) :=
          requiredata (negb (bool_decide (latticesource s = ∅)))
            (d, featdim s, iocalls s) in
        (r, set_iocalls (set_featdim (set_allchunks s (<[ci := d']> (allchunks s))) fd') n')
    end.

(** [releaserandomizedchunk (k)]. *)
Definition releaserandomizedchunk (k : nat) : M unit :=
  let* rcs := gets randomizedchunks in
  let* c := lift (at_ rcs k) in
  let* all := gets allchunks in
  let* d := lift (getchunkdata all c) in
  if negb (isinram d) then sret ()
  else
    let* d' := lift (releasedata d) in
    modify (fun s => set_allchunks s (<[uttchunkdata c := d']> (allchunks s))) ;;;
    modify (fun s => set_chunksinram s (sz_sub (chunksinram s) 1)).

(** [requirerandomizedchunk (chunkindex, windowbegin, windowend)]. *)
Definition requirerandomizedchunk (chunkindex windowbegin windowend : nat) : M bool :=
  if bool_decide (chunkindex < windowbegin) || bool_decide (windowend ≤ chunkindex)
  then throw logic_outside_window
  else
    let* rcs := gets randomizedchunks in
    let* c := lift (at_ rcs chunkindex) in
    let* all := gets allchunks in
    let* d := lift (getchunkdata all c) in
    if isinram d then sret false
    else
      attempt 5 (requiredata_at (uttchunkdata c)) ;;;
      modify (fun s => set_chunksinram s (sz_add (chunksinram s) 1)) ;;;
      sret true.

(** ** Minibatches *)

(** Width of [CLASSIDTYPE], whose definition is not part of the sources at
    hand; [(CLASSIDTYPE) -1] is the boundary marker. *)
Variable classid_bits : Z.
Definition boundarymarker : Z := (2 ^ classid_bits - 1)%Z.

Definition issupervised (s : source) : bool :=
  negb (bool_decide (classids s = [])).

(** [getclassids (uttref)]: the class ids of the utterance, after the check
    of the boundary marker that ends them. *)
Definition getclassids (s : source) (ci ui : nat) : result (list Z) :=
  if negb (issupervised s) then Ok []
  else
    c ← at_ (randomizedchunks s) ci;
    d ← getchunkdata (allchunks s) c;
    cb ← getclassidsbegin d ui;
    n ← chunkdata_numframes d ui;
    m ← at_ (classids s) (Z.to_nat (sz_add cb n));
    if decide (m = boundarymarker) then Ok (take (Z.to_nat n) (drop (Z.to_nat cb) (classids s)))
    else Throw logic_boundary_marker.

(** "determine how many utterances will fit into the requested minibatch
    size": the [for] loop over [epos]. *)
Fixpoint extend_batch (n : nat) (refs : list utteranceref) (numutts : nat)
    (framesrequested : Z) (epos : nat) (mbframes : Z) : result (nat * Z) :=
  if bool_decide (epos < numutts) then
    u ← at_ refs epos;
    if (sz_add mbframes (numframes u) <? framesrequested)%Z then
      match n with
      | 0 => OutOfFuel
      | S n' => extend_batch n' refs numutts framesrequested (S epos)
                  (sz_add mbframes (numframes u))
      end
    else Ok (epos, mbframes)
  else Ok (epos, mbframes).

Definition batch_extent (s : source) (spos : nat) (framesrequested : Z)
  : result (nat * Z) :=
  u ← at_ (randomizedutterancerefs s) spos;
  extend_batch (numutterances s) (randomizedutterancerefs s) (numutterances s)
    framesrequested (spos + 1) (numframes u).

(** What [getbatch] hands back: the number of columns of [feat] with the
    utterances (utterance mode) or frames (frame mode) that fill them in
    column order, [uids], [latticepairs], and the return value. *)
Record batch : Type := mkbatch {
  feat_cols : Z;
  feat_utterances : list utteranceref;
  feat_frames : list frameref;
  uids : list Z;
  latticepairs : list latticeptr;
  readfromdisk : bool;
}.

Fixpoint release_all (ks : list nat) : M unit :=
  match ks with
  | [] => sret ()
  | k :: rest => releaserandomizedchunk k ;;; release_all rest
  end.

Fixpoint require_all (refs : list utteranceref) (windowbegin windowend : nat)
    (readfromdisk : bool) : M bool :=
  match refs with
  | [] => sret readfromdisk
  | u :: rest =>
      let* rd := requirerandomizedchunk (chunkindex u) windowbegin windowend in
      require_all rest windowbegin windowend (readfromdisk || rd)
  end.

(** "return these utterances": the copy-out loop over [pos]. *)
Fixpoint copy_utterances (s : source) (refs : list utteranceref)
  : result (list Z * list latticeptr) :=
  match refs with
  | [] => Ok ([], [])
  | u :: rest =>
      c ← at_ (randomizedchunks s) (chunkindex u);
      d ← getchunkdata (allchunks s) c;
      _ ← getutteranceframes d (utteranceindex u);
      ids ← getclassids s (chunkindex u) (utteranceindex u);
      lat ← (if bool_decide (latticesource s = ∅) then Ok []
             else l ← getutterancelattice d (utteranceindex u); Ok [l]);
      '(ids', lats') ← copy_utterances s rest;
      Ok (ids ++ ids', lat ++ lats')
  end.

(** [getbatch (globalts, framesrequested, feat, uids, transcripts,
    latticepairs)], the branch [if (!framemode)] ("regular utterance
    mode"). *)
Definition getbatch_utterancemode (globalts framesrequested : Z) : M batch :=
  let* posmap := gets randomizedutteranceposmap in
  match posmap !! globalts with
  | None => throw logic_invalid_globalts
  | Some spos =>
      let* s0 := gets id in
      let* (epos, mbframes) := lift (batch_extent s0 spos framesrequested) in
      let* rcs := gets randomizedchunks in
      let* pcw := gets positionchunkwindows in
      let* ks := lift (at_ pcw spos) in
      let* cs := lift (at_ rcs ks) in
      let* ke := lift (if decide (epos = 0) then Throw undefined_behaviour
                       else at_ pcw (epos - 1)) in
      let* ce := lift (at_ rcs ke) in
      let windowbegin := windowbegin cs in
      let windowend := windowend ce in
      release_all (seq 0 windowbegin) ;;;
      release_all (seq windowend (length rcs - windowend)) ;;;
      let* refs := gets randomizedutterancerefs in
      let batchrefs := take (epos - spos) (drop spos refs) in
      let* rd := require_all batchrefs windowbegin windowend false in
      let* s1 := gets id in
      let* (ids, lats) := lift (copy_utterances s1 batchrefs) in
      if issupervised s1 && negb (bool_decide (length ids = Z.to_nat mbframes))
      then throw undefined_behaviour
      else sret (mkbatch mbframes batchrefs [] ids lats rd)
  end.

(** [chunkforframepos (t)]: [std::lower_bound] with the predicate
    [chunk.globalte() <= t], on a sequence that this predicate partitions. *)
Fixpoint lower_bound_globalte (all : list utterancechunkdata) (rcs : list chunk)
    (t : Z) (i : nat) : result nat :=
  match rcs with
  | [] => Ok i
  | c :: rest =>
      te ← globalte all c;
      if (te <=? t)%Z then lower_bound_globalte all rest t (S i) else Ok i
  end.
Definition chunkforframepos (s : source) (t : Z) : result nat :=
  chunkindex ← lower_bound_globalte (allchunks s) (randomizedchunks s) t 0;
  c ← at_ (randomizedchunks s) chunkindex;
  te ← globalte (allchunks s) c;
  if (t <? globalts c)%Z || (t >=? te)%Z then Throw logic_chunkforframepos
  else Ok chunkindex.

Fixpoint require_range (ks : list nat) (windowbegin windowend : nat)
    (readfromdisk : bool) : M bool :=
  match ks with
  | [] => sret readfromdisk
  | k :: rest =>
      let* rd := requirerandomizedchunk k windowbegin windowend in
      require_range rest windowbegin windowend (readfromdisk || rd)
  end.

(** "return randomized frames": the loop over [j < mbframes]. *)
Fixpoint copy_frames (globalts : Z) (windowbegin windowend : nat) (j n : nat)
    (readfromdisk : bool) : M (list frameref * list Z * bool) :=
  match n with
  | 0 => sret ([], [], readfromdisk)
  | S n' =>
      let* total := gets _totalframes in
      let framepos := (sz_add globalts (Z.of_nat j) mod total)%Z in
      let* framerefs := gets randomizedframerefs in
      let* f := lift (at_ framerefs (Z.to_nat framepos)) in
      let ci := Z.to_nat (fr_chunkindex f) in
      let ui := Z.to_nat (fr_utteranceindex f) in
      let* rd := requirerandomizedchunk ci windowbegin windowend in
      let* s := gets id in
      let* c := lift (at_ (randomizedchunks s) ci) in
      let* d := lift (getchunkdata (allchunks s) c) in
      let* _ := lift (getutteranceframes d ui) in
      let* uid :=
        (if issupervised s then
           let* ids := lift (getclassids s ci ui) in
           match ids !! Z.to_nat (fr_frameindex f) with
           | Some x => sret [x]
           | None => throw logic_shiftedvector
           end
         else sret []) in
      let* (p, rd') := copy_frames globalts windowbegin windowend (S j) n'
                         (readfromdisk || rd) in
      sret (f :: p.1, uid ++ p.2, rd')
  end.

(** [getbatch], the branch for frame mode. *)
Definition getbatch_framemode (sweep globalts framesrequested : Z) : M batch :=
  let* total := gets _totalframes in
  let sweepts := sz_mul sweep total in
  let sweepte := sz_add sweepts total in
  let globalte := Z.min (sz_add globalts framesrequested) sweepte in
  let mbframes := sz_sub globalte globalts in
  let* s0 := gets id in
  let* firstchunk := lift (chunkforframepos s0 globalts) in
  let* lastchunk := lift (chunkforframepos s0 (sz_sub globalte 1)) in
  let* rcs := gets randomizedchunks in
  let* cf := lift (at_ rcs firstchunk) in
  let* cl := lift (at_ rcs lastchunk) in
  let windowbegin := windowbegin cf in
  let windowend := windowend cl in
  release_all (seq 0 windowbegin) ;;;
  let* rd := require_range (seq windowbegin (windowend - windowbegin))
               windowbegin windowend false in
  release_all (seq windowend (length rcs - windowend)) ;;;
  let* (p, rd') := copy_frames globalts windowbegin windowend 0 (Z.to_nat mbframes) rd in
  sret (mkbatch mbframes [] p.1 p.2 [] rd').

Definition getbatch (fuel : nat) (globalts framesrequested : Z) : M batch :=
  let* sweep := lazyrandomization fuel globalts in
  let* fm := gets framemode in
  if fm then getbatch_framemode sweep globalts framesrequested
  else getbatch_utterancemode globalts framesrequested.

(** [firstvalidglobalts (globalts)]. *)
Fixpoint first_at_or_after (refs : list utteranceref) (globalts : Z) : option Z :=
  match refs with
  | [] => None
  | u :: rest =>
      if (ref_globalts u >=? globalts)%Z then Some (ref_globalts u)
      else first_at_or_after rest globalts
  end.

Definition firstvalidglobalts (fuel : nat) (globalts : Z) : M Z :=
  let* sweep := lazyrandomization fuel globalts in
  let* fm := gets framemode in
  if fm then sret globalts
  else
    let* refs := gets randomizedutterancerefs in
    match first_at_or_after refs globalts with
    | Some ts => sret ts
    | None =>
        match last refs with
        | Some u => sret (ref_globalte u)
        | None => throw undefined_behaviour
        end
    end.

(** ** Construction *)

(** An entry of [infiles] after [parsedpath]: its key and, when the path
    gives frame bounds, its number of frames. *)
Record infile : Type := mkinfile {
  file_key : nat;
  file_numframes : option Z;
}.

(** [msra::asr::htkmlfentry]. *)
Record htkmlfentry : Type := mkhtkmlfentry {
  firstframe : Z;
  entry_numframes : Z;
  classid : Z;
}.

(** The messages written to [stderr] while the files are scanned. *)
Inductive diag : Type :=
  | skipping_too_long (i : nat) (uttframes : Z)
  | no_labels_for (key : nat)
  | no_lattice_for (key : nat)
  | duration_mismatch (labframes uttframes : Z) (key : nat).

(** The locals and members the scan of [infiles] updates. *)
Record scan : Type := mkscan {
  scan_utteranceset : list utterancedesc;
  scan_classids : list Z;
  scan_counts : list Z;
  scan_totalframes : Z;
  nomlf : Z;
  nolat : Z;
  numclasses : Z;
  diags : list diag;
}.

Definition scan_log (st : scan) (d : list diag) : scan :=
  mkscan (scan_utteranceset st) (scan_classids st) (scan_counts st)
    (scan_totalframes st) (nomlf st) (nolat st) (numclasses st) (diags st ++ d).

(** "expand classid sequence into flat array": [foreach_index (i, labseq)]. *)
Fixpoint expand_labels (udim : Z) (prev : option htkmlfentry)
    (labseq : list htkmlfentry) (cids counts : list Z) (ncl : Z)
  : result (list Z * list Z * Z) :=
  match labseq with
  | [] => Ok (cids, counts, ncl)
  | e :: rest =>
      let expected := match prev with
                      | Some p => (firstframe p + entry_numframes p)%Z
                      | None => 0%Z
                      end in
      if negb (expected =? firstframe e)%Z then Throw runtime_labels_not_consecutive
      else if (classid e >=? udim)%Z then Throw runtime_classid_exceeds_udim
      else if negb (classid e =? trunc classid_bits (classid e))%Z
           then Throw runtime_classidtype_bits
      else
        let cids' := cids ++ replicate (Z.to_nat (entry_numframes e))
                               (trunc classid_bits (classid e)) in
        let ncl' := Z.max ncl (1 + classid e) in
        let resized := take (Z.to_nat ncl') (counts ++ replicate (Z.to_nat ncl') 0%Z) in
        c ← at_ resized (Z.to_nat (classid e));
        expand_labels udim (Some e) rest cids'
          (<[Z.to_nat (classid e) := sz_add c (entry_numframes e)]> resized) ncl'
  end.

(** Body of [foreach_index (i, infiles)]. *)
Definition scan_file (labels : gmap nat (list htkmlfentry)) (lats : gset nat)
    (udim : Z) (i : nat) (f : infile) (st : scan) : result scan :=
  let unsupervised := bool_decide (labels = ∅) in
  let cb := if unsupervised then 0%Z else Z.of_nat (length (scan_classids st)) in
  match file_numframes f with
  | None => Throw runtime_no_frame_bounds
  | Some uttframes =>
      if (uttframes <? 2)%Z then Throw runtime_short_utterance
      else if (uttframes >? maxframesperutterance b)%Z
           then Ok (scan_log st [skipping_too_long i uttframes])
      else
        let key := file_key f in
        let lacksmlf := negb unsupervised && bool_decide (labels !! key = None) in
        let lackslat := negb unsupervised && negb (bool_decide (lats = ∅))
                        && negb (bool_decide (key ∈ lats)) in
        let st1 :=
          mkscan (scan_utteranceset st) (scan_classids st) (scan_counts st)
            (scan_totalframes st)
            (if lacksmlf then sz_add (nomlf st) 1 else nomlf st)
            (if lackslat then sz_add (nolat st) 1 else nolat st)
            (numclasses st)
            (diags st
             ++ (if lacksmlf && (nomlf st <? 5)%Z then [no_labels_for key] else [])
             ++ (if lackslat && (nolat st <? 5)%Z then [no_lattice_for key] else [])) in
        if lacksmlf || lackslat then Ok st1
        else
          let labseq := if unsupervised then None else labels !! key in
          let push (cids counts : list Z) (ncl : Z) :=
            let us := scan_utteranceset st1 ++ [mkutterancedesc key uttframes cb] in
            let total := sz_add (scan_totalframes st1) uttframes in
            if negb unsupervised
               && negb (Z.of_nat (length cids) =? sz_add total (Z.of_nat (length us)))%Z
            then Throw logic_label_duration
            else Ok (mkscan us cids counts total (nomlf st1) (nolat st1) ncl (diags st1)) in
          match labseq with
          | None => push (scan_classids st1) (scan_counts st1) (numclasses st1)
          | Some labseq =>
              let labframes := match last labseq with
                               | None => 0%Z
                               | Some e => (firstframe e + entry_numframes e)%Z
                               end in
              if negb (labframes =? uttframes)%Z
              then Ok (mkscan (scan_utteranceset st1) (scan_classids st1)
                         (scan_counts st1) (scan_totalframes st1)
                         (sz_add (nomlf st1) 1) (nolat st1) (numclasses st1)
                         (diags st1 ++ [duration_mismatch labframes uttframes key]))
              else
                '(cids, counts, ncl) ← expand_labels udim None labseq
                                         (scan_classids st1) (scan_counts st1)
                                         (numclasses st1);
                push (cids ++ [boundarymarker]) counts ncl
          end
  end.

Fixpoint scan_files (labels : gmap nat (list htkmlfentry)) (lats : gset nat)
    (udim : Z) (i : nat) (fs : list infile) (st : scan) : result scan :=
  match fs with
  | [] => Ok st
  | f :: rest =>
      st' ← scan_file labels lats udim i f st;
      scan_files labels lats udim (S i) rest st'
  end.

(** The check of the boundary markers after the scan. *)
Fixpoint check_markers (cids : list Z) (us : list utterancedesc) : result unit :=
  match us with
  | [] => Ok ()
  | u :: rest =>
      m ← at_ cids (Z.to_nat (sz_add (classidsbegin u) (utt_numframes u)));
      if decide (m = boundarymarker) then check_markers cids rest
      else Throw logic_classids_out_of_sync
  end.

(** "distribute them over chunks": [chunkframes = 15 * 60 * framespersec]. *)
Definition chunkframes : Z := 15 * 60 * 100.

Fixpoint distribute (us : list utterancedesc) (all : list utterancechunkdata)
  : result (list utterancechunkdata) :=
  match us with
  | [] => Ok all
  | u :: rest =>
      let all1 :=
        match last all with
        | None => all ++ [empty_chunkdata]
        | Some back =>
            if (totalframes back >? chunkframes)%Z
               || (Z.of_nat (chunkdata_numutterances back) >=? maxutterancesperchunk b)%Z
            then all ++ [empty_chunkdata]
            else all
        end in
      match last all1 with
      | None => Throw undefined_behaviour
      | Some currentchunk =>
          c ← chunkdata_push_back currentchunk u;
          distribute rest (<[length all1 - 1 := c]> all1)
      end
  end.

(** The constructor; [r0] is the state of the C library generator at that
    moment.  It returns the object and the diagnostics. *)
Definition construct (infiles : list infile) (labels : gmap nat (list htkmlfentry))
    (udim : Z) (randomizationrange : Z) (lats : gset nat) (framemode : bool)
    (r0 : rng) : result (source * list diag) :=
  st ← scan_files labels lats udim 0 infiles (mkscan [] [] [] 0 0 0 0 []);
  _ ← (if bool_decide (labels = ∅) then Ok ()
       else check_markers (scan_classids st) (scan_utteranceset st));
  if (sz_add (nomlf st) (nolat st) >? 0)%Z
     && (sz_add (nomlf st) (nolat st) >? Z.of_nat (length infiles) / 2)%Z
  then Throw runtime_too_many_missing
  else
    all ← distribute (scan_utteranceset st) [];
    Ok (mksource framemode lats all (scan_classids st)
          (length (scan_utteranceset st)) (scan_totalframes st) randomizationrange
          SIZE_MAX [] 0 [] ∅ []
          (if framemode then replicate (Z.to_nat (scan_totalframes st)) (mkframeref 0 0 0)
           else [])
          0 r0 0,
        diags st).

End Source.

(** * Specification *)

(** ** The timeline of the randomized chunks *)

(** The fields of a randomized chunk other than its window. *)
Definition base (c : chunk) : nat * nat * Z :=
  (uttchunkdata c, utteranceposbegin c, globalts c).

Section Timeline.
Variable all : list utterancechunkdata.

(** Start, length and end of randomized chunk [i] on the global timeline,
    as exact integers. *)
Definition start_of (rcs : list chunk) (i : nat) : Z :=
  from_option globalts 0%Z (rcs !! i).
Definition frames_of (rcs : list chunk) (i : nat) : Z :=
  from_option (fun c => from_option totalframes 0%Z (all !! uttchunkdata c)) 0%Z (rcs !! i).
Definition end_of (rcs : list chunk) (i : nat) : Z :=
  (start_of rcs i + frames_of rcs i)%Z.

(** The chunks lie end to end and the timeline fits [size_t]. *)
Record timeline (rcs : list chunk) : Prop := {
  tl_data : forall i c, rcs !! i = Some c -> is_Some (all !! uttchunkdata c);
  tl_start : forall i, i < length rcs -> (0 <= start_of rcs i)%Z;
  tl_frames : forall i, i < length rcs -> (0 <= frames_of rcs i)%Z;
  tl_fits : forall i, i < length rcs -> (end_of rcs i < SIZE_MOD)%Z;
  tl_next : forall i, S i < length rcs -> start_of rcs (S i) = end_of rcs i;
}.

(** Every chunk is shorter than half the randomization range. *)
Definition chunks_below (half : Z) (rcs : list chunk) : Prop :=
  forall i, i < length rcs -> (frames_of rcs i < half)%Z.

(** What the window of chunk [j] satisfies once it is computed. *)
Record window_ok (half : Z) (rcs : list chunk) (j : nat) (c : chunk) : Prop := {
  wok_begin : windowbegin c <= j;
  wok_end : j < windowend c;
  wok_end_len : windowend c <= length rcs;
  wok_left : (start_of rcs j - start_of rcs (windowbegin c) <= half)%Z;
  wok_right : forall i, j <= i < windowend c -> (end_of rcs i - start_of rcs j < half)%Z;
  wok_mono : forall j' p, j = S j' -> rcs !! j' = Some p ->
             windowbegin p <= windowbegin c /\ windowend p <= windowend c;
}.

Definition windows_upto (half : Z) (rcs : list chunk) (k : nat) : Prop :=
  forall j c, j < k -> rcs !! j = Some c -> window_ok half rcs j c.

(** Frames of the chunk at offset [r] of [allchunks], and of a sequence of
    such chunks. *)
Definition chunkframes_at (r : nat) : Z :=
  from_option totalframes 0%Z (all !! r).
Definition sum_frames (refs : list nat) : Z :=
  foldr Z.add 0%Z (chunkframes_at <$> refs).

End Timeline.

(** ** Positions and the chunks that define them *)

(** The randomized chunks are laid out in order, chunk [k] with [sizes !! k]
    positions; [owner sizes i] is the chunk that position [i] falls in: the
    defining chunk of the position. *)
Fixpoint owner (sizes : list nat) (i : nat) : option nat :=
  match sizes with
  | [] => None
  | n :: rest => if bool_decide (i < n) then Some 0 else S <$> owner rest (i - n)
  end.

Section Positions.
Variable all : list utterancechunkdata.

(** Utterance positions and frame positions per randomized chunk. *)
Definition utterance_sizes (rcs : list chunk) : list nat :=
  (fun c => from_option chunkdata_numutterances 0 (all !! uttchunkdata c)) <$> rcs.
Definition frames_in (utts : list utterancedesc) : nat :=
  sum_list ((fun u => Z.to_nat (utt_numframes u)) <$> utts).
Definition frame_sizes (rcs : list chunk) : list nat :=
  (fun c => from_option (fun d => frames_in (utteranceset d)) 0
              (all !! uttchunkdata c)) <$> rcs.

(** The utterance at position [i] lives in a chunk of the window of the
    defining chunk of [i]. *)
Definition utterance_in_window (rcs : list chunk) (i : nat) (u : utteranceref) : Prop :=
  exists k c, owner (utterance_sizes rcs) i = Some k /\ rcs !! k = Some c /\
              windowbegin c <= chunkindex u < windowend c.

(** The same for the frame at frame position [t]. *)
Definition frame_in_window (rcs : list chunk) (t : nat) (f : frameref) : Prop :=
  exists k c, owner (frame_sizes rcs) t = Some k /\ rcs !! k = Some c /\
              (Z.of_nat (windowbegin c) <= fr_chunkindex f < Z.of_nat (windowend c))%Z.
End Positions.

(** Validity with the defining chunks as the source tabulates them:
    [positionchunkwindows] and [ttochunk]. *)
Definition valid_utterances (rcs : list chunk) (pcw : list nat)
    (refs : list utteranceref) : Prop :=
  forall i u k c, refs !! i = Some u -> pcw !! i = Some k -> rcs !! k = Some c ->
    window_contains c (chunkindex u) = true.
Definition valid_frames (rcs : list chunk) (ttochunk : list Z)
    (framerefs : list frameref) : Prop :=
  forall t f k c, framerefs !! t = Some f -> ttochunk !! t = Some k ->
    rcs !! Z.to_nat k = Some c -> in_window_Z c (fr_chunkindex f) = true.

(** ** The cache of a chunk *)

(** Nothing of the chunk is in memory: the frame matrix is empty, no stripe
    of it has been read into, and no lattice is held. *)
Definition cache_released (d : utterancechunkdata) : Prop :=
  isinram d = false /\ stripes (frames d) = [] /\ Forall (eq None) (lattices d).

Section Attempts.
Context `{CRand}.

(** [failed_runs body k s s']: [body] was run [k] times in a row from [s],
    threw each time, and left [s']. *)
Inductive failed_runs {A} (body : M A) : nat -> source -> source -> Prop :=
  | failed_runs_0 s : failed_runs body 0 s s
  | failed_runs_S k s e s1 s2 :
      body s = (Throw e, s1) -> failed_runs body k s1 s2 ->
      failed_runs body (S k) s s2.
End Attempts.

(** The chunk after the resizes of the [try] block. *)
Definition resized (haslat : bool) (d : utterancechunkdata) (fd : Z)
  : utterancechunkdata :=
  let d1 := set_frames d (matrix_resize fd (totalframes d)) in
  if haslat
  then set_lattices d1
         (take (length (utteranceset d1))
            (lattices d1 ++ replicate (length (utteranceset d1)) None))
  else d1.

(** ** Batches *)

(** Frames of a run of utterance references, and the references at the
    positions [[spos, epos)]. *)
Definition sum_numframes (l : list utteranceref) : Z :=
  foldr Z.add 0%Z (numframes <$> l).
Definition positions_between (refs : list utteranceref) (spos epos : nat)
  : list utteranceref :=
  take (epos - spos) (drop spos refs).

(** No utterance has a negative length and the frames of a sweep can be
    counted in a [size_t]. *)
Definition frames_fit (refs : list utteranceref) : Prop :=
  (forall u, u ∈ refs -> (0 <= numframes u)%Z) /\
  (sum_numframes refs < SIZE_MOD)%Z.

(** ** Paging leaves the randomization alone *)

Section PagingSpec.
Context `{CRand}.

(** The descriptor part of a chunk: everything but its cache. *)
Definition descriptor (d : utterancechunkdata) : list utterancedesc * list Z * Z :=
  (utteranceset d, firstframes d, totalframes d).

(** [s'] differs from [s] at most in what paging touches: the caches of
    the chunks, [chunksinram], [featdim] and the count of outside calls. *)
Record paging_only (s s' : source) : Prop := {
  po_framemode : framemode s' = framemode s;
  po_latticesource : latticesource s' = latticesource s;
  po_descriptors : descriptor <$> allchunks s' = descriptor <$> allchunks s;
  po_classids : classids s' = classids s;
  po_numutterances : numutterances s' = numutterances s;
  po_totalframes : _totalframes s' = _totalframes s;
  po_randomizationrange : randomizationrange s' = randomizationrange s;
  po_currentsweep : currentsweep s' = currentsweep s;
  po_randomizedchunks : randomizedchunks s' = randomizedchunks s;
  po_randomizedutterancerefs : randomizedutterancerefs s' = randomizedutterancerefs s;
  po_randomizedutteranceposmap :
    randomizedutteranceposmap s' = randomizedutteranceposmap s;
  po_positionchunkwindows : positionchunkwindows s' = positionchunkwindows s;
  po_randomizedframerefs : randomizedframerefs s' = randomizedframerefs s;
  po_crand_state : crand_state s' = crand_state s;
}.

Definition preserves {A} (R : source -> source -> Prop) (m : M A) : Prop :=
  forall s r s', m s = (r, s') -> R s s'.

End PagingSpec.

(** ** The cached randomization *)

Section CacheSpec.
Context `{CRand}.
(** The lookup table is the one built from the utterance references. *)
Definition posmap_consistent (s : source) : Prop :=
  randomizedutteranceposmap s = build_posmap (randomizedutterancerefs s) 0 ∅.
End CacheSpec.


(** Utterances placed end to end from [t] on, in [size_t] arithmetic. *)
Fixpoint chained (t : Z) (refs : list utteranceref) : Prop :=
  match refs with
  | [] => True
  | u :: rest => ref_globalts u = t /\ chained (ref_globalte u) rest
  end.

(** Every utterance of the sweep ends within [size_t]. *)
Definition sweep_fits (refs : list utteranceref) : Prop :=
  forall u, u ∈ refs ->
    (0 <= numframes u)%Z /\ (0 <= ref_globalts u)%Z /\
    (ref_globalts u + numframes u < SIZE_MOD)%Z.
Definition sweep_fitsb (refs : list utteranceref) : bool :=
  forallb (fun u => (0 <=? numframes u)%Z && (0 <=? ref_globalts u)%Z
                    && (ref_globalts u + numframes u <? SIZE_MOD)%Z) refs.

Section CacheSpec2.
Context `{CRand}.
Definition utterances_placed (s : source) : Prop :=
  exists t, chained t (randomizedutterancerefs s).

(** [s'] has the corpus, the paging state and the mode of [s]: only the
    cached randomization and the generator may differ. *)
Record randomization_only (s s' : source) : Prop := {
  ro_framemode : framemode s' = framemode s;
  ro_latticesource : latticesource s' = latticesource s;
  ro_allchunks : allchunks s' = allchunks s;
  ro_classids : classids s' = classids s;
  ro_numutterances : numutterances s' = numutterances s;
  ro_totalframes : _totalframes s' = _totalframes s;
  ro_randomizationrange : randomizationrange s' = randomizationrange s;
  ro_chunksinram : chunksinram s' = chunksinram s;
  ro_featdim : featdim s' = featdim s;
  ro_iocalls : iocalls s' = iocalls s;
}.
End CacheSpec2.

(** A decidable form of [frames_fit]. *)
Definition frames_fitb (refs : list utteranceref) : bool :=
  forallb (fun u => (0 <=? numframes u)%Z) refs && (sum_numframes refs <? SIZE_MOD)%Z.

(** ** Concrete generators and corpora *)

(** Two generators on a counter of draws.  [counting] restarts at 0
    whatever the seed, and its [n]-th draw from a range of width [w] is
    [begin + n mod w]; [stride] restarts at the seed and draws
    [begin + (7 n + 1) mod w]. *)
Program Definition counting : CRand := {|
  rng := nat;
  srand seed := 0;
  dbn_rand r b e := (b + r mod (e - b), S r);
  RAND_MAX := 32767;
|}.
Next Obligation.
  intros r b e Hlt. cbn [fst].
  assert (e - b <> 0) as Hw by lia.
  pose proof (Nat.mod_upper_bound r (e - b) Hw). lia.
Qed.

Program Definition stride : CRand := {|
  rng := nat;
  srand seed := Z.to_nat seed;
  dbn_rand r b e := (b + (7 * r + 1) mod (e - b), S r);
  RAND_MAX := 32767;
|}.
Next Obligation.
  intros r b e Hlt. cbn [fst].
  assert (e - b <> 0) as Hw by lia.
  pose proof (Nat.mod_upper_bound (7 * r + 1) (e - b) Hw). lia.
Qed.

(** The corpus of the scenarios: three utterances of 100, 150 and 80
    frames, which form one chunk. *)
Definition scenario_files : list infile :=
  [mkinfile 1 (Some 100%Z); mkinfile 2 (Some 150%Z); mkinfile 3 (Some 80%Z)].

(** Three utterances of 50000 frames: the first two fill a chunk of 100000
    frames, the third starts a second chunk. *)
Definition long_files : list infile :=
  [mkinfile 1 (Some 50000%Z); mkinfile 2 (Some 50000%Z); mkinfile 3 (Some 50000%Z)].

(** The chunk and the object that the constructor builds from
    [scenario_files] (no labels, no lattices, utterance mode, a
    randomization range of 1000000 frames). *)
Definition scenario_chunk : utterancechunkdata :=
  mkutterancechunkdata
    [mkutterancedesc 1 100 0; mkutterancedesc 2 150 0; mkutterancedesc 3 80 0]
    [0; 100; 250]%Z (mkmatrix 0 0 []) 330 [].
Definition scenario_source `{CRand} (r0 : rng) : source :=
  mksource false ∅ [scenario_chunk] [] 3 330 1000000 SIZE_MAX [] 0 [] ∅ [] [] 0 r0 0.

(** The chunks and the object that the constructor builds from
    [long_files] in utterance mode with randomization range [rr]. *)
Definition long_chunks : list utterancechunkdata :=
  [mkutterancechunkdata [mkutterancedesc 1 50000 0; mkutterancedesc 2 50000 0]
     [0; 50000]%Z (mkmatrix 0 0 []) 100000 [];
   mkutterancechunkdata [mkutterancedesc 3 50000 0] [0%Z] (mkmatrix 0 0 []) 50000 []].
Definition long_source `{CRand} (rr : Z) (r0 : rng) : source :=
  mksource false ∅ long_chunks [] 3 150000 rr SIZE_MAX [] 0 [] ∅ [] [] 0 r0 0.

(** Two small chunks, of 5 frames in utterances of 2 and 3 and of 2
    frames in one utterance, and an object over them as the constructor
    leaves it (in frame mode with [randomizedframerefs] resized to the 7
    frames). *)
Definition tiny_chunks : list utterancechunkdata :=
  [mkutterancechunkdata [mkutterancedesc 1 2 0; mkutterancedesc 2 3 0] [0; 2]%Z
     (mkmatrix 0 0 []) 5 [];
   mkutterancechunkdata [mkutterancedesc 3 2 0] [0%Z] (mkmatrix 0 0 []) 2 []].
Definition tiny_source `{CRand} (fm : bool) (rr : Z) (r0 : rng) : source :=
  mksource fm ∅ tiny_chunks [] 3 7 rr SIZE_MAX [] 0 [] ∅ []
    (if fm then replicate 7 (mkframeref 0 0 0) else []) 0 r0 0.

(** Running a member function on the object that the constructor returns
    (unsupervised, no lattices, utterance mode unless [fm]). *)
Definition on_corpus `{CRand} {A} (files : list infile) (rr : Z) (fm : bool)
    (r0 : rng) (m : M A) : option (result A * source) :=
  match construct WIN64 16 files ∅ 0 rr ∅ fm r0 with
  | Ok (s, _) => Some (m s)
  | _ => None
  end.

(** ** Rebuilding the randomization *)

(** The frames of a chunk and of the corpus, counted over the utterance
    descriptors. *)
Definition chunk_frames (d : utterancechunkdata) : nat :=
  sum_list_with (fun u => Z.to_nat (utt_numframes u)) (utteranceset d).
Definition corpus_frames (all : list utterancechunkdata) : nat :=
  sum_list_with chunk_frames all.

(** The frames of a list of utterances. *)
Definition utterance_frames (us : list utterancedesc) : nat :=
  sum_list_with (fun u => Z.to_nat (utt_numframes u)) us.

Section Rebuild.
Context `{CRand}.

(** In frame mode [randomizedframerefs] has one entry per frame of the
    corpus: the constructor resizes it to [_totalframes]. *)
Definition frame_array_sized (s : source) : Prop :=
  framemode s = true -> length (randomizedframerefs s) = corpus_frames (allchunks s).

(** Two objects over the same corpus, with the same mode and the same
    randomization range.  The caches of the chunks, the cached
    randomization, [currentsweep] and the state of the generator are
    free. *)
Record same_inputs (s1 s2 : source) : Prop := {
  si_framemode : framemode s1 = framemode s2;
  si_descriptors : descriptor <$> allchunks s1 = descriptor <$> allchunks s2;
  si_totalframes : _totalframes s1 = _totalframes s2;
  si_randomizationrange : randomizationrange s1 = randomizationrange s2;
}.

(** What a rebuild computes: the randomized chunks with their windows, and
    the frame references (frame mode) or the position windows, the
    utterance references and the position map (utterance mode). *)
Definition randomization (s : source)
  : list chunk * (list frameref + list nat * list utteranceref * gmap Z nat) :=
  (randomizedchunks s,
   if framemode s then inl (randomizedframerefs s)
   else inr (positionchunkwindows s, randomizedutterancerefs s,
             randomizedutteranceposmap s)).
End Rebuild.

(** [tiny_chunks] with the first chunk paged in. *)
Definition tiny_chunks_paged : list utterancechunkdata :=
  [mkutterancechunkdata [mkutterancedesc 1 2 0; mkutterancedesc 2 3 0] [0; 2]%Z
     (mkmatrix 4 5 [0; 1]) 5 [];
   mkutterancechunkdata [mkutterancedesc 3 2 0] [0%Z] (mkmatrix 0 0 []) 2 []].

(** ** The scan of the input files *)

(** What the scan has collected, without the messages. *)
Definition corpus_of (st : scan)
  : list utterancedesc * list Z * list Z * Z * Z * Z * Z :=
  (scan_utteranceset st, scan_classids st, scan_counts st, scan_totalframes st,
   nomlf st, nolat st, numclasses st).

(** Two results agree up to the messages. *)
Definition same_corpus (r r' : result scan) : Prop :=
  match r, r' with
  | Ok st, Ok st' => corpus_of st = corpus_of st'
  | Throw e, Throw e' => e = e'
  | OutOfFuel, OutOfFuel => True
  | _, _ => False
  end.

(** The frame counts that a [frameref] can address. *)
Definition addressable (b : build) (u : utterancedesc) : Prop :=
  (2 <= utt_numframes u <= maxframesperutterance b)%Z.

(** A file list with one file of 70000 frames among [scenario_files]. *)
Definition oversized_file : infile := mkinfile 9 (Some 70000%Z).

(** ** What a sweep enumerates *)

(** The utterances of the corpus, each named by the offset of its chunk in
    [allchunks] and its index in the chunk. *)
Definition utterances_at (all : list utterancechunkdata) (r : nat) : list (nat * nat) :=
  pair r <$> seq 0 (from_option chunkdata_numutterances 0 (all !! r)).
Definition corpus_utterances (all : list utterancechunkdata) : list (nat * nat) :=
  seq 0 (length all) ≫= utterances_at all.

(** The utterance of the corpus that an utterance reference stands for. *)
Definition underlying (rcs : list chunk) (u : utteranceref) : nat * nat :=
  (from_option uttchunkdata 0 (rcs !! chunkindex u), utteranceindex u).

Definition ref_key (u : utteranceref) : nat * nat := (chunkindex u, utteranceindex u).

(** The frames of the corpus, each named by the offset of its chunk, the
    index of its utterance in the chunk and its index in the utterance. *)
Definition utterance_frame_ids (r j : nat) (u : utterancedesc) : list (nat * nat * nat) :=
  (fun m => (r, j, m)) <$> seq 0 (Z.to_nat (utt_numframes u)).
Definition frames_at (all : list utterancechunkdata) (r : nat) : list (nat * nat * nat) :=
  from_option (fun d => concat (imap (utterance_frame_ids r) (utteranceset d))) []
    (all !! r).
Definition corpus_frame_ids (all : list utterancechunkdata) : list (nat * nat * nat) :=
  seq 0 (length all) ≫= frames_at all.

(** The frame of the corpus that a frame reference stands for. *)
Definition underlying_frame (rcs : list chunk) (f : frameref) : nat * nat * nat :=
  (from_option uttchunkdata 0 (rcs !! Z.to_nat (fr_chunkindex f)),
   Z.to_nat (fr_utteranceindex f), Z.to_nat (fr_frameindex f)).

(** ** The sizes of the corpus *)

Definition sumZ (l : list Z) : Z := foldr Z.add 0%Z l.
Arguments sumZ : simpl never.

(** Utterances of the chunk at offset [r] of [allchunks]. *)
Definition numutts_at (all : list utterancechunkdata) (r : nat) : nat :=
  from_option chunkdata_numutterances 0 (all !! r).

Section Consistent.
Context `{CRand}.
(** The counters of the object agree with its chunks, and the counter of
    each chunk with its utterances, as [size_t] sums. *)
Record corpus_consistent (s : source) : Prop := {
  cc_numutterances :
    numutterances s = sum_list_with chunkdata_numutterances (allchunks s);
  cc_totalframes : _totalframes s = wrap (sumZ (totalframes <$> allchunks s));
  cc_chunks : Forall (fun d => totalframes d = wrap (sumZ (utt_numframes <$> utteranceset d)))
                (allchunks s);
}.
End Consistent.

(** Frames of the utterance of the corpus named by [p]. *)
Definition utterance_frames_at (all : list utterancechunkdata) (p : nat * nat) : Z :=
  from_option utt_numframes 0%Z (all !! p.1 ≫= fun d => utteranceset d !! p.2).

(** Where chunk [k] of a randomized sequence lies: after the utterances
    and the frames of the chunks before it. *)
Definition placed_at (all : list utterancechunkdata) (sweepts : Z) (rcs : list chunk)
    (k : nat) (c : chunk) : Prop :=
  utteranceposbegin c = sum_list_with (numutts_at all) (take k (uttchunkdata <$> rcs)) /\
  globalts c = wrap (sweepts + sum_frames all (take k (uttchunkdata <$> rcs))).

(** ** The chunks that the constructor builds *)

(** The first frames of utterances laid end to end from [acc]. *)
Fixpoint prefix_sums (acc : Z) (l : list Z) : list Z :=
  match l with
  | [] => []
  | x :: l' => acc :: prefix_sums (acc + x) l'
  end.

(** A chunk as the constructor leaves it: utterances that a [frameref] can
    address, no more of them than [maxutterancesperchunk], exact frame
    counters, at most one utterance beyond the target size, nothing in
    memory. *)
Record chunk_ok (b : build) (d : utterancechunkdata) : Prop := {
  ck_nonempty : utteranceset d <> [];
  ck_addressable : Forall (addressable b) (utteranceset d);
  ck_capacity : (Z.of_nat (chunkdata_numutterances d) <= maxutterancesperchunk b)%Z;
  ck_totalframes : totalframes d = sumZ (utt_numframes <$> utteranceset d);
  ck_firstframes : firstframes d = prefix_sums 0 (utt_numframes <$> utteranceset d);
  ck_bound : (totalframes d <= chunkframes + maxframesperutterance b)%Z;
  ck_frames : frames d = mkmatrix 0 0 [];
  ck_lattices : lattices d = [];
}.

(** The test that makes the constructor start a new chunk. *)
Definition chunk_full (b : build) (d : utterancechunkdata) : bool :=
  (totalframes d >? chunkframes)%Z
  || (Z.of_nat (chunkdata_numutterances d) >=? maxutterancesperchunk b)%Z.

(** Every chunk is well formed and every chunk but the last is full. *)
Definition chunks_ok (b : build) (all : list utterancechunkdata) : Prop :=
  Forall (chunk_ok b) all /\
  forall i d, all !! i = Some d -> S i < length all -> chunk_full b d = true.

(** ** The files that the constructor reads *)

(** A file that the constructor accepts: its path gives frame bounds, and
    at least 2 frames. *)
Definition valid_file (f : infile) : Prop :=
  exists n, file_numframes f = Some n /\ (2 <= n)%Z.

(** The utterance that a file becomes without labels, unless it is too
    long for a [frameref]. *)
Definition unsupervised_utterance (b : build) (f : infile) : option utterancedesc :=
  n ← file_numframes f;
  if (n >? maxframesperutterance b)%Z then None
  else Some (mkutterancedesc (file_key f) n 0).

(** ** Chunks in memory *)

Section Resident.
Context `{CRand}.

(** Whether the data of randomized chunk [k] is in memory. *)
Definition inram_at (s : source) (k : nat) : bool :=
  match randomizedchunks s !! k with
  | Some c => from_option isinram false (allchunks s !! uttchunkdata c)
  | None => false
  end.

(** [s'] differs from [s] at most in the chunk at offset [id] of
    [allchunks] and in what is not a chunk or the randomized chunks. *)
Record only_chunk (id : nat) (s s' : source) : Prop := {
  oc_randomizedchunks : randomizedchunks s' = randomizedchunks s;
  oc_length : length (allchunks s') = length (allchunks s);
  oc_others : forall j, j <> id -> allchunks s' !! j = allchunks s !! j;
}.

(** The chunk window that [getbatch] keeps in memory for the utterance
    positions [[spos, epos)]. *)
Definition batch_window (s : source) (spos epos : nat) : option (nat * nat) :=
  ks ← positionchunkwindows s !! spos;
  cs ← randomizedchunks s !! ks;
  ke ← positionchunkwindows s !! (epos - 1);
  ce ← randomizedchunks s !! ke;
  Some (windowbegin cs, windowend ce).

(** [s'] has the randomized chunks of [s], and outside the window
    [[wb, we)] the same chunks in memory. *)
Definition keeps_outside (wb we : nat) (s s' : source) : Prop :=
  NoDup (uttchunkdata <$> randomizedchunks s) ->
  randomizedchunks s' = randomizedchunks s /\
  forall k, ~ (wb <= k < we) -> inram_at s' k = inram_at s k.

(** [s'] has the randomized chunks of [s], and what is in memory in [s]
    is in memory in [s']. *)
Definition keeps_resident (s s' : source) : Prop :=
  NoDup (uttchunkdata <$> randomizedchunks s) ->
  randomizedchunks s' = randomizedchunks s /\
  forall k, inram_at s k = true -> inram_at s' k = true.
End Resident.

(** Three chunks, of 5 frames in utterances of 2 and 3, of 2 frames in one
    utterance and of 6 frames in utterances of 4 and 2, and an object over
    them as the constructor leaves it. *)
Definition trio_chunks : list utterancechunkdata :=
  [mkutterancechunkdata [mkutterancedesc 1 2 0; mkutterancedesc 2 3 0] [0; 2]%Z
     (mkmatrix 0 0 []) 5 [];
   mkutterancechunkdata [mkutterancedesc 3 2 0] [0%Z] (mkmatrix 0 0 []) 2 [];
   mkutterancechunkdata [mkutterancedesc 4 4 0; mkutterancedesc 5 2 0] [0; 4]%Z
     (mkmatrix 0 0 []) 6 []].
Definition trio_source `{CRand} (fm : bool) (rr : Z) (r0 : rng) : source :=
  mksource fm ∅ trio_chunks [] 5 13 rr SIZE_MAX [] 0 [] ∅ []
    (if fm then replicate 13 (mkframeref 0 0 0) else []) 0 r0 0.

(** ** Labels *)

(** The frame after the last one of a label entry. *)
Definition entry_end (e : htkmlfentry) : Z := (firstframe e + entry_numframes e)%Z.

(** The class ids of a label sequence, one per frame. *)
Definition expansion (labseq : list htkmlfentry) : list Z :=
  labseq ≫= fun e => replicate (Z.to_nat (entry_numframes e)) (classid e).

(** The durations of the entries of the label sequences are not negative. *)
Definition durations_nonneg (labels : gmap nat (list htkmlfentry)) : Prop :=
  map_Forall (fun _ labseq => Forall (fun e => (0 <= entry_numframes e)%Z) labseq) labels.

(** [cids] holds the labels of utterance [u], frame by frame, from
    [classidsbegin], and the boundary marker after them. *)
Definition labelled (classid_bits : Z) (labels : gmap nat (list htkmlfentry)) (udim : Z)
    (cids : list Z) (u : utterancedesc) : Prop :=
  exists labseq,
    labels !! utt_key u = Some labseq /\
    (0 <= classidsbegin u)%Z /\ (0 <= utt_numframes u)%Z /\
    (classidsbegin u + utt_numframes u < SIZE_MOD)%Z /\
    length (expansion labseq) = Z.to_nat (utt_numframes u) /\
    take (Z.to_nat (utt_numframes u)) (drop (Z.to_nat (classidsbegin u)) cids)
    = expansion labseq /\
    cids !! Z.to_nat (classidsbegin u + utt_numframes u)
    = Some (boundarymarker classid_bits) /\
    Forall (fun x => (x < udim)%Z) (expansion labseq).

(** Two files of 3 and 2 frames with their labels. *)
Definition duo_files : list infile := [mkinfile 1 (Some 3%Z); mkinfile 2 (Some 2%Z)].
Definition duo_labels : gmap nat (list htkmlfentry) :=
  {[1 := [mkhtkmlfentry 0 2 7; mkhtkmlfentry 2 1 4]; 2 := [mkhtkmlfentry 0 2 5]]}.

(** ** An object that can serve batches *)




Section ObjectOk.
Context `{CRand}.

Definition haslattices (s : source) : bool :=
  negb (bool_decide (latticesource s = ∅)).



End ObjectOk.


(** * Verification *)

Lemma wrap_small z : (0 <= z < SIZE_MOD)%Z -> wrap z = z.
Proof. intros. unfold wrap. by apply Z.mod_small. Qed.

Lemma at_Ok {A} (v : list A) i a : at_ v i = Ok a <-> v !! i = Some a.
Proof. unfold at_. destruct (v !! i); split; congruence. Qed.

Lemma at_lookup {A} (v : list A) i a : v !! i = Some a -> at_ v i = Ok a.
Proof. apply at_Ok. Qed.

Lemma bind_Ok {A B} (m : result A) (f : A -> result B) r :
  (m ≫= f) = Ok r <-> exists a, m = Ok a /\ f a = Ok r.
Proof.
  unfold mbind, result_bind, rbind. destruct m; split.
  - eauto.
  - by intros (a' & [= ->] & ?).
  - done.
  - by intros (? & ? & ?).
  - done.
  - by intros (? & ? & ?).
Qed.

Ltac inv_bind H :=
  repeat match type of H with
  | (_ ≫= _) = Ok _ =>
      let a := fresh "a" in let Ha := fresh "Ha" in
      apply bind_Ok in H; destruct H as (a & Ha & H)
  | at_ _ _ = Ok _ => apply at_Ok in H
  | Ok _ = Ok _ => injection H as H
  end.

Section Windows.
Variable all : list utterancechunkdata.

Local Abbreviation frames_of := (frames_of all).
Local Abbreviation end_of := (end_of all).
Local Abbreviation timeline := (timeline all).
Local Abbreviation chunks_below := (chunks_below all).
Local Abbreviation window_ok := (window_ok all).
Local Abbreviation windows_upto := (windows_upto all).
Local Abbreviation chunkframes_at := (chunkframes_at all).
Local Abbreviation sum_frames := (sum_frames all).

Lemma start_of_lookup rcs i c : rcs !! i = Some c -> start_of rcs i = globalts c.
Proof. unfold start_of. by intros ->. Qed.

Lemma end_of_lookup rcs i c d :
  rcs !! i = Some c -> all !! uttchunkdata c = Some d ->
  end_of rcs i = (globalts c + totalframes d)%Z.
Proof.
  unfold end_of, start_of, frames_of. intros H1 H2. rewrite H1. simpl. by rewrite H2.
Qed.

Lemma start_le_end rcs i : timeline rcs -> i < length rcs ->
  (start_of rcs i <= end_of rcs i)%Z.
Proof. intros T Hi. pose proof (tl_frames _ _ T i Hi). unfold end_of. lia. Qed.

Lemma start_mono rcs i j : timeline rcs -> i <= j -> j < length rcs ->
  (start_of rcs i <= start_of rcs j)%Z.
Proof.
  intros T Hij. induction Hij as [|j Hij IH]; intros Hj; [lia|].
  rewrite (tl_next _ _ T j Hj).
  pose proof (start_le_end rcs j T ltac:(lia)). specialize (IH ltac:(lia)). lia.
Qed.

Lemma end_le_start rcs i j : timeline rcs -> i < j -> j < length rcs ->
  (end_of rcs i <= start_of rcs j)%Z.
Proof.
  intros T Hij Hj. rewrite <- (tl_next _ _ T i ltac:(lia)).
  apply start_mono; [done|lia|done].
Qed.

Lemma end_mono rcs i j : timeline rcs -> i <= j -> j < length rcs ->
  (end_of rcs i <= end_of rcs j)%Z.
Proof.
  intros T Hij Hj. destruct (decide (i = j)) as [->|]; [lia|].
  pose proof (end_le_start rcs i j T ltac:(lia) Hj).
  pose proof (start_le_end rcs j T Hj). lia.
Qed.

Lemma start_bounds rcs i : timeline rcs -> i < length rcs ->
  (0 <= start_of rcs i < SIZE_MOD)%Z.
Proof.
  intros T Hi. pose proof (tl_start _ _ T i Hi). pose proof (tl_fits _ _ T i Hi).
  pose proof (start_le_end rcs i T Hi). lia.
Qed.

Lemma globalte_timeline rcs i c : timeline rcs -> rcs !! i = Some c ->
  globalte all c = Ok (end_of rcs i).
Proof.
  intros T Hc. destruct (tl_data _ _ T i c Hc) as [d Hd].
  pose proof (lookup_lt_Some _ _ _ Hc) as Hi.
  pose proof (tl_start _ _ T i Hi) as H0. pose proof (tl_frames _ _ T i Hi) as H1.
  pose proof (tl_fits _ _ T i Hi) as H2.
  rewrite (end_of_lookup rcs i c d Hc Hd) in *.
  rewrite (start_of_lookup rcs i c Hc) in H0.
  assert (frames_of rcs i = totalframes d) as Hf.
  { unfold frames_of. rewrite Hc. simpl. by rewrite Hd. }
  rewrite Hf in H1.
  unfold globalte, chunk_numframes, getchunkdata. rewrite (at_lookup _ _ _ Hd). simpl.
  unfold sz_add. rewrite wrap_small; [done|lia].
Qed.

(** The window fields play no part in the timeline. *)
Lemma start_of_set_window rcs k c wb we i :
  rcs !! k = Some c -> start_of (<[k := set_window c wb we]> rcs) i = start_of rcs i.
Proof.
  intros Hc. unfold start_of. destruct (decide (k = i)) as [->|Hne].
  - rewrite list_lookup_insert_eq by eauto using lookup_lt_Some. by rewrite Hc.
  - by rewrite list_lookup_insert_ne.
Qed.
Lemma frames_of_set_window rcs k c wb we i :
  rcs !! k = Some c -> frames_of (<[k := set_window c wb we]> rcs) i = frames_of rcs i.
Proof.
  intros Hc. unfold frames_of. destruct (decide (k = i)) as [->|Hne].
  - rewrite list_lookup_insert_eq by eauto using lookup_lt_Some. by rewrite Hc.
  - by rewrite list_lookup_insert_ne.
Qed.
Lemma end_of_set_window rcs k c wb we i :
  rcs !! k = Some c -> end_of (<[k := set_window c wb we]> rcs) i = end_of rcs i.
Proof.
  intros Hc. unfold end_of.
  by rewrite start_of_set_window, frames_of_set_window.
Qed.

Lemma timeline_set_window rcs k c wb we :
  rcs !! k = Some c -> timeline rcs -> timeline (<[k := set_window c wb we]> rcs).
Proof.
  intros Hc T. split.
  - intros i c' Hc'. destruct (decide (k = i)) as [->|Hne].
    + rewrite list_lookup_insert_eq in Hc' by eauto using lookup_lt_Some.
      injection Hc' as <-. apply (tl_data _ _ T i c Hc).
    + rewrite list_lookup_insert_ne in Hc' by done. eapply (tl_data all); eauto.
  - intros i Hi. rewrite length_insert in Hi.
    rewrite start_of_set_window by done. by apply (tl_start all).
  - intros i Hi. rewrite length_insert in Hi.
    rewrite frames_of_set_window by done. by apply tl_frames.
  - intros i Hi. rewrite length_insert in Hi.
    rewrite end_of_set_window by done. by apply tl_fits.
  - intros i Hi. rewrite length_insert in Hi.
    rewrite start_of_set_window, end_of_set_window by done. by apply tl_next.
Qed.

Lemma advance_windowbegin_eq n rcs half cts wb :
  advance_windowbegin n rcs half cts wb =
  c ← at_ rcs wb;
  if (sz_sub cts (globalts c) >? half)%Z then
    match n with
    | 0 => OutOfFuel
    | S n' => advance_windowbegin n' rcs half cts (S wb)
    end
  else Ok wb.
Proof. by destruct n. Qed.

Lemma advance_windowend_eq n rcs half cts we :
  advance_windowend all n rcs half cts we =
  if bool_decide (we < length rcs) then
    c ← at_ rcs we;
    te ← globalte all c;
    if (sz_sub te cts <? half)%Z then
      match n with
      | 0 => OutOfFuel
      | S n' => advance_windowend all n' rcs half cts (S we)
      end
    else Ok we
  else Ok we.
Proof. by destruct n. Qed.

Lemma advance_windowbegin_spec rcs half k n wb :
  timeline rcs -> k < length rcs -> (0 <= half)%Z -> wb <= k -> k - wb <= n ->
  exists wb', advance_windowbegin n rcs half (start_of rcs k) wb = Ok wb'
    /\ wb <= wb' <= k /\ (start_of rcs k - start_of rcs wb' <= half)%Z.
Proof.
  intros T Hk Hh. revert wb. induction n as [|n IH]; intros wb Hwb Hn.
  - assert (wb = k) as -> by lia.
    rewrite advance_windowbegin_eq.
    destruct (lookup_lt_is_Some_2 rcs k Hk) as [c Hc].
    rewrite (at_lookup _ _ _ Hc). simpl.
    rewrite <- (start_of_lookup _ _ _ Hc). unfold sz_sub.
    rewrite Z.sub_diag, wrap_small by (unfold SIZE_MOD; lia).
    destruct (Z.gtb_spec 0 half); [lia|]. exists k. split; [done|]. lia.
  - rewrite advance_windowbegin_eq.
    destruct (lookup_lt_is_Some_2 rcs wb ltac:(lia)) as [c Hc].
    rewrite (at_lookup _ _ _ Hc). simpl.
    rewrite <- (start_of_lookup _ _ _ Hc).
    pose proof (start_mono rcs wb k T Hwb Hk).
    pose proof (start_bounds rcs k T Hk). pose proof (start_bounds rcs wb T ltac:(lia)).
    unfold sz_sub. rewrite wrap_small by lia.
    destruct (Z.gtb_spec (start_of rcs k - start_of rcs wb) half) as [Hgt|Hle].
    + assert (wb <> k) by (intros ->; lia).
      destruct (IH (S wb) ltac:(lia) ltac:(lia)) as (wb' & -> & ? & ?).
      exists wb'. split; [done|]. lia.
    + exists wb. split; [done|]. lia.
Qed.

Lemma advance_windowend_spec rcs half k n we :
  timeline rcs -> k < length rcs -> k <= we -> we <= length rcs ->
  length rcs - we <= n ->
  exists we', advance_windowend all n rcs half (start_of rcs k) we = Ok we'
    /\ we <= we' <= length rcs
    /\ (forall j, we <= j < we' -> (end_of rcs j - start_of rcs k < half)%Z)
    /\ (we' < length rcs -> (half <= end_of rcs we' - start_of rcs k)%Z).
Proof.
  intros T Hk. revert we. induction n as [|n IH]; intros we Hkwe Hwe Hn.
  - assert (we = length rcs) as -> by lia.
    rewrite advance_windowend_eq. rewrite bool_decide_eq_false_2 by lia.
    exists (length rcs). split; [done|]. split; [lia|]. split; intros; lia.
  - rewrite advance_windowend_eq. case_bool_decide as Hlt.
    + destruct (lookup_lt_is_Some_2 rcs we Hlt) as [c Hc].
      rewrite (at_lookup _ _ _ Hc). simpl.
      rewrite (globalte_timeline rcs we c T Hc). simpl.
      pose proof (start_mono rcs k we T Hkwe Hlt).
      pose proof (start_le_end rcs we T Hlt).
      pose proof (tl_fits _ _ T we Hlt).
      pose proof (start_bounds rcs k T Hk).
      unfold sz_sub. rewrite wrap_small by lia.
      destruct (Z.ltb_spec (end_of rcs we - start_of rcs k) half) as [Hl|Hge].
      * destruct (IH (S we) ltac:(lia) ltac:(lia) ltac:(lia)) as (we' & -> & ? & Hall & Hstop).
        exists we'. split; [done|]. split; [lia|]. split; [|done].
        intros j Hj. destruct (decide (j = we)) as [->|]; [done|]. apply Hall. lia.
      * exists we. split; [done|]. split; [lia|]. split; [intros; lia|done].
    + exists we. split; [done|]. split; [lia|]. split; intros; lia.
Qed.


Lemma chunks_below_set_window half rcs k c wb we :
  rcs !! k = Some c -> chunks_below half rcs ->
  chunks_below half (<[k := set_window c wb we]> rcs).
Proof.
  intros Hc Hs i Hi. rewrite length_insert in Hi.
  rewrite frames_of_set_window by done. by apply Hs.
Qed.

Lemma window_ok_set_window half rcs k c wb we j cj :
  rcs !! k = Some c -> j < k -> rcs !! j = Some cj ->
  window_ok half rcs j cj ->
  window_ok half (<[k := set_window c wb we]> rcs) j cj.
Proof.
  intros Hc Hjk Hj [].
  split; rewrite ?length_insert, ?start_of_set_window by done; try done.
  - intros i Hi. rewrite end_of_set_window by done. auto.
  - intros j' p -> Hp. rewrite list_lookup_insert_ne in Hp by lia. eauto.
Qed.

Lemma compute_window_spec rr rcs k :
  timeline rcs -> (0 <= rr)%Z -> chunks_below (rr / 2) rcs ->
  k < length rcs -> windows_upto (rr / 2) rcs k ->
  exists rcs', compute_window all rr rcs k = Ok rcs'
    /\ timeline rcs' /\ chunks_below (rr / 2) rcs'
    /\ length rcs' = length rcs /\ base <$> rcs' = base <$> rcs
    /\ windows_upto (rr / 2) rcs' (S k).
Proof.
  intros T Hrr Hsmall Hk Hup.
  assert (0 <= rr / 2)%Z as Hhalf by (apply Z.div_pos; lia).
  destruct (lookup_lt_is_Some_2 rcs k Hk) as [c Hc].
  unfold compute_window. rewrite (at_lookup _ _ _ Hc). simpl.
  rewrite <- (start_of_lookup _ _ _ Hc).
  (* the window inherited from the left neighbour *)
  assert (exists wb0 we0,
    match k with
    | 0 => Ok (0, 1)
    | S k' => p ← at_ rcs k'; Ok (windowbegin p, windowend p)
    end = Ok (wb0, we0)
    /\ wb0 <= k /\ k <= we0 /\ we0 <= length rcs
    /\ (forall i, k < i < we0 -> (end_of rcs i - start_of rcs k < rr / 2)%Z)
    /\ (forall k' p, k = S k' -> rcs !! k' = Some p ->
          windowbegin p = wb0 /\ windowend p = we0))
    as (wb0 & we0 & -> & Hwb0 & Hwe0 & Hlen & Hright & Hprev).
  { destruct k as [|k'].
    - exists 0, 1. split; [done|]. repeat split; try lia; intros; lia.
    - destruct (lookup_lt_is_Some_2 rcs k' ltac:(lia)) as [p Hp].
      rewrite (at_lookup _ _ _ Hp). simpl.
      destruct (Hup k' p ltac:(lia) Hp).
      exists (windowbegin p), (windowend p). split; [done|].
      repeat split; try lia; try by simplify_eq.
      intros i Hi.
      pose proof (start_mono rcs k' (S k') T ltac:(lia) Hk).
      specialize (wok_right0 i ltac:(lia)). lia. }
  simpl.
  destruct (advance_windowbegin_spec rcs (rr / 2) k (length rcs) wb0 T Hk Hhalf Hwb0
              ltac:(lia)) as (wb & -> & Hwb & Hleft).
  simpl.
  destruct (advance_windowend_spec rcs (rr / 2) k (length rcs) we0 T Hk Hwe0 Hlen
              ltac:(lia)) as (we & -> & Hwe & Hext & Hstop).
  simpl. eexists. split; [done|].
  split; [by apply timeline_set_window|].
  split; [by apply chunks_below_set_window|].
  split; [by rewrite length_insert|].
  split.
  { rewrite list_fmap_insert. apply list_insert_id.
    rewrite list_lookup_fmap, Hc. done. }
  assert (k < we) as Hkwe.
  { destruct (decide (k < we)); [done|].
    assert (we = k) as -> by lia.
    specialize (Hstop Hk). specialize (Hsmall k Hk). unfold end_of in Hstop. lia. }
  intros j cj Hj Hcj. destruct (decide (j = k)) as [->|Hne].
  - rewrite list_lookup_insert_eq in Hcj by done. injection Hcj as <-.
    split; simpl; rewrite ?length_insert, ?start_of_set_window by done; try lia.
    + intros i Hi. rewrite end_of_set_window by done.
      destruct (decide (i = k)) as [->|].
      { specialize (Hsmall k Hk). unfold end_of. lia. }
      destruct (decide (i < we0)); [apply Hright; lia|apply Hext; lia].
    + intros j' p -> Hp. rewrite list_lookup_insert_ne in Hp by lia.
      destruct (Hprev j' p eq_refl Hp) as [-> ->]. lia.
  - rewrite list_lookup_insert_ne in Hcj by done.
    apply window_ok_set_window; [done|lia|done|]. apply Hup; [lia|done].
Qed.

Lemma compute_windows_from_spec rr n : forall rcs k,
  timeline rcs -> (0 <= rr)%Z -> chunks_below (rr / 2) rcs ->
  k + n = length rcs -> windows_upto (rr / 2) rcs k ->
  exists rcs', compute_windows_from all rr rcs k n = Ok rcs'
    /\ timeline rcs' /\ length rcs' = length rcs /\ base <$> rcs' = base <$> rcs
    /\ windows_upto (rr / 2) rcs' (length rcs').
Proof.
  induction n as [|n IH]; intros rcs k T Hrr Hsmall Hlen Hup; simpl.
  - exists rcs. split_and!; try done. by replace (length rcs) with k by lia.
  - destruct (compute_window_spec rr rcs k T Hrr Hsmall ltac:(lia) Hup)
      as (rcs1 & -> & T1 & Hs1 & Hlen1 & Hbase1 & Hup1).
    simpl.
    destruct (IH rcs1 (S k) T1 Hrr Hs1 ltac:(lia) Hup1) as (rcs2 & -> & ? & ? & ? & ?).
    exists rcs2. split_and!; try done; congruence.
Qed.

Lemma compute_windows_spec rr rcs :
  timeline rcs -> (0 <= rr)%Z -> chunks_below (rr / 2) rcs ->
  exists rcs', compute_windows all rr rcs = Ok rcs'
    /\ timeline rcs' /\ length rcs' = length rcs /\ base <$> rcs' = base <$> rcs
    /\ windows_upto (rr / 2) rcs' (length rcs').
Proof.
  intros T Hrr Hsmall. apply compute_windows_from_spec; [done|done|done|lia|].
  intros j c Hj. lia.
Qed.

(** *** Placing the chunks on the timeline *)

Lemma sum_frames_cons r refs :
  sum_frames (r :: refs) = (chunkframes_at r + sum_frames refs)%Z.
Proof. done. Qed.

Lemma sum_frames_nonneg refs :
  (forall r, r ∈ refs -> (0 <= chunkframes_at r)%Z) -> (0 <= sum_frames refs)%Z.
Proof.
  induction refs as [|r refs IH]; intros Hpos; [done|].
  rewrite sum_frames_cons.
  pose proof (Hpos r ltac:(left)). specialize (IH ltac:(intros; apply Hpos; by right)).
  lia.
Qed.

Lemma timeline_nil : timeline [].
Proof. split; simpl; intros; try lia. done. Qed.

Lemma timeline_snoc acc c d :
  timeline acc -> all !! uttchunkdata c = Some d ->
  (0 <= totalframes d)%Z -> (0 <= globalts c)%Z ->
  (globalts c + totalframes d < SIZE_MOD)%Z ->
  (forall b, last acc = Some b -> globalts c = end_of acc (length acc - 1)) ->
  timeline (acc ++ [c]).
Proof.
  intros T Hd Hf Hs Hfit Hlast.
  assert (forall i, i < length acc -> start_of (acc ++ [c]) i = start_of acc i) as Hst.
  { intros i Hi. unfold start_of. by rewrite lookup_app_l. }
  assert (forall i, i < length acc -> frames_of (acc ++ [c]) i = frames_of acc i) as Hfr.
  { intros i Hi. unfold frames_of. by rewrite lookup_app_l. }
  assert (start_of (acc ++ [c]) (length acc) = globalts c) as Hstc.
  { unfold start_of. by rewrite list_lookup_middle. }
  assert (frames_of (acc ++ [c]) (length acc) = totalframes d) as Hfrc.
  { unfold frames_of. rewrite list_lookup_middle by done. simpl. by rewrite Hd. }
  split.
  - intros i c' Hc'. apply lookup_app_Some in Hc' as [Hc'|[_ Hc']].
    + by eapply (tl_data all).
    + apply list_lookup_singleton_Some in Hc' as [_ <-]. eauto.
  - intros i Hi. rewrite length_app in Hi. simpl in Hi.
    destruct (decide (i < length acc)).
    + rewrite Hst by done. by apply (tl_start all).
    + replace i with (length acc) by lia. lia.
  - intros i Hi. rewrite length_app in Hi. simpl in Hi.
    destruct (decide (i < length acc)).
    + rewrite Hfr by done. by apply tl_frames.
    + replace i with (length acc) by lia. lia.
  - intros i Hi. rewrite length_app in Hi. simpl in Hi. unfold end_of.
    destruct (decide (i < length acc)).
    + rewrite Hst, Hfr by done. by apply tl_fits.
    + replace i with (length acc) by lia. lia.
  - intros i Hi. rewrite length_app in Hi. simpl in Hi. unfold end_of.
    destruct (decide (S i < length acc)).
    + rewrite !Hst, Hfr by lia. by apply tl_next.
    + replace (S i) with (length acc) by lia. rewrite Hstc, Hst, Hfr by lia.
      destruct (last acc) as [b|] eqn:Hb.
      * rewrite (Hlast b eq_refl). unfold end_of. do 2 f_equal; lia.
      * apply last_None in Hb. subst acc. simpl in *. lia.
Qed.

Lemma place_chunks_spec sweepts refs : forall acc rcs,
  timeline acc ->
  (0 <= sweepts)%Z ->
  (forall r, r ∈ refs -> is_Some (all !! r) /\ (0 <= chunkframes_at r)%Z) ->
  (match last acc with
   | None => sweepts
   | Some _ => end_of acc (length acc - 1)
   end + sum_frames refs < SIZE_MOD)%Z ->
  place_chunks all refs acc sweepts = Ok rcs ->
  timeline rcs /\ uttchunkdata <$> rcs = (uttchunkdata <$> acc) ++ refs.
Proof.
  induction refs as [|r refs IH]; intros acc rcs T Hs Hrefs Hfit Hplace.
  - simpl in Hplace. injection Hplace as <-. by rewrite app_nil_r.
  - simpl in Hplace. apply bind_Ok in Hplace as ([pos ts] & Hpt & Hplace).
    destruct (Hrefs r ltac:(left)) as [[d Hd] Hf].
    unfold chunkframes_at in Hf. rewrite Hd in Hf. simpl in Hf.
    assert (0 <= sum_frames refs)%Z as Hsum.
    { apply sum_frames_nonneg. intros r' Hr'. apply Hrefs. by right. }
    assert (sum_frames (r :: refs) = totalframes d + sum_frames refs)%Z as Hcons.
    { rewrite sum_frames_cons. unfold chunkframes_at at 1. by rewrite Hd. }
    rewrite Hcons in Hfit.
    assert (timeline (acc ++ [mkchunk r pos ts 0 0])
            /\ end_of (acc ++ [mkchunk r pos ts 0 0]) (length acc)
               = (ts + totalframes d)%Z
            /\ (ts + totalframes d + sum_frames refs < SIZE_MOD)%Z) as (T' & Hend & Hfit').
    { assert (end_of (acc ++ [mkchunk r pos ts 0 0]) (length acc)
              = (ts + totalframes d)%Z) as Hend.
      { erewrite end_of_lookup; [|by apply list_lookup_middle|done]. done. }
      destruct (last acc) as [bk|] eqn:Hb.
      - apply bind_Ok in Hpt as (pe & _ & Hpt).
        apply bind_Ok in Hpt as (te & Hte & Hpt). injection Hpt as <- <-.
        assert (acc !! (length acc - 1) = Some bk) as Hbk.
        { rewrite last_lookup in Hb. by replace (length acc - 1) with (pred (length acc)) by lia. }
        rewrite (globalte_timeline acc _ bk T Hbk) in Hte. injection Hte as <-.
        pose proof (lookup_lt_Some _ _ _ Hbk) as Hlt.
        pose proof (start_le_end acc _ T Hlt). pose proof (tl_start all _ T _ Hlt).
        split_and!; [|done|lia].
        eapply timeline_snoc; simpl; eauto; try lia.
      - injection Hpt as <- <-. apply last_None in Hb. subst acc.
        split_and!; [|done|lia].
        eapply timeline_snoc; simpl; eauto using timeline_nil; try lia. done. }
    assert (forall r', r' ∈ refs -> is_Some (all !! r') /\ (0 <= chunkframes_at r')%Z)
      as Hrefs' by (intros r' Hr'; apply Hrefs; by right).
    assert (match last (acc ++ [mkchunk r pos ts 0 0]) with
            | None => sweepts
            | Some _ => end_of (acc ++ [mkchunk r pos ts 0 0])
                          (length (acc ++ [mkchunk r pos ts 0 0]) - 1)
            end + sum_frames refs < SIZE_MOD)%Z as Hfit''.
    { rewrite last_snoc. rewrite length_app. simpl.
      replace (length acc + 1 - 1) with (length acc) by lia. rewrite Hend. lia. }
    destruct (IH _ _ T' Hs Hrefs' Hfit'' Hplace) as [T'' Hmap].
    split; [done|]. rewrite Hmap, fmap_app. simpl. by rewrite <- app_assoc.
Qed.
End Windows.

(** ** Sliding windows *)

(** X20.  When no chunk reaches half the randomization
    range, the window of every randomized chunk [k] is a range
    [[windowbegin, windowend)] of chunk indices that contains [k]; both
    ends never decrease from [k] to [k + 1]; the window reaches back at
    most [randomizationrange / 2] from the start of [k], ends less than
    [randomizationrange / 2] after it, and so spans at most
    [randomizationrange]. *)
Theorem sliding_windows all refs sweepts rr rcs0 :
  place_chunks all refs [] sweepts = Ok rcs0 ->
  (0 <= sweepts)%Z -> (0 <= rr)%Z ->
  (forall r, r ∈ refs ->
     exists d, all !! r = Some d /\ (0 <= totalframes d < rr / 2)%Z) ->
  (sweepts + sum_frames all refs < SIZE_MOD)%Z ->
  exists rcs,
    compute_windows all rr rcs0 = Ok rcs /\ length rcs = length refs /\
    forall k c, rcs !! k = Some c ->
      windowbegin c <= k < windowend c /\ windowend c <= length rcs /\
      (forall c', rcs !! S k = Some c' ->
         windowbegin c <= windowbegin c' /\ windowend c <= windowend c') /\
      (start_of rcs k - start_of rcs (windowbegin c) <= rr / 2)%Z /\
      (end_of all rcs (windowend c - 1) - start_of rcs k < rr / 2)%Z /\
      (end_of all rcs (windowend c - 1) - start_of rcs (windowbegin c) <= rr)%Z.
Proof.
  intros Hplace Hs Hrr Hrefs Hfit.
  destruct (place_chunks_spec all sweepts refs [] rcs0 (timeline_nil all) Hs)
    as [T Hmap]; [| done | done |].
  { intros r Hr. destruct (Hrefs r Hr) as (d & Hd & Hf).
    unfold chunkframes_at. rewrite Hd. simpl. split; [eauto|lia]. }
  simpl in Hmap.
  assert (chunks_below all (rr / 2) rcs0) as Hsmall.
  { intros i Hi. destruct (lookup_lt_is_Some_2 rcs0 i Hi) as [c Hc].
    assert (uttchunkdata c ∈ refs) as Hin.
    { rewrite <- Hmap. apply list_elem_of_fmap. exists c. split; [done|].
      by eapply list_elem_of_lookup_2. }
    destruct (Hrefs _ Hin) as (d & Hd & Hf).
    unfold frames_of. rewrite Hc. simpl. rewrite Hd. simpl. lia. }
  destruct (compute_windows_spec all rr rcs0 T Hrr Hsmall)
    as (rcs & Hcw & T' & Hlen & Hbase & Hup).
  exists rcs. split; [done|]. split.
  { rewrite Hlen, <- Hmap. by rewrite length_fmap. }
  intros k c Hc. pose proof (lookup_lt_Some _ _ _ Hc) as Hk.
  destruct (Hup k c Hk Hc) as [Hb He Hel Hleft Hright Hmono].
  pose proof (Hright (windowend c - 1) ltac:(lia)) as Hr.
  assert (2 * (rr / 2) <= rr)%Z by (apply Z.mul_div_le; lia).
  split_and!; try lia.
  intros c' Hc'. pose proof (lookup_lt_Some _ _ _ Hc') as Hk'.
  apply (wok_mono _ _ _ _ _ (Hup (S k) c' Hk' Hc') k c eq_refl Hc).
Qed.

(** Two chunks of 100000 and 50000 frames, placed in the order 1, 0, with
    a randomization range of 200002 frames: both chunks stay below half the
    range, and the windows are [0, 1) and [0, 2). *)
Lemma sliding_windows_witness :
  exists rcs0 rcs,
    place_chunks [mkutterancechunkdata [] [] (mkmatrix 0 0 []) 100000 [];
                  mkutterancechunkdata [] [] (mkmatrix 0 0 []) 50000 []]
      [1; 0] [] 0 = Ok rcs0 /\
    compute_windows [mkutterancechunkdata [] [] (mkmatrix 0 0 []) 100000 [];
                     mkutterancechunkdata [] [] (mkmatrix 0 0 []) 50000 []]
      200002 rcs0 = Ok rcs /\
    (windowbegin <$> rcs) = [0; 0] /\ (windowend <$> rcs) = [1; 2].
Proof.
  set (all := [mkutterancechunkdata [] [] (mkmatrix 0 0 []) 100000 [];
               mkutterancechunkdata [] [] (mkmatrix 0 0 []) 50000 []]).
  assert (exists rcs0, place_chunks all [1; 0] [] 0 = Ok rcs0) as [rcs0 H0]
    by (eexists; vm_compute; reflexivity).
  destruct (sliding_windows all [1; 0] 0 200002 rcs0 H0) as (rcs & Hcw & _ & _).
  - lia.
  - lia.
  - intros r Hr. apply list_elem_of_In in Hr. simpl in Hr.
    destruct Hr as [<-|[<-|[]]]; eexists; (split; [reflexivity|]); vm_compute;
      split; congruence.
  - vm_compute. reflexivity.
  - exists rcs0, rcs. split; [done|]. split; [done|].
    vm_compute in H0. injection H0 as <-. vm_compute in Hcw. injection Hcw as <-.
    vm_compute. done.
Defined.

(** ** The extent of a batch *)

Lemma sum_numframes_cons u l :
  sum_numframes (u :: l) = (numframes u + sum_numframes l)%Z.
Proof. done. Qed.

Lemma sum_numframes_app l k :
  sum_numframes (l ++ k) = (sum_numframes l + sum_numframes k)%Z.
Proof.
  induction l as [|u l IH]; [done|].
  rewrite <- app_comm_cons, !sum_numframes_cons, IH. lia.
Qed.

Lemma sum_numframes_nonneg l :
  (forall u, u ∈ l -> (0 <= numframes u)%Z) -> (0 <= sum_numframes l)%Z.
Proof.
  induction l as [|u l IH]; intros Hpos; [done|].
  rewrite sum_numframes_cons.
  pose proof (Hpos u ltac:(left)). specialize (IH ltac:(intros; apply Hpos; by right)).
  lia.
Qed.

Lemma sum_positions_between_le refs spos epos :
  (forall u, u ∈ refs -> (0 <= numframes u)%Z) ->
  (0 <= sum_numframes (positions_between refs spos epos) <= sum_numframes refs)%Z.
Proof.
  intros Hpos. unfold positions_between.
  rewrite <- (take_drop spos refs) at 3.
  rewrite <- (take_drop (epos - spos) (drop spos refs)) at 3.
  rewrite !sum_numframes_app.
  assert (forall l : list utteranceref, l ⊆ refs -> (0 <= sum_numframes l)%Z) as Hsub.
  { intros l Hl. apply sum_numframes_nonneg. intros u Hu. apply Hpos. by apply Hl. }
  pose proof (Hsub (take spos refs) ltac:(apply subseteq_take)).
  assert (drop spos refs ⊆ refs) as Hd by apply subseteq_drop.
  pose proof (Hsub (take (epos - spos) (drop spos refs))
                ltac:(etrans; [apply subseteq_take|done])).
  pose proof (Hsub (drop (epos - spos) (drop spos refs))
                ltac:(etrans; [apply subseteq_drop|done])).
  lia.
Qed.

Lemma positions_between_succ refs spos e u :
  spos <= e -> refs !! e = Some u ->
  positions_between refs spos (S e) = positions_between refs spos e ++ [u].
Proof.
  intros Hle Hu. unfold positions_between.
  replace (S e - spos) with (S (e - spos)) by lia.
  apply take_S_r. rewrite lookup_drop. by replace (spos + (e - spos)) with e by lia.
Qed.

Lemma sum_positions_between_succ refs spos e u :
  spos <= e -> refs !! e = Some u ->
  sum_numframes (positions_between refs spos (S e))
  = (sum_numframes (positions_between refs spos e) + numframes u)%Z.
Proof.
  intros Hle Hu. rewrite (positions_between_succ refs spos e u Hle Hu).
  rewrite sum_numframes_app, sum_numframes_cons. change (sum_numframes []) with 0%Z. lia.
Qed.

Lemma extend_batch_eq n refs numutts framesrequested epos mbframes :
  extend_batch n refs numutts framesrequested epos mbframes =
  if bool_decide (epos < numutts) then
    u ← at_ refs epos;
    if (sz_add mbframes (numframes u) <? framesrequested)%Z then
      match n with
      | 0 => OutOfFuel
      | S n' => extend_batch n' refs numutts framesrequested (S epos)
                  (sz_add mbframes (numframes u))
      end
    else Ok (epos, mbframes)
  else Ok (epos, mbframes).
Proof. by destruct n. Qed.

(** The loop adds the utterance at [epos] exactly when the total with it
    stays below [framesrequested], and stops at the first that does not. *)
Lemma extend_batch_spec refs fr spos n : forall epos,
  frames_fit refs -> spos < epos -> epos <= length refs -> length refs - epos <= n ->
  exists epos',
    extend_batch n refs (length refs) fr epos
      (sum_numframes (positions_between refs spos epos))
    = Ok (epos', sum_numframes (positions_between refs spos epos'))
    /\ epos <= epos' <= length refs
    /\ (forall e, epos < e <= epos' ->
          (sum_numframes (positions_between refs spos e) < fr)%Z)
    /\ (epos' < length refs ->
          (fr <= sum_numframes (positions_between refs spos (S epos')))%Z).
Proof.
  intros epos [Hpos Hfit]. revert epos.
  induction n as [|n IH]; intros epos Hs He Hn; rewrite extend_batch_eq.
  - rewrite bool_decide_eq_false_2 by lia.
    exists epos. split; [done|]. split; [lia|]. split; intros; lia.
  - case_bool_decide as Hlt.
    + destruct (lookup_lt_is_Some_2 refs epos Hlt) as [u Hu].
      rewrite (at_lookup _ _ _ Hu). simpl.
      pose proof (sum_positions_between_succ refs spos epos u ltac:(lia) Hu) as Hsucc.
      pose proof (sum_positions_between_le refs spos (S epos) Hpos).
      pose proof (sum_positions_between_le refs spos epos Hpos).
      pose proof (Hpos u ltac:(by eapply list_elem_of_lookup_2)).
      unfold sz_add. rewrite wrap_small by lia. rewrite <- Hsucc.
      destruct (Z.ltb_spec (sum_numframes (positions_between refs spos (S epos))) fr).
      * destruct (IH (S epos) ltac:(lia) ltac:(lia) ltac:(lia))
          as (epos' & -> & ? & Hall & Hstop).
        exists epos'. split; [done|]. split; [lia|]. split; [|done].
        intros e He'. destruct (decide (e = S epos)) as [->|]; [done|].
        apply Hall. lia.
      * exists epos. split; [done|]. split; [lia|]. split; [intros; lia|done].
    + exists epos. split; [done|]. split; [lia|]. split; intros; lia.
Qed.

Lemma batch_extent_spec `{CRand} (s : source) spos fr u :
  frames_fit (randomizedutterancerefs s) ->
  numutterances s = length (randomizedutterancerefs s) ->
  randomizedutterancerefs s !! spos = Some u ->
  exists epos,
    batch_extent s spos fr
    = Ok (epos, sum_numframes (positions_between (randomizedutterancerefs s) spos epos))
    /\ spos < epos <= length (randomizedutterancerefs s)
    /\ (forall e, spos + 1 < e <= epos ->
          (sum_numframes (positions_between (randomizedutterancerefs s) spos e) < fr)%Z)
    /\ (epos < length (randomizedutterancerefs s) ->
          (fr <= sum_numframes (positions_between (randomizedutterancerefs s) spos (S epos)))%Z).
Proof.
  intros Hfit Hnum Hu. unfold batch_extent. rewrite (at_lookup _ _ _ Hu). simpl.
  pose proof (lookup_lt_Some _ _ _ Hu) as Hlt.
  assert (numframes u
          = sum_numframes (positions_between (randomizedutterancerefs s) spos (spos + 1)))
    as ->.
  { replace (spos + 1) with (S spos) by lia.
    rewrite (sum_positions_between_succ _ spos spos u) by done.
    unfold positions_between. rewrite Nat.sub_diag, take_0.
    change (sum_numframes []) with 0%Z. lia. }
  rewrite Hnum.
  destruct (extend_batch_spec (randomizedutterancerefs s) fr spos
              (length (randomizedutterancerefs s)) (spos + 1) Hfit)
    as (epos & -> & ? & ? & ?); [lia..|].
  exists epos. split; [done|]. split; [lia|]. done.
Qed.

(** ** The state monad *)

Section Monad.
Context `{CRand}.

Lemma sbind_Ok {A B} (m : M A) (f : A -> M B) s b s' :
  sbind m f s = (Ok b, s') ->
  exists a s1, m s = (Ok a, s1) /\ f a s1 = (Ok b, s').
Proof.
  unfold sbind. destruct (m s) as [[a| |] s1]; [eauto|done|done].
Qed.

Lemma lift_Ok {A} (r : result A) s a s' :
  lift r s = (Ok a, s') -> r = Ok a /\ s' = s.
Proof. unfold lift. by intros [= -> ->]. Qed.

End Monad.

(** *** Running member functions *)

Ltac unfold_setters :=
  unfold set_allchunks, set_currentsweep, set_randomizedchunks, set_chunksinram,
    set_randomizedutterancerefs, set_randomizedutteranceposmap,
    set_positionchunkwindows, set_randomizedframerefs, set_featdim,
    set_crand_state, set_iocalls in *;
  simpl in *.

Ltac step_pure H :=
  apply sbind_Ok in H as (? & ? & [= <- <-] & H).
Tactic Notation "step_lift" hyp(H) "as" simple_intropattern(x) ident(Hx) :=
  apply sbind_Ok in H as (x & ? & [Hx ->]%lift_Ok & H).

Section StateLemmas.
Context `{CRand}.

Variable b : build.

Lemma lazyrandomization_utterances fuel g s sweep s' :
  framemode s = false ->
  lazyrandomization b fuel g s = (Ok sweep, s') ->
  _totalframes s <> 0%Z /\ sweep = (g / _totalframes s)%Z /\
  ((sweep = currentsweep s /\ s' = s) \/
   (sweep <> currentsweep s /\
    exists chunkrefs r rcs0 rcs pcw refs refs1 r1 refs2,
      randomshuffle (seq 0 (length (allchunks s))) sweep = Ok (chunkrefs, r) /\
      place_chunks (allchunks s) chunkrefs [] (sz_mul sweep (_totalframes s)) = Ok rcs0 /\
      compute_windows (allchunks s) (randomizationrange s) rcs0 = Ok rcs /\
      build_positionchunkwindows (allchunks s) rcs 0 = Ok pcw /\
      build_utterancerefs (allchunks s) rcs 0 = Ok refs /\
      swap_positions (allchunks s) fuel rcs pcw refs
        (srand (trunc 32 (trunc 32 sweep + 1))) 0 (length refs) = Ok (refs1, r1) /\
      place_utterances (allchunks s) rcs refs1 (sz_mul sweep (_totalframes s)) = Ok refs2 /\
      verify_utterances rcs pcw refs2 0 = Ok () /\
      s' = mksource false (latticesource s) (allchunks s) (classids s) (numutterances s)
             (_totalframes s) (randomizationrange s) sweep rcs (chunksinram s) refs2
             (build_posmap refs2 0 ∅) pcw (randomizedframerefs s) (featdim s) r1
             (iocalls s))).
Proof.
  intros Hfm Hrun. unfold lazyrandomization in Hrun.
  apply sbind_Ok in Hrun as (total & s1 & [= <- <-] & Hrun).
  destruct (decide (_totalframes s = 0%Z)) as [|Hne]; [done|].
  split; [done|].
  apply sbind_Ok in Hrun as (cur & s1 & [= <- <-] & Hrun).
  destruct (decide ((g / _totalframes s)%Z = currentsweep s)) as [Heq|Hneq].
  { injection Hrun as <- <-. split; [done|]. by left. }
  step_pure Hrun. step_pure Hrun.
  step_lift Hrun as [chunkrefs r] Hshuffle.
  step_pure Hrun. step_pure Hrun.
  step_lift Hrun as rcs0 Hplace.
  step_pure Hrun. step_pure Hrun.
  step_lift Hrun as rcs Hwin.
  step_pure Hrun. step_pure Hrun.
  simpl in Hrun. rewrite Hfm in Hrun.
  apply sbind_Ok in Hrun as ([] & s1 & Hutt & [= <- <-]).
  split; [done|]. right. split; [done|].
  unfold randomize_utterances in Hutt.
  step_pure Hutt. step_pure Hutt. step_pure Hutt.
  step_lift Hutt as pcw Hpcw.
  step_pure Hutt. step_pure Hutt.
  step_lift Hutt as refs Hrefs.
  step_pure Hutt. step_pure Hutt. step_pure Hutt.
  step_lift Hutt as [refs1 r1] Hswap.
  step_pure Hutt.
  step_lift Hutt as refs2 Hplaceu.
  step_pure Hutt.
  step_lift Hutt as [] Hverify.
  injection Hutt as <-.
  exists chunkrefs, r, rcs0, rcs, pcw, refs, refs1, r1, refs2.
  split_and!;
    [exact Hshuffle|exact Hplace|exact Hwin|exact Hpcw|exact Hrefs|exact Hswap
    |exact Hplaceu|exact Hverify|].
  clear -Hfm. destruct s. cbn in Hfm. subst. reflexivity.
Qed.

End StateLemmas.

Section PagingOnly.
Context `{CRand}.

Lemma paging_only_refl s : paging_only s s.
Proof. by split. Qed.

Lemma paging_only_trans s1 s2 s3 :
  paging_only s1 s2 -> paging_only s2 s3 -> paging_only s1 s3.
Proof. intros [] []. split; congruence. Qed.

Section Preserves.
Context {R : source -> source -> Prop} (Rrefl : forall s, R s s)
  (Rtrans : forall s1 s2 s3, R s1 s2 -> R s2 s3 -> R s1 s3).

Lemma preserves_sret {A} (a : A) : preserves R (sret a).
Proof. intros s r s' [= <- <-]. apply Rrefl. Qed.
Lemma preserves_lift {A} (x : result A) : preserves R (lift x).
Proof. intros s r s' [= <- <-]. apply Rrefl. Qed.
Lemma preserves_gets {A} (f : source -> A) : preserves R (gets f).
Proof. intros s r s' [= <- <-]. apply Rrefl. Qed.
Lemma preserves_throw {A} e : preserves R (@throw _ A e).
Proof. intros s r s' [= <- <-]. apply Rrefl. Qed.
Lemma preserves_modify f : (forall s, R s (f s)) -> preserves R (modify f).
Proof. intros Hf s r s' [= <- <-]. apply Hf. Qed.
Lemma preserves_sbind {A B} (m : M A) (f : A -> M B) :
  preserves R m -> (forall a, preserves R (f a)) -> preserves R (sbind m f).
Proof.
  intros Hm Hf s r s' Hrun. unfold sbind in Hrun.
  destruct (m s) as [[a| |] s1] eqn:Hms.
  - eapply Rtrans; [by eapply Hm|by eapply Hf].
  - injection Hrun as <- <-. by eapply Hm.
  - injection Hrun as <- <-. by eapply Hm.
Qed.
Lemma preserves_attempt_loop {A} more (body : M A) :
  preserves R body -> preserves R (attempt_loop more body).
Proof.
  intros Hb. induction more as [|more IH]; intros s r s' Hrun; simpl in Hrun.
  - destruct (body s) as [[a|e|] s1] eqn:Hbs; injection Hrun as <- <-; by eapply Hb.
  - destruct (body s) as [[a|e|] s1] eqn:Hbs.
    + injection Hrun as <- <-; by eapply Hb.
    + eapply Rtrans; [by eapply Hb|by eapply IH].
    + injection Hrun as <- <-; by eapply Hb.
Qed.
End Preserves.

End PagingOnly.

Ltac preserves_step :=
  first
    [ apply preserves_sbind; [by apply paging_only_trans| |intros ?]
    | apply preserves_sret; by apply paging_only_refl
    | apply preserves_lift; by apply paging_only_refl
    | apply preserves_gets; by apply paging_only_refl
    | apply preserves_throw; by apply paging_only_refl ].

Section Paging.
Context `{CRand}.
Variable io_fails : nat -> bool.
Variable archive_featdim : Z.

Lemma read_utterances_descriptor haslat todo : forall d n i r d' n',
  read_utterances io_fails haslat d n i todo = (r, (d', n')) ->
  descriptor d' = descriptor d.
Proof.
  induction todo as [|u todo IH]; intros d n i r d' n' Hrun; simpl in Hrun.
  - by injection Hrun as <- <- <-.
  - destruct (getutteranceframes d i); try by injection Hrun as <- <- <-.
    destruct (io_fails n); [by injection Hrun as <- <- <-|].
    destruct haslat.
    + destruct (io_fails (S n)); [by injection Hrun as <- <- <-|].
      case_bool_decide; [|by injection Hrun as <- <- <-].
      by apply IH in Hrun.
    + by apply IH in Hrun.
Qed.

Lemma requiredata_descriptor haslat d fd n r d' fd' n' :
  requiredata io_fails archive_featdim haslat (d, fd, n) = (r, (d', fd', n')) ->
  descriptor d' = descriptor d.
Proof.
  unfold requiredata. intros Hrun.
  destruct (decide _); [by injection Hrun as <- <- <- <-|].
  destruct (isinram d); [by injection Hrun as <- <- <- <-|].
  assert (forall r1 d1 fd1 n1,
    requiredata_try io_fails archive_featdim haslat (d, fd, n) = (r1, (d1, fd1, n1)) ->
    descriptor d1 = descriptor d) as Htry.
  { unfold requiredata_try. intros r1 d1 fd1 n1 Htry.
    destruct (decide (fd = 0%Z)).
    - destruct (io_fails n); [by injection Htry as <- <- <- <-|].
      destruct (io_fails (S n)); [by injection Htry as <- <- <- <-|].
      destruct (read_utterances _ _ _ _ _ _) as [rx [dx nx]] eqn:Hread.
      injection Htry as <- <- <- <-.
      apply read_utterances_descriptor in Hread. rewrite Hread. by destruct haslat.
    - destruct (io_fails n); [by injection Htry as <- <- <- <-|].
      destruct (read_utterances _ _ _ _ _ _) as [rx [dx nx]] eqn:Hread.
      injection Htry as <- <- <- <-.
      apply read_utterances_descriptor in Hread. rewrite Hread. by destruct haslat. }
  destruct (requiredata_try _ _ _ _) as [r1 [[d1 fd1] n1]] eqn:Ht.
  specialize (Htry _ _ _ _ eq_refl).
  destruct r1.
  - by injection Hrun as <- <- <- <-.
  - unfold releasedata in Hrun. destruct (decide _); [by injection Hrun as <- <- <- <-|].
    destruct (negb _); by injection Hrun as <- <- <- <-.
  - unfold releasedata in Hrun. destruct (decide _); [by injection Hrun as <- <- <- <-|].
    destruct (negb _); by injection Hrun as <- <- <- <-.
Qed.

Lemma descriptor_insert (all : list utterancechunkdata) i d d' :
  all !! i = Some d -> descriptor d' = descriptor d ->
  descriptor <$> <[i := d']> all = descriptor <$> all.
Proof.
  intros Hd Heq. rewrite list_fmap_insert. apply list_insert_id.
  by rewrite list_lookup_fmap, Hd, Heq.
Qed.

Lemma requiredata_at_paging_only ci :
  preserves paging_only (requiredata_at io_fails archive_featdim ci).
Proof.
  intros s r s' Hrun. unfold requiredata_at in Hrun.
  destruct (allchunks s !! ci) as [d|] eqn:Hd; [|injection Hrun as <- <-; by split].
  destruct (requiredata _ _ _ _) as [r1 [[d1 fd1] n1]] eqn:Hreq.
  injection Hrun as <- <-. apply requiredata_descriptor in Hreq.
  split; try done. simpl. by eapply descriptor_insert.
Qed.

Lemma releasedata_descriptor d d' :
  releasedata d = Ok d' -> descriptor d' = descriptor d.
Proof.
  unfold releasedata. destruct (decide _); [done|]. destruct (negb _); [done|].
  by intros [= <-].
Qed.

Lemma releaserandomizedchunk_paging_only k :
  preserves paging_only (releaserandomizedchunk k).
Proof.
  intros s r s' Hrun.
  unfold releaserandomizedchunk, sbind, gets, lift, modify, sret in Hrun. simpl in Hrun.
  destruct (at_ (randomizedchunks s) k) as [c| |]; try (injection Hrun as <- <-; by split).
  destruct (getchunkdata (allchunks s) c) as [d| |] eqn:Hd;
    try (injection Hrun as <- <-; by split).
  destruct (negb (isinram d)); [injection Hrun as <- <-; by split|].
  destruct (releasedata d) as [d'| |] eqn:Hrel; try (injection Hrun as <- <-; by split).
  injection Hrun as <- <-. apply releasedata_descriptor in Hrel.
  split; try done. simpl. apply at_Ok in Hd. by eapply descriptor_insert.
Qed.

Lemma requirerandomizedchunk_paging_only ci wb we :
  preserves paging_only
    (requirerandomizedchunk io_fails archive_featdim ci wb we).
Proof.
  unfold requirerandomizedchunk.
  destruct (_ || _); [apply preserves_throw; by apply paging_only_refl|].
  repeat preserves_step.
  destruct (isinram _); repeat preserves_step.
  - apply preserves_attempt_loop;
      first [apply paging_only_trans|apply requiredata_at_paging_only].
  - apply preserves_modify. intros s. by split.
Qed.

Lemma release_all_paging_only ks : preserves paging_only (release_all ks).
Proof.
  induction ks as [|k ks IH].
  - apply preserves_sret, paging_only_refl.
  - apply (preserves_sbind paging_only_trans);
      [apply releaserandomizedchunk_paging_only|intros _; apply IH].
Qed.

Lemma require_all_paging_only refs wb we : forall rd,
  preserves paging_only (require_all io_fails archive_featdim refs wb we rd).
Proof.
  induction refs as [|u refs IH]; intros rd.
  - apply preserves_sret, paging_only_refl.
  - apply (preserves_sbind paging_only_trans);
      [apply requirerandomizedchunk_paging_only|intros rd'; apply IH].
Qed.
End Paging.

(** ** Batches in utterance mode *)


Lemma frames_fitb_true refs : frames_fitb refs = true -> frames_fit refs.
Proof.
  unfold frames_fitb. intros [Hall Hsum]%andb_prop. split.
  - intros u Hu. rewrite forallb_forall in Hall.
    apply list_elem_of_In in Hu. specialize (Hall u Hu). lia.
  - lia.
Qed.

Example scenario_source_constructed `{CRand} (r0 : rng) :
  construct WIN64 16 scenario_files ∅ 0 1000000 ∅ false r0
  = Ok (scenario_source r0, []).
Proof. reflexivity. Qed.


Lemma build_posmap_None refs : forall pos (m : gmap Z nat) g,
  build_posmap refs pos m !! g = None <->
  m !! g = None /\ forall u, u ∈ refs -> ref_globalts u <> g.
Proof.
  induction refs as [|u refs IH]; intros pos m g; simpl.
  - split; [|by intros [? _]]. intros Hm. split; [done|]. intros u Hu. by apply elem_of_nil in Hu.
  - rewrite IH. split.
    + intros [Hm Hall]. apply lookup_insert_None in Hm as [Hm Hne]. split; [done|].
      intros u' [->|Hu']%elem_of_cons; [done|by apply Hall].
    + intros [Hm Hall]. split.
      * apply lookup_insert_None. split; [done|]. apply Hall. by left.
      * intros u' Hu'. apply Hall. by right.
Qed.

Lemma build_posmap_Some refs : forall pos (m : gmap Z nat) g p,
  build_posmap refs pos m !! g = Some p ->
  m !! g = Some p \/
  exists i u, refs !! i = Some u /\ p = pos + i /\ ref_globalts u = g.
Proof.
  induction refs as [|u refs IH]; intros pos m g p; simpl; [by left|].
  intros Hp. apply IH in Hp as [Hp|(i & u' & Hu' & -> & Hg)].
  - apply lookup_insert_Some in Hp as [[<- <-]|[_ Hp]]; [|by left].
    right. exists 0, u. split; [done|]. split; [lia|done].
  - right. exists (S i), u'. split; [done|]. split; [lia|done].
Qed.

Section Batches.
Context `{CRand}.
Variable b : build.
Variable io_fails : nat -> bool.
Variable archive_featdim : Z.
Variable classid_bits : Z.

Lemma posmap_consistent_lazyrandomization fuel g s0 sweep s :
  framemode s0 = false -> posmap_consistent s0 ->
  lazyrandomization b fuel g s0 = (Ok sweep, s) ->
  posmap_consistent s /\ framemode s = false.
Proof.
  intros Hfm Hcons Hrun.
  destruct (lazyrandomization_utterances b _ _ _ _ _ Hfm Hrun)
    as (_ & _ & [[_ ->]|[_ Hre]]); [done|].
  destruct Hre as (? & ? & ? & ? & ? & ? & ? & ? & ? & _ & _ & _ & _ & _ & _ & _ & _ & ->).
  done.
Qed.

Lemma getbatch_utterancemode_invalid g fr s :
  randomizedutteranceposmap s !! g = None ->
  getbatch_utterancemode io_fails archive_featdim classid_bits g fr s
  = (Throw logic_invalid_globalts, s).
Proof.
  intros Hnone. unfold getbatch_utterancemode, sbind, gets. simpl.
  by rewrite Hnone.
Qed.

Lemma getbatch_utterancemode_Ok g fr s out s' :
  getbatch_utterancemode io_fails archive_featdim classid_bits g fr s = (Ok out, s') ->
  exists spos epos mb,
    randomizedutteranceposmap s !! g = Some spos /\
    batch_extent s spos fr = Ok (epos, mb) /\
    feat_cols out = mb /\
    feat_utterances out = positions_between (randomizedutterancerefs s) spos epos /\
    paging_only s s'.
Proof.
  intros Hrun. unfold getbatch_utterancemode in Hrun.
  step_pure Hrun.
  destruct (randomizedutteranceposmap s !! g) as [spos|] eqn:Hpos; [|done].
  step_pure Hrun. unfold id in Hrun.
  step_lift Hrun as [epos mb] Hext.
  step_pure Hrun. step_pure Hrun.
  step_lift Hrun as ks Hks. step_lift Hrun as cs Hcs.
  step_lift Hrun as ke Hke. step_lift Hrun as ce Hce.
  apply sbind_Ok in Hrun as ([] & s1 & Hrel1 & Hrun).
  apply sbind_Ok in Hrun as ([] & s2 & Hrel2 & Hrun).
  apply release_all_paging_only in Hrel1. apply release_all_paging_only in Hrel2.
  step_pure Hrun.
  apply sbind_Ok in Hrun as (rd & s3 & Hreq & Hrun).
  apply require_all_paging_only in Hreq.
  step_pure Hrun. unfold id in Hrun.
  step_lift Hrun as [ids lats] Hcopy.
  destruct (_ && _); [done|]. injection Hrun as <- <-.
  exists spos, epos, mb. split_and!; try done.
  - simpl. rewrite (po_randomizedutterancerefs _ _ Hrel2).
    by rewrite (po_randomizedutterancerefs _ _ Hrel1).
  - eauto using paging_only_trans.
Qed.

Lemma getbatch_utterances fuel g fr s0 sweep s :
  framemode s0 = false -> posmap_consistent s0 ->
  lazyrandomization b fuel g s0 = (Ok sweep, s) ->
  getbatch b io_fails archive_featdim classid_bits fuel g fr s0
  = getbatch_utterancemode io_fails archive_featdim classid_bits g fr s.
Proof.
  intros Hfm Hcons Hrun.
  destruct (posmap_consistent_lazyrandomization _ _ _ _ _ Hfm Hcons Hrun) as [_ Hfm'].
  unfold getbatch, sbind at 1. rewrite Hrun.
  unfold sbind, gets. by rewrite Hfm'.
Qed.


Lemma posmap_consistent_lookup s g spos :
  posmap_consistent s -> randomizedutteranceposmap s !! g = Some spos ->
  exists u, randomizedutterancerefs s !! spos = Some u /\ ref_globalts u = g.
Proof.
  intros Hcons Hpos. rewrite Hcons in Hpos.
  apply build_posmap_Some in Hpos as [Hpos|(i & u & Hu & -> & Hg)]; [done|].
  by exists u.
Qed.

(** C1, as the code has it.  The batch starts with the utterance at
    [globalts]; the utterance at the next position joins it exactly when the
    frame total including it stays strictly below [framesrequested], and
    the batch ends before the first utterance for which it does not (or at
    the last utterance of the sweep). *)
Theorem getbatch_greedy_extent fuel g fr s0 sweep s spos :
  framemode s0 = false -> posmap_consistent s0 ->
  lazyrandomization b fuel g s0 = (Ok sweep, s) ->
  randomizedutteranceposmap s !! g = Some spos ->
  frames_fit (randomizedutterancerefs s) ->
  numutterances s = length (randomizedutterancerefs s) ->
  exists epos,
    spos < epos <= length (randomizedutterancerefs s) /\
    batch_extent s spos fr
    = Ok (epos, sum_numframes (positions_between (randomizedutterancerefs s) spos epos)) /\
    (forall e, spos + 1 < e <= epos ->
       (sum_numframes (positions_between (randomizedutterancerefs s) spos e) < fr)%Z) /\
    (epos < length (randomizedutterancerefs s) ->
       (fr <= sum_numframes (positions_between (randomizedutterancerefs s) spos (S epos)))%Z) /\
    forall out s',
      getbatch b io_fails archive_featdim classid_bits fuel g fr s0 = (Ok out, s') ->
      feat_utterances out = positions_between (randomizedutterancerefs s) spos epos /\
      feat_cols out = sum_numframes (feat_utterances out).
Proof.
  intros Hfm Hcons Hrun Hpos Hfit Hnum.
  destruct (posmap_consistent_lazyrandomization _ _ _ _ _ Hfm Hcons Hrun) as [Hcons' _].
  destruct (posmap_consistent_lookup s g spos Hcons' Hpos) as (u & Hu & Hg).
  destruct (batch_extent_spec s spos fr u Hfit Hnum Hu) as (epos & Hext & He & Hbelow & Hstop).
  exists epos. split_and!; try done; try lia.
  intros out s' Hget.
  rewrite (getbatch_utterances fuel g fr s0 sweep s Hfm Hcons Hrun) in Hget.
  apply getbatch_utterancemode_Ok in Hget
    as (spos' & epos' & mb & Hpos' & Hext' & Hcols & Hutts & _).
  rewrite Hpos in Hpos'. injection Hpos' as <-.
  rewrite Hext in Hext'. injection Hext' as <- <-.
  by rewrite Hutts.
Qed.

(** C6.  In utterance mode, a [globalts] that is not the recorded start of
    any utterance position of its sweep makes [getbatch] throw the logic
    error for an invalid [globalts]; the object is left as the
    randomization left it: no chunk is paged and nothing is returned. *)
Theorem getbatch_rejects_unaligned_globalts fuel g fr s0 sweep s :
  framemode s0 = false -> posmap_consistent s0 ->
  lazyrandomization b fuel g s0 = (Ok sweep, s) ->
  (forall u, u ∈ randomizedutterancerefs s -> ref_globalts u <> g) ->
  getbatch b io_fails archive_featdim classid_bits fuel g fr s0
  = (Throw logic_invalid_globalts, s).
Proof.
  intros Hfm Hcons Hrun Hnone.
  destruct (posmap_consistent_lazyrandomization _ _ _ _ _ Hfm Hcons Hrun) as [Hcons' _].
  rewrite (getbatch_utterances fuel g fr s0 sweep s Hfm Hcons Hrun).
  apply getbatch_utterancemode_invalid. rewrite Hcons'.
  apply build_posmap_None. split; [done|]. exact Hnone.
Qed.
End Batches.

(** In the same scenario a request for 300 frames at 0 returns the
    utterances of 150 and 100 frames; the third would bring the total to
    330. *)
Lemma getbatch_greedy_extent_witness :
  exists epos,
    epos = 2 /\
    forall out s',
      @getbatch stride WIN64 (fun _ => false) 39 16 100 0 300 (@scenario_source stride 0)
      = (Ok out, s') ->
      (numframes <$> feat_utterances out) = [150; 100]%Z /\ feat_cols out = 250%Z.
Proof.
  destruct (@lazyrandomization stride WIN64 100 0 (@scenario_source stride 0))
    as [r s] eqn:Hrun.
  pose proof Hrun as Hval. vm_compute in Hval. injection Hval as <- <-.
  edestruct (@getbatch_greedy_extent stride WIN64 (fun _ => false) 39 16 100 0 300
               (@scenario_source stride 0) _ _ 0 eq_refl eq_refl Hrun)
    as (epos & He & Hext & Hbelow & Hstop & Hout).
  - vm_compute. reflexivity.
  - apply frames_fitb_true. vm_compute. reflexivity.
  - vm_compute. reflexivity.
  - vm_compute in Hext. injection Hext as <-.
    exists 2. split; [reflexivity|].
    intros out s' Hget. destruct (Hout out s' Hget) as (Hu & Hc).
    rewrite Hc, Hu. vm_compute. done.
Defined.

(** In the same scenario the utterances start at 0, 150 and 250: a request
    at 5 is thrown out. *)
Lemma getbatch_rejects_unaligned_globalts_witness :
  exists s,
    @getbatch stride WIN64 (fun _ => false) 39 16 100 5 200 (@scenario_source stride 0)
    = (Throw logic_invalid_globalts, s) /\
    (ref_globalts <$> randomizedutterancerefs s) = [0; 150; 250]%Z.
Proof.
  destruct (@lazyrandomization stride WIN64 100 5 (@scenario_source stride 0))
    as [r s] eqn:Hrun.
  pose proof Hrun as Hval. vm_compute in Hval. injection Hval as <- <-.
  eexists. split.
  - apply (@getbatch_rejects_unaligned_globalts stride WIN64 (fun _ => false) 39 16
             100 5 200 (@scenario_source stride 0) _ _ eq_refl eq_refl Hrun).
    apply Forall_forall. repeat constructor; discriminate.
  - vm_compute. reflexivity.
Defined.

(** C1 as stated fails.  With the generator [counting] the utterances of
    the scenario keep their order 100, 150, 80, and [getbatch (0, 200)]
    returns the first utterance alone, 100 frames: with the second the
    total would be 250, which is not below 200. *)
Lemma getbatch_scenario_first_utterance_only :
  exists out s',
    @getbatch counting WIN64 (fun _ => false) 39 16 100 0 200 (@scenario_source counting 0)
    = (Ok out, s') /\
    (numframes <$> randomizedutterancerefs s') = [100; 150; 80]%Z /\
    (numframes <$> feat_utterances out) = [100%Z] /\
    feat_cols out = 100%Z /\ feat_cols out <> 250%Z.
Proof.
  destruct (@getbatch counting WIN64 (fun _ => false) 39 16 100 0 200
              (@scenario_source counting 0)) as [r s] eqn:Hrun.
  vm_compute in Hrun. injection Hrun as <- <-.
  eexists _, _. split; [reflexivity|]. vm_compute. split_and!; congruence.
Defined.

(** C3.  The window of a randomized chunk does not always hold the chunk
    itself.  [long_source] has chunks of 100000 and 50000 frames.  With a
    randomization range of 100000 frames, and with one of 0, the second
    randomized chunk gets the window [[1, 1)]: the loop that extends
    [windowend] takes the chunk in only if it is shorter than half the
    range, whereas the first chunk gets [[0, 1)] whatever its length.  The
    draw of a swap partner from the empty range of positions is then
    undefined. *)
Lemma window_without_own_chunk :
  (exists s,
     @lazyrandomization stride WIN64 100 0 (@long_source stride 0 0)
     = (Throw undefined_behaviour, s) /\
     ((fun c => (windowbegin c, windowend c)) <$> randomizedchunks s) = [(0, 1); (1, 1)]) /\
  (exists s,
     @lazyrandomization stride WIN64 100 0 (@long_source stride 100000 0)
     = (Throw undefined_behaviour, s) /\
     ((fun c => (windowbegin c, windowend c)) <$> randomizedchunks s) = [(0, 1); (1, 1)]).
Proof.
  split.
  - destruct (@lazyrandomization stride WIN64 100 0 (@long_source stride 0 0))
      as [r s] eqn:Hrun.
    vm_compute in Hrun. injection Hrun as <- <-.
    eexists. split; [reflexivity|]. vm_compute. reflexivity.
  - destruct (@lazyrandomization stride WIN64 100 0 (@long_source stride 100000 0))
      as [r s] eqn:Hrun.
    vm_compute in Hrun. injection Hrun as <- <-.
    eexists. split; [reflexivity|]. vm_compute. reflexivity.
Defined.
Example long_source_constructed `{CRand} (rr : Z) (r0 : rng) :
  construct WIN64 16 long_files ∅ 0 rr ∅ false r0 = Ok (long_source rr r0, []).
Proof. reflexivity. Qed.

(** ** The first valid start *)


Lemma sweep_fitsb_true refs : sweep_fitsb refs = true -> sweep_fits refs.
Proof.
  unfold sweep_fitsb. intros Hall u Hu. rewrite forallb_forall in Hall.
  apply list_elem_of_In in Hu. specialize (Hall u Hu). lia.
Qed.

Lemma place_utterances_chained all rcs refs : forall t refs2,
  place_utterances all rcs refs t = Ok refs2 -> chained t refs2.
Proof.
  induction refs as [|u refs IH]; intros t refs2 Hplace; simpl in Hplace.
  - by injection Hplace as <-.
  - apply bind_Ok in Hplace as (c & _ & Hplace).
    apply bind_Ok in Hplace as (d & _ & Hplace).
    apply bind_Ok in Hplace as (n & _ & Hplace).
    apply bind_Ok in Hplace as (tl & Htl & Hplace).
    injection Hplace as <-. simpl. split; [done|]. by apply IH.
Qed.

Lemma ref_globalte_fits u :
  (0 <= numframes u)%Z -> (0 <= ref_globalts u)%Z ->
  (ref_globalts u + numframes u < SIZE_MOD)%Z ->
  ref_globalte u = (ref_globalts u + numframes u)%Z.
Proof. intros. unfold ref_globalte, sz_add. apply wrap_small. lia. Qed.

(** On a sweep that fits, a chained table is sorted by start time. *)
Lemma chained_sorted refs : forall t u i v,
  chained t (u :: refs) -> sweep_fits (u :: refs) ->
  refs !! i = Some v ->
  (ref_globalts u + numframes u <= ref_globalts v)%Z.
Proof.
  induction refs as [|w refs IH]; intros t u i v [Ht Hch] Hfit Hv; [done|].
  destruct (Hfit u ltac:(left)) as (Hn & Hs & He).
  rewrite (ref_globalte_fits u Hn Hs He) in Hch.
  destruct i as [|i].
  - injection Hv as <-. destruct Hch as [-> _]. lia.
  - simpl in Hv. destruct Hch as [Hw Hch].
    assert (sweep_fits (w :: refs)) as Hfit' by (intros x Hx; apply Hfit; by right).
    pose proof (IH _ w i v (conj eq_refl Hch) Hfit' Hv).
    destruct (Hfit w ltac:(right; left)) as (? & ? & ?). lia.
Qed.

Lemma first_at_or_after_spec refs : forall t g,
  chained t refs -> sweep_fits refs ->
  match first_at_or_after refs g with
  | Some m =>
      (g <= m)%Z /\ (exists v, v ∈ refs /\ ref_globalts v = m) /\
      (forall v, v ∈ refs -> (g <= ref_globalts v)%Z -> (m <= ref_globalts v)%Z)
  | None => forall v, v ∈ refs -> (ref_globalts v < g)%Z
  end.
Proof.
  induction refs as [|u refs IH]; intros t g Hch Hfit; simpl.
  - intros v Hv. by apply elem_of_nil in Hv.
  - destruct (Z.geb_spec (ref_globalts u) g) as [Hge|Hlt].
    + split; [lia|]. split; [exists u; split; [by left|done]|].
      intros v [->|Hv]%elem_of_cons Hgv; [lia|].
      apply list_elem_of_lookup in Hv as [i Hi].
      pose proof (chained_sorted refs t u i v Hch Hfit Hi).
      destruct (Hfit u ltac:(left)) as (? & ? & ?). lia.
    + destruct Hch as [Ht Hch].
      assert (sweep_fits refs) as Hfit' by (intros x Hx; apply Hfit; by right).
      specialize (IH _ g Hch Hfit').
      destruct (first_at_or_after refs g) as [m|].
      * destruct IH as (Hgm & (v & Hv & Hvm) & Hmin). split; [done|].
        split; [exists v; split; [by right|done]|].
        intros x [->|Hx]%elem_of_cons Hgx; [lia|by apply Hmin].
      * intros v [->|Hv]%elem_of_cons; [done|by apply IH].
Qed.

Section FirstValid.
Context `{CRand}.
Variable b : build.

Lemma randomization_only_refl s : randomization_only s s.
Proof. by split. Qed.
Lemma randomization_only_trans s1 s2 s3 :
  randomization_only s1 s2 -> randomization_only s2 s3 -> randomization_only s1 s3.
Proof. intros [] []. split; congruence. Qed.

Ltac ro_auto :=
  repeat first
    [ apply (preserves_sbind randomization_only_trans); [|intros ?]
    | apply preserves_sret; apply randomization_only_refl
    | apply preserves_lift; apply randomization_only_refl
    | apply preserves_gets; apply randomization_only_refl
    | apply preserves_throw; apply randomization_only_refl
    | apply preserves_modify; intros ?; by split
    | match goal with
      | |- preserves _ (match ?x with _ => _ end) => destruct x
      end ].

Lemma lazyrandomization_randomization_only fuel g :
  preserves randomization_only (lazyrandomization b fuel g).
Proof.
  unfold lazyrandomization, randomize_frames, randomize_utterances. ro_auto.
Qed.

Lemma utterances_placed_lazyrandomization fuel g s0 sweep s :
  framemode s0 = false -> utterances_placed s0 ->
  lazyrandomization b fuel g s0 = (Ok sweep, s) ->
  utterances_placed s.
Proof.
  intros Hfm Hplaced Hrun.
  destruct (lazyrandomization_utterances b _ _ _ _ _ Hfm Hrun)
    as (_ & _ & [[_ ->]|[_ Hre]]); [done|].
  destruct Hre as (? & ? & ? & ? & ? & ? & ? & ? & refs2 & _ & _ & _ & _ & _ & _ & Hpl & _ & ->).
  eexists. simpl. by eapply place_utterances_chained.
Qed.

(** C7.  [firstvalidglobalts] returns its argument in frame mode.  In
    utterance mode, on a sweep that fits [size_t], it returns the smallest
    recorded utterance start at or after the argument, and the end of the
    last utterance when every utterance starts before the argument. *)
Theorem firstvalidglobalts_spec fuel g s0 sweep s :
  lazyrandomization b fuel g s0 = (Ok sweep, s) ->
  (framemode s0 = true -> firstvalidglobalts b fuel g s0 = (Ok g, s)) /\
  (framemode s0 = false -> utterances_placed s0 ->
   sweep_fits (randomizedutterancerefs s) ->
   ((exists u, u ∈ randomizedutterancerefs s /\ (g <= ref_globalts u)%Z) ->
    exists m,
      firstvalidglobalts b fuel g s0 = (Ok m, s) /\ (g <= m)%Z /\
      (exists v, v ∈ randomizedutterancerefs s /\ ref_globalts v = m) /\
      (forall v, v ∈ randomizedutterancerefs s -> (g <= ref_globalts v)%Z ->
                 (m <= ref_globalts v)%Z)) /\
   ((forall u, u ∈ randomizedutterancerefs s -> (ref_globalts u < g)%Z) ->
    forall l, last (randomizedutterancerefs s) = Some l ->
      firstvalidglobalts b fuel g s0 = (Ok (ref_globalts l + numframes l)%Z, s))).
Proof.
  intros Hrun.
  pose proof (lazyrandomization_randomization_only fuel g _ _ _ Hrun) as Hro.
  assert (forall fm, framemode s0 = fm ->
    firstvalidglobalts b fuel g s0 =
    if fm then (Ok g, s)
    else match first_at_or_after (randomizedutterancerefs s) g with
         | Some ts => (Ok ts, s)
         | None => match last (randomizedutterancerefs s) with
                   | Some u => (Ok (ref_globalte u), s)
                   | None => (Throw undefined_behaviour, s)
                   end
         end) as Hunfold.
  { intros fm Hfm. unfold firstvalidglobalts, sbind at 1. rewrite Hrun.
    unfold sbind, gets. rewrite (ro_framemode _ _ Hro), Hfm.
    destruct fm; [done|].
    destruct (first_at_or_after _ _); [done|]. by destruct (last _). }
  split.
  - intros Hfm. by rewrite (Hunfold true Hfm).
  - intros Hfm Hplaced Hfit. rewrite (Hunfold false Hfm).
    destruct (utterances_placed_lazyrandomization _ _ _ _ _ Hfm Hplaced Hrun) as [t Hch].
    pose proof (first_at_or_after_spec _ t g Hch Hfit) as Hspec.
    destruct (first_at_or_after (randomizedutterancerefs s) g) as [m|].
    + split.
      * intros _. exists m. by destruct Hspec as (? & ? & ?).
      * intros Hall l Hl. destruct Hspec as (Hgm & (v & Hv & <-) & _).
        specialize (Hall v Hv). lia.
    + split.
      * intros (u & Hu & Hgu). specialize (Hspec u Hu). lia.
      * intros _ l Hl. rewrite Hl.
        assert (l ∈ randomizedutterancerefs s) as Hin.
        { rewrite last_lookup in Hl. by eapply list_elem_of_lookup_2. }
        destruct (Hfit l Hin) as (? & ? & ?). by rewrite ref_globalte_fits.
Qed.
End FirstValid.

(** In the scenario with the generator [stride] the utterances start at 0,
    150 and 250 and the last ends at 330. *)
Lemma firstvalidglobalts_spec_witness :
  (exists s, @firstvalidglobalts stride WIN64 100 5 (@scenario_source stride 0)
             = (Ok 150%Z, s)) /\
  (exists s, @firstvalidglobalts stride WIN64 100 260 (@scenario_source stride 0)
             = (Ok 330%Z, s)).
Proof.
  split.
  - destruct (@lazyrandomization stride WIN64 100 5 (@scenario_source stride 0))
      as [r s] eqn:Hrun.
    pose proof Hrun as Hval. vm_compute in Hval. injection Hval as <- <-.
    destruct (@firstvalidglobalts_spec stride WIN64 100 5 _ _ _ Hrun) as [_ Hutt].
    destruct Hutt as [Hfirst _].
    + reflexivity.
    + exists 0%Z. exact I.
    + apply sweep_fitsb_true. vm_compute. reflexivity.
    + destruct Hfirst as (m & Hm & Hge & (v & Hv & Hvm) & Hmin).
      * eexists (mkutteranceref 0 0 100 150). split; [|vm_compute; discriminate].
        right. left.
      * eexists. rewrite Hm. f_equal. f_equal.
        assert (m <= 150)%Z.
        { apply (Hmin (mkutteranceref 0 0 100 150)); [right; left|vm_compute; discriminate]. }
        repeat (apply elem_of_cons in Hv as [->|Hv]); simpl in *; try lia.
        by apply elem_of_nil in Hv.
  - destruct (@lazyrandomization stride WIN64 100 260 (@scenario_source stride 0))
      as [r s] eqn:Hrun.
    pose proof Hrun as Hval. vm_compute in Hval. injection Hval as <- <-.
    destruct (@firstvalidglobalts_spec stride WIN64 100 260 _ _ _ Hrun) as [_ Hutt].
    destruct Hutt as [_ Hlast].
    + reflexivity.
    + exists 0%Z. exact I.
    + apply sweep_fitsb_true. vm_compute. reflexivity.
    + eexists. rewrite (Hlast ltac:(apply Forall_forall; repeat constructor)
                          (mkutteranceref 0 2 80 250) eq_refl).
      reflexivity.
Defined.

(** ** Every position stays within its window *)


Section Within.
Variable all : list utterancechunkdata.

Lemma build_positionchunkwindows_owner rcs : forall k0 pcw i,
  build_positionchunkwindows all rcs k0 = Ok pcw ->
  pcw !! i = (fun k => k0 + k) <$> owner (utterance_sizes all rcs) i.
Proof.
  induction rcs as [|c rcs IH]; intros k0 pcw i Hb; simpl in Hb.
  - injection Hb as <-. done.
  - apply bind_Ok in Hb as (n & Hn & Hb). apply bind_Ok in Hb as (tl & Htl & Hb).
    injection Hb as <-.
    unfold chunk_numutterances, getchunkdata in Hn.
    apply bind_Ok in Hn as (d & Hd%at_Ok & [= <-]).
    simpl. rewrite Hd. simpl. case_bool_decide as Hlt.
    + rewrite lookup_app_l by (by rewrite length_replicate).
      rewrite lookup_replicate_2 by done. simpl. f_equal. lia.
    + rewrite lookup_app_r by (rewrite length_replicate; lia).
      rewrite length_replicate. rewrite (IH _ _ _ Htl).
      destruct (owner _ _); simpl; [f_equal; lia|done].
Qed.

Lemma verify_utterances_valid rcs pcw refs : forall i0,
  verify_utterances rcs pcw refs i0 = Ok () ->
  forall i u, refs !! i = Some u ->
    exists k c, pcw !! (i0 + i) = Some k /\ rcs !! k = Some c /\
                windowbegin c <= chunkindex u < windowend c.
Proof.
  induction refs as [|v refs IH]; intros i0 Hver i u Hu; [done|].
  simpl in Hver. apply bind_Ok in Hver as (k & Hk%at_Ok & Hver).
  apply bind_Ok in Hver as (c & Hc%at_Ok & Hver).
  destruct (_ || _) eqn:Hor; [done|].
  apply orb_false_elim in Hor as [H1 H2].
  apply bool_decide_eq_false in H1. apply bool_decide_eq_false in H2.
  destruct i as [|i].
  - injection Hu as <-. exists k, c. rewrite Nat.add_0_r. split_and!; try done; lia.
  - simpl in Hu. destruct (IH _ Hver i u Hu) as (k' & c' & Hk' & Hc' & Hw).
    exists k', c'. replace (i0 + S i) with (S i0 + i) by lia. done.
Qed.

Lemma in_window_Z_true c ci :
  in_window_Z c ci = true <->
  (Z.of_nat (windowbegin c) <= ci < Z.of_nat (windowend c))%Z.
Proof. unfold in_window_Z. lia. Qed.

Lemma window_contains_true c ci :
  window_contains c ci = true <-> windowbegin c <= ci < windowend c.
Proof.
  unfold window_contains. rewrite andb_true_iff, !bool_decide_eq_true. done.
Qed.

Lemma check_frames_valid c framerefs n : forall t t',
  check_frames c framerefs t n = Ok t' ->
  t' = t + n /\
  forall j f, t <= j < t + n -> framerefs !! j = Some f ->
    in_window_Z c (fr_chunkindex f) = true.
Proof.
  induction n as [|n IH]; intros t t' Hck; simpl in Hck.
  - injection Hck as <-. split; [lia|]. intros; lia.
  - apply bind_Ok in Hck as (f & Hf%at_Ok & Hck).
    destruct (in_window_Z c (fr_chunkindex f)) eqn:Hin; [|done]. simpl in Hck.
    destruct (IH _ _ Hck) as [-> Hall]. split; [lia|].
    intros j f' Hj Hf'. destruct (decide (j = t)) as [->|].
    + by simplify_eq.
    + apply (Hall j); [lia|done].
Qed.

Lemma check_utterances_valid c framerefs utts : forall t t',
  check_utterances c framerefs utts t = Ok t' ->
  t' = t + frames_in utts /\
  forall j f, t <= j < t + frames_in utts -> framerefs !! j = Some f ->
    in_window_Z c (fr_chunkindex f) = true.
Proof.
  induction utts as [|u utts IH]; intros t t' Hck; simpl in Hck.
  - injection Hck as <-. unfold frames_in. simpl. split; [lia|]. intros; lia.
  - apply bind_Ok in Hck as (t1 & Ht1 & Hck).
    apply check_frames_valid in Ht1 as [-> Hfr].
    destruct (IH _ _ Hck) as [-> Hall].
    assert (frames_in (u :: utts) = Z.to_nat (utt_numframes u) + frames_in utts) as ->
      by done.
    split; [lia|]. intros j f Hj Hf.
    destruct (decide (j < t + Z.to_nat (utt_numframes u))).
    + apply (Hfr j); [lia|done].
    + apply (Hall j); [lia|done].
Qed.

Lemma check_chunks_valid rcs framerefs : forall t t',
  check_chunks all rcs framerefs t = Ok t' ->
  t' = t + sum_list (frame_sizes all rcs) /\
  forall j f, j < sum_list (frame_sizes all rcs) -> framerefs !! (t + j) = Some f ->
    exists k c, owner (frame_sizes all rcs) j = Some k /\ rcs !! k = Some c /\
                in_window_Z c (fr_chunkindex f) = true.
Proof.
  induction rcs as [|c rcs IH]; intros t t' Hck; simpl in Hck.
  - injection Hck as <-. simpl. split; [lia|]. intros; lia.
  - apply bind_Ok in Hck as (d & Hd%at_Ok & Hck).
    apply bind_Ok in Hck as (t1 & Ht1 & Hck).
    apply check_utterances_valid in Ht1 as [-> Hfr].
    destruct (IH _ _ Hck) as [-> Hall].
    simpl. rewrite Hd. simpl. split; [lia|].
    intros j f Hj Hf. case_bool_decide as Hlt.
    + exists 0, c. split_and!; try done. apply (Hfr (t + j)); [lia|done].
    + destruct (Hall (j - frames_in (utteranceset d)) f) as (k & c' & Hk & Hc' & Hw).
      * lia.
      * rewrite <- Hf. f_equal. lia.
      * exists (S k), c'. rewrite Hk. done.
Qed.
End Within.

(** *** The swap loops keep every position valid *)

Section Swaps.
Context `{CRand}.
Variable all : list utterancechunkdata.

Lemma isvalidforthisposition_true rcs k u :
  isvalidforthisposition rcs k u = Ok true ->
  exists c, rcs !! k = Some c /\ window_contains c (chunkindex u) = true.
Proof.
  unfold isvalidforthisposition. intros Hv.
  apply bind_Ok in Hv as (c & Hc%at_Ok & [= Hw]). eauto.
Qed.

Lemma swap_retry_valid rcs pcw fuel : forall refs r i pb pe refs' r',
  valid_utterances rcs pcw refs ->
  swap_retry fuel rcs pcw refs r i pb pe = Ok (refs', r') ->
  valid_utterances rcs pcw refs' /\ length refs' = length refs.
Proof.
  induction fuel as [|fuel IH]; intros refs r i pb pe refs' r' Hvalid Hswap;
    simpl in Hswap; [done|].
  apply bind_Ok in Hswap as ([j r1] & Hrand & Hswap).
  destruct (decide (i = j)) as [->|Hij].
  { injection Hswap as <- <-. done. }
  apply bind_Ok in Hswap as (wi & Hwi%at_Ok & Hswap).
  apply bind_Ok in Hswap as (uj & Huj%at_Ok & Hswap).
  apply bind_Ok in Hswap as (okj & Hokj & Hswap).
  destruct okj; simpl in Hswap; [|by eapply IH].
  apply bind_Ok in Hswap as (wj & Hwj%at_Ok & Hswap).
  apply bind_Ok in Hswap as (ui & Hui%at_Ok & Hswap).
  apply bind_Ok in Hswap as (oki & Hoki & Hswap).
  destruct oki; simpl in Hswap; [|by eapply IH].
  injection Hswap as <- <-.
  apply isvalidforthisposition_true in Hokj as (ci & Hci & Hcj).
  apply isvalidforthisposition_true in Hoki as (cj & Hcj' & Hci').
  pose proof (lookup_lt_Some _ _ _ Hui) as Hilt.
  pose proof (lookup_lt_Some _ _ _ Huj) as Hjlt.
  split; [|by rewrite !length_insert].
  intros p u k c Hu Hk Hc.
  destruct (decide (p = j)) as [->|Hpj].
  - rewrite list_lookup_insert_eq in Hu by (by rewrite length_insert).
    injection Hu as <-. simpl. by simplify_eq.
  - rewrite list_lookup_insert_ne in Hu by done.
    destruct (decide (p = i)) as [->|Hpi].
    + rewrite list_lookup_insert_eq in Hu by done.
      injection Hu as <-. simpl. by simplify_eq.
    + rewrite list_lookup_insert_ne in Hu by done. by eapply Hvalid.
Qed.

Lemma swap_positions_valid rcs pcw fuel n : forall refs r i refs' r',
  valid_utterances rcs pcw refs ->
  swap_positions all fuel rcs pcw refs r i n = Ok (refs', r') ->
  valid_utterances rcs pcw refs' /\ length refs' = length refs.
Proof.
  induction n as [|n IH]; intros refs r i refs' r' Hvalid Hswap; simpl in Hswap.
  - by injection Hswap as <- <-.
  - apply bind_Ok in Hswap as ([refs1 r1] & Hpos & Hswap).
    unfold swap_position in Hpos.
    apply bind_Ok in Hpos as (k & _ & Hpos). apply bind_Ok in Hpos as (dc & _ & Hpos).
    apply bind_Ok in Hpos as (cb & _ & Hpos). apply bind_Ok in Hpos as (ce & _ & Hpos).
    apply bind_Ok in Hpos as (pe & _ & Hpos).
    apply swap_retry_valid in Hpos as [Hvalid1 Hlen1]; [|done].
    destruct (IH _ _ _ _ _ Hvalid1 Hswap) as [? ?]. split; [done|congruence].
Qed.

Lemma isframepositionvalid_true rcs framerefs ttochunk t :
  isframepositionvalid rcs framerefs ttochunk t = Ok true ->
  exists k c f, ttochunk !! t = Some k /\ rcs !! Z.to_nat k = Some c /\
                framerefs !! t = Some f /\ in_window_Z c (fr_chunkindex f) = true.
Proof.
  unfold isframepositionvalid. intros Hv.
  apply bind_Ok in Hv as (k & Hk%at_Ok & Hv).
  apply bind_Ok in Hv as (c & Hc%at_Ok & Hv).
  apply bind_Ok in Hv as (f & Hf%at_Ok & [= Hw]).
  exists k, c, f. split_and!; try done. unfold in_window_Z. lia.
Qed.

Lemma frame_swap_retry_valid rcs ttochunk fuel : forall framerefs r t c pb pe framerefs' r',
  valid_frames rcs ttochunk framerefs ->
  frame_swap_retry fuel rcs ttochunk framerefs r t c pb pe = Ok (framerefs', r') ->
  valid_frames rcs ttochunk framerefs' /\ length framerefs' = length framerefs.
Proof.
  induction fuel as [|fuel IH]; intros framerefs r t c pb pe framerefs' r' Hvalid Hswap;
    simpl in Hswap; [done|].
  apply bind_Ok in Hswap as ([tswap r1] & Hrand & Hswap).
  apply bind_Ok in Hswap as (fswap & Hfswap%at_Ok & Hswap).
  destruct (negb (in_window_Z c (fr_chunkindex fswap))); [by eapply IH|].
  apply bind_Ok in Hswap as (ft & Hft%at_Ok & Hswap).
  apply bind_Ok in Hswap as (tci & Htci%at_Ok & Hswap).
  apply bind_Ok in Hswap as (tc & Htc%at_Ok & Hswap).
  destruct (negb (in_window_Z tc (fr_chunkindex ft))); [by eapply IH|].
  apply bind_Ok in Hswap as (vt & Hvt & Hswap).
  apply bind_Ok in Hswap as (vs & Hvs & Hswap).
  destruct vt, vs; simpl in Hswap; try by eapply IH.
  injection Hswap as <- <-.
  apply isframepositionvalid_true in Hvt as (kt & ct & f1 & Hkt & Hct & Hf1 & Hw1).
  apply isframepositionvalid_true in Hvs as (ks & cs & f2 & Hks & Hcs & Hf2 & Hw2).
  split; [|by rewrite !length_insert].
  intros p f k c' Hf Hk Hc'.
  destruct (decide (p = tswap)) as [->|Hps]; [by simplify_eq|].
  destruct (decide (p = t)) as [->|Hpt]; [by simplify_eq|].
  rewrite !list_lookup_insert_ne in Hf by done. by eapply Hvalid.
Qed.

Lemma frame_swap_positions_valid rcs ttochunk fuel sweepts n :
  forall framerefs r t framerefs' r',
  valid_frames rcs ttochunk framerefs ->
  frame_swap_positions all fuel sweepts rcs ttochunk framerefs r t n
  = Ok (framerefs', r') ->
  valid_frames rcs ttochunk framerefs' /\ length framerefs' = length framerefs.
Proof.
  induction n as [|n IH]; intros framerefs r t framerefs' r' Hvalid Hswap;
    simpl in Hswap.
  - by injection Hswap as <- <-.
  - apply bind_Ok in Hswap as ([framerefs1 r1] & Hpos & Hswap).
    unfold frame_swap_position in Hpos.
    apply bind_Ok in Hpos as (k & _ & Hpos). apply bind_Ok in Hpos as (c & _ & Hpos).
    apply bind_Ok in Hpos as (cb & _ & Hpos). apply bind_Ok in Hpos as (ce & _ & Hpos).
    apply bind_Ok in Hpos as (te & _ & Hpos).
    apply frame_swap_retry_valid in Hpos as [Hvalid1 Hlen1]; [|done].
    destruct (IH _ _ _ _ _ Hvalid1 Hswap) as [? ?]. split; [done|congruence].
Qed.
End Swaps.

Section WithinWindows.
Context `{CRand}.
Variable b : build.

Lemma lazyrandomization_frames fuel g s sweep s' :
  framemode s = true ->
  lazyrandomization b fuel g s = (Ok sweep, s') ->
  _totalframes s <> 0%Z /\ sweep = (g / _totalframes s)%Z /\
  ((sweep = currentsweep s /\ s' = s) \/
   (sweep <> currentsweep s /\
    exists chunkrefs r rcs0 rcs gen framerefs0 ttochunk framerefs1 r1 tn,
      randomshuffle (seq 0 (length (allchunks s))) sweep = Ok (chunkrefs, r) /\
      place_chunks (allchunks s) chunkrefs [] (sz_mul sweep (_totalframes s)) = Ok rcs0 /\
      compute_windows (allchunks s) (randomizationrange s) rcs0 = Ok rcs /\
      enum_chunks (allchunks s) b rcs 0 = Ok gen /\
      write_enumeration (_totalframes s) (randomizedframerefs s) gen
      = Ok (framerefs0, ttochunk) /\
      frame_swap_positions (allchunks s) fuel (sz_mul sweep (_totalframes s)) rcs
        ttochunk framerefs0 (srand (trunc 32 (trunc 32 sweep + 1))) 0
        (length framerefs0) = Ok (framerefs1, r1) /\
      check_chunks (allchunks s) rcs framerefs1 0 = Ok tn /\
      s' = mksource true (latticesource s) (allchunks s) (classids s) (numutterances s)
             (_totalframes s) (randomizationrange s) sweep rcs (chunksinram s)
             (randomizedutterancerefs s) (randomizedutteranceposmap s)
             (positionchunkwindows s) framerefs1 (featdim s) r1 (iocalls s))).
Proof.
  intros Hfm Hrun. unfold lazyrandomization in Hrun.
  apply sbind_Ok in Hrun as (total & s1 & [= <- <-] & Hrun).
  destruct (decide (_totalframes s = 0%Z)) as [|Hne]; [done|].
  split; [done|].
  apply sbind_Ok in Hrun as (cur & s1 & [= <- <-] & Hrun).
  destruct (decide ((g / _totalframes s)%Z = currentsweep s)) as [Heq|Hneq].
  { injection Hrun as <- <-. split; [done|]. by left. }
  step_pure Hrun. step_pure Hrun.
  step_lift Hrun as [chunkrefs r] Hshuffle.
  step_pure Hrun. step_pure Hrun.
  step_lift Hrun as rcs0 Hplace.
  step_pure Hrun. step_pure Hrun.
  step_lift Hrun as rcs Hwin.
  step_pure Hrun. step_pure Hrun.
  simpl in Hrun. rewrite Hfm in Hrun.
  apply sbind_Ok in Hrun as ([] & s1 & Hfr & [= <- <-]).
  split; [done|]. right. split; [done|].
  unfold randomize_frames in Hfr.
  step_pure Hfr. step_pure Hfr. step_pure Hfr. step_pure Hfr. step_pure Hfr.
  step_lift Hfr as gen Hgen.
  step_lift Hfr as [framerefs0 ttochunk] Hwrite.
  step_pure Hfr. step_pure Hfr.
  step_lift Hfr as [framerefs1 r1] Hswap.
  step_pure Hfr.
  step_lift Hfr as tn Hcheck.
  injection Hfr as <-.
  exists chunkrefs, r, rcs0, rcs, gen, framerefs0, ttochunk, framerefs1, r1, tn.
  split_and!;
    [exact Hshuffle|exact Hplace|exact Hwin|exact Hgen|exact Hwrite|exact Hswap
    |exact Hcheck|].
  clear -Hfm. destruct s. cbn in Hfm. subst. reflexivity.
Qed.

(** C2.  After a rebuild that completes, in utterance mode the utterance
    at every position, and in frame mode the frame at every frame
    position, lives in a chunk of the window of the position's defining
    chunk.  The swap loops keep this: they take an assignment in which
    every position is valid to one in which every position is valid. *)
Theorem randomization_within_windows fuel g s0 sweep s :
  lazyrandomization b fuel g s0 = (Ok sweep, s) ->
  currentsweep s0 <> sweep ->
  (framemode s0 = false ->
   forall i u, randomizedutterancerefs s !! i = Some u ->
     utterance_in_window (allchunks s) (randomizedchunks s) i u) /\
  (framemode s0 = true ->
   forall t f, t < sum_list (frame_sizes (allchunks s) (randomizedchunks s)) ->
     randomizedframerefs s !! t = Some f ->
     frame_in_window (allchunks s) (randomizedchunks s) t f) /\
  (forall all rcs pcw refs r n refs' r',
     valid_utterances rcs pcw refs ->
     swap_positions all fuel rcs pcw refs r 0 n = Ok (refs', r') ->
     valid_utterances rcs pcw refs') /\
  (forall all sweepts rcs ttochunk framerefs r n framerefs' r',
     valid_frames rcs ttochunk framerefs ->
     frame_swap_positions all fuel sweepts rcs ttochunk framerefs r 0 n
     = Ok (framerefs', r') ->
     valid_frames rcs ttochunk framerefs').
Proof.
  intros Hrun Hrebuild. split_and!.
  - intros Hfm i u Hu.
    destruct (lazyrandomization_utterances b _ _ _ _ _ Hfm Hrun)
      as (_ & _ & [[Heq _]|[_ Hre]]); [congruence|].
    destruct Hre as (? & ? & ? & rcs & pcw & ? & ? & ? & refs2
                     & _ & _ & _ & Hpcw & _ & _ & _ & Hver & ->).
    simpl in *.
    destruct (verify_utterances_valid _ _ _ _ Hver i u Hu) as (k & c & Hk & Hc & Hw).
    simpl in Hk. rewrite (build_positionchunkwindows_owner _ _ _ _ i Hpcw) in Hk.
    destruct (owner _ i) as [k'|] eqn:Hown; [|done]. injection Hk as <-.
    exists k', c. done.
  - intros Hfm t f Ht Hf.
    destruct (lazyrandomization_frames _ _ _ _ _ Hfm Hrun)
      as (_ & _ & [[Heq _]|[_ Hre]]); [congruence|].
    destruct Hre as (? & ? & ? & rcs & ? & ? & ? & framerefs1 & ? & tn
                     & _ & _ & _ & _ & _ & _ & Hcheck & ->).
    simpl in *.
    destruct (check_chunks_valid _ _ _ _ _ Hcheck) as [_ Hall].
    destruct (Hall t f Ht Hf) as (k & c & Hk & Hc & Hw).
    exists k, c. split_and!; try done; by apply in_window_Z_true.
  - intros all rcs pcw refs r n refs' r' Hvalid Hswap.
    by destruct (swap_positions_valid all _ _ _ _ _ _ _ _ _ Hvalid Hswap).
  - intros all sweepts rcs ttochunk framerefs r n framerefs' r' Hvalid Hswap.
    by destruct (frame_swap_positions_valid all _ _ _ _ _ _ _ _ _ _ Hvalid Hswap).
Qed.
End WithinWindows.

(** Over the two small chunks with a randomization range of 100 frames and
    the generator [stride], in utterance mode and in frame mode. *)
Lemma randomization_within_windows_witness :
  (exists s, @lazyrandomization stride WIN64 100 0 (@tiny_source stride false 100 0)
             = (Ok 0%Z, s) /\
     forall i u, randomizedutterancerefs s !! i = Some u ->
       utterance_in_window (allchunks s) (randomizedchunks s) i u) /\
  (exists s, @lazyrandomization stride WIN64 100 0 (@tiny_source stride true 100 0)
             = (Ok 0%Z, s) /\
     (fr_chunkindex <$> randomizedframerefs s) = [0; 1; 0; 0; 0; 0; 1]%Z /\
     forall t f, t < 7 -> randomizedframerefs s !! t = Some f ->
       frame_in_window (allchunks s) (randomizedchunks s) t f).
Proof.
  split.
  - destruct (@lazyrandomization stride WIN64 100 0 (@tiny_source stride false 100 0))
      as [r s] eqn:Hrun.
    pose proof Hrun as Hval. vm_compute in Hval. injection Hval as <- <-.
    eexists. split; [reflexivity|].
    apply (@randomization_within_windows stride WIN64 100 0 _ _ _ Hrun).
    + vm_compute. discriminate.
    + reflexivity.
  - destruct (@lazyrandomization stride WIN64 100 0 (@tiny_source stride true 100 0))
      as [r s] eqn:Hrun.
    pose proof Hrun as Hval. vm_compute in Hval. injection Hval as <- <-.
    eexists. split; [reflexivity|]. split; [reflexivity|].
    destruct (@randomization_within_windows stride WIN64 100 0 _ _ _ Hrun)
      as (_ & Hfr & _).
    + vm_compute. discriminate.
    + apply Hfr. reflexivity.
Defined.

(** ** The pager *)


Section Pager.
Variable io_fails : nat -> bool.
Variable archive_featdim : Z.

Lemma read_utterances_frames haslat todo : forall d n i r d' n',
  read_utterances io_fails haslat d n i todo = (r, (d', n')) ->
  numrows (frames d') = numrows (frames d) /\
  numcols (frames d') = numcols (frames d) /\
  (isinram d = false -> d' = d).
Proof.
  induction todo as [|u todo IH]; intros d n i r d' n' Hrun; simpl in Hrun.
  - by injection Hrun as <- <- <-.
  - unfold getutteranceframes in Hrun.
    destruct (isinram d) eqn:Hram; simpl in Hrun; [|by injection Hrun as <- <- <-].
    destruct (_ ≫= _); try by injection Hrun as <- <- <-.
    destruct (io_fails n); [by injection Hrun as <- <- <-|].
    destruct haslat.
    + destruct (io_fails (S n)); [by injection Hrun as <- <- <-|].
      case_bool_decide; [|by injection Hrun as <- <- <-].
      apply IH in Hrun as (? & ? & _). done.
    + apply IH in Hrun as (? & ? & _). done.
Qed.

Lemma isinram_dims d d' :
  numrows (frames d') = numrows (frames d) ->
  numcols (frames d') = numcols (frames d) -> isinram d' = isinram d.
Proof. unfold isinram, matrix_empty. by intros -> ->. Qed.

Lemma Forall_None_resize (l : list latticeptr) n :
  Forall (eq None) l -> Forall (eq None) (take n (l ++ replicate n None)).
Proof.
  intros Hl. apply Forall_take, Forall_app. split; [done|].
  by apply Forall_replicate.
Qed.

Lemma read_resized_failure haslat d fdx nx r d3 n3 :
  cache_released d ->
  read_utterances io_fails haslat (resized haslat d fdx) nx 0
    (utteranceset (resized haslat d fdx)) = (r, (d3, n3)) ->
  isinram d3 = false -> cache_released d3.
Proof.
  intros (Hram & Hst & Hlat) Hr Hram3.
  apply read_utterances_frames in Hr as (Hrows & Hcols & Hsame).
  pose proof (isinram_dims _ _ Hrows Hcols) as Hiso. rewrite Hram3 in Hiso.
  rewrite Hsame by done. unfold resized in *.
  destruct haslat; simpl in *.
  - split_and!; [done|done|by apply Forall_None_resize].
  - split_and!; done.
Qed.

Lemma requiredata_try_eq haslat d fd n :
  requiredata_try io_fails archive_featdim haslat (d, fd, n) =
  let getinfo :=
    if decide (fd = 0%Z)
    then (if io_fails n then (Throw io_failure, fd, S n)
          else (Ok (), archive_featdim, S n))
    else (Ok (), fd, n) in
  match getinfo with
  | (Ok _, fd1, n1) =>
      if io_fails n1 then (Throw io_failure, (d, fd1, S n1))
      else
        let '(r, (d3, n3)) :=
          read_utterances io_fails haslat (resized haslat d fd1) (S n1) 0
            (utteranceset (resized haslat d fd1)) in
        (r, (d3, fd1, n3))
  | (r, fd1, n1) => (r, (d, fd1, n1))
  end.
Proof. reflexivity. Qed.

(** What the [try] block leaves when it fails with the matrix still empty. *)
Lemma requiredata_try_failure haslat d fd n r d1 fd1 n1 :
  cache_released d ->
  requiredata_try io_fails archive_featdim haslat (d, fd, n) = (r, (d1, fd1, n1)) ->
  isinram d1 = false -> cache_released d1.
Proof.
  intros Hrel Htry Hram1. rewrite requiredata_try_eq in Htry. simpl in Htry.
  destruct (decide (fd = 0%Z)).
  - destruct (io_fails n); [injection Htry as <- <- <- <-; done|].
    destruct (io_fails (S n)); [injection Htry as <- <- <- <-; done|].
    destruct (read_utterances _ _ _ _ _ _) as [r3 [d3 n3]] eqn:Hr.
    injection Htry as <- <- <- <-. by eapply read_resized_failure.
  - destruct (io_fails n); [injection Htry as <- <- <- <-; done|].
    destruct (read_utterances _ _ _ _ _ _) as [r3 [d3 n3]] eqn:Hr.
    injection Htry as <- <- <- <-. by eapply read_resized_failure.
Qed.

Lemma requiredata_try_descriptor haslat d fd n r d1 fd1 n1 :
  requiredata_try io_fails archive_featdim haslat (d, fd, n) = (r, (d1, fd1, n1)) ->
  descriptor d1 = descriptor d.
Proof.
  intros Htry. rewrite requiredata_try_eq in Htry. simpl in Htry.
  assert (descriptor (resized haslat d fd1) = descriptor d) as Hres
    by (unfold resized; by destruct haslat).
  destruct (decide (fd = 0%Z)).
  - destruct (io_fails n); [by injection Htry as <- <- <- <-|].
    destruct (io_fails (S n)); [by injection Htry as <- <- <- <-|].
    destruct (read_utterances _ _ _ _ _ _) as [r3 [d3 n3]] eqn:Hr.
    injection Htry as <- <- <- <-.
    apply read_utterances_descriptor in Hr. by rewrite Hr.
  - destruct (io_fails n); [by injection Htry as <- <- <- <-|].
    destruct (read_utterances _ _ _ _ _ _) as [r3 [d3 n3]] eqn:Hr.
    injection Htry as <- <- <- <-.
    apply read_utterances_descriptor in Hr. by rewrite Hr.
Qed.

(** [requiredata] once it has entered the [try] block. *)
Lemma requiredata_entered haslat d fd n :
  chunkdata_numutterances d <> 0 -> isinram d = false ->
  requiredata io_fails archive_featdim haslat (d, fd, n) =
  match requiredata_try io_fails archive_featdim haslat (d, fd, n) with
  | (Ok u, p') => (Ok u, p')
  | (r, (d1, fd1, n1)) =>
      if isinram d1
      then (r, (set_lattices (set_frames d1 (matrix_resize 0 0)) [], fd1, n1))
      else (Throw logic_not_in_memory, (d1, fd1, n1))
  end.
Proof.
  intros Hnv Hram. unfold requiredata.
  destruct (decide _); [done|]. rewrite Hram.
  destruct (requiredata_try _ _ _ _) as [r1 [[d1 fd1] n1]] eqn:Htry.
  apply requiredata_try_descriptor in Htry.
  assert (chunkdata_numutterances d1 <> 0) as Hnv1.
  { unfold chunkdata_numutterances in *. injection Htry as Hu _ _. congruence. }
  unfold releasedata. destruct (decide _); [done|].
  destruct r1; [done| |]; by destruct (isinram d1).
Qed.

(** C10.  When [requiredata] enters its [try] block (the chunk has
    utterances and is not in memory) and an exception comes out, the chunk
    is not in memory afterwards, and nothing of a load is left in its
    cache: no stripe of the frame matrix is filled and no lattice is
    held. *)
Theorem requiredata_failure_releases haslat d fd n e d' fd' n' :
  chunkdata_numutterances d <> 0 -> cache_released d ->
  requiredata io_fails archive_featdim haslat (d, fd, n) = (Throw e, (d', fd', n')) ->
  cache_released d' /\ descriptor d' = descriptor d.
Proof.
  intros Hnonvirgin Hrel Hrun.
  split; [|by eapply requiredata_descriptor].
  pose proof Hrel as (Hram & _ & _).
  rewrite (requiredata_entered haslat d fd n Hnonvirgin Hram) in Hrun.
  destruct (requiredata_try _ _ _ _) as [r1 [[d1 fd1] n1]] eqn:Htry.
  destruct (isinram d1) eqn:Hram1.
  - destruct r1; try done. injection Hrun as <- <- <- <-. split_and!; done.
  - destruct r1; try done; injection Hrun as <- <- <- <-;
      by eapply requiredata_try_failure.
Qed.

Lemma read_utterances_not_paged_in haslat u todo d n i r d' n' :
  isinram d = false ->
  read_utterances io_fails haslat d n i (u :: todo) = (r, (d', n')) ->
  r = Throw logic_not_paged_in.
Proof.
  intros Hram Hrun. simpl in Hrun. unfold getutteranceframes in Hrun.
  rewrite Hram in Hrun. simpl in Hrun. by injection Hrun as <- _ _.
Qed.

Lemma requiredata_success haslat d fd n d' fd' n' :
  chunkdata_numutterances d <> 0 ->
  requiredata io_fails archive_featdim haslat (d, fd, n) = (Ok (), (d', fd', n')) ->
  isinram d' = true.
Proof.
  intros Hnv Hrun. unfold requiredata in Hrun.
  destruct (decide _); [done|]. destruct (isinram d) eqn:Hram; [done|].
  destruct (requiredata_try _ _ _ _) as [r1 [[d1 fd1] n1]] eqn:Htry.
  assert (r1 = Ok () /\ d1 = d') as [-> ->].
  { destruct r1 as [[]| |]; [by injection Hrun as <- <- <-| |];
      destruct (releasedata d1); done. }
  clear Hrun. rewrite requiredata_try_eq in Htry. simpl in Htry.
  assert (forall fdx nx d3 n3,
    read_utterances io_fails haslat (resized haslat d fdx) nx 0
      (utteranceset (resized haslat d fdx)) = (Ok (), (d3, n3)) ->
    isinram d3 = true) as Hread.
  { intros fdx nx d3 n3 Hr.
    destruct (isinram (resized haslat d fdx)) eqn:Hram2.
    - apply read_utterances_frames in Hr as (Hrows & Hcols & _).
      by rewrite (isinram_dims _ _ Hrows Hcols).
    - assert (utteranceset (resized haslat d fdx) = utteranceset d) as Hus
        by (unfold resized; by destruct haslat).
      rewrite Hus in Hr. unfold chunkdata_numutterances in Hnv.
      destruct (utteranceset d) as [|u us]; [done|].
      by apply read_utterances_not_paged_in in Hr. }
  destruct (decide (fd = 0%Z)).
  - destruct (io_fails n); [done|]. destruct (io_fails (S n)); [done|].
    destruct (read_utterances _ _ _ _ _ _) as [r3 [d3 n3]] eqn:Hr.
    injection Htry as -> <- <- <-. by eapply Hread.
  - destruct (io_fails n); [done|].
    destruct (read_utterances _ _ _ _ _ _) as [r3 [d3 n3]] eqn:Hr.
    injection Htry as -> <- <- <-. by eapply Hread.
Qed.

Lemma requiredata_failure_not_resident haslat d fd n e d' fd' n' :
  chunkdata_numutterances d <> 0 -> isinram d = false ->
  requiredata io_fails archive_featdim haslat (d, fd, n) = (Throw e, (d', fd', n')) ->
  isinram d' = false.
Proof.
  intros Hnv Hram Hrun. rewrite (requiredata_entered haslat d fd n Hnv Hram) in Hrun.
  destruct (requiredata_try _ _ _ _) as [r1 [[d1 fd1] n1]] eqn:Htry.
  destruct (isinram d1) eqn:Hram1; destruct r1; try done;
    by injection Hrun as <- <- <- <-.
Qed.

Lemma requiredata_no_starve haslat d fd n p :
  requiredata io_fails archive_featdim haslat (d, fd, n) <> (OutOfFuel, p).
Proof.
  assert (forall todo d n i, fst (read_utterances io_fails haslat d n i todo) <> OutOfFuel)
    as Hread.
  { induction todo as [|u todo IH]; intros d0 n0 i; simpl; [done|].
    unfold getutteranceframes. destruct (negb _); [done|].
    unfold at_, chunkdata_numframes, at_.
    destruct (firstframes d0 !! i); simpl; [|done].
    destruct (utteranceset d0 !! i); simpl; [|done].
    destruct (io_fails n0); [done|]. destruct haslat.
    - destruct (io_fails (S n0)); [done|]. case_bool_decide; [|done]. by apply IH.
    - by apply IH. }
  unfold requiredata. destruct (decide _); [done|]. destruct (isinram d); [done|].
  destruct (requiredata_try _ _ _ _) as [r1 [[d1 fd1] n1]] eqn:Htry.
  assert (r1 <> OutOfFuel) as Hr1.
  { rewrite requiredata_try_eq in Htry. simpl in Htry.
    destruct (decide (fd = 0%Z)).
    - destruct (io_fails n); [by injection Htry as <- _ _ _|].
      destruct (io_fails (S n)); [by injection Htry as <- _ _ _|].
      specialize (Hread (utteranceset (resized haslat d archive_featdim))
                    (resized haslat d archive_featdim) (S (S n)) 0).
      destruct (read_utterances _ _ _ _ _ _) as [r3 [d3 n3]].
      by injection Htry as <- _ _ _.
    - destruct (io_fails n); [by injection Htry as <- _ _ _|].
      specialize (Hread (utteranceset (resized haslat d fd)) (resized haslat d fd)
                    (S n) 0).
      destruct (read_utterances _ _ _ _ _ _) as [r3 [d3 n3]].
      by injection Htry as <- _ _ _. }
  destruct r1; [done| |done].
  unfold releasedata. destruct (decide _); [done|]. by destruct (negb _).
Qed.
End Pager.

Section Require.
Context `{CRand}.
Variable io_fails : nat -> bool.
Variable archive_featdim : Z.

Local Abbreviation body := (requiredata_at io_fails archive_featdim).

Lemma attempt_loop_spec {A} (bd : M A) more : forall s r s',
  attempt_loop more bd s = (r, s') ->
  exists k sk, k <= more /\ failed_runs bd k s sk /\ bd sk = (r, s') /\
               (forall e, r = Throw e -> k = more).
Proof.
  induction more as [|more IH]; intros s r s' Hrun; simpl in Hrun.
  - exists 0, s. split_and!; [lia|constructor| |done].
    destruct (bd s) as [[a|e|] s1]; by injection Hrun as <- <-.
  - destruct (bd s) as [[a|e|] s1] eqn:Hbd.
    + injection Hrun as <- <-. exists 0, s. split_and!; [lia|constructor|done|done].
    + destruct (IH _ _ _ Hrun) as (k & sk & Hk & Hfail & Hlast & Hthrow).
      exists (S k), sk. split_and!; [lia|by econstructor|done|].
      intros e' He'. by rewrite (Hthrow e' He').
    + injection Hrun as <- <-. exists 0, s. split_and!; [lia|constructor|done|done].
Qed.

(** One run of the body on a chunk that has utterances and is not in
    memory. *)
Lemma requiredata_at_run ci s d r s' :
  allchunks s !! ci = Some d -> chunkdata_numutterances d <> 0 -> isinram d = false ->
  body ci s = (r, s') ->
  chunksinram s' = chunksinram s /\ randomizedchunks s' = randomizedchunks s /\
  exists d', allchunks s' !! ci = Some d' /\ chunkdata_numutterances d' <> 0 /\
    match r with
    | Ok _ => isinram d' = true
    | Throw _ => isinram d' = false
    | OutOfFuel => False
    end.
Proof.
  intros Hd Hnv Hram Hrun. unfold requiredata_at in Hrun. rewrite Hd in Hrun.
  destruct (requiredata _ _ _ _) as [r1 [[d1 fd1] n1]] eqn:Hreq.
  injection Hrun as <- <-. split; [done|]. split; [done|].
  exists d1. split.
  { simpl. apply list_lookup_insert_eq. by eapply lookup_lt_Some. }
  pose proof (requiredata_descriptor _ _ _ _ _ _ _ _ _ _ Hreq) as Hdesc.
  split.
  { unfold chunkdata_numutterances in *. injection Hdesc as Hu _ _. congruence. }
  destruct r1 as [[]|e|].
  - by eapply requiredata_success.
  - by eapply requiredata_failure_not_resident.
  - by eapply requiredata_no_starve.
Qed.

Lemma failed_runs_not_resident ci k : forall s sk d,
  failed_runs (body ci) k s sk ->
  allchunks s !! ci = Some d -> chunkdata_numutterances d <> 0 -> isinram d = false ->
  chunksinram sk = chunksinram s /\ randomizedchunks sk = randomizedchunks s /\
  exists dk, allchunks sk !! ci = Some dk /\ chunkdata_numutterances dk <> 0 /\
             isinram dk = false.
Proof.
  induction k as [|k IH]; intros s sk d Hfail Hd Hnv Hram.
  - inversion Hfail; subst. split_and!; try done. by exists d.
  - inversion Hfail as [|k' s0 e s1 s2 Hrun Hrest]; subst.
    destruct (requiredata_at_run _ _ _ _ _ Hd Hnv Hram Hrun)
      as (Hc & Hr & d1 & Hd1 & Hnv1 & Hram1).
    destruct (IH _ _ _ Hrest Hd1 Hnv1 Hram1) as (Hc' & Hr' & dk & ? & ? & ?).
    split; [congruence|]. split; [congruence|]. eauto.
Qed.

End Require.

(** The chunk of the scenario, with the read of the second utterance (the
    fourth outside call) failing: the stripe of the first utterance is
    dropped again. *)
Lemma requiredata_failure_releases_witness :
  exists d' n',
    requiredata (fun n => bool_decide (n = 3)) 39 false (scenario_chunk, 0%Z, 0)
    = (Throw io_failure, (d', 39%Z, n')) /\
    n' = 4 /\ cache_released d' /\ descriptor d' = descriptor scenario_chunk.
Proof.
  destruct (requiredata (fun n => bool_decide (n = 3)) 39 false (scenario_chunk, 0%Z, 0))
    as [r [[d' fd'] n']] eqn:Hrun.
  pose proof Hrun as Hval. vm_compute in Hval. injection Hval as <- <- <- <-.
  eexists _, _. split; [reflexivity|]. split; [reflexivity|].
  refine (requiredata_failure_releases (fun n => bool_decide (n = 3)) 39 false
            scenario_chunk 0%Z 0 io_failure _ _ _ _ _ Hrun).
  - vm_compute. discriminate.
  - split_and!; [reflexivity|reflexivity|constructor].
Defined.

(** ** What a load leaves in the chunk *)

Section Loaded.
Variable io_fails : nat -> bool.

Lemma read_utterances_Ok haslat todo : forall d n i d' n',
  read_utterances io_fails haslat d n i todo = (Ok (), (d', n')) ->
  frames d' = mkmatrix (numrows (frames d)) (numcols (frames d))
                (stripes (frames d) ++ seq i (length todo)) /\
  length (lattices d') = length (lattices d) /\
  (forall j, lattices d' !! j
             = if haslat && bool_decide (i <= j < i + length todo)
               then (fun u => Some (utt_key u)) <$> todo !! (j - i)
               else lattices d !! j) /\
  n' = n + length todo * (if haslat then 2 else 1) /\
  (forall k, n <= k < n' -> io_fails k = false).
Proof.
  induction todo as [|u todo IH]; intros d n i d' n' Hrun; simpl in Hrun.
  - injection Hrun as <- <-. simpl. rewrite app_nil_r.
    split_and!; [by destruct (frames d)|done| |lia|intros; lia].
    intros j. rewrite bool_decide_eq_false_2 by lia. by rewrite andb_false_r.
  - destruct (getutteranceframes d i) as [fr| |]; [|done..].
    destruct (io_fails n) eqn:Hio1; [done|].
    destruct haslat.
    + destruct (io_fails (S n)) eqn:Hio2; [done|].
      destruct (bool_decide (i < length _)) eqn:Hlt; [|done].
      apply bool_decide_eq_true in Hlt. simpl in Hlt.
      apply IH in Hrun as (Hfr & Hlen & Hlat & Hn & Hcalls). simpl in *.
      rewrite length_insert in Hlen.
      split_and!.
      * rewrite Hfr, <- app_assoc. done.
      * done.
      * intros j. rewrite Hlat. simpl.
        destruct (decide (j = i)) as [->|Hne].
        -- rewrite bool_decide_eq_false_2 by lia.
           rewrite bool_decide_eq_true_2 by lia.
           rewrite Nat.sub_diag. simpl. by rewrite list_lookup_insert_eq.
        -- rewrite list_lookup_insert_ne by done.
           destruct (decide (S i <= j < S i + length todo)) as [Hin|Hout].
           ++ rewrite !bool_decide_eq_true_2 by lia.
              replace (j - i) with (S (j - S i)) by lia. done.
           ++ by rewrite !bool_decide_eq_false_2 by lia.
      * lia.
      * intros k Hk. destruct (decide (k = n)) as [->|]; [done|].
        destruct (decide (k = S n)) as [->|]; [done|]. apply Hcalls. lia.
    + apply IH in Hrun as (Hfr & Hlen & Hlat & Hn & Hcalls). simpl in *.
      split_and!.
      * rewrite Hfr, <- app_assoc. done.
      * done.
      * intros j. by rewrite Hlat.
      * lia.
      * intros k Hk. destruct (decide (k = n)) as [->|]; [done|]. apply Hcalls. lia.
Qed.


Lemma releasedata_resident d :
  isinram d = true -> chunkdata_numutterances d <> 0 ->
  releasedata d = Ok (set_lattices (set_frames d (matrix_resize 0 0)) []).
Proof.
  intros Hram Hne. unfold releasedata. destruct (decide _); [done|]. by rewrite Hram.
Qed.

End Loaded.

Section RequireSpec.
Context `{CRand}.
Variable io_fails : nat -> bool.
Variable archive_featdim : Z.

(** What a run of [requiredata] that returns leaves in the chunk. *)
Lemma requiredata_loaded haslat d fd n d' fd' n' :
  requiredata io_fails archive_featdim haslat (d, fd, n) = (Ok (), (d', fd', n')) ->
  fd' = (if decide (fd = 0%Z) then archive_featdim else fd) /\
  frames d' = mkmatrix fd' (totalframes d) (seq 0 (length (utteranceset d))) /\
  (haslat = true -> lattices d' = (fun u => Some (utt_key u)) <$> utteranceset d).
Proof.
  intros Hrun. unfold requiredata in Hrun.
  destruct (decide _); [done|]. destruct (isinram d) eqn:Hram; [done|].
  destruct (requiredata_try _ _ _ _) as [r1 [[d1 fd1] n1]] eqn:Htry.
  assert (r1 = Ok () /\ d1 = d' /\ fd1 = fd' /\ n1 = n') as (-> & -> & -> & ->).
  { destruct r1 as [[]| |]; [by injection Hrun as <- <- <-| |];
      destruct (releasedata d1); done. }
  clear Hrun. rewrite requiredata_try_eq in Htry. simpl in Htry.
  assert (Hread : forall fdx nx,
    read_utterances io_fails haslat (resized haslat d fdx) nx 0
      (utteranceset (resized haslat d fdx)) = (Ok (), (d', n')) ->
    frames d' = mkmatrix fdx (totalframes d) (seq 0 (length (utteranceset d))) /\
    (haslat = true -> lattices d' = (fun u => Some (utt_key u)) <$> utteranceset d)).
  { intros fdx nx Hr.
    assert (utteranceset (resized haslat d fdx) = utteranceset d) as Hus
      by (unfold resized; by destruct haslat).
    rewrite Hus in Hr.
    apply read_utterances_Ok in Hr as (Hfr & Hlen & Hlat & _).
    split.
    - rewrite Hfr. unfold resized. by destruct haslat.
    - intros ->. apply list_eq. intros j. rewrite Hlat, list_lookup_fmap. simpl.
      destruct (decide (j < length (utteranceset d))) as [Hj|Hj].
      + rewrite bool_decide_eq_true_2 by lia. by rewrite Nat.sub_0_r.
      + rewrite bool_decide_eq_false_2 by lia.
        rewrite (lookup_ge_None_2 (utteranceset d)) by lia. simpl.
        apply lookup_ge_None_2. unfold resized. simpl.
        rewrite length_take, length_app, length_replicate. lia. }
  destruct (decide (fd = 0%Z)).
  - destruct (io_fails n); [done|]. destruct (io_fails (S n)); [done|].
    destruct (read_utterances _ _ _ _ _ _) as [r3 [d3 n3]] eqn:Hr.
    injection Htry as -> -> -> ->. split; [done|]. by eapply Hread.
  - destruct (io_fails n); [done|].
    destruct (read_utterances _ _ _ _ _ _) as [r3 [d3 n3]] eqn:Hr.
    injection Htry as -> -> -> ->. split; [done|]. by eapply Hread.
Qed.

Local Abbreviation body := (requiredata_at io_fails archive_featdim).

(** A run of the body that returns has read the chunk in full. *)
Lemma requiredata_at_loaded ci s d s' :
  allchunks s !! ci = Some d -> body ci s = (Ok (), s') ->
  featdim s' = (if decide (featdim s = 0%Z) then archive_featdim else featdim s) /\
  exists d', allchunks s' !! ci = Some d' /\
    frames d' = mkmatrix (featdim s') (totalframes d) (seq 0 (length (utteranceset d))) /\
    (latticesource s <> ∅ ->
     lattices d' = (fun u => Some (utt_key u)) <$> utteranceset d).
Proof.
  intros Hd Hrun. unfold requiredata_at in Hrun. rewrite Hd in Hrun.
  destruct (requiredata _ _ _ _) as [r1 [[d1 fd1] n1]] eqn:Hreq.
  injection Hrun as -> <-.
  apply requiredata_loaded in Hreq as (Hfd & Hfr & Hlat). simpl.
  split; [done|]. exists d1. split.
  { apply list_lookup_insert_eq. by eapply lookup_lt_Some. }
  split; [done|]. intros Hne. apply Hlat.
  by rewrite bool_decide_eq_false_2.
Qed.

Lemma failed_runs_paging_only ci k : forall s sk,
  failed_runs (body ci) k s sk -> paging_only s sk.
Proof.
  induction k as [|k IH]; intros s sk Hfail.
  - inversion Hfail; subst. apply paging_only_refl.
  - inversion Hfail as [|k' s0 e s1 s2 Hrun Hrest]; subst.
    eapply paging_only_trans; [|by apply IH].
    by eapply requiredata_at_paging_only.
Qed.

Lemma paging_only_descriptor s s' ci d d' :
  paging_only s s' -> allchunks s !! ci = Some d -> allchunks s' !! ci = Some d' ->
  descriptor d' = descriptor d.
Proof.
  intros Hpo Hd Hd'. pose proof (po_descriptors _ _ Hpo) as Heq.
  assert ((descriptor <$> allchunks s') !! ci = Some (descriptor d')) as H1
    by (by rewrite list_lookup_fmap, Hd').
  rewrite Heq, list_lookup_fmap, Hd in H1. simpl in H1. congruence.
Qed.

(** C8.  [requirerandomizedchunk] with a chunk index outside
    [[windowbegin, windowend)] throws the logic error and leaves the object
    as it is.  Inside the window, a chunk in memory gives [false] and the
    object, with its count of outside calls, is as before; a chunk not in
    memory is loaded by running [requiredata] until it succeeds, at most 5
    times: after fewer than 5 failed runs and a successful one the result
    is [true], [chunksinram] is one more, and the chunk, with its
    descriptor, is in memory with the frames of every utterance read in
    order into a matrix of [featdim] rows and [totalframes] columns and,
    with a lattice source, the lattice of every utterance under its key;
    after 5 failed runs the exception of the last comes out, the chunk is
    not in memory and [chunksinram] is as before.
    [releaserandomizedchunk] on a chunk in memory empties its frame matrix
    and its lattice vector, keeps its descriptor and takes one off
    [chunksinram]; on a chunk not in memory it returns with the object as
    it is. *)
Theorem requirerandomizedchunk_spec s :
  (forall ci wb we, ~ (wb <= ci < we) ->
     requirerandomizedchunk io_fails archive_featdim ci wb we s
     = (Throw logic_outside_window, s)) /\
  (forall ci wb we c d, wb <= ci < we ->
     randomizedchunks s !! ci = Some c -> allchunks s !! uttchunkdata c = Some d ->
     isinram d = true ->
     requirerandomizedchunk io_fails archive_featdim ci wb we s = (Ok false, s)) /\
  (forall ci wb we c d, wb <= ci < we ->
     randomizedchunks s !! ci = Some c -> allchunks s !! uttchunkdata c = Some d ->
     isinram d = false -> chunkdata_numutterances d <> 0 ->
     exists k sk r s1 d1,
       k < 5 /\ failed_runs (body (uttchunkdata c)) k s sk /\
       body (uttchunkdata c) sk = (r, s1) /\
       allchunks s1 !! uttchunkdata c = Some d1 /\
       descriptor d1 = descriptor d /\
       match r with
       | Ok _ =>
           requirerandomizedchunk io_fails archive_featdim ci wb we s
           = (Ok true, set_chunksinram s1 (sz_add (chunksinram s) 1)) /\
           isinram d1 = true /\
           frames d1 = mkmatrix (featdim s1) (totalframes d)
                         (seq 0 (length (utteranceset d))) /\
           (latticesource s <> ∅ ->
            lattices d1 = (fun u => Some (utt_key u)) <$> utteranceset d)
       | Throw e =>
           k = 4 /\
           requirerandomizedchunk io_fails archive_featdim ci wb we s = (Throw e, s1) /\
           isinram d1 = false /\ chunksinram s1 = chunksinram s
       | OutOfFuel => False
       end) /\
  (forall k c d,
     randomizedchunks s !! k = Some c -> allchunks s !! uttchunkdata c = Some d ->
     isinram d = true -> chunkdata_numutterances d <> 0 ->
     releaserandomizedchunk k s
     = (Ok (),
        set_chunksinram
          (set_allchunks s
             (<[uttchunkdata c := set_lattices (set_frames d (matrix_resize 0 0)) []]>
                (allchunks s)))
          (sz_sub (chunksinram s) 1))) /\
  (forall k c d,
     randomizedchunks s !! k = Some c -> allchunks s !! uttchunkdata c = Some d ->
     isinram d = false ->
     releaserandomizedchunk k s = (Ok (), s)).
Proof.
  split_and!.
  - intros ci wb we Hout. unfold requirerandomizedchunk.
    destruct (_ || _) eqn:Hor; [done|].
    apply orb_false_elim in Hor as [H1 H2].
    apply bool_decide_eq_false in H1. apply bool_decide_eq_false in H2. lia.
  - intros ci wb we c d Hin Hc Hd Hram. unfold requirerandomizedchunk.
    rewrite !bool_decide_eq_false_2 by lia. simpl.
    unfold sbind, gets, lift, getchunkdata. simpl.
    by rewrite (at_lookup _ _ _ Hc), (at_lookup _ _ _ Hd), Hram.
  - intros ci wb we c d Hin Hc Hd Hram Hnv.
    destruct (attempt 5 (body (uttchunkdata c)) s) as [r s1] eqn:Hatt.
    unfold attempt in Hatt. change (5 - 1) with 4 in Hatt.
    destruct (attempt_loop_spec _ _ _ _ _ Hatt) as (k & sk & Hk & Hfail & Hlast & Hthrow).
    destruct (failed_runs_not_resident _ _ _ _ _ _ _ Hfail Hd Hnv Hram)
      as (Hck & Hrk & dk & Hdk & Hnvk & Hramk).
    destruct (requiredata_at_run _ _ _ _ _ _ _ Hdk Hnvk Hramk Hlast)
      as (Hc1 & Hr1 & d1 & Hd1 & Hnv1 & Hres).
    pose proof (failed_runs_paging_only _ _ _ _ Hfail) as Hpok.
    pose proof (requiredata_at_paging_only _ _ _ _ _ _ Hlast) as Hpo1.
    pose proof (paging_only_descriptor _ _ _ _ _ Hpok Hd Hdk) as Hdesck.
    pose proof (paging_only_descriptor _ _ _ _ _ Hpo1 Hdk Hd1) as Hdesc1.
    exists k, sk, r, s1, d1. split_and!; [lia|done|done|done|congruence|].
    assert (requirerandomizedchunk io_fails archive_featdim ci wb we s =
            match r with
            | Ok _ => (Ok true, set_chunksinram s1 (sz_add (chunksinram s1) 1))
            | Throw e => (Throw e, s1)
            | OutOfFuel => (OutOfFuel, s1)
            end) as Hreq.
    { unfold requirerandomizedchunk.
      rewrite !bool_decide_eq_false_2 by lia. simpl.
      unfold sbind at 1, gets. unfold sbind at 1, lift.
      rewrite (at_lookup _ _ _ Hc). unfold sbind at 1, gets.
      unfold sbind at 1, lift, getchunkdata. rewrite (at_lookup _ _ _ Hd), Hram.
      unfold sbind at 1. unfold attempt. change (5 - 1) with 4. rewrite Hatt.
      by destruct r. }
    destruct r as [[]|e|]; [|split_and!; [by apply (Hthrow e)|done|done|congruence]|done].
    destruct (requiredata_at_loaded _ _ _ _ Hdk Hlast) as (_ & d1' & Hd1' & Hfr & Hlat).
    rewrite Hd1 in Hd1'. injection Hd1' as <-.
    injection Hdesck as Hus _ Htot.
    split_and!; [|done| |].
    + rewrite Hreq. do 2 f_equal. congruence.
    + by rewrite Hfr, Htot, Hus.
    + intros Hne. rewrite Hlat, Hus; [done|].
      by rewrite (po_latticesource _ _ Hpok).
  - intros k c d Hc Hd Hram Hnv. unfold releaserandomizedchunk.
    unfold sbind, gets, lift, getchunkdata, modify. simpl.
    rewrite (at_lookup _ _ _ Hc), (at_lookup _ _ _ Hd), Hram. simpl.
    by rewrite (releasedata_resident _ Hram Hnv).
  - intros k c d Hc Hd Hram. unfold releaserandomizedchunk.
    unfold sbind, gets, lift, getchunkdata. simpl.
    by rewrite (at_lookup _ _ _ Hc), (at_lookup _ _ _ Hd), Hram.
Qed.
End RequireSpec.

(** The scenario after its first randomization.  A chunk index outside
    the window is refused.  With every outside call failing the chunk is
    not loaded after 5 runs of one call each, and what comes out is the
    logic error of [releasedata], which the handler of the failed
    [getinfo] runs into; releasing the chunk then changes nothing.  With
    only the first two outside calls failing the third run loads the
    chunk: its three utterances fill a matrix of 39 rows and 330 columns;
    a second request finds it in memory, and releasing it gives back the
    chunk as it was. *)
Lemma requirerandomizedchunk_spec_witness :
  exists s,
    @lazyrandomization stride WIN64 100 0 (@scenario_source stride 0) = (Ok 0%Z, s) /\
    @requirerandomizedchunk stride (fun _ => true) 39 1 0 1 s
    = (Throw logic_outside_window, s) /\
    (exists s', @requirerandomizedchunk stride (fun _ => true) 39 0 0 1 s
                = (Throw logic_not_in_memory, s') /\ iocalls s' = 5) /\
    @releaserandomizedchunk stride 0 s = (Ok (), s) /\
    exists s1 d1 s2,
      @requirerandomizedchunk stride (fun n => bool_decide (n < 2)) 39 0 0 1 s
      = (Ok true, s1) /\
      allchunks s1 = [d1] /\ descriptor d1 = descriptor scenario_chunk /\
      frames d1 = mkmatrix 39 330 [0; 1; 2] /\ chunksinram s1 = 1%Z /\
      @requirerandomizedchunk stride (fun n => bool_decide (n < 2)) 39 0 0 1 s1
      = (Ok false, s1) /\
      @releaserandomizedchunk stride 0 s1 = (Ok (), s2) /\
      allchunks s2 = [scenario_chunk] /\ chunksinram s2 = 0%Z.
Proof.
  destruct (@lazyrandomization stride WIN64 100 0 (@scenario_source stride 0))
    as [r s] eqn:Hrun.
  pose proof Hrun as Hval. vm_compute in Hval. injection Hval as Hr Hs.
  exists s. rewrite <- Hr. split; [reflexivity|].
  destruct (@requirerandomizedchunk_spec stride (fun _ => true) 39 s)
    as (Hout & _ & Hload & _ & Hrel).
  destruct (@requirerandomizedchunk_spec stride (fun n => bool_decide (n < 2)) 39 s)
    as (_ & _ & Hload2 & _ & _).
  assert (randomizedchunks s !! 0 = Some (mkchunk 0 0 0 0 1)) as Hc by (by rewrite <- Hs).
  assert (allchunks s !! 0 = Some scenario_chunk) as Hd by (by rewrite <- Hs).
  split; [apply Hout; lia|]. split; [|split].
  - destruct (Hload 0 0 1 (mkchunk 0 0 0 0 1) scenario_chunk ltac:(lia) Hc Hd eq_refl
                ltac:(vm_compute; discriminate))
      as (k & sk & r' & s1 & d1 & Hk & Hfail & Hlast & Hd1 & Hdesc & Hres).
    clear -Hs. subst s.
    match goal with |- context [requirerandomizedchunk _ _ _ _ _ ?s0] =>
      destruct (@requirerandomizedchunk stride (fun _ => true) 39 0 0 1 s0)
        as [r'' s'] eqn:Hreq
    end.
    vm_compute in Hreq. injection Hreq as <- <-.
    eexists. split; reflexivity.
  - apply (Hrel 0 (mkchunk 0 0 0 0 1) scenario_chunk Hc Hd eq_refl).
  - destruct (Hload2 0 0 1 (mkchunk 0 0 0 0 1) scenario_chunk ltac:(lia) Hc Hd eq_refl
                ltac:(vm_compute; discriminate))
      as (k & sk & r' & s1 & d1 & Hk & Hfail & Hlast & Hd1 & Hdesc & Hres).
    clear Hout Hload Hrel Hload2 Hfail Hlast Hc Hd Hrun.
    destruct (@requirerandomizedchunk stride (fun n => bool_decide (n < 2)) 39 0 0 1 s)
      as [r1 s1c] eqn:Hreq.
    pose proof Hreq as Hval. rewrite <- Hs in Hval. vm_compute in Hval.
    injection Hval as Hr1 Hs1c.
    destruct r' as [[]|e|];
      [|destruct Hres as (_ & Hthrow & _); injection Hthrow as Hx _;
        rewrite <- Hr1 in Hx; discriminate Hx|done].
    destruct Hres as (Hok & Hram & Hfr & _). injection Hok as Hr1' Hs1.
    assert (allchunks s1 = allchunks s1c /\ featdim s1 = featdim s1c) as [Hall Hfd]
      by (rewrite Hs1; by destruct s1).
    rewrite Hall in Hd1. rewrite Hfd in Hfr.
    rewrite <- Hs1c in Hd1, Hfr. vm_compute in Hd1. injection Hd1 as Hd1.
    destruct (@requirerandomizedchunk_spec stride (fun n => bool_decide (n < 2)) 39 s1c)
      as (_ & Hres1 & _ & Hfree & _).
    exists s1c, d1.
    eexists. split_and!.
    + by rewrite <- Hr1.
    + rewrite <- Hs1c, <- Hd1. reflexivity.
    + exact Hdesc.
    + rewrite Hfr. vm_compute. reflexivity.
    + by rewrite <- Hs1c.
    + apply (Hres1 0 0 1 (mkchunk 0 0 0 0 1) d1 ltac:(lia)).
      * by rewrite <- Hs1c.
      * rewrite <- Hs1c, <- Hd1. reflexivity.
      * exact Hram.
    + apply (Hfree 0 (mkchunk 0 0 0 0 1) d1).
      * by rewrite <- Hs1c.
      * rewrite <- Hs1c, <- Hd1. reflexivity.
      * exact Hram.
      * rewrite <- Hd1. vm_compute. discriminate.
    + rewrite <- Hd1, <- Hs1c. vm_compute. reflexivity.
    + rewrite <- Hs1c. vm_compute. reflexivity.
Defined.
(** With only the first two outside calls failing, the third run loads the
    chunk: 2 failed calls, then [getinfo], the resize and 3 reads. *)
Example requirerandomizedchunk_third_run :
  exists s s',
    @lazyrandomization stride WIN64 100 0 (@scenario_source stride 0) = (Ok 0%Z, s) /\
    @requirerandomizedchunk stride (fun n => bool_decide (n < 2)) 39 0 0 1 s
    = (Ok true, s') /\
    iocalls s' = 7 /\ chunksinram s' = 1%Z /\ (isinram <$> allchunks s') = [true].
Proof.
  destruct (@lazyrandomization stride WIN64 100 0 (@scenario_source stride 0))
    as [r s] eqn:Hrun.
  vm_compute in Hrun. injection Hrun as <- <-.
  eexists _, _. split; [reflexivity|].
  match goal with |- context [requirerandomizedchunk _ _ _ _ _ ?s0] =>
    destruct (@requirerandomizedchunk stride (fun n => bool_decide (n < 2)) 39 0 0 1 s0)
      as [r' s'] eqn:Hreq
  end.
  vm_compute in Hreq. injection Hreq as <- <-.
  split; [reflexivity|]. vm_compute. done.
Qed.

(** ** The constructor skips what a [frameref] cannot address *)

Section Construction.
Context `{CRand}.
Variable b : build.
Variable classid_bits : Z.

Lemma scan_file_same_corpus labels lats udim i i' f st st' :
  corpus_of st = corpus_of st' ->
  same_corpus (scan_file b classid_bits labels lats udim i f st) (scan_file b classid_bits labels lats udim i' f st').
Proof.
  destruct st, st'. unfold corpus_of. simpl. intros [= -> -> -> -> -> -> ->].
  unfold scan_file. simpl.
  destruct (file_numframes f) as [uttframes|]; [|done].
  destruct (uttframes <? 2)%Z; [done|].
  destruct (uttframes >? maxframesperutterance b)%Z; [done|].
  destruct (_ || _); [done|].
  destruct (if bool_decide (labels = ∅) then None else labels !! file_key f) as [labseq|].
  - destruct (negb _); [done|].
    destruct (expand_labels _ _ _ _ _ _ _) as [[[cids counts] ncl]| |]; simpl; [|done..].
    destruct (_ && _); done.
  - destruct (_ && _); done.
Qed.

Lemma scan_files_same_corpus labels lats udim fs : forall i i' st st',
  corpus_of st = corpus_of st' ->
  same_corpus (scan_files b classid_bits labels lats udim i fs st) (scan_files b classid_bits labels lats udim i' fs st').
Proof.
  induction fs as [|f fs IH]; intros i i' st st' Hst; simpl; [done|].
  pose proof (scan_file_same_corpus labels lats udim i i' f st st' Hst) as Hf.
  destruct (scan_file b classid_bits labels lats udim i f st) as [st1| |],
           (scan_file b classid_bits labels lats udim i' f st') as [st1'| |]; simpl in *; try done.
  by apply IH.
Qed.

Lemma maxframesperutterance_ge : (2 <= maxframesperutterance b)%Z.
Proof. destruct b; vm_compute; discriminate. Qed.

Lemma scan_file_skip labels lats udim i f st n :
  file_numframes f = Some n -> (n > maxframesperutterance b)%Z ->
  scan_file b classid_bits labels lats udim i f st = Ok (scan_log st [skipping_too_long i n]).
Proof.
  intros Hf Hn. pose proof maxframesperutterance_ge. unfold scan_file. rewrite Hf.
  destruct (Z.ltb_spec n 2); [lia|].
  destruct (n >? maxframesperutterance b)%Z eqn:E; [done|]. lia.
Qed.

Lemma scan_files_skip labels lats udim f n fs2 :
  file_numframes f = Some n -> (n > maxframesperutterance b)%Z ->
  forall fs1 i st,
  same_corpus (scan_files b classid_bits labels lats udim i (fs1 ++ f :: fs2) st)
              (scan_files b classid_bits labels lats udim i (fs1 ++ fs2) st).
Proof.
  intros Hf Hn. induction fs1 as [|a fs1 IH]; intros i st; simpl.
  - rewrite (scan_file_skip _ _ _ _ _ _ _ Hf Hn). simpl.
    by apply scan_files_same_corpus.
  - destruct (scan_file b classid_bits labels lats udim i a st) as [st1| |]; simpl; [|done..].
    apply IH.
Qed.

Lemma scan_file_diags labels lats udim i f st st' :
  scan_file b classid_bits labels lats udim i f st = Ok st' -> exists d, diags st' = diags st ++ d.
Proof.
  unfold scan_file.
  destruct (file_numframes f) as [uttframes|]; [|done].
  destruct (uttframes <? 2)%Z; [done|].
  destruct (uttframes >? maxframesperutterance b)%Z.
  { intros [= <-]. by eexists. }
  destruct (_ || _).
  { intros [= <-]. by eexists. }
  destruct (if bool_decide (labels = ∅) then None else labels !! file_key f) as [labseq|].
  - destruct (negb _).
    { intros [= <-]. simpl. rewrite <- app_assoc. by eexists. }
    destruct (expand_labels _ _ _ _ _ _ _) as [[[cids counts] ncl]| |]; simpl; [|done..].
    destruct (_ && _); [done|]. intros [= <-]. by eexists.
  - destruct (_ && _); [done|]. intros [= <-]. by eexists.
Qed.

Lemma scan_files_diags labels lats udim fs : forall i st st',
  scan_files b classid_bits labels lats udim i fs st = Ok st' -> exists d, diags st' = diags st ++ d.
Proof.
  induction fs as [|f fs IH]; intros i st st'; simpl.
  - intros [= <-]. exists []. by rewrite app_nil_r.
  - destruct (scan_file b classid_bits labels lats udim i f st) as [st1| |] eqn:Hf; simpl; [|done..].
    intros Hrest. apply scan_file_diags in Hf as [d1 Hd1].
    apply IH in Hrest as [d2 Hd2]. exists (d1 ++ d2). by rewrite Hd2, Hd1, app_assoc.
Qed.

Lemma scan_files_skip_logged labels lats udim f n fs2 :
  file_numframes f = Some n -> (n > maxframesperutterance b)%Z ->
  forall fs1 i st st',
  scan_files b classid_bits labels lats udim i (fs1 ++ f :: fs2) st = Ok st' ->
  skipping_too_long (i + length fs1) n ∈ diags st'.
Proof.
  intros Hf Hn. induction fs1 as [|a fs1 IH]; intros i st st'; simpl.
  - rewrite (scan_file_skip _ _ _ _ _ _ _ Hf Hn). simpl. intros Hrest.
    apply scan_files_diags in Hrest as [d ->]. simpl.
    rewrite Nat.add_0_r. rewrite !elem_of_app. left. right. apply list_elem_of_singleton. done.
  - destruct (scan_file b classid_bits labels lats udim i a st) as [st1| |]; simpl; [|done..].
    intros Hrest. apply IH in Hrest. by rewrite <- Nat.add_succ_comm.
Qed.

(** Only files within the limit enter the utterance set. *)
Lemma scan_file_addressable labels lats udim i f st st' :
  scan_file b classid_bits labels lats udim i f st = Ok st' ->
  Forall (addressable b) (scan_utteranceset st) ->
  Forall (addressable b) (scan_utteranceset st').
Proof.
  unfold scan_file.
  destruct (file_numframes f) as [uttframes|]; [|done].
  destruct (Z.ltb_spec uttframes 2); [done|].
  destruct (uttframes >? maxframesperutterance b)%Z eqn:Hmax.
  { by intros [= <-]. }
  assert (Hu : forall cb, addressable b (mkutterancedesc (file_key f) uttframes cb)).
  { intros cb. unfold addressable. simpl. lia. }
  destruct (_ || _).
  { by intros [= <-]. }
  destruct (if bool_decide (labels = ∅) then None else labels !! file_key f) as [labseq|].
  - destruct (negb _).
    { by intros [= <-]. }
    destruct (expand_labels _ _ _ _ _ _ _) as [[[cids counts] ncl]| |]; simpl; [|done..].
    destruct (_ && _); [done|]. intros [= <-] Hst. simpl.
    apply Forall_app. split; [done|]. by apply Forall_singleton.
  - destruct (_ && _); [done|]. intros [= <-] Hst. simpl.
    apply Forall_app. split; [done|]. by apply Forall_singleton.
Qed.

Lemma scan_files_addressable labels lats udim fs : forall i st st',
  scan_files b classid_bits labels lats udim i fs st = Ok st' ->
  Forall (addressable b) (scan_utteranceset st) ->
  Forall (addressable b) (scan_utteranceset st').
Proof.
  induction fs as [|f fs IH]; intros i st st'; simpl.
  - by intros [= <-].
  - destruct (scan_file b classid_bits labels lats udim i f st) as [st1| |] eqn:Hf; simpl; [|done..].
    intros Hrest Hst. eapply IH; [done|]. by eapply scan_file_addressable.
Qed.

Lemma distribute_addressable us : forall all all',
  distribute b us all = Ok all' ->
  Forall (addressable b) us ->
  Forall (fun d => Forall (addressable b) (utteranceset d)) all ->
  Forall (fun d => Forall (addressable b) (utteranceset d)) all'.
Proof.
  induction us as [|u us IH]; intros all all'; simpl.
  - by intros [= <-].
  - set (all1 := match last all with None => _ | Some _ => _ end).
    intros Hd Hus Hall. apply Forall_cons in Hus as [Hu Hus].
    assert (Hall1 : Forall (fun d => Forall (addressable b) (utteranceset d)) all1).
    { assert (Hext : Forall (fun d => Forall (addressable b) (utteranceset d))
                       (all ++ [empty_chunkdata])).
      { apply Forall_app. split; [done|]. apply Forall_singleton. constructor. }
      subst all1. destruct (last all); [destruct (_ || _)|]; done. }
    destruct (last all1) as [back|] eqn:Hback; [|done].
    destruct (chunkdata_push_back back u) as [c| |] eqn:Hc; simpl in Hd; [|done..].
    eapply IH; [done..|].
    apply Forall_insert; [done|].
    unfold chunkdata_push_back in Hc. destruct (isinram back); [done|].
    injection Hc as <-. simpl. apply Forall_app. split; [|by apply Forall_singleton].
    apply last_Some in Hback as [l' Hl']. rewrite Hl' in Hall1.
    apply Forall_app in Hall1 as [_ Hb]. exact (Forall_inv Hb).
Qed.

(** C9. At construction, a file whose frame count exceeds
    [maxframesperutterance] is skipped with the message
    [skipping_too_long] and is not fatal: the scan of that file returns
    normally and changes nothing but the messages; whenever the files
    without it construct an object, the files with it construct the same
    object and the message carries the file's index and frame count; and
    no utterance of a constructed corpus exceeds the limit. *)
Theorem oversized_utterance_skipped fs1 f fs2 n labels udim rr lats fm r0 :
  file_numframes f = Some n -> (n > maxframesperutterance b)%Z ->
  (forall i st,
     scan_file b classid_bits labels lats udim i f st = Ok (scan_log st [skipping_too_long i n])) /\
  (forall s dg,
     construct b classid_bits (fs1 ++ fs2) labels udim rr lats fm r0 = Ok (s, dg) ->
     exists dg',
       construct b classid_bits (fs1 ++ f :: fs2) labels udim rr lats fm r0 = Ok (s, dg') /\
       skipping_too_long (length fs1) n ∈ dg') /\
  (forall s dg,
     construct b classid_bits (fs1 ++ f :: fs2) labels udim rr lats fm r0 = Ok (s, dg) ->
     skipping_too_long (length fs1) n ∈ dg /\
     Forall (fun d => Forall (addressable b) (utteranceset d)) (allchunks s)).
Proof.
  intros Hf Hn. split_and!.
  - intros i st. by apply scan_file_skip.
  - intros s dg. unfold construct.
    pose proof (scan_files_skip labels lats udim f n fs2 Hf Hn fs1 0
                  (mkscan [] [] [] 0 0 0 0 [])) as Hsame.
    pose proof (scan_files_skip_logged labels lats udim f n fs2 Hf Hn fs1 0
                  (mkscan [] [] [] 0 0 0 0 [])) as Hlog.
    destruct (scan_files b classid_bits labels lats udim 0 (fs1 ++ fs2) _) as [st| |]; simpl; [|done..].
    destruct (scan_files b classid_bits labels lats udim 0 (fs1 ++ f :: fs2) _) as [st'| |];
      simpl in *; [|done..].
    specialize (Hlog st' eq_refl).
    unfold corpus_of in Hsame.
    destruct st as [us cids counts total nm nl ncl dgs],
             st' as [us' cids' counts' total' nm' nl' ncl' dgs']. simpl in *.
    injection Hsame as <- <- <- <- <- <- <-.
    destruct (if bool_decide (labels = ∅) then Ok () else _) as [[]| |]; simpl; [|done..].
    rewrite !length_app. simpl.
    destruct (_ >? 0)%Z; simpl.
    + destruct (Z.gtb_spec (sz_add nm' nl')
                  (Z.of_nat (length fs1 + length fs2) / 2)); [done|].
      destruct (Z.gtb_spec (sz_add nm' nl')
                  (Z.of_nat (length fs1 + S (length fs2)) / 2)).
      { assert (Z.of_nat (length fs1 + length fs2) / 2
                <= Z.of_nat (length fs1 + S (length fs2)) / 2)%Z
          by (apply Z.div_le_mono; lia). lia. }
      destruct (distribute b _ _) as [all| |]; simpl; [|done..].
      intros [= <- <-]. by eexists.
    + destruct (distribute b _ _) as [all| |]; simpl; [|done..].
      intros [= <- <-]. by eexists.
  - intros s dg. unfold construct.
    destruct (scan_files b classid_bits labels lats udim 0 (fs1 ++ f :: fs2) _) as [st| |] eqn:Hscan;
      simpl; [|done..].
    destruct (if bool_decide (labels = ∅) then Ok () else _) as [[]| |]; simpl; [|done..].
    destruct (_ && _); [done|].
    destruct (distribute b _ _) as [all| |] eqn:Hd; simpl; [|done..].
    intros [= <- <-]. split.
    + by apply (scan_files_skip_logged labels lats udim f n fs2 Hf Hn fs1 0 _ _ Hscan).
    + simpl. eapply distribute_addressable; [done| |constructor].
      eapply scan_files_addressable; [done|]. constructor.
Qed.
End Construction.

Lemma oversized_utterance_skipped_witness :
  construct WIN64 16 ([mkinfile 1 (Some 100%Z)] ++ oversized_file
                        :: [mkinfile 2 (Some 150%Z); mkinfile 3 (Some 80%Z)])
    ∅ 0 1000000 ∅ false (0 : @rng counting)
  = Ok (scenario_source (0 : @rng counting), [skipping_too_long 1 70000]).
Proof.
  destruct (oversized_utterance_skipped (H := counting) WIN64 16
              [mkinfile 1 (Some 100%Z)] oversized_file
              [mkinfile 2 (Some 150%Z); mkinfile 3 (Some 80%Z)] 70000
              ∅ 0 1000000 ∅ false 0 eq_refl eq_refl) as (_ & Hsame & _).
  destruct (Hsame (scenario_source (0 : @rng counting)) [] eq_refl) as (dg' & Hc & _).
  rewrite Hc. vm_compute in Hc. by injection Hc as <-.
Defined.

(** ** Rebuilding the randomization *)

(** *** The randomization reads the descriptors only *)

Section SameDescriptors.
Context `{CRand}.
Variables all1 all2 : list utterancechunkdata.
Hypothesis Hd : descriptor <$> all1 = descriptor <$> all2.

Lemma same_descriptors_length : length all1 = length all2.
Proof. by rewrite <- (length_fmap descriptor all1), Hd, length_fmap. Qed.

Lemma getchunkdata_bind {A} (g1 g2 : utterancechunkdata -> result A) c :
  (forall d1 d2, descriptor d1 = descriptor d2 -> g1 d1 = g2 d2) ->
  getchunkdata all1 c ≫= g1 = getchunkdata all2 c ≫= g2.
Proof.
  intros Hg. unfold getchunkdata, at_.
  pose proof (f_equal (fun l => l !! uttchunkdata c) Hd) as Hl. simpl in Hl.
  rewrite !list_lookup_fmap in Hl.
  destruct (all1 !! uttchunkdata c) as [d1|], (all2 !! uttchunkdata c) as [d2|];
    simpl in *; try done.
  apply Hg. congruence.
Qed.

Lemma chunk_numutterances_same c :
  chunk_numutterances all1 c = chunk_numutterances all2 c.
Proof.
  apply getchunkdata_bind. intros d1 d2 [= Hu _ _].
  unfold chunkdata_numutterances. by rewrite Hu.
Qed.

Lemma chunk_numframes_same c : chunk_numframes all1 c = chunk_numframes all2 c.
Proof. apply getchunkdata_bind. by intros d1 d2 [= _ _ ->]. Qed.

Lemma utteranceposend_same c : utteranceposend all1 c = utteranceposend all2 c.
Proof. unfold utteranceposend. by rewrite chunk_numutterances_same. Qed.

Lemma globalte_same c : globalte all1 c = globalte all2 c.
Proof. unfold globalte. by rewrite chunk_numframes_same. Qed.

Lemma place_chunks_same sweepts refs : forall acc,
  place_chunks all1 refs acc sweepts = place_chunks all2 refs acc sweepts.
Proof.
  induction refs as [|r refs IH]; intros acc; simpl; [done|].
  destruct (last acc) as [bk|]; simpl.
  - rewrite utteranceposend_same, globalte_same.
    destruct (utteranceposend all2 bk); simpl; [|done..].
    destruct (globalte all2 bk); simpl; [|done..]. apply IH.
  - apply IH.
Qed.

Lemma advance_windowend_same n rcs half cts : forall we,
  advance_windowend all1 n rcs half cts we = advance_windowend all2 n rcs half cts we.
Proof.
  induction n as [|n IH]; intros we; simpl.
  - destruct (bool_decide _); [|done]. destruct (at_ rcs we); simpl; [|done..].
    by rewrite globalte_same.
  - destruct (bool_decide _); [|done]. destruct (at_ rcs we); simpl; [|done..].
    rewrite globalte_same. destruct (globalte all2 _); simpl; [|done..].
    destruct (_ <? _)%Z; [|done]. apply IH.
Qed.

Lemma compute_window_same rr rcs k :
  compute_window all1 rr rcs k = compute_window all2 rr rcs k.
Proof.
  unfold compute_window. destruct (at_ rcs k); simpl; [|done..].
  destruct (match k with 0 => _ | S _ => _ end) as [[wb0 we0]| |]; simpl; [|done..].
  destruct (advance_windowbegin _ _ _ _ _); simpl; [|done..].
  by rewrite advance_windowend_same.
Qed.

Lemma compute_windows_from_same rr n : forall rcs k,
  compute_windows_from all1 rr rcs k n = compute_windows_from all2 rr rcs k n.
Proof.
  induction n as [|n IH]; intros rcs k; simpl; [done|].
  rewrite compute_window_same. destruct (compute_window all2 rr rcs k); simpl; [|done..].
  apply IH.
Qed.

Lemma compute_windows_same rr rcs :
  compute_windows all1 rr rcs = compute_windows all2 rr rcs.
Proof. apply compute_windows_from_same. Qed.

Lemma build_positionchunkwindows_same rcs : forall k,
  build_positionchunkwindows all1 rcs k = build_positionchunkwindows all2 rcs k.
Proof.
  induction rcs as [|c rcs IH]; intros k; simpl; [done|].
  by rewrite chunk_numutterances_same, IH.
Qed.

Lemma build_utterancerefs_same rcs : forall k,
  build_utterancerefs all1 rcs k = build_utterancerefs all2 rcs k.
Proof.
  induction rcs as [|c rcs IH]; intros k; simpl; [done|].
  by rewrite chunk_numutterances_same, IH.
Qed.

Lemma swap_position_same fuel rcs pcw refs r i :
  swap_position all1 fuel rcs pcw refs r i = swap_position all2 fuel rcs pcw refs r i.
Proof.
  unfold swap_position.
  destruct (at_ pcw i) as [k| |]; simpl; [|done..].
  destruct (at_ rcs k) as [dc| |]; simpl; [|done..].
  destruct (at_ rcs (windowbegin dc)); simpl; [|done..].
  destruct (if decide _ then _ else _); simpl; [|done..].
  by rewrite utteranceposend_same.
Qed.

Lemma swap_positions_same fuel rcs pcw n : forall refs r i,
  swap_positions all1 fuel rcs pcw refs r i n
  = swap_positions all2 fuel rcs pcw refs r i n.
Proof.
  induction n as [|n IH]; intros refs r i; simpl; [done|].
  rewrite swap_position_same.
  destruct (swap_position all2 _ _ _ _ _ _) as [[refs' r']| |]; simpl; [|done..].
  apply IH.
Qed.

Lemma place_utterances_same rcs refs : forall t,
  place_utterances all1 rcs refs t = place_utterances all2 rcs refs t.
Proof.
  induction refs as [|u refs IH]; intros t; simpl; [done|].
  destruct (at_ rcs _) as [c| |]; simpl; [|done..].
  apply getchunkdata_bind.
  intros d1 d2 [= Hu _ _]. unfold chunkdata_numframes. rewrite Hu.
  destruct (at_ (utteranceset d2) _); simpl; [|done..]. by rewrite IH.
Qed.

Lemma enum_chunks_same b rcs : forall i,
  enum_chunks all1 b rcs i = enum_chunks all2 b rcs i.
Proof.
  induction rcs as [|c rcs IH]; intros i; simpl; [done|].
  destruct (checkoverflow _ _); simpl; [|done..].
  rewrite IH. apply getchunkdata_bind. by intros d1 d2 [= -> _ _].
Qed.

Lemma frame_swap_position_same fuel sweepts rcs ttochunk framerefs r t :
  frame_swap_position all1 fuel sweepts rcs ttochunk framerefs r t
  = frame_swap_position all2 fuel sweepts rcs ttochunk framerefs r t.
Proof.
  unfold frame_swap_position.
  destruct (at_ ttochunk t) as [k| |]; simpl; [|done..].
  destruct (at_ rcs (Z.to_nat k)) as [c| |]; simpl; [|done..].
  destruct (at_ rcs (windowbegin c)); simpl; [|done..].
  destruct (if decide _ then _ else _); simpl; [|done..].
  by rewrite globalte_same.
Qed.

Lemma frame_swap_positions_same fuel sweepts rcs ttochunk n : forall framerefs r t,
  frame_swap_positions all1 fuel sweepts rcs ttochunk framerefs r t n
  = frame_swap_positions all2 fuel sweepts rcs ttochunk framerefs r t n.
Proof.
  induction n as [|n IH]; intros framerefs r t; simpl; [done|].
  rewrite frame_swap_position_same.
  destruct (frame_swap_position all2 _ _ _ _ _ _ _) as [[f' r']| |]; simpl; [|done..].
  apply IH.
Qed.

Lemma check_chunks_same framerefs rcs : forall t,
  check_chunks all1 rcs framerefs t = check_chunks all2 rcs framerefs t.
Proof.
  induction rcs as [|c rcs IH]; intros t; simpl; [done|].
  apply getchunkdata_bind.
  intros d1 d2 [= -> _ _].
  destruct (check_utterances _ _ _ _); simpl; [|done..]. apply IH.
Qed.
End SameDescriptors.

(** *** The enumeration of the frames *)

Lemma corpus_frames_same all1 all2 :
  descriptor <$> all1 = descriptor <$> all2 -> corpus_frames all1 = corpus_frames all2.
Proof.
  revert all2. induction all1 as [|d1 all1 IH]; intros [|d2 all2]; try done.
  rewrite !fmap_cons. intros [= Hu _ _ Hrest]. simpl.
  f_equal; [|by apply IH]. unfold chunk_frames. by rewrite Hu.
Qed.

Section Enumeration.
Context `{CRand}.
Variable all : list utterancechunkdata.
Variable b : build.

Lemma shuffle_loop_Permutation {A} n : forall (v : list A) r i v' r',
  shuffle_loop v r i n = Ok (v', r') -> v' ≡ₚ v.
Proof.
  induction n as [|n IH]; intros v r i v' r'; simpl.
  - by intros [= <- <-].
  - destruct (rand r 0 (length v)) as [[irand r1]| |]; simpl; [|done..].
    destruct (decide (irand = i)); [apply IH|].
    unfold at_. destruct (v !! i) as [vi|] eqn:Hi; simpl; [|done].
    destruct (v !! irand) as [vr|] eqn:Hr; simpl; [|done].
    intros Hrest. apply IH in Hrest. rewrite Hrest.
    by apply Permutation_insert_swap.
Qed.

Lemma randomshuffle_Permutation {A} (v v' : list A) seed r :
  randomshuffle v seed = Ok (v', r) -> v' ≡ₚ v.
Proof.
  unfold randomshuffle. destruct (_ >? _)%Z; [done|]. apply shuffle_loop_Permutation.
Qed.

Lemma place_chunks_uttchunkdata sweepts refs : forall acc rcs,
  place_chunks all refs acc sweepts = Ok rcs ->
  uttchunkdata <$> rcs = (uttchunkdata <$> acc) ++ refs.
Proof.
  induction refs as [|r refs IH]; intros acc rcs; simpl.
  - intros [= <-]. by rewrite app_nil_r.
  - destruct (match last acc with None => _ | Some _ => _ end) as [[pos ts]| |];
      simpl; [|done..].
    intros Hrest. apply IH in Hrest. rewrite Hrest, fmap_app. simpl.
    by rewrite <- app_assoc.
Qed.

Lemma compute_windows_from_uttchunkdata rr n : forall rcs k rcs',
  compute_windows_from all rr rcs k n = Ok rcs' ->
  uttchunkdata <$> rcs' = uttchunkdata <$> rcs.
Proof.
  induction n as [|n IH]; intros rcs k rcs'; simpl.
  - by intros [= <-].
  - unfold compute_window, at_.
    destruct (rcs !! k) as [c|] eqn:Hc; simpl; [|done].
    destruct (match k with 0 => _ | S _ => _ end) as [[wb0 we0]| |]; simpl; [|done..].
    destruct (advance_windowbegin _ _ _ _ _); simpl; [|done..].
    destruct (advance_windowend _ _ _ _ _ _); simpl; [|done..].
    intros Hrest. apply IH in Hrest. rewrite Hrest, list_fmap_insert. simpl.
    apply list_insert_id. by rewrite list_lookup_fmap, Hc.
Qed.

Lemma enum_frames_length ci ui i n : forall m l,
  enum_frames b ci ui i m n = Ok l -> length l = n.
Proof.
  induction n as [|n IH]; intros m l; simpl.
  - by intros [= <-].
  - intros Hrun.
    apply bind_Ok in Hrun as (_ & _ & Hrun). apply bind_Ok in Hrun as (_ & _ & Hrun).
    apply bind_Ok in Hrun as (tl & Htl & [= <-]). simpl. f_equal. by eapply IH.
Qed.

Lemma enum_utterances_length ci i utts : forall k l,
  enum_utterances b ci i utts k = Ok l ->
  length l = sum_list_with (fun u => Z.to_nat (utt_numframes u)) utts.
Proof.
  induction utts as [|u utts IH]; intros k l; simpl.
  - by intros [= <-].
  - intros Hrun.
    apply bind_Ok in Hrun as (_ & _ & Hrun). apply bind_Ok in Hrun as (hd & Hhd & Hrun).
    apply bind_Ok in Hrun as (tl & Htl & [= <-]). rewrite length_app. f_equal; [by eapply enum_frames_length|by eapply IH].
Qed.

Lemma enum_chunks_length rcs : forall i gen,
  enum_chunks all b rcs i = Ok gen ->
  length gen
  = sum_list_with (fun r => from_option chunk_frames 0 (all !! r)) (uttchunkdata <$> rcs).
Proof.
  induction rcs as [|c rcs IH]; intros i gen; simpl.
  - by intros [= <-].
  - intros Hrun.
    apply bind_Ok in Hrun as (_ & _ & Hrun). apply bind_Ok in Hrun as (d & Hd & Hrun).
    apply bind_Ok in Hrun as (hd & Hhd & Hrun).
    apply bind_Ok in Hrun as (tl & Htl & [= <-]).
    unfold getchunkdata, at_ in Hd. destruct (all !! uttchunkdata c); [|done].
    injection Hd as ->. rewrite length_app. simpl. f_equal; [by eapply enum_utterances_length|by eapply IH].
Qed.

Lemma sum_over_indices {A} (f : A -> nat) (l : list A) : forall l0,
  sum_list_with (fun r => from_option f 0 ((l0 ++ l) !! r)) (seq (length l0) (length l))
  = sum_list_with f l.
Proof.
  induction l as [|x l IH]; intros l0; simpl; [done|].
  rewrite list_lookup_middle by done. simpl. f_equal.
  specialize (IH (l0 ++ [x])). rewrite <- app_assoc, length_app in IH. simpl in IH.
  by rewrite Nat.add_1_r in IH.
Qed.

(** The enumeration of a frame-mode rebuild has one entry per frame of the
    corpus. *)
Lemma enumeration_complete seed chunkrefs r sweepts rcs0 rr rcs gen :
  randomshuffle (seq 0 (length all)) seed = Ok (chunkrefs, r) ->
  place_chunks all chunkrefs [] sweepts = Ok rcs0 ->
  compute_windows all rr rcs0 = Ok rcs ->
  enum_chunks all b rcs 0 = Ok gen ->
  length gen = corpus_frames all.
Proof.
  intros Hsh Hpl Hw Hgen.
  apply randomshuffle_Permutation in Hsh.
  apply place_chunks_uttchunkdata in Hpl. simpl in Hpl.
  apply compute_windows_from_uttchunkdata in Hw.
  apply enum_chunks_length in Hgen.
  rewrite Hgen, Hw, Hpl, Hsh. apply (sum_over_indices chunk_frames all []).
Qed.
End Enumeration.

(** *** The size of the frame array *)

Section Sized.
Context `{CRand}.
Variable b : build.
Variable classid_bits : Z.

Lemma scan_file_totalframes labels lats udim i f st st' :
  scan_file b classid_bits labels lats udim i f st = Ok st' ->
  scan_totalframes st = wrap (Z.of_nat (utterance_frames (scan_utteranceset st))) ->
  scan_totalframes st' = wrap (Z.of_nat (utterance_frames (scan_utteranceset st'))).
Proof.
  unfold scan_file.
  destruct (file_numframes f) as [uttframes|]; [|done].
  destruct (Z.ltb_spec uttframes 2); [done|].
  destruct (uttframes >? maxframesperutterance b)%Z.
  { by intros [= <-]. }
  assert (Hpush : forall cb,
    scan_totalframes st = wrap (Z.of_nat (utterance_frames (scan_utteranceset st))) ->
    sz_add (scan_totalframes st) uttframes
    = wrap (Z.of_nat (utterance_frames
              (scan_utteranceset st ++ [mkutterancedesc (file_key f) uttframes cb])))).
  { intros cb ->. unfold utterance_frames. rewrite sum_list_with_app. simpl.
    unfold sz_add, wrap. rewrite Zplus_mod_idemp_l. f_equal. lia. }
  destruct (_ || _).
  { by intros [= <-]. }
  destruct (if bool_decide (labels = ∅) then None else labels !! file_key f) as [labseq|].
  - destruct (negb _).
    { by intros [= <-]. }
    destruct (expand_labels _ _ _ _ _ _ _) as [[[cids counts] ncl]| |]; simpl; [|done..].
    destruct (_ && _); [done|]. intros [= <-] Hst. simpl. by apply Hpush.
  - destruct (_ && _); [done|]. intros [= <-] Hst. simpl. by apply Hpush.
Qed.

Lemma scan_files_totalframes labels lats udim fs : forall i st st',
  scan_files b classid_bits labels lats udim i fs st = Ok st' ->
  scan_totalframes st = wrap (Z.of_nat (utterance_frames (scan_utteranceset st))) ->
  scan_totalframes st' = wrap (Z.of_nat (utterance_frames (scan_utteranceset st'))).
Proof.
  induction fs as [|f fs IH]; intros i st st'; simpl.
  - by intros [= <-].
  - destruct (scan_file b classid_bits labels lats udim i f st) as [st1| |] eqn:Hf;
      simpl; [|done..].
    intros Hrest Hst. eapply IH; [done|]. by eapply scan_file_totalframes.
Qed.

Lemma corpus_frames_app all1 all2 :
  corpus_frames (all1 ++ all2) = corpus_frames all1 + corpus_frames all2.
Proof. apply sum_list_with_app. Qed.

Lemma distribute_corpus_frames us : forall all all',
  distribute b us all = Ok all' ->
  corpus_frames all' = corpus_frames all + utterance_frames us.
Proof.
  induction us as [|u us IH]; intros all all'; simpl.
  - intros [= <-]. lia.
  - set (all1 := match last all with None => _ | Some _ => _ end).
    assert (corpus_frames all1 = corpus_frames all) as Hall1.
    { assert (corpus_frames (all ++ [empty_chunkdata]) = corpus_frames all) as Hext.
      { rewrite corpus_frames_app. simpl. unfold chunk_frames. simpl. lia. }
      subst all1. destruct (last all); [destruct (_ || _)|]; done. }
    destruct (last all1) as [back|] eqn:Hback; [|done].
    destruct (chunkdata_push_back back u) as [c| |] eqn:Hc; simpl; [|done..].
    intros Hrest. apply IH in Hrest. rewrite Hrest, <- Hall1.
    apply last_Some in Hback as [l' Hl']. rewrite Hl'.
    rewrite length_app. simpl.
    replace (length l' + 1 - 1) with (length l' + 0) by lia.
    rewrite insert_app_r. simpl. rewrite !corpus_frames_app. simpl.
    unfold chunkdata_push_back in Hc. destruct (isinram back); [done|].
    injection Hc as <-. unfold chunk_frames. simpl.
    rewrite sum_list_with_app. simpl. lia.
Qed.

(** The constructor sizes [randomizedframerefs] to the corpus, as long as
    the frames of the corpus can be counted in a [size_t]. *)
Lemma construct_frame_array_sized infiles labels udim rr lats fm r0 s dg :
  construct b classid_bits infiles labels udim rr lats fm r0 = Ok (s, dg) ->
  (Z.of_nat (corpus_frames (allchunks s)) < SIZE_MOD)%Z ->
  frame_array_sized s.
Proof.
  unfold construct.
  destruct (scan_files _ _ _ _ _ _ _ _) as [st| |] eqn:Hscan; simpl; [|done..].
  destruct (if bool_decide (labels = ∅) then Ok () else _) as [[]| |]; simpl; [|done..].
  destruct (_ && _); [done|].
  destruct (distribute _ _ _) as [all| |] eqn:Hd; simpl; [|done..].
  intros [= <- <-] Hfit Hfm. simpl in *. subst fm.
  apply distribute_corpus_frames in Hd. simpl in Hd.
  apply scan_files_totalframes in Hscan; [|done].
  rewrite length_replicate, Hscan, Hd. rewrite Hd in Hfit.
  unfold wrap. rewrite Z.mod_small by lia. lia.
Qed.

Lemma frame_swap_retry_length rcs ttochunk fuel :
  forall framerefs r t c pb pe framerefs' r',
  frame_swap_retry fuel rcs ttochunk framerefs r t c pb pe = Ok (framerefs', r') ->
  length framerefs' = length framerefs.
Proof.
  induction fuel as [|fuel IH]; intros framerefs r t c pb pe framerefs' r' Hswap;
    simpl in Hswap; [done|].
  apply bind_Ok in Hswap as ([tswap r1] & _ & Hswap).
  apply bind_Ok in Hswap as (fswap & _ & Hswap).
  destruct (negb (in_window_Z c (fr_chunkindex fswap))); [by eapply IH|].
  apply bind_Ok in Hswap as (ft & _ & Hswap).
  apply bind_Ok in Hswap as (tci & _ & Hswap).
  apply bind_Ok in Hswap as (tc & _ & Hswap).
  destruct (negb (in_window_Z tc (fr_chunkindex ft))); [by eapply IH|].
  apply bind_Ok in Hswap as (vt & _ & Hswap).
  apply bind_Ok in Hswap as (vs & _ & Hswap).
  destruct vt, vs; simpl in Hswap; try by eapply IH.
  injection Hswap as <- <-. by rewrite !length_insert.
Qed.

Lemma frame_swap_positions_length all fuel sweepts rcs ttochunk n :
  forall framerefs r t framerefs' r',
  frame_swap_positions all fuel sweepts rcs ttochunk framerefs r t n
  = Ok (framerefs', r') ->
  length framerefs' = length framerefs.
Proof.
  induction n as [|n IH]; intros framerefs r t framerefs' r' Hswap; simpl in Hswap.
  - by injection Hswap as <- <-.
  - apply bind_Ok in Hswap as ([framerefs1 r1] & Hpos & Hswap).
    unfold frame_swap_position in Hpos.
    apply bind_Ok in Hpos as (k & _ & Hpos). apply bind_Ok in Hpos as (c & _ & Hpos).
    apply bind_Ok in Hpos as (cb & _ & Hpos). apply bind_Ok in Hpos as (ce & _ & Hpos).
    apply bind_Ok in Hpos as (te & _ & Hpos).
    apply frame_swap_retry_length in Hpos. apply IH in Hswap. congruence.
Qed.

(** A rebuild keeps the size of [randomizedframerefs]. *)
Lemma frame_array_sized_lazyrandomization fuel g s sweep s' :
  frame_array_sized s ->
  lazyrandomization b fuel g s = (Ok sweep, s') ->
  frame_array_sized s'.
Proof.
  intros Hsz Hrun. destruct (framemode s) eqn:Hfm.
  - destruct (lazyrandomization_frames b _ _ _ _ _ Hfm Hrun)
      as (_ & _ & [[_ ->]|[_ Hre]]); [done|].
    destruct Hre as (? & ? & ? & rcs & gen & framerefs0 & tto & framerefs1 & ? & ? & Hre).
    destruct Hre as (_ & _ & _ & _ & Hwr & Hsw & _ & ->).
    intros _. simpl. rewrite <- (Hsz Hfm).
    apply frame_swap_positions_length in Hsw. rewrite Hsw.
    unfold write_enumeration in Hwr.
    destruct (bool_decide (length gen ≤ length (randomizedframerefs s))) eqn:Hle;
      simpl in Hwr; [|done].
    apply bool_decide_eq_true in Hle.
    destruct (bool_decide _); [|done]. injection Hwr as <- _.
    rewrite length_app, length_fmap, length_drop. lia.
  - intros Hfm'. exfalso.
    pose proof (lazyrandomization_randomization_only b fuel g _ _ _ Hrun) as [Hfm2].
    congruence.
Qed.
End Sized.

(** *** Two rebuilds of a sweep *)

Ltac run_object :=
  cbv beta iota zeta delta [sbind gets modify lift sret throw fst snd
       set_currentsweep set_crand_state set_randomizedchunks set_positionchunkwindows
       set_randomizedutterancerefs set_randomizedutteranceposmap set_randomizedframerefs
       framemode latticesource allchunks classids numutterances _totalframes
       randomizationrange currentsweep randomizedchunks chunksinram
       randomizedutterancerefs randomizedutteranceposmap positionchunkwindows
       randomizedframerefs featdim crand_state iocalls].

Section Determinism.
Context `{CRand}.
Variable b : build.

Lemma lazyrandomization_lockstep fuel g1 g2 s1 s2 :
  same_inputs s1 s2 -> frame_array_sized s1 -> frame_array_sized s2 ->
  (g1 / _totalframes s1 = g2 / _totalframes s2)%Z ->
  (g1 / _totalframes s1)%Z <> currentsweep s1 ->
  (g2 / _totalframes s2)%Z <> currentsweep s2 ->
  (lazyrandomization b fuel g1 s1).1 = (lazyrandomization b fuel g2 s2).1 /\
  forall sweep, (lazyrandomization b fuel g1 s1).1 = Ok sweep ->
    randomization (lazyrandomization b fuel g1 s1).2
    = randomization (lazyrandomization b fuel g2 s2).2 /\
    crand_state (lazyrandomization b fuel g1 s1).2
    = crand_state (lazyrandomization b fuel g2 s2).2 /\
    currentsweep (lazyrandomization b fuel g1 s1).2 = sweep /\
    currentsweep (lazyrandomization b fuel g2 s2).2 = sweep.
Proof.
  intros [Hfm Hd Htot Hrr] Hsz1 Hsz2 Hsweep Hcur1 Hcur2.
  unfold frame_array_sized in *.
  destruct s1 as [fm1 ls1 all1 cl1 nu1 tot1 rr1 cs1 rc1 cr1 ru1 rm1 pw1 rf1 fd1 rs1 io1],
           s2 as [fm2 ls2 all2 cl2 nu2 tot2 rr2 cs2 rc2 cr2 ru2 rm2 pw2 rf2 fd2 rs2 io2].
  simpl in *. subst fm2 tot2 rr2.
  unfold lazyrandomization. run_object.
  destruct (decide (tot1 = 0%Z)) as [|_]; run_object; [by split|].
  rewrite <- Hsweep. set (sweep := (g1 / tot1)%Z) in *.
  destruct (decide (sweep = cs1)) as [|_]; [contradiction|]. run_object.
  destruct (decide (sweep = cs2)) as [Heq|_]; [rewrite <- Hsweep in Hcur2; contradiction|]. run_object.
  rewrite <- (same_descriptors_length all1 all2 Hd).
  destruct (randomshuffle (seq 0 (length all1)) sweep) as [[chunkrefs r]| |] eqn:Hsh;
    run_object; [|by split..].
  rewrite <- (place_chunks_same all1 all2 Hd).
  destruct (place_chunks all1 chunkrefs [] _) as [rcs0| |] eqn:Hpl; run_object; [|by split..].
  rewrite <- (compute_windows_same all1 all2 Hd).
  destruct (compute_windows all1 rr1 rcs0) as [rcs| |] eqn:Hw; run_object; [|by split..].
  destruct fm1.
  - unfold randomize_frames. run_object.
    rewrite <- (enum_chunks_same all1 all2 Hd).
    destruct (enum_chunks all1 b rcs 0) as [gen| |] eqn:Hgen; run_object; [|by split..].
    pose proof (enumeration_complete all1 b _ _ _ _ _ _ _ _ Hsh Hpl Hw Hgen) as Hlen.
    specialize (Hsz1 eq_refl). specialize (Hsz2 eq_refl).
    assert (corpus_frames all2 = corpus_frames all1) as Hcf.
    { symmetry. by apply corpus_frames_same. }
    unfold write_enumeration. rewrite Hsz1, Hsz2, Hcf, <- Hlen.
    rewrite !drop_ge by lia.
    destruct (_ && _); run_object; [|by split].
    rewrite <- (frame_swap_positions_same all1 all2 Hd).
    destruct (frame_swap_positions all1 _ _ _ _ _ _ _ _) as [[framerefs1 r1]| |];
      run_object; [|by split..].
    rewrite <- (check_chunks_same all1 all2 Hd).
    destruct (check_chunks all1 rcs framerefs1 0); run_object; [|by split..].
    split; [done|]. intros ? [= <-]. done.
  - unfold randomize_utterances. run_object.
    rewrite <- (build_positionchunkwindows_same all1 all2 Hd).
    destruct (build_positionchunkwindows all1 rcs 0) as [pcw| |]; run_object; [|by split..].
    rewrite <- (build_utterancerefs_same all1 all2 Hd).
    destruct (build_utterancerefs all1 rcs 0) as [refs| |]; run_object; [|by split..].
    rewrite <- (swap_positions_same all1 all2 Hd).
    destruct (swap_positions all1 _ _ _ _ _ _ _) as [[refs1 r1]| |]; run_object; [|by split..].
    rewrite <- (place_utterances_same all1 all2 Hd).
    destruct (place_utterances all1 rcs refs1 _) as [refs2| |]; run_object; [|by split..].
    destruct (verify_utterances rcs pcw refs2 0); run_object; [|by split..].
    split; [done|]. intros ? [= <-]. done.
Qed.

(** Within a sweep a second call finds the randomization cached. *)
Lemma lazyrandomization_cached fuel g s sweep s' :
  lazyrandomization b fuel g s = (Ok sweep, s') ->
  forall g', (g' / _totalframes s)%Z = sweep ->
    lazyrandomization b fuel g' s' = (Ok sweep, s').
Proof.
  intros Hrun g' Hg'.
  assert (_totalframes s <> 0%Z /\ _totalframes s' = _totalframes s
          /\ currentsweep s' = sweep) as (Hnz & Htot & Hcur).
  { destruct (framemode s) eqn:Hfm.
    - destruct (lazyrandomization_frames b _ _ _ _ _ Hfm Hrun)
        as (Hnz & _ & [[-> ->]|[_ Hre]]); [done|].
      destruct Hre as (? & ? & ? & ? & ? & ? & ? & ? & ? & ? & Hre).
      destruct Hre as (_ & _ & _ & _ & _ & _ & _ & ->). done.
    - destruct (lazyrandomization_utterances b _ _ _ _ _ Hfm Hrun)
        as (Hnz & _ & [[-> ->]|[_ Hre]]); [done|].
      destruct Hre as (? & ? & ? & ? & ? & ? & ? & ? & ? & Hre).
      destruct Hre as (_ & _ & _ & _ & _ & _ & _ & _ & ->). done. }
  cbv beta iota zeta delta [lazyrandomization sbind gets sret]. rewrite Htot.
  destruct (decide (_totalframes s = 0%Z)); [done|].
  cbv beta iota. rewrite Hg', Hcur.
  by destruct (decide (sweep = sweep)).
Qed.

(** C4.  Two rebuilds for the same sweep, on objects over the same corpus
    with the same mode and randomization range, end the same way, and when
    they return they leave the same randomized chunks (order, positions and
    windows), the same utterance or frame references and the same state of
    the generator, whatever the caches, the cached randomization, the
    previous sweep and the state of the generator were before: every draw
    follows a reseeding from the sweep.  A further call within the sweep
    leaves the object as it is. *)
Theorem rebuild_deterministic fuel g1 g2 s1 s2 r1 s1' r2 s2' :
  same_inputs s1 s2 -> frame_array_sized s1 -> frame_array_sized s2 ->
  (g1 / _totalframes s1 = g2 / _totalframes s2)%Z ->
  (g1 / _totalframes s1)%Z <> currentsweep s1 ->
  (g2 / _totalframes s2)%Z <> currentsweep s2 ->
  lazyrandomization b fuel g1 s1 = (r1, s1') ->
  lazyrandomization b fuel g2 s2 = (r2, s2') ->
  r1 = r2 /\
  forall sweep, r1 = Ok sweep ->
    randomization s1' = randomization s2' /\
    crand_state s1' = crand_state s2' /\
    forall g, (g / _totalframes s1)%Z = sweep ->
      lazyrandomization b fuel g s1' = (Ok sweep, s1').
Proof.
  intros Hin Hsz1 Hsz2 Hsweep Hcur1 Hcur2 Hrun1 Hrun2.
  destruct (lazyrandomization_lockstep fuel g1 g2 s1 s2 Hin Hsz1 Hsz2 Hsweep Hcur1 Hcur2)
    as [Hres Hst].
  rewrite Hrun1, Hrun2 in Hres, Hst. simpl in Hres, Hst.
  split; [done|]. intros sweep ->.
  destruct (Hst sweep eq_refl) as (Hrand & Hrng & _).
  split_and!; [done..|].
  by apply (lazyrandomization_cached fuel g1 s1).
Qed.
End Determinism.

Lemma rebuild_deterministic_witness :
  (let s1 := @tiny_source stride true 100 0 in
   let s2 := set_allchunks
               (@lazyrandomization stride WIN64 100 8 (@tiny_source stride true 100 5)).2
               tiny_chunks_paged in
   (@lazyrandomization stride WIN64 100 0 s1).1 = Ok 0%Z /\
   currentsweep s2 = 1%Z /\
   randomization (@lazyrandomization stride WIN64 100 0 s1).2
   = randomization (@lazyrandomization stride WIN64 100 3 s2).2) /\
  (let s1 := @tiny_source stride false 100 0 in
   let s2 := set_allchunks
               (@lazyrandomization stride WIN64 100 8 (@tiny_source stride false 100 5)).2
               tiny_chunks_paged in
   (@lazyrandomization stride WIN64 100 0 s1).1 = Ok 0%Z /\
   currentsweep s2 = 1%Z /\
   randomization (@lazyrandomization stride WIN64 100 0 s1).2
   = randomization (@lazyrandomization stride WIN64 100 3 s2).2).
Proof.
  split; intros s1 s2.
  - destruct (@rebuild_deterministic stride WIN64 100 0 3 s1 s2
                (@lazyrandomization stride WIN64 100 0 s1).1
                (@lazyrandomization stride WIN64 100 0 s1).2
                (@lazyrandomization stride WIN64 100 3 s2).1
                (@lazyrandomization stride WIN64 100 3 s2).2) as [_ Hst].
    + split; reflexivity.
    + intros _. reflexivity.
    + intros _. reflexivity.
    + reflexivity.
    + vm_compute. discriminate.
    + vm_compute. discriminate.
    + by destruct (@lazyrandomization stride WIN64 100 0 s1).
    + by destruct (@lazyrandomization stride WIN64 100 3 s2).
    + split; [reflexivity|]. split; [reflexivity|].
      by destruct (Hst 0%Z eq_refl) as (Hrand & _).
  - destruct (@rebuild_deterministic stride WIN64 100 0 3 s1 s2
                (@lazyrandomization stride WIN64 100 0 s1).1
                (@lazyrandomization stride WIN64 100 0 s1).2
                (@lazyrandomization stride WIN64 100 3 s2).1
                (@lazyrandomization stride WIN64 100 3 s2).2) as [_ Hst].
    + split; reflexivity.
    + intros [=].
    + intros [=].
    + reflexivity.
    + vm_compute. discriminate.
    + vm_compute. discriminate.
    + by destruct (@lazyrandomization stride WIN64 100 0 s1).
    + by destruct (@lazyrandomization stride WIN64 100 3 s2).
    + split; [reflexivity|]. split; [reflexivity|].
      by destruct (Hst 0%Z eq_refl) as (Hrand & _).
Defined.

(** * Further properties of the code *)

(** ** Shuffling *)

Section Shuffle.
Context `{CRand}.

Lemma shuffle_loop_total {A} n : forall (v : list A) r i,
  i + n = length v -> exists v' r', shuffle_loop v r i n = Ok (v', r').
Proof.
  induction n as [|n IH]; intros v r i Hlen; simpl; [by eauto|].
  unfold rand. rewrite bool_decide_eq_true_2 by lia. simpl.
  pose proof (dbn_rand_range r 0 (length v) ltac:(lia)) as Hrange.
  destruct (dbn_rand r 0 (length v)) as [irand r1]. simpl in *.
  destruct (decide (irand = i)); [apply IH; lia|].
  unfold at_.
  destruct (lookup_lt_is_Some_2 v i ltac:(lia)) as [vi ->].
  destruct (lookup_lt_is_Some_2 v irand ltac:(lia)) as [vr ->]. simpl.
  apply IH. rewrite !length_insert. lia.
Qed.

(** X1.  [randomshuffle] refuses a vector of more than [RAND_MAX * RAND_MAX]
    elements with its runtime error; on any other vector, the empty one
    included, it returns, never reaches outside the vector, and leaves a
    permutation of the elements. *)
Theorem randomshuffle_permutes {A} (v : list A) (seed : Z) :
  ((Z.of_nat (length v) > sz_mul RAND_MAX RAND_MAX)%Z ->
   randomshuffle v seed = Throw runtime_shuffle_too_large) /\
  ((Z.of_nat (length v) <= sz_mul RAND_MAX RAND_MAX)%Z ->
   exists v' r, randomshuffle v seed = Ok (v', r) /\ v' ≡ₚ v).
Proof.
  unfold randomshuffle. split; intros Hlen.
  - destruct (Z.gtb_spec (Z.of_nat (length v)) (sz_mul RAND_MAX RAND_MAX)); [done|lia].
  - destruct (Z.gtb_spec (Z.of_nat (length v)) (sz_mul RAND_MAX RAND_MAX)); [lia|].
    destruct (shuffle_loop_total (length v) v (srand (trunc 32 seed)) 0 eq_refl)
      as (v' & r' & Hrun).
    exists v', r'. split; [done|]. by eapply shuffle_loop_Permutation.
Qed.
End Shuffle.

Lemma randomshuffle_permutes_witness :
  exists v' r, @randomshuffle stride nat [10; 20; 30; 40; 50] 1 = Ok (v', r)
    /\ v' ≡ₚ [10; 20; 30; 40; 50] /\ v' <> [10; 20; 30; 40; 50].
Proof.
  destruct (@randomshuffle_permutes stride nat [10; 20; 30; 40; 50] 1) as [_ Hok].
  destruct Hok as (v' & r & Hrun & Hperm); [vm_compute; discriminate|].
  exists v', r. split; [done|]. split; [done|].
  vm_compute in Hrun. injection Hrun as <- _. discriminate.
Defined.

(** ** Chunks and utterances of a sweep *)

Section Once.
Context `{CRand}.
Variable b : build.

(** The chunk phase of a rebuild, in either mode. *)
Lemma lazyrandomization_chunks fuel g s sweep s' :
  lazyrandomization b fuel g s = (Ok sweep, s') -> currentsweep s <> sweep ->
  allchunks s' = allchunks s /\ _totalframes s' = _totalframes s /\
  sweep = (g / _totalframes s)%Z /\
  exists chunkrefs r rcs0,
    randomshuffle (seq 0 (length (allchunks s))) sweep = Ok (chunkrefs, r) /\
    place_chunks (allchunks s) chunkrefs [] (sz_mul sweep (_totalframes s)) = Ok rcs0 /\
    compute_windows (allchunks s) (randomizationrange s) rcs0
    = Ok (randomizedchunks s').
Proof.
  intros Hrun Hnew. destruct (framemode s) eqn:Hfm.
  - destruct (lazyrandomization_frames b _ _ _ _ _ Hfm Hrun)
      as (_ & Hsw & [[Heq _]|[_ Hre]]); [congruence|].
    destruct Hre as (chunkrefs & r & rcs0 & rcs & ? & ? & ? & ? & ? & ? & Hre).
    destruct Hre as (Hsh & Hpl & Hw & _ & _ & _ & _ & ->). simpl.
    split_and!; try done. by exists chunkrefs, r, rcs0.
  - destruct (lazyrandomization_utterances b _ _ _ _ _ Hfm Hrun)
      as (_ & Hsw & [[Heq _]|[_ Hre]]); [congruence|].
    destruct Hre as (chunkrefs & r & rcs0 & rcs & ? & ? & ? & ? & ? & Hre).
    destruct Hre as (Hsh & Hpl & Hw & _ & _ & _ & _ & _ & ->). simpl.
    split_and!; try done. by exists chunkrefs, r, rcs0.
Qed.

Lemma rebuilt_chunks_Permutation fuel g s sweep s' :
  lazyrandomization b fuel g s = (Ok sweep, s') -> currentsweep s <> sweep ->
  uttchunkdata <$> randomizedchunks s' ≡ₚ seq 0 (length (allchunks s')).
Proof.
  intros Hrun Hnew.
  destruct (lazyrandomization_chunks _ _ _ _ _ Hrun Hnew)
    as (-> & _ & _ & chunkrefs & r & rcs0 & Hsh & Hpl & Hw).
  apply randomshuffle_Permutation in Hsh.
  apply place_chunks_uttchunkdata in Hpl. simpl in Hpl.
  apply compute_windows_from_uttchunkdata in Hw.
  by rewrite Hw, Hpl.
Qed.

(** X2.  A rebuild puts every chunk of the corpus into the randomized
    chunk sequence exactly once. *)
Theorem chunks_once_per_sweep fuel g s sweep s' :
  lazyrandomization b fuel g s = (Ok sweep, s') -> currentsweep s <> sweep ->
  uttchunkdata <$> randomizedchunks s' ≡ₚ seq 0 (length (allchunks s')) /\
  NoDup (uttchunkdata <$> randomizedchunks s') /\
  length (randomizedchunks s') = length (allchunks s').
Proof.
  intros Hrun Hnew.
  pose proof (rebuilt_chunks_Permutation _ _ _ _ _ Hrun Hnew) as Hperm.
  split_and!; [done| |].
  - rewrite Hperm. apply NoDup_seq.
  - apply Permutation_length in Hperm. by rewrite length_fmap, length_seq in Hperm.
Qed.

(** *** Utterance mode *)

Lemma swap_retry_keys rcs pcw fuel : forall refs r i pb pe refs' r',
  swap_retry fuel rcs pcw refs r i pb pe = Ok (refs', r') ->
  ref_key <$> refs' ≡ₚ ref_key <$> refs.
Proof.
  induction fuel as [|fuel IH]; intros refs r i pb pe refs' r' Hswap;
    simpl in Hswap; [done|].
  apply bind_Ok in Hswap as ([j r1] & Hrand & Hswap).
  destruct (decide (i = j)) as [->|Hij].
  { by injection Hswap as <- <-. }
  apply bind_Ok in Hswap as (wi & Hwi%at_Ok & Hswap).
  apply bind_Ok in Hswap as (uj & Huj%at_Ok & Hswap).
  apply bind_Ok in Hswap as (okj & Hokj & Hswap).
  destruct okj; simpl in Hswap; [|by eapply IH].
  apply bind_Ok in Hswap as (wj & Hwj%at_Ok & Hswap).
  apply bind_Ok in Hswap as (ui & Hui%at_Ok & Hswap).
  apply bind_Ok in Hswap as (oki & Hoki & Hswap).
  destruct oki; simpl in Hswap; [|by eapply IH].
  injection Hswap as <- <-. rewrite !list_fmap_insert.
  change (ref_key (mkutteranceref (chunkindex ui) (utteranceindex ui) (numframes uj)
                 (ref_globalts uj))) with (ref_key ui).
  change (ref_key (mkutteranceref (chunkindex uj) (utteranceindex uj) (numframes ui)
                 (ref_globalts ui))) with (ref_key uj).
  apply Permutation_insert_swap; by rewrite list_lookup_fmap, ?Hui, ?Huj.
Qed.

Lemma swap_positions_keys all rcs pcw fuel n : forall refs r i refs' r',
  swap_positions all fuel rcs pcw refs r i n = Ok (refs', r') ->
  ref_key <$> refs' ≡ₚ ref_key <$> refs.
Proof.
  induction n as [|n IH]; intros refs r i refs' r' Hswap; simpl in Hswap.
  - by injection Hswap as <- <-.
  - apply bind_Ok in Hswap as ([refs1 r1] & Hpos & Hswap).
    unfold swap_position in Hpos.
    apply bind_Ok in Hpos as (k & _ & Hpos). apply bind_Ok in Hpos as (dc & _ & Hpos).
    apply bind_Ok in Hpos as (cb & _ & Hpos). apply bind_Ok in Hpos as (ce & _ & Hpos).
    apply bind_Ok in Hpos as (pe & _ & Hpos).
    apply swap_retry_keys in Hpos. apply IH in Hswap. by rewrite Hswap.
Qed.

Lemma place_utterances_keys all rcs refs : forall t refs',
  place_utterances all rcs refs t = Ok refs' -> ref_key <$> refs' = ref_key <$> refs.
Proof.
  induction refs as [|u refs IH]; intros t refs' Hpl; simpl in Hpl.
  - by injection Hpl as <-.
  - apply bind_Ok in Hpl as (c & _ & Hpl). apply bind_Ok in Hpl as (d & _ & Hpl).
    apply bind_Ok in Hpl as (n & _ & Hpl). apply bind_Ok in Hpl as (tl & Htl & Hpl).
    injection Hpl as <-. rewrite !fmap_cons. f_equal. by eapply IH.
Qed.

Lemma underlying_key rcs (l : list utteranceref) :
  underlying rcs <$> l
  = (fun p => (from_option uttchunkdata 0 (rcs !! p.1), p.2)) <$> (ref_key <$> l).
Proof. by rewrite <- list_fmap_compose. Qed.

Lemma build_utterancerefs_underlying all full rcs : forall k refs,
  drop k full = rcs ->
  build_utterancerefs all rcs k = Ok refs ->
  underlying full <$> refs = (uttchunkdata <$> rcs) ≫= utterances_at all.
Proof.
  induction rcs as [|c rcs IH]; intros k refs Hdrop Hb; simpl in Hb.
  - by injection Hb as <-.
  - apply bind_Ok in Hb as (n & Hn & Hb). apply bind_Ok in Hb as (tl & Htl & Hb).
    injection Hb as <-.
    assert (full !! k = Some c) as Hk.
    { rewrite <- (Nat.add_0_r k), <- lookup_drop, Hdrop. done. }
    assert (drop (S k) full = rcs) as Hdrop'.
    { rewrite (drop_S _ _ _ Hk) in Hdrop. by injection Hdrop. }
    rewrite fmap_app, fmap_cons, bind_cons. f_equal; [|by eapply IH].
    unfold chunk_numutterances, getchunkdata, at_ in Hn.
    destruct (all !! uttchunkdata c) as [d|] eqn:Hd; [|done]. injection Hn as <-.
    unfold utterances_at. rewrite Hd. simpl.
    rewrite <- list_fmap_compose. apply list_fmap_ext. intros ? i _.
    unfold underlying, new_utteranceref. simpl. by rewrite Hk.
Qed.

Lemma rebuilt_utterances_Permutation fuel g s sweep s' :
  framemode s = false ->
  lazyrandomization b fuel g s = (Ok sweep, s') -> currentsweep s <> sweep ->
  underlying (randomizedchunks s') <$> randomizedutterancerefs s'
  ≡ₚ corpus_utterances (allchunks s').
Proof.
  intros Hfm Hrun Hnew.
  pose proof (rebuilt_chunks_Permutation _ _ _ _ _ Hrun Hnew) as Hperm.
  destruct (lazyrandomization_utterances b _ _ _ _ _ Hfm Hrun)
    as (_ & _ & [[Heq _]|[_ Hre]]); [congruence|].
  destruct Hre as (chunkrefs & r & rcs0 & rcs & pcw & refs & refs1 & r1 & refs2 & Hre).
  destruct Hre as (_ & _ & _ & _ & Hrefs & Hswap & Hplace & _ & ->). simpl in *.
  apply swap_positions_keys in Hswap. apply place_utterances_keys in Hplace.
  rewrite underlying_key, Hplace, Hswap, <- underlying_key.
  rewrite (build_utterancerefs_underlying _ rcs rcs 0 refs eq_refl Hrefs).
  unfold corpus_utterances. by rewrite Hperm.
Qed.

(** X3.  In utterance mode a rebuild assigns every utterance of the corpus
    to exactly one utterance position. *)
Theorem utterances_once_per_sweep fuel g s sweep s' :
  framemode s = false ->
  lazyrandomization b fuel g s = (Ok sweep, s') -> currentsweep s <> sweep ->
  underlying (randomizedchunks s') <$> randomizedutterancerefs s'
  ≡ₚ corpus_utterances (allchunks s').
Proof. apply rebuilt_utterances_Permutation. Qed.
End Once.

Lemma chunks_once_per_sweep_witness :
  exists s, @lazyrandomization stride WIN64 100 0 (@trio_source stride true 100 0)
            = (Ok 0%Z, s)
    /\ (uttchunkdata <$> randomizedchunks s) = [0; 2; 1]
    /\ uttchunkdata <$> randomizedchunks s ≡ₚ [0; 1; 2].
Proof.
  destruct (@lazyrandomization stride WIN64 100 0 (@trio_source stride true 100 0))
    as [r s] eqn:Hrun.
  pose proof Hrun as Hval. vm_compute in Hval. injection Hval as <- <-.
  eexists. split; [reflexivity|]. split; [reflexivity|].
  apply (@chunks_once_per_sweep stride WIN64 100 0 _ _ _ Hrun). vm_compute. discriminate.
Defined.

Lemma utterances_once_per_sweep_witness :
  exists s, @lazyrandomization stride WIN64 100 0 (@trio_source stride false 100 0)
            = (Ok 0%Z, s)
    /\ underlying (randomizedchunks s) <$> randomizedutterancerefs s
       ≡ₚ [(0, 0); (0, 1); (1, 0); (2, 0); (2, 1)].
Proof.
  destruct (@lazyrandomization stride WIN64 100 0 (@trio_source stride false 100 0))
    as [r s] eqn:Hrun.
  pose proof Hrun as Hval. vm_compute in Hval. injection Hval as <- <-.
  eexists. split; [reflexivity|].
  apply (@utterances_once_per_sweep stride WIN64 100 0
           (@trio_source stride false 100 0) _ _ eq_refl Hrun).
  vm_compute. discriminate.
Defined.

(** ** Frames of a sweep *)

Section FramesOnce.
Context `{CRand}.
Variable b : build.

Lemma checkoverflow_Ok f t : checkoverflow f t = Ok () -> f = t.
Proof. unfold checkoverflow. by destruct (decide _). Qed.

Lemma enum_frames_refs ci ui i n : forall m l,
  enum_frames b ci ui i m n = Ok l ->
  l.*1 = (fun m' => mkframeref ci ui (Z.of_nat m')) <$> seq m n.
Proof.
  induction n as [|n IH]; intros m l Hrun; simpl in Hrun.
  - by injection Hrun as <-.
  - apply bind_Ok in Hrun as ([] & Hfi%checkoverflow_Ok & Hrun).
    apply bind_Ok in Hrun as ([] & _ & Hrun).
    apply bind_Ok in Hrun as (tl & Htl & [= <-]). simpl.
    rewrite Hfi. f_equal. by apply IH.
Qed.

Lemma enum_utterances_refs full i utts : forall k l,
  enum_utterances b (Z.of_nat i) i utts k = Ok l ->
  underlying_frame full <$> l.*1
  = concat (imap (fun j => utterance_frame_ids
                             (from_option uttchunkdata 0 (full !! i)) (k + j)) utts).
Proof.
  induction utts as [|u utts IH]; intros k l Hrun; simpl in Hrun.
  - by injection Hrun as <-.
  - apply bind_Ok in Hrun as ([] & Hui%checkoverflow_Ok & Hrun).
    apply bind_Ok in Hrun as (hd & Hhd & Hrun).
    apply bind_Ok in Hrun as (tl & Htl & [= <-]).
    rewrite fmap_app, fmap_app, imap_cons. simpl. f_equal.
    + apply enum_frames_refs in Hhd. rewrite Hhd, Hui, <- list_fmap_compose.
      unfold utterance_frame_ids. apply list_fmap_ext. intros ? m _.
      unfold underlying_frame. simpl. by rewrite !Nat2Z.id, Nat.add_0_r.
    + rewrite (IH _ _ Htl). f_equal. apply imap_ext. intros j x _. simpl.
      f_equal. lia.
Qed.

Lemma enum_chunks_refs all full rcs : forall i gen,
  drop i full = rcs ->
  enum_chunks all b rcs i = Ok gen ->
  underlying_frame full <$> gen.*1 = (uttchunkdata <$> rcs) ≫= frames_at all.
Proof.
  induction rcs as [|c rcs IH]; intros i gen Hdrop Hrun; simpl in Hrun.
  - by injection Hrun as <-.
  - apply bind_Ok in Hrun as ([] & Hci%checkoverflow_Ok & Hrun).
    apply bind_Ok in Hrun as (d & Hd & Hrun).
    apply bind_Ok in Hrun as (hd & Hhd & Hrun).
    apply bind_Ok in Hrun as (tl & Htl & [= <-]).
    assert (full !! i = Some c) as Hi.
    { rewrite <- (Nat.add_0_r i), <- lookup_drop, Hdrop. done. }
    assert (drop (S i) full = rcs) as Hdrop'.
    { rewrite (drop_S _ _ _ Hi) in Hdrop. by injection Hdrop. }
    rewrite fmap_app, fmap_app, fmap_cons, bind_cons. f_equal; [|by eapply IH].
    rewrite Hci in Hhd. rewrite (enum_utterances_refs full _ _ _ _ Hhd), Hi. simpl.
    unfold getchunkdata, at_ in Hd. unfold frames_at.
    destruct (all !! uttchunkdata c); [|done]. injection Hd as ->. simpl. done.
Qed.

Lemma frame_swap_retry_Permutation rcs ttochunk fuel :
  forall framerefs r t c pb pe framerefs' r',
  frame_swap_retry fuel rcs ttochunk framerefs r t c pb pe = Ok (framerefs', r') ->
  framerefs' ≡ₚ framerefs.
Proof.
  induction fuel as [|fuel IH]; intros framerefs r t c pb pe framerefs' r' Hswap;
    simpl in Hswap; [done|].
  apply bind_Ok in Hswap as ([tswap r1] & _ & Hswap).
  apply bind_Ok in Hswap as (fswap & Hfswap%at_Ok & Hswap).
  destruct (negb (in_window_Z c (fr_chunkindex fswap))); [by eapply IH|].
  apply bind_Ok in Hswap as (ft & Hft%at_Ok & Hswap).
  apply bind_Ok in Hswap as (tci & _ & Hswap).
  apply bind_Ok in Hswap as (tc & _ & Hswap).
  destruct (negb (in_window_Z tc (fr_chunkindex ft))); [by eapply IH|].
  apply bind_Ok in Hswap as (vt & _ & Hswap).
  apply bind_Ok in Hswap as (vs & _ & Hswap).
  destruct vt, vs; simpl in Hswap; try by eapply IH.
  injection Hswap as <- <-. by apply Permutation_insert_swap.
Qed.

Lemma frame_swap_positions_Permutation all fuel sweepts rcs ttochunk n :
  forall framerefs r t framerefs' r',
  frame_swap_positions all fuel sweepts rcs ttochunk framerefs r t n
  = Ok (framerefs', r') ->
  framerefs' ≡ₚ framerefs.
Proof.
  induction n as [|n IH]; intros framerefs r t framerefs' r' Hswap; simpl in Hswap.
  - by injection Hswap as <- <-.
  - apply bind_Ok in Hswap as ([framerefs1 r1] & Hpos & Hswap).
    unfold frame_swap_position in Hpos.
    apply bind_Ok in Hpos as (k & _ & Hpos). apply bind_Ok in Hpos as (c & _ & Hpos).
    apply bind_Ok in Hpos as (cb & _ & Hpos). apply bind_Ok in Hpos as (ce & _ & Hpos).
    apply bind_Ok in Hpos as (te & _ & Hpos).
    apply frame_swap_retry_Permutation in Hpos. apply IH in Hswap. by rewrite Hswap.
Qed.

(** X4.  In frame mode a rebuild assigns every frame of the corpus to
    exactly one frame position. *)
Theorem frames_once_per_sweep fuel g s sweep s' :
  framemode s = true -> frame_array_sized s ->
  lazyrandomization b fuel g s = (Ok sweep, s') -> currentsweep s <> sweep ->
  underlying_frame (randomizedchunks s') <$> randomizedframerefs s'
  ≡ₚ corpus_frame_ids (allchunks s').
Proof.
  intros Hfm Hsz Hrun Hnew.
  pose proof (rebuilt_chunks_Permutation b _ _ _ _ _ Hrun Hnew) as Hperm.
  destruct (lazyrandomization_frames b _ _ _ _ _ Hfm Hrun)
    as (_ & _ & [[Heq _]|[_ Hre]]); [congruence|].
  destruct Hre as (chunkrefs & r & rcs0 & rcs & gen & framerefs0 & tto & framerefs1
                   & r1 & tn & Hre).
  destruct Hre as (Hsh & Hpl & Hw & Hgen & Hwr & Hswap & _ & ->). simpl in *.
  pose proof (enumeration_complete _ b _ _ _ _ _ _ _ _ Hsh Hpl Hw Hgen) as Hlen.
  apply frame_swap_positions_Permutation in Hswap. rewrite Hswap.
  unfold write_enumeration in Hwr. destruct (_ && _); [|done].
  injection Hwr as <- _. rewrite drop_ge, app_nil_r by (rewrite (Hsz Hfm); lia).
  rewrite (enum_chunks_refs _ rcs rcs 0 gen eq_refl Hgen).
  unfold corpus_frame_ids. by rewrite Hperm.
Qed.
End FramesOnce.

Lemma frames_once_per_sweep_witness :
  exists s, @lazyrandomization stride WIN64 100 0 (@tiny_source stride true 100 0)
            = (Ok 0%Z, s)
    /\ underlying_frame (randomizedchunks s) <$> randomizedframerefs s
       ≡ₚ [(0, 0, 0); (0, 0, 1); (0, 1, 0); (0, 1, 1); (0, 1, 2); (1, 0, 0); (1, 0, 1)].
Proof.
  destruct (@lazyrandomization stride WIN64 100 0 (@tiny_source stride true 100 0))
    as [r s] eqn:Hrun.
  pose proof Hrun as Hval. vm_compute in Hval. injection Hval as <- <-.
  eexists. split; [reflexivity|].
  assert (currentsweep (@tiny_source stride true 100 0) <> 0%Z) as Hnew
    by (vm_compute; discriminate).
  exact (@frames_once_per_sweep stride WIN64 100 0
           (@tiny_source stride true 100 0) _ _ eq_refl (fun _ => eq_refl) Hrun Hnew).
Defined.

(** ** The timeline of the chunks of a sweep *)

Lemma sumZ_cons x l : sumZ (x :: l) = (x + sumZ l)%Z.
Proof. done. Qed.

Lemma sumZ_app l k : sumZ (l ++ k) = (sumZ l + sumZ k)%Z.
Proof. induction l as [|x l IH]; rewrite <- ?app_comm_cons, ?sumZ_cons; [done|lia]. Qed.

Lemma wrap_wrap_add a c : wrap (wrap a + c) = wrap (a + c).
Proof. unfold wrap. by rewrite Zplus_mod_idemp_l. Qed.

Lemma wrap_add_wrap a c : wrap (a + wrap c) = wrap (a + c).
Proof. unfold wrap. by rewrite Zplus_mod_idemp_r. Qed.

Lemma wrap_idemp a : wrap (wrap a) = wrap a.
Proof. unfold wrap. apply Z.mod_mod. unfold SIZE_MOD. lia. Qed.

Lemma sum_frames_snoc all l r :
  sum_frames all (l ++ [r]) = (sum_frames all l + chunkframes_at all r)%Z.
Proof.
  unfold sum_frames. rewrite fmap_app, foldr_app. simpl.
  generalize (chunkframes_at all r). intros z.
  induction (chunkframes_at all <$> l) as [|x l' IH]; simpl; lia.
Qed.

Section ChunkTimeline.
Context `{CRand}.
Variable b : build.
Variable all : list utterancechunkdata.

Lemma chunk_ends c d :
  all !! uttchunkdata c = Some d ->
  utteranceposend all c = Ok (utteranceposbegin c + numutts_at all (uttchunkdata c)) /\
  globalte all c = Ok (sz_add (globalts c) (chunkframes_at all (uttchunkdata c))).
Proof.
  intros Hd. unfold utteranceposend, globalte, chunk_numutterances, chunk_numframes,
    getchunkdata, at_, numutts_at, chunkframes_at. by rewrite Hd.
Qed.

Lemma place_chunks_placed sweepts refs : forall acc rcs,
  (forall k c, acc !! k = Some c -> placed_at all sweepts acc k c) ->
  place_chunks all refs acc sweepts = Ok rcs ->
  sweepts = wrap sweepts ->
  forall k c, rcs !! k = Some c -> placed_at all sweepts rcs k c.
Proof.
  induction refs as [|r refs IH]; intros acc rcs Hacc Hplace Hs; simpl in Hplace.
  - by injection Hplace as <-.
  - apply bind_Ok in Hplace as ([pos ts] & Hpt & Hplace).
    eapply IH; [|exact Hplace|done]. clear IH Hplace.
    intros k c Hc. unfold placed_at. rewrite fmap_app. simpl.
    apply lookup_app_Some in Hc as [Hc|[Hk Hc]].
    + pose proof (lookup_lt_Some _ _ _ Hc) as Hlt.
      rewrite take_app_le by (rewrite length_fmap; lia). by apply Hacc.
    + apply list_lookup_singleton_Some in Hc as [Hk0 <-]. simpl.
      assert (k = length acc) as -> by lia.
      rewrite take_app_length' by (by rewrite length_fmap).
      destruct (last acc) as [bk|] eqn:Hlast.
      * apply bind_Ok in Hpt as (pe & Hpe & Hpt).
        apply bind_Ok in Hpt as (te & Hte & [= <- <-]).
        apply last_Some in Hlast as [l' ->].
        destruct (Hacc (length l') bk) as [Hpb Hgs]; [by apply list_lookup_middle|].
        rewrite fmap_app in Hpb, Hgs. simpl in Hpb, Hgs.
        rewrite take_app_length' in Hpb, Hgs by (by rewrite length_fmap).
        assert (is_Some (all !! uttchunkdata bk)) as [d Hd].
        { unfold utteranceposend, chunk_numutterances, getchunkdata, at_ in Hpe.
          destruct (all !! uttchunkdata bk); [eauto|done]. }
        destruct (chunk_ends bk d Hd) as [Hpe' Hte'].
        rewrite Hpe' in Hpe. rewrite Hte' in Hte.
        injection Hpe as <-. injection Hte as <-.
        rewrite fmap_app. simpl. rewrite sum_list_with_app, sum_frames_snoc. simpl.
        rewrite Hpb, Hgs. split; [lia|]. unfold sz_add. rewrite wrap_wrap_add.
        f_equal. lia.
      * injection Hpt as <- <-. apply last_None in Hlast as ->. simpl.
        split; [done|]. unfold sum_frames. simpl. by rewrite Z.add_0_r.
Qed.

Lemma compute_windows_from_base rr n : forall rcs k rcs',
  compute_windows_from all rr rcs k n = Ok rcs' ->
  base <$> rcs' = base <$> rcs.
Proof.
  induction n as [|n IH]; intros rcs k rcs'; simpl.
  - by intros [= <-].
  - unfold compute_window, at_.
    destruct (rcs !! k) as [c|] eqn:Hc; simpl; [|done].
    destruct (match k with 0 => _ | S _ => _ end) as [[wb0 we0]| |]; simpl; [|done..].
    destruct (advance_windowbegin _ _ _ _ _); simpl; [|done..].
    destruct (advance_windowend _ _ _ _ _ _); simpl; [|done..].
    intros Hrest. apply IH in Hrest. rewrite Hrest, list_fmap_insert. simpl.
    apply list_insert_id. by rewrite list_lookup_fmap, Hc.
Qed.

Lemma placed_at_base sweepts rcs rcs' k c' :
  base <$> rcs' = base <$> rcs ->
  (forall k c, rcs !! k = Some c -> placed_at all sweepts rcs k c) ->
  rcs' !! k = Some c' -> placed_at all sweepts rcs' k c'.
Proof.
  intros Hbase Hpl Hc'.
  assert (uttchunkdata <$> rcs' = uttchunkdata <$> rcs) as Hids.
  { apply (f_equal (fmap (fun p : nat * nat * Z => p.1.1))) in Hbase.
    by rewrite <- !list_fmap_compose in Hbase. }
  pose proof (f_equal (fun l => l !! k) Hbase) as Hk. simpl in Hk.
  rewrite !list_lookup_fmap, Hc' in Hk. simpl in Hk.
  destruct (rcs !! k) as [c|] eqn:Hc; [|done]. injection Hk as Hu Hp Hg.
  destruct (Hpl k c Hc) as [Hpb Hgs]. unfold placed_at.
  by rewrite Hids, Hp, Hg.
Qed.

Lemma sumZ_Permutation (l k : list Z) : l ≡ₚ k -> sumZ l = sumZ k.
Proof. induction 1; rewrite ?sumZ_cons; lia. Qed.

Lemma sumZ_over_indices {A} (f : A -> Z) (l : list A) : forall l0,
  sumZ ((fun r => from_option f 0%Z ((l0 ++ l) !! r)) <$> seq (length l0) (length l))
  = sumZ (f <$> l).
Proof.
  induction l as [|x l IH]; intros l0; simpl; [done|].
  rewrite !sumZ_cons, list_lookup_middle by done. simpl. f_equal.
  specialize (IH (l0 ++ [x])). rewrite <- app_assoc, length_app in IH. simpl in IH.
  by rewrite Nat.add_1_r in IH.
Qed.

Lemma sum_frames_all ids :
  ids ≡ₚ seq 0 (length all) -> sum_frames all ids = sumZ (totalframes <$> all).
Proof.
  intros Hperm. unfold sum_frames. fold (sumZ (chunkframes_at all <$> ids)).
  rewrite (sumZ_Permutation _ (chunkframes_at all <$> seq 0 (length all)))
    by (by rewrite Hperm).
  apply (sumZ_over_indices totalframes all []).
Qed.

Lemma numutts_all ids :
  ids ≡ₚ seq 0 (length all) ->
  sum_list_with (numutts_at all) ids = sum_list_with chunkdata_numutterances all.
Proof.
  intros Hperm. rewrite Hperm. apply (sum_over_indices chunkdata_numutterances all []).
Qed.
End ChunkTimeline.

Section ChunkTimelineTheorem.
Context `{CRand}.
Variable b : build.

Lemma rebuilt_chunks_placed fuel g s sweep s' :
  lazyrandomization b fuel g s = (Ok sweep, s') -> currentsweep s <> sweep ->
  forall k c, randomizedchunks s' !! k = Some c ->
    placed_at (allchunks s') (sz_mul sweep (_totalframes s')) (randomizedchunks s') k c.
Proof.
  intros Hrun Hnew k c Hc.
  destruct (lazyrandomization_chunks b _ _ _ _ _ Hrun Hnew)
    as (-> & -> & _ & chunkrefs & r & rcs0 & Hsh & Hpl & Hw).
  apply compute_windows_from_base in Hw.
  eapply placed_at_base; [exact Hw| |exact Hc].
  eapply place_chunks_placed; [|exact Hpl|].
  - intros ? ? Hnil. by rewrite lookup_nil in Hnil.
  - unfold sz_mul. by rewrite wrap_idemp.
Qed.

(** X5.  A rebuild lays the randomized chunks end to end: chunk [k]
    begins at the utterance position and at the frame that the chunks
    before it leave, the first at position 0 and at the first frame of the
    sweep, all in [size_t] arithmetic.  When the counters of the object
    agree with its chunks, the last chunk ends at [numutterances] and at
    the last frame of the sweep. *)
Theorem chunk_timeline fuel g s sweep s' :
  lazyrandomization b fuel g s = (Ok sweep, s') -> currentsweep s <> sweep ->
  let all := allchunks s' in
  let rcs := randomizedchunks s' in
  let ids := uttchunkdata <$> rcs in
  let sweepts := sz_mul sweep (_totalframes s') in
  (forall k c, rcs !! k = Some c ->
     utteranceposbegin c = sum_list_with (numutts_at all) (take k ids) /\
     globalts c = wrap (sweepts + sum_frames all (take k ids)) /\
     utteranceposend all c = Ok (sum_list_with (numutts_at all) (take (S k) ids)) /\
     globalte all c = Ok (wrap (sweepts + sum_frames all (take (S k) ids)))) /\
  (corpus_consistent s ->
   forall c, last rcs = Some c ->
     utteranceposend all c = Ok (numutterances s') /\
     globalte all c = Ok (sz_add sweepts (_totalframes s'))).
Proof.
  intros Hrun Hnew. cbv zeta.
  pose proof (rebuilt_chunks_Permutation b _ _ _ _ _ Hrun Hnew) as Hperm.
  set (all := allchunks s') in *. set (rcs := randomizedchunks s') in *.
  set (ids := uttchunkdata <$> rcs) in *.
  set (sweepts := sz_mul sweep (_totalframes s')).
  assert (Hends : forall k c, rcs !! k = Some c ->
     utteranceposbegin c = sum_list_with (numutts_at all) (take k ids) /\
     globalts c = wrap (sweepts + sum_frames all (take k ids)) /\
     utteranceposend all c = Ok (sum_list_with (numutts_at all) (take (S k) ids)) /\
     globalte all c = Ok (wrap (sweepts + sum_frames all (take (S k) ids)))).
  { intros k c Hc.
    destruct (rebuilt_chunks_placed _ _ _ _ _ Hrun Hnew k c Hc) as [Hpb Hgs].
    fold all rcs ids sweepts in Hpb, Hgs.
    assert (ids !! k = Some (uttchunkdata c)) as Hid.
    { unfold ids. by rewrite list_lookup_fmap, Hc. }
    assert (is_Some (all !! uttchunkdata c)) as [d Hd].
    { apply lookup_lt_is_Some_2.
      assert (uttchunkdata c ∈ seq 0 (length all)) as Hin.
      { rewrite <- Hperm. by eapply list_elem_of_lookup_2. }
      apply elem_of_seq in Hin. lia. }
    destruct (chunk_ends all c d Hd) as [Hpe Hte].
    rewrite (take_S_r _ _ _ Hid), sum_list_with_app, sum_frames_snoc.
    split_and!; [done|done| |].
    - rewrite Hpe, Hpb. simpl. f_equal. lia.
    - rewrite Hte, Hgs. unfold sz_add. by rewrite wrap_wrap_add, Z.add_assoc. }
  split; [done|].
  intros [Hnu Htot Hch] c Hlast.
  pose proof (lazyrandomization_randomization_only b fuel g _ _ _ Hrun) as Hro.
  assert (exists k, rcs !! k = Some c /\ S k = length rcs) as (k & Hc & Hk).
  { rewrite last_lookup in Hlast. exists (pred (length rcs)). split; [done|].
    apply lookup_lt_Some in Hlast. lia. }
  destruct (Hends k c Hc) as (_ & _ & Hpe & Hte).
  assert (take (S k) ids = ids) as Hall.
  { apply take_ge. unfold ids. rewrite length_fmap. lia. }
  rewrite Hall in Hpe, Hte.
  rewrite Hpe, Hte. split; f_equal.
  - rewrite (numutts_all all ids Hperm), (ro_numutterances _ _ Hro), Hnu.
    unfold all. by rewrite (ro_allchunks _ _ Hro).
  - rewrite (sum_frames_all all ids Hperm). unfold sz_add, sweepts.
    rewrite (ro_totalframes _ _ Hro), Htot, wrap_add_wrap.
    unfold all. by rewrite (ro_allchunks _ _ Hro).
Qed.
End ChunkTimelineTheorem.

Lemma chunk_timeline_witness :
  exists s, @lazyrandomization stride WIN64 100 13 (@trio_source stride false 100 0)
            = (Ok 1%Z, s)
    /\ (globalts <$> randomizedchunks s) = [13; 15; 20]%Z
    /\ forall c, last (randomizedchunks s) = Some c ->
         utteranceposend (allchunks s) c = Ok 5 /\
         globalte (allchunks s) c = Ok 26%Z.
Proof.
  destruct (@lazyrandomization stride WIN64 100 13 (@trio_source stride false 100 0))
    as [r s] eqn:Hrun.
  pose proof Hrun as Hval. vm_compute in Hval. injection Hval as <- <-.
  eexists. split; [reflexivity|]. split; [reflexivity|].
  assert (currentsweep (@trio_source stride false 100 0) <> 1%Z) as Hnew
    by (vm_compute; discriminate).
  destruct (@chunk_timeline stride WIN64 100 13 _ _ _ Hrun Hnew) as [_ Hend].
  apply Hend. split; [reflexivity|reflexivity|].
  repeat constructor.
Defined.

(** ** The timeline of the utterances of a sweep *)

Lemma wrap_sumZ_wrap (l : list Z) : wrap (sumZ (wrap <$> l)) = wrap (sumZ l).
Proof.
  induction l as [|x l IH]; [done|]. rewrite fmap_cons, !sumZ_cons.
  by rewrite wrap_wrap_add, <- wrap_add_wrap, IH, wrap_add_wrap.
Qed.

Lemma chained_end refs : forall t u,
  chained t refs -> last refs = Some u ->
  ref_globalte u = wrap (t + sumZ (numframes <$> refs)).
Proof.
  induction refs as [|v refs IH]; intros t u Hch Hlast; [done|].
  destruct Hch as [Hts Hch]. destruct refs as [|w refs].
  - injection Hlast as <-. unfold ref_globalte, sz_add. rewrite Hts.
    rewrite fmap_cons, sumZ_cons. f_equal. unfold sumZ. simpl. lia.
  - rewrite last_cons_cons in Hlast. rewrite (IH _ _ Hch Hlast).
    unfold ref_globalte, sz_add. rewrite Hts, wrap_wrap_add.
    rewrite (fmap_cons numframes v), (sumZ_cons (numframes v)). f_equal. lia.
Qed.

Section UtteranceTimeline.
Context `{CRand}.
Variable b : build.

Lemma place_utterances_numframes all rcs refs : forall t refs2,
  place_utterances all rcs refs t = Ok refs2 ->
  forall i u, refs2 !! i = Some u ->
    exists c d ud, rcs !! chunkindex u = Some c /\ all !! uttchunkdata c = Some d /\
      utteranceset d !! utteranceindex u = Some ud /\ numframes u = utt_numframes ud.
Proof.
  induction refs as [|v refs IH]; intros t refs2 Hplace i u Hu; simpl in Hplace.
  - injection Hplace as <-. by rewrite lookup_nil in Hu.
  - apply bind_Ok in Hplace as (c & Hc%at_Ok & Hplace).
    apply bind_Ok in Hplace as (d & Hd%at_Ok & Hplace).
    apply bind_Ok in Hplace as (n & Hn & Hplace).
    apply bind_Ok in Hplace as (tl & Htl & Hplace).
    injection Hplace as <-. destruct i as [|i]; [|by eapply IH].
    injection Hu as <-. simpl.
    unfold chunkdata_numframes in Hn. apply bind_Ok in Hn as (ud & Hud%at_Ok & [= <-]).
    by exists c, d, ud.
Qed.

Lemma numframes_underlying all rcs (refs : list utteranceref) :
  (forall i u, refs !! i = Some u ->
     exists c d ud, rcs !! chunkindex u = Some c /\ all !! uttchunkdata c = Some d /\
       utteranceset d !! utteranceindex u = Some ud /\ numframes u = utt_numframes ud) ->
  numframes <$> refs = utterance_frames_at all <$> (underlying rcs <$> refs).
Proof.
  intros Hnf. rewrite <- list_fmap_compose. apply list_eq. intros i.
  rewrite !list_lookup_fmap. destruct (refs !! i) as [u|] eqn:Hu; [|done]. simpl.
  destruct (Hnf i u Hu) as (c & d & ud & Hc & Hd & Hud & ->).
  unfold utterance_frames_at, underlying. simpl. rewrite Hc. simpl. rewrite Hd. simpl.
  by rewrite Hud.
Qed.

Lemma sumZ_fmap_bind {A B} (f : B -> Z) (g : A -> list B) (l : list A) :
  sumZ (f <$> (l ≫= g)) = sumZ ((fun x => sumZ (f <$> g x)) <$> l).
Proof.
  induction l as [|x l IH]; [done|].
  by rewrite bind_cons, fmap_app, sumZ_app, IH, fmap_cons, sumZ_cons.
Qed.

Lemma corpus_utterances_frames all :
  sumZ (utterance_frames_at all <$> corpus_utterances all)
  = sumZ ((fun d => sumZ (utt_numframes <$> utteranceset d)) <$> all).
Proof.
  unfold corpus_utterances. rewrite sumZ_fmap_bind.
  rewrite <- (sumZ_over_indices (fun d => sumZ (utt_numframes <$> utteranceset d)) all []).
  simpl. f_equal. apply list_fmap_ext. intros _ r _.
  unfold utterances_at. rewrite <- list_fmap_compose.
  destruct (all !! r) as [d|] eqn:Hd; simpl; [|done].
  unfold chunkdata_numutterances.
  rewrite <- (sumZ_over_indices utt_numframes (utteranceset d) []). simpl. f_equal.
  apply list_fmap_ext. intros _ j _. unfold utterance_frames_at. simpl.
  rewrite Hd. simpl. by destruct (utteranceset d !! j).
Qed.

Lemma corpus_utterances_length all :
  length (corpus_utterances all) = sum_list_with chunkdata_numutterances all.
Proof.
  unfold corpus_utterances.
  rewrite <- (sum_over_indices chunkdata_numutterances all []). simpl.
  induction (seq 0 (length all)) as [|r l IH]; [done|].
  rewrite bind_cons, length_app, IH. simpl. f_equal.
  unfold utterances_at. by rewrite length_fmap, length_seq.
Qed.

Lemma build_positionchunkwindows_length all rcs : forall k pcw,
  build_positionchunkwindows all rcs k = Ok pcw ->
  length pcw = sum_list_with (numutts_at all) (uttchunkdata <$> rcs).
Proof.
  induction rcs as [|c rcs IH]; intros k pcw Hb; simpl in Hb.
  - by injection Hb as <-.
  - apply bind_Ok in Hb as (n & Hn & Hb). apply bind_Ok in Hb as (tl & Htl & Hb).
    injection Hb as <-. rewrite length_app, length_replicate. simpl.
    rewrite (IH _ _ Htl). f_equal.
    unfold chunk_numutterances, getchunkdata, at_ in Hn. unfold numutts_at.
    destruct (all !! uttchunkdata c); [|done]. by injection Hn as <-.
Qed.

(** X6.  In utterance mode a rebuild gives every utterance of the corpus a
    position and a position window, places the utterances end to end from
    the first frame of the sweep, and records for each the frame count of
    its descriptor.  When the counters of the object agree with its
    chunks, there are [numutterances] positions and the last utterance
    ends at the last frame of the sweep. *)
Theorem utterance_timeline fuel g s sweep s' :
  framemode s = false ->
  lazyrandomization b fuel g s = (Ok sweep, s') -> currentsweep s <> sweep ->
  let refs := randomizedutterancerefs s' in
  let sweepts := sz_mul sweep (_totalframes s') in
  length refs = sum_list_with chunkdata_numutterances (allchunks s') /\
  length (positionchunkwindows s') = length refs /\
  chained sweepts refs /\
  (forall i u, refs !! i = Some u ->
     exists c d ud, randomizedchunks s' !! chunkindex u = Some c /\
       allchunks s' !! uttchunkdata c = Some d /\
       utteranceset d !! utteranceindex u = Some ud /\
       numframes u = utt_numframes ud) /\
  (corpus_consistent s ->
   length refs = numutterances s' /\
   forall u, last refs = Some u -> ref_globalte u = sz_add sweepts (_totalframes s')).
Proof.
  intros Hfm Hrun Hnew. cbv zeta.
  pose proof (rebuilt_chunks_Permutation b _ _ _ _ _ Hrun Hnew) as Hperm.
  pose proof (rebuilt_utterances_Permutation b _ _ _ _ _ Hfm Hrun Hnew) as Hutts.
  pose proof (lazyrandomization_randomization_only b fuel g _ _ _ Hrun) as Hro.
  destruct (lazyrandomization_utterances b _ _ _ _ _ Hfm Hrun)
    as (_ & _ & [[Heq _]|[_ Hre]]); [congruence|].
  destruct Hre as (chunkrefs & r & rcs0 & rcs & pcw & refs & refs1 & r1 & refs2 & Hre).
  destruct Hre as (_ & _ & _ & Hpcw & _ & _ & Hplace & _ & Hs').
  rewrite Hs' in Hperm, Hutts |- *. simpl in *.
  pose proof (place_utterances_numframes _ _ _ _ _ Hplace) as Hnf.
  assert (length refs2 = sum_list_with chunkdata_numutterances (allchunks s)) as Hlen.
  { apply Permutation_length in Hutts.
    by rewrite length_fmap, corpus_utterances_length in Hutts. }
  split_and!; [done| | |done|].
  - rewrite Hlen, (build_positionchunkwindows_length _ _ _ _ Hpcw).
    by apply numutts_all.
  - by eapply place_utterances_chained.
  - intros [Hnu Htot Hch]. split; [by rewrite Hlen|].
    intros u Hlast.
    rewrite (chained_end _ _ _ (place_utterances_chained _ _ _ _ _ Hplace) Hlast).
    rewrite (numframes_underlying _ _ _ Hnf).
    rewrite (sumZ_Permutation _ _ (fmap_Permutation _ _ _ Hutts)).
    rewrite corpus_utterances_frames. unfold sz_add.
    set (sweepts := sz_mul sweep (_totalframes s)).
    assert (totalframes <$> allchunks s
            = wrap <$> ((fun d => sumZ (utt_numframes <$> utteranceset d))
                          <$> allchunks s)) as Hb.
    { rewrite <- list_fmap_compose. apply Forall_fmap_ext_1.
      eapply Forall_impl; [exact Hch|]. intros d Hd. exact Hd. }
    rewrite Htot, wrap_add_wrap, Hb.
    rewrite <- (wrap_add_wrap _ (sumZ (wrap <$> _))), wrap_sumZ_wrap.
    by rewrite wrap_add_wrap.
Qed.
End UtteranceTimeline.

Lemma utterance_timeline_witness :
  exists s, @lazyrandomization stride WIN64 100 13 (@trio_source stride false 100 0)
            = (Ok 1%Z, s)
    /\ (ref_globalts <$> randomizedutterancerefs s) = [13; 15; 19; 21; 23]%Z
    /\ forall u, last (randomizedutterancerefs s) = Some u -> ref_globalte u = 26%Z.
Proof.
  destruct (@lazyrandomization stride WIN64 100 13 (@trio_source stride false 100 0))
    as [r s] eqn:Hrun.
  pose proof Hrun as Hval. vm_compute in Hval. injection Hval as <- <-.
  eexists. split; [reflexivity|]. split; [reflexivity|].
  assert (currentsweep (@trio_source stride false 100 0) <> 1%Z) as Hnew
    by (vm_compute; discriminate).
  destruct (@utterance_timeline stride WIN64 100 13
              (@trio_source stride false 100 0) _ _ eq_refl Hrun Hnew)
    as (_ & _ & _ & _ & Hend).
  apply Hend. split; [reflexivity|reflexivity|].
  repeat constructor.
Defined.

(** ** Distributing the utterances over chunks *)

Lemma prefix_sums_snoc l : forall acc x,
  prefix_sums acc (l ++ [x]) = prefix_sums acc l ++ [(acc + sumZ l)%Z].
Proof.
  induction l as [|y l IH]; intros acc x; simpl.
  - unfold sumZ. simpl. by rewrite Z.add_0_r.
  - rewrite IH. do 3 f_equal. rewrite sumZ_cons. lia.
Qed.

Lemma sumZ_addressable b us :
  Forall (addressable b) us -> (0 <= sumZ (utt_numframes <$> us))%Z.
Proof.
  induction 1 as [|u us Hu _ IH]; [done|]. unfold addressable in Hu.
  rewrite fmap_cons, sumZ_cons. lia.
Qed.

Section Distribute.
Variable b : build.

Lemma maxutterancesperchunk_ge : (1 <= maxutterancesperchunk b)%Z.
Proof. destruct b; vm_compute; discriminate. Qed.

Lemma maxframesperutterance_lt : (maxframesperutterance b < 65536)%Z.
Proof. destruct b; reflexivity. Qed.

Lemma chunk_ok_first u :
  addressable b u ->
  exists c, chunkdata_push_back empty_chunkdata u = Ok c /\ chunk_ok b c /\
            utteranceset c = [u].
Proof.
  intros Hu. eexists. split; [reflexivity|]. unfold addressable in Hu.
  pose proof maxutterancesperchunk_ge. pose proof maxframesperutterance_lt.
  assert (sz_add 0 (utt_numframes u) = utt_numframes u) as Hn.
  { unfold sz_add. apply wrap_small. unfold SIZE_MOD. lia. }
  split; [|done]. split; simpl; rewrite ?Hn.
  - done.
  - by apply Forall_singleton.
  - unfold chunkdata_numutterances. simpl. lia.
  - unfold sumZ. simpl. lia.
  - done.
  - unfold chunkframes. lia.
  - done.
  - done.
Qed.

Lemma chunk_ok_push back u :
  chunk_ok b back -> chunk_full b back = false -> addressable b u ->
  exists c, chunkdata_push_back back u = Ok c /\ chunk_ok b c /\
            utteranceset c = utteranceset back ++ [u].
Proof.
  intros [Hne Hadd Hcap Htot Hff Hbound Hfr Hlat] Hfull Hu.
  unfold chunk_full in Hfull. apply orb_false_iff in Hfull as [Hf1 Hf2].
  unfold chunkdata_push_back, isinram. rewrite Hfr. simpl.
  eexists. split; [reflexivity|]. unfold addressable in Hu.
  pose proof maxframesperutterance_lt.
  pose proof (sumZ_addressable _ _ Hadd) as Hpos. rewrite <- Htot in Hpos.
  assert (sz_add (totalframes back) (utt_numframes u)
          = (totalframes back + utt_numframes u)%Z) as Hn.
  { unfold sz_add. apply wrap_small. unfold SIZE_MOD, chunkframes in *. lia. }
  split; [|done]. split; simpl; rewrite ?Hn.
  - by destruct (utteranceset back).
  - apply Forall_app. split; [done|]. by apply Forall_singleton.
  - unfold chunkdata_numutterances in *. simpl. rewrite length_app. simpl. lia.
  - rewrite fmap_app, sumZ_app, Htot. unfold sumZ at 3. simpl. lia.
  - rewrite fmap_app. simpl. rewrite prefix_sums_snoc, Hff, Htot. simpl. done.
  - lia.
  - done.
  - done.
Qed.

Lemma concat_snoc {A} (ls : list (list A)) (l : list A) :
  concat (ls ++ [l]) = concat ls ++ l.
Proof. by rewrite concat_app, concat_cons, concat_nil, app_nil_r. Qed.

Lemma chunks_ok_snoc all c :
  chunks_ok b all -> chunk_ok b c ->
  (forall back, last all = Some back -> chunk_full b back = true) ->
  chunks_ok b (all ++ [c]).
Proof.
  intros [Hall Hfull] Hc Hlast. split.
  - apply Forall_app. split; [done|]. by apply Forall_singleton.
  - intros i d Hd Hi. rewrite length_app in Hi. simpl in Hi.
    rewrite lookup_app_l in Hd by lia.
    destruct (decide (S i < length all)) as [|Hn]; [by eapply Hfull|].
    apply Hlast. rewrite last_lookup. by replace (pred (length all)) with i by lia.
Qed.

Lemma chunks_ok_replace_last l' back c :
  chunks_ok b (l' ++ [back]) -> chunk_ok b c -> chunks_ok b (l' ++ [c]).
Proof.
  intros [Hall Hfull] Hc. apply Forall_app in Hall as [Hl' _]. split.
  - apply Forall_app. split; [done|]. by apply Forall_singleton.
  - intros i d Hd Hi. rewrite length_app in Hi. simpl in Hi.
    rewrite lookup_app_l in Hd by lia.
    apply (Hfull i d); [by rewrite lookup_app_l by lia|].
    rewrite length_app. simpl. lia.
Qed.

(** The chunking loop returns on utterances within the limits, keeps the
    order of the utterances and the shape of the chunks. *)
Lemma distribute_spec us : forall all,
  Forall (addressable b) us -> chunks_ok b all ->
  exists all', distribute b us all = Ok all' /\ chunks_ok b all' /\
    concat (utteranceset <$> all') = concat (utteranceset <$> all) ++ us.
Proof.
  induction us as [|u us IH]; intros all Hus Hall; simpl.
  - exists all. by rewrite app_nil_r.
  - apply Forall_cons in Hus as [Hu Hus].
    destruct (last all) as [back|] eqn:Hlast.
    + fold (chunk_full b back). destruct (chunk_full b back) eqn:Hfull.
      * rewrite last_snoc.
        destruct (chunk_ok_first u Hu) as (c & -> & Hc & Hcu). simpl.
        rewrite length_app. simpl.
        replace (length all + 1 - 1) with (length all + 0) by lia.
        rewrite insert_app_r. simpl.
        destruct (IH (all ++ [c]) Hus) as (all' & Hrun & Hok & Hcat).
        { apply chunks_ok_snoc; [done..|]. intros back0 Hb0.
          rewrite Hlast in Hb0. by injection Hb0 as <-. }
        exists all'. split_and!; [done..|].
        rewrite Hcat, fmap_app. simpl. by rewrite concat_snoc, Hcu, <- app_assoc.
      * rewrite Hlast.
        apply last_Some in Hlast as [l' ->].
        assert (chunk_ok b back) as Hback.
        { destruct Hall as [Hall _]. apply Forall_app in Hall as [_ Hb].
          exact (Forall_inv Hb). }
        destruct (chunk_ok_push back u Hback Hfull Hu) as (c & -> & Hc & Hcu). simpl.
        rewrite length_app. simpl.
        replace (length l' + 1 - 1) with (length l' + 0) by lia.
        rewrite insert_app_r. simpl.
        destruct (IH (l' ++ [c]) Hus) as (all' & Hrun & Hok & Hcat).
        { by eapply chunks_ok_replace_last. }
        exists all'. split_and!; [done..|].
        rewrite Hcat, !fmap_app. simpl. rewrite !concat_snoc, Hcu.
        by rewrite <- !app_assoc.
    + rewrite last_snoc.
      destruct (chunk_ok_first u Hu) as (c & -> & Hc & Hcu).
      apply last_None in Hlast as ->. simpl.
      destruct (IH [c] Hus) as (all' & Hrun & Hok & Hcat).
      { split; [by apply Forall_singleton|]. intros i d _ Hi. simpl in Hi. lia. }
      exists all'. split_and!; [done..|]. rewrite Hcat. simpl.
      by rewrite Hcu, app_nil_r.
Qed.
End Distribute.

(** ** The object that the constructor builds *)

Section Constructor.
Context `{CRand}.
Variable b : build.
Variable classid_bits : Z.

Lemma scan_file_valid labels lats udim i f st st' :
  scan_file b classid_bits labels lats udim i f st = Ok st' -> valid_file f.
Proof.
  unfold scan_file, valid_file.
  destruct (file_numframes f) as [uttframes|]; [|done].
  destruct (Z.ltb_spec uttframes 2); [done|]. intros _. by exists uttframes.
Qed.

Lemma scan_files_valid labels lats udim fs : forall i st st',
  scan_files b classid_bits labels lats udim i fs st = Ok st' -> Forall valid_file fs.
Proof.
  induction fs as [|f fs IH]; intros i st st' Hrun; simpl in Hrun; [done|].
  apply bind_Ok in Hrun as (st1 & Hf & Hrest).
  constructor; [by eapply scan_file_valid|by eapply IH].
Qed.

Lemma scan_file_sumZ labels lats udim i f st st' :
  scan_file b classid_bits labels lats udim i f st = Ok st' ->
  scan_totalframes st = wrap (sumZ (utt_numframes <$> scan_utteranceset st)) ->
  scan_totalframes st' = wrap (sumZ (utt_numframes <$> scan_utteranceset st')).
Proof.
  unfold scan_file.
  destruct (file_numframes f) as [uttframes|]; [|done].
  destruct (Z.ltb_spec uttframes 2); [done|].
  destruct (uttframes >? maxframesperutterance b)%Z.
  { by intros [= <-]. }
  assert (Hpush : forall cb,
    scan_totalframes st = wrap (sumZ (utt_numframes <$> scan_utteranceset st)) ->
    sz_add (scan_totalframes st) uttframes
    = wrap (sumZ (utt_numframes
                    <$> scan_utteranceset st ++ [mkutterancedesc (file_key f) uttframes cb]))).
  { intros cb ->. rewrite fmap_app, sumZ_app. unfold sz_add. rewrite wrap_wrap_add.
    f_equal. unfold sumZ at 3. simpl. lia. }
  destruct (_ || _).
  { by intros [= <-]. }
  destruct (if bool_decide (labels = ∅) then None else labels !! file_key f) as [labseq|].
  - destruct (negb _).
    { by intros [= <-]. }
    destruct (expand_labels _ _ _ _ _ _ _) as [[[cids counts] ncl]| |]; simpl; [|done..].
    destruct (_ && _); [done|]. intros [= <-] Hst. simpl. by apply Hpush.
  - destruct (_ && _); [done|]. intros [= <-] Hst. simpl. by apply Hpush.
Qed.

Lemma scan_files_sumZ labels lats udim fs : forall i st st',
  scan_files b classid_bits labels lats udim i fs st = Ok st' ->
  scan_totalframes st = wrap (sumZ (utt_numframes <$> scan_utteranceset st)) ->
  scan_totalframes st' = wrap (sumZ (utt_numframes <$> scan_utteranceset st')).
Proof.
  induction fs as [|f fs IH]; intros i st st'; simpl.
  - by intros [= <-].
  - destruct (scan_file b classid_bits labels lats udim i f st) as [st1| |] eqn:Hf;
      simpl; [|done..].
    intros Hrest Hst. eapply IH; [done|]. by eapply scan_file_sumZ.
Qed.

Lemma sumZ_concat {A} (f : A -> Z) (ls : list (list A)) :
  sumZ (f <$> concat ls) = sumZ ((fun l => sumZ (f <$> l)) <$> ls).
Proof.
  induction ls as [|l ls IH]; [done|].
  by rewrite concat_cons, fmap_app, sumZ_app, IH, fmap_cons, sumZ_cons.
Qed.

Lemma length_concat_utterances (all : list utterancechunkdata) :
  length (concat (utteranceset <$> all)) = sum_list_with chunkdata_numutterances all.
Proof.
  induction all as [|d all IH]; [done|].
  rewrite fmap_cons, concat_cons, length_app, IH. done.
Qed.

Lemma chunk_ok_totalframes_wrap d :
  chunk_ok b d -> totalframes d = wrap (sumZ (utt_numframes <$> utteranceset d)).
Proof.
  intros [_ Hadd _ Htot _ Hbound _ _].
  pose proof (sumZ_addressable _ _ Hadd) as Hpos. rewrite <- Htot in *.
  symmetry. apply wrap_small. pose proof (maxframesperutterance_lt b).
  unfold SIZE_MOD, chunkframes in *. lia.
Qed.

(** What the constructor returns, in terms of the scan. *)
Lemma construct_Ok infiles labels udim rr lats fm r0 s dg :
  construct b classid_bits infiles labels udim rr lats fm r0 = Ok (s, dg) ->
  exists st,
    scan_files b classid_bits labels lats udim 0 infiles (mkscan [] [] [] 0 0 0 0 [])
    = Ok st /\
    (labels <> ∅ -> check_markers classid_bits (scan_classids st) (scan_utteranceset st)
                    = Ok ()) /\
    distribute b (scan_utteranceset st) [] = Ok (allchunks s) /\
    classids s = scan_classids st /\
    numutterances s = length (scan_utteranceset st) /\
    _totalframes s = scan_totalframes st /\
    framemode s = fm /\ randomizationrange s = rr /\ latticesource s = lats /\
    currentsweep s = SIZE_MAX /\ chunksinram s = 0%Z /\ dg = diags st.
Proof.
  unfold construct. intros Hrun.
  apply bind_Ok in Hrun as (st & Hscan & Hrun).
  apply bind_Ok in Hrun as ([] & Hmark & Hrun).
  destruct (_ && _); [done|].
  apply bind_Ok in Hrun as (all & Hd & [= <- <-]). simpl.
  exists st. split_and!; try done.
  intros Hne. by rewrite bool_decide_eq_false_2 in Hmark.
Qed.

Lemma construct_chunks_ok infiles labels udim rr lats fm r0 s dg :
  construct b classid_bits infiles labels udim rr lats fm r0 = Ok (s, dg) ->
  chunks_ok b (allchunks s) /\
  exists st,
    scan_files b classid_bits labels lats udim 0 infiles (mkscan [] [] [] 0 0 0 0 [])
    = Ok st /\ concat (utteranceset <$> allchunks s) = scan_utteranceset st.
Proof.
  intros Hrun.
  destruct (construct_Ok _ _ _ _ _ _ _ _ _ Hrun) as (st & Hscan & _ & Hd & _).
  pose proof (scan_files_addressable b classid_bits _ _ _ _ _ _ _ Hscan
                ltac:(constructor)) as Hadd.
  destruct (distribute_spec b (scan_utteranceset st) [] Hadd) as (all' & Hd' & Hok & Hcat).
  { split; [constructor|]. intros i d Hl. by rewrite lookup_nil in Hl. }
  rewrite Hd in Hd'. injection Hd' as <-. split; [done|]. by exists st.
Qed.

(** X7.  The constructor groups the utterances into chunks of which each
    is non-empty, holds at most [maxutterancesperchunk] utterances that a
    [frameref] can address, has exact frame counters and first frames,
    exceeds the target of 90000 frames by at most one utterance, and has
    nothing in memory; every chunk but the last is full.  The counters of
    the object agree with the chunks. *)
Theorem construct_chunks infiles labels udim rr lats fm r0 s dg :
  construct b classid_bits infiles labels udim rr lats fm r0 = Ok (s, dg) ->
  chunks_ok b (allchunks s) /\ corpus_consistent s.
Proof.
  intros Hrun.
  destruct (construct_chunks_ok _ _ _ _ _ _ _ _ _ Hrun) as (Hok & st & Hscan & Hcat).
  destruct (construct_Ok _ _ _ _ _ _ _ _ _ Hrun) as (st' & Hscan' & _ & _ & _ & Hnu & Htot & _).
  rewrite Hscan in Hscan'. injection Hscan' as <-.
  split; [done|]. destruct Hok as [Hall _]. split.
  - by rewrite Hnu, <- Hcat, length_concat_utterances.
  - rewrite Htot, (scan_files_sumZ _ _ _ _ _ _ _ Hscan) by done.
    rewrite <- Hcat, sumZ_concat, <- list_fmap_compose. do 2 f_equal.
    apply Forall_fmap_ext_1. eapply Forall_impl; [exact Hall|].
    intros d Hd. simpl. symmetry. by apply (ck_totalframes b).
  - eapply Forall_impl; [exact Hall|]. apply chunk_ok_totalframes_wrap.
Qed.

(** X8.  The constructor returns only if every file gives frame bounds and
    has at least 2 frames, whatever the labels. *)
Theorem construct_needs_valid_files infiles labels udim rr lats fm r0 s dg :
  construct b classid_bits infiles labels udim rr lats fm r0 = Ok (s, dg) ->
  Forall valid_file infiles.
Proof.
  intros Hrun. destruct (construct_Ok _ _ _ _ _ _ _ _ _ Hrun) as (st & Hscan & _).
  by eapply scan_files_valid.
Qed.
End Constructor.

(** ** Construction without labels *)

Section Unsupervised.
Context `{CRand}.
Variable b : build.
Variable classid_bits : Z.

Lemma scan_file_unsupervised lats udim i f st :
  valid_file f ->
  exists st',
    scan_file b classid_bits ∅ lats udim i f st = Ok st' /\
    scan_utteranceset st'
    = scan_utteranceset st ++ option_list (unsupervised_utterance b f) /\
    scan_classids st' = scan_classids st /\
    nomlf st' = nomlf st /\ nolat st' = nolat st.
Proof.
  intros (n & Hn & Hge). unfold scan_file, unsupervised_utterance. rewrite Hn. simpl.
  destruct (Z.ltb_spec n 2); [lia|].
  destruct (n >? maxframesperutterance b)%Z.
  { eexists. split; [reflexivity|]. simpl. by rewrite app_nil_r. }
  rewrite bool_decide_eq_true_2 by done. simpl.
  eexists. split; [reflexivity|]. done.
Qed.

Lemma scan_files_unsupervised lats udim fs : forall i st,
  Forall valid_file fs ->
  exists st',
    scan_files b classid_bits ∅ lats udim i fs st = Ok st' /\
    scan_utteranceset st'
    = scan_utteranceset st ++ omap (unsupervised_utterance b) fs /\
    scan_classids st' = scan_classids st /\
    nomlf st' = nomlf st /\ nolat st' = nolat st.
Proof.
  induction fs as [|f fs IH]; intros i st Hfs; simpl.
  - exists st. by rewrite app_nil_r.
  - apply Forall_cons in Hfs as [Hf Hfs].
    destruct (scan_file_unsupervised lats udim i f st Hf)
      as (st1 & -> & Hus1 & Hc1 & Hm1 & Hl1). simpl.
    destruct (IH (S i) st1 Hfs) as (st' & -> & Hus & Hc & Hm & Hl).
    exists st'. split; [done|]. rewrite Hus, Hus1, Hc, Hc1, Hm, Hm1, Hl, Hl1.
    split_and!; try done. rewrite <- app_assoc. f_equal.
    by destruct (unsupervised_utterance b f).
Qed.

(** X9.  Without labels the constructor returns exactly when every file
    gives frame bounds and has at least 2 frames; the corpus then consists
    of the files that are not too long for a [frameref], in the order of
    the file list, and there are no class ids. *)
Theorem unsupervised_construction infiles udim rr lats fm r0 :
  (Forall valid_file infiles <->
   exists s dg, construct b classid_bits infiles ∅ udim rr lats fm r0 = Ok (s, dg)) /\
  (forall s dg,
     construct b classid_bits infiles ∅ udim rr lats fm r0 = Ok (s, dg) ->
     concat (utteranceset <$> allchunks s) = omap (unsupervised_utterance b) infiles /\
     numutterances s = length (omap (unsupervised_utterance b) infiles) /\
     classids s = []).
Proof.
  split; [split|].
  - intros Hfs.
    destruct (scan_files_unsupervised lats udim infiles 0 (mkscan [] [] [] 0 0 0 0 []) Hfs)
      as (st & Hscan & Hus & Hc & Hm & Hl). simpl in *.
    pose proof (scan_files_addressable b classid_bits _ _ _ _ _ _ _ Hscan
                  ltac:(constructor)) as Hadd.
    destruct (distribute_spec b (scan_utteranceset st) [] Hadd) as (all' & Hd & _).
    { split; [constructor|]. intros i d Hl0. by rewrite lookup_nil in Hl0. }
    unfold construct. rewrite Hscan. simpl.
    rewrite bool_decide_eq_true_2 by done. simpl.
    rewrite Hm, Hl. simpl. rewrite Hd. simpl. by eexists _, _.
  - intros (s & dg & Hrun).
    destruct (construct_Ok _ _ _ _ _ _ _ _ _ _ _ Hrun) as (st & Hscan & _).
    by eapply scan_files_valid.
  - intros s dg Hrun.
    assert (Forall valid_file infiles) as Hfs.
    { destruct (construct_Ok _ _ _ _ _ _ _ _ _ _ _ Hrun) as (st & Hscan & _).
      by eapply scan_files_valid. }
    destruct (scan_files_unsupervised lats udim infiles 0 (mkscan [] [] [] 0 0 0 0 []) Hfs)
      as (st & Hscan & Hus & Hc & _). simpl in *.
    destruct (construct_chunks_ok _ _ _ _ _ _ _ _ _ _ _ Hrun) as (_ & st' & Hscan' & Hcat).
    destruct (construct_Ok _ _ _ _ _ _ _ _ _ _ _ Hrun) as (st2 & Hscan2 & _ & _ & Hcl & Hnu & _).
    rewrite Hscan in Hscan', Hscan2. injection Hscan' as <-. injection Hscan2 as <-.
    by rewrite Hcat, Hnu, Hcl, Hus, Hc.
Qed.
End Unsupervised.

(** ** The two phases of a batch *)

Ltac po_auto :=
  repeat first
    [ apply (preserves_sbind paging_only_trans); [|intros ?]
    | apply preserves_sret; apply paging_only_refl
    | apply preserves_lift; apply paging_only_refl
    | apply preserves_gets; apply paging_only_refl
    | apply preserves_throw; apply paging_only_refl
    | apply release_all_paging_only
    | apply require_all_paging_only
    | apply requirerandomizedchunk_paging_only
    | match goal with
      | |- preserves _ (match ?x with _ => _ end) => destruct x
      end ].

Section GetbatchPaging.
Context `{CRand}.
Variable b : build.
Variable io_fails : nat -> bool.
Variable archive_featdim : Z.
Variable classid_bits : Z.

Lemma getbatch_utterancemode_paging_only g fr :
  preserves paging_only
    (getbatch_utterancemode io_fails archive_featdim classid_bits g fr).
Proof. unfold getbatch_utterancemode. po_auto. Qed.

Lemma require_range_paging_only ks wb we : forall rd,
  preserves paging_only (require_range io_fails archive_featdim ks wb we rd).
Proof.
  induction ks as [|k ks IH]; intros rd.
  - apply preserves_sret, paging_only_refl.
  - apply (preserves_sbind paging_only_trans);
      [apply requirerandomizedchunk_paging_only|intros rd'; apply IH].
Qed.

Lemma copy_frames_paging_only g wb we n : forall j rd,
  preserves paging_only
    (copy_frames io_fails archive_featdim classid_bits g wb we j n rd).
Proof.
  induction n as [|n IH]; intros j rd; simpl.
  - apply preserves_sret, paging_only_refl.
  - po_auto; apply IH.
Qed.

Lemma getbatch_framemode_paging_only sweep g fr :
  preserves paging_only
    (getbatch_framemode io_fails archive_featdim classid_bits sweep g fr).
Proof.
  unfold getbatch_framemode. po_auto;
    first [apply require_range_paging_only|apply copy_frames_paging_only].
Qed.

(** X10.  [getbatch] works in two phases: the rebuild, which leaves the
    corpus, the caches and the paging counters alone, and the paging and
    copying, which leave the corpus and the randomization alone; whatever
    the outcome.  Within the cached sweep the first phase does nothing. *)
Theorem getbatch_two_phases fuel g fr s r s' :
  getbatch b io_fails archive_featdim classid_bits fuel g fr s = (r, s') ->
  exists r1 s1,
    lazyrandomization b fuel g s = (r1, s1) /\
    randomization_only s s1 /\ paging_only s1 s' /\
    (_totalframes s <> 0%Z -> (g / _totalframes s)%Z = currentsweep s -> s1 = s).
Proof.
  intros Hrun. unfold getbatch in Hrun. unfold sbind at 1 in Hrun.
  destruct (lazyrandomization b fuel g s) as [r1 s1] eqn:Hre.
  exists r1, s1. split; [done|].
  split; [by eapply lazyrandomization_randomization_only|].
  split.
  - destruct r1 as [sweep| |]; try (injection Hrun as <- <-; apply paging_only_refl).
    unfold sbind, gets in Hrun.
    destruct (framemode s1).
    + by eapply getbatch_framemode_paging_only.
    + by eapply getbatch_utterancemode_paging_only.
  - intros Hnz Hsw. unfold lazyrandomization, sbind, gets, sret in Hre.
    destruct (decide (_totalframes s = 0%Z)); [done|].
    destruct (decide (_ = _)); [|done]. by injection Hre as _ <-.
Qed.
End GetbatchPaging.

(** ** Paging touches one chunk *)

Section OnlyChunk.
Context `{CRand}.
Variable io_fails : nat -> bool.
Variable archive_featdim : Z.

Lemma only_chunk_refl id s : only_chunk id s s.
Proof. by split. Qed.

Lemma only_chunk_trans id s1 s2 s3 :
  only_chunk id s1 s2 -> only_chunk id s2 s3 -> only_chunk id s1 s3.
Proof.
  intros [Hr1 Hl1 Ho1] [Hr2 Hl2 Ho2]. split; [congruence..|].
  intros j Hj. by rewrite Ho2, Ho1.
Qed.

Lemma requiredata_at_only_chunk id :
  preserves (only_chunk id) (requiredata_at io_fails archive_featdim id).
Proof.
  intros s r s' Hrun. unfold requiredata_at in Hrun.
  destruct (allchunks s !! id) as [d|] eqn:Hd; [|injection Hrun as <- <-; by split].
  destruct (requiredata _ _ _ _) as [r1 [[d1 fd1] n1]] eqn:Hreq.
  injection Hrun as <- <-. split; simpl; [done|by rewrite length_insert|].
  intros j Hj. by rewrite list_lookup_insert_ne.
Qed.

Lemma requirerandomizedchunk_only_chunk ci wb we s r s' c :
  randomizedchunks s !! ci = Some c ->
  requirerandomizedchunk io_fails archive_featdim ci wb we s = (r, s') ->
  only_chunk (uttchunkdata c) s s'.
Proof.
  intros Hc Hrun. unfold requirerandomizedchunk in Hrun.
  destruct (_ || _); [injection Hrun as <- <-; apply only_chunk_refl|].
  unfold sbind at 1, gets at 1 in Hrun. unfold sbind at 1, lift at 1 in Hrun.
  rewrite (at_lookup _ _ _ Hc) in Hrun.
  unfold sbind at 1, gets at 1 in Hrun. unfold sbind at 1, lift at 1 in Hrun.
  destruct (getchunkdata (allchunks s) c) as [d| |];
    try (injection Hrun as <- <-; apply only_chunk_refl).
  destruct (isinram d); [injection Hrun as <- <-; apply only_chunk_refl|].
  assert (preserves (only_chunk (uttchunkdata c))
            (sbind (attempt 5 (requiredata_at io_fails archive_featdim (uttchunkdata c)))
               (fun _ => sbind (modify (fun s => set_chunksinram s (sz_add (chunksinram s) 1)))
                           (fun _ => sret true)))) as Hp.
  { apply (preserves_sbind (only_chunk_trans _)).
    - apply preserves_attempt_loop;
        [apply only_chunk_trans|apply requiredata_at_only_chunk].
    - intros _. apply (preserves_sbind (only_chunk_trans _)).
      + apply preserves_modify. intros s1. by split.
      + intros _. apply preserves_sret, only_chunk_refl. }
  by eapply Hp.
Qed.

Lemma releaserandomizedchunk_only_chunk k s r s' c :
  randomizedchunks s !! k = Some c ->
  releaserandomizedchunk k s = (r, s') ->
  only_chunk (uttchunkdata c) s s'.
Proof.
  intros Hc Hrun.
  unfold releaserandomizedchunk, sbind, gets, lift, modify, sret in Hrun. simpl in Hrun.
  rewrite (at_lookup _ _ _ Hc) in Hrun.
  destruct (getchunkdata (allchunks s) c) as [d| |] eqn:Hd;
    try (injection Hrun as <- <-; by split).
  destruct (negb (isinram d)); [injection Hrun as <- <-; by split|].
  destruct (releasedata d) as [d'| |] eqn:Hrel; try (injection Hrun as <- <-; by split).
  injection Hrun as <- <-. split; simpl; [done|by rewrite length_insert|].
  intros j Hj. by rewrite list_lookup_insert_ne.
Qed.

Lemma inram_at_only_chunk id s s' k ck :
  only_chunk id s s' -> randomizedchunks s !! k = Some ck -> uttchunkdata ck <> id ->
  inram_at s' k = inram_at s k.
Proof.
  intros [Hr _ Ho] Hk Hne. unfold inram_at. by rewrite Hr, Hk, Ho.
Qed.

Lemma NoDup_uttchunkdata (rcs : list chunk) k ci ck c :
  NoDup (uttchunkdata <$> rcs) -> rcs !! k = Some ck -> rcs !! ci = Some c ->
  uttchunkdata ck = uttchunkdata c -> k = ci.
Proof.
  intros Hnd Hk Hc Heq.
  eapply (NoDup_lookup _ _ _ _ Hnd); rewrite list_lookup_fmap, ?Hk, ?Hc; simpl; [done|].
  by rewrite Heq.
Qed.

(** Paging chunk [ci] in or out leaves the other chunks as they are. *)
Lemma requirerandomizedchunk_others ci wb we s r s' k :
  NoDup (uttchunkdata <$> randomizedchunks s) -> k <> ci ->
  requirerandomizedchunk io_fails archive_featdim ci wb we s = (r, s') ->
  inram_at s' k = inram_at s k.
Proof.
  intros Hnd Hne Hrun.
  pose proof (requirerandomizedchunk_paging_only _ _ _ _ _ _ _ _ Hrun) as Hpo.
  destruct (randomizedchunks s !! k) as [ck|] eqn:Hk.
  2:{ unfold inram_at. by rewrite (po_randomizedchunks _ _ Hpo), Hk. }
  destruct (randomizedchunks s !! ci) as [c|] eqn:Hc.
  - eapply inram_at_only_chunk; [by eapply requirerandomizedchunk_only_chunk|done|].
    intros Heq. by apply Hne, (NoDup_uttchunkdata _ _ _ _ _ Hnd Hk Hc).
  - unfold requirerandomizedchunk in Hrun.
    destruct (_ || _); [by injection Hrun as <- <-|].
    unfold sbind, gets, lift, at_ in Hrun. rewrite Hc in Hrun.
    by injection Hrun as <- <-.
Qed.

Lemma releaserandomizedchunk_others k' s r s' k :
  NoDup (uttchunkdata <$> randomizedchunks s) -> k <> k' ->
  releaserandomizedchunk k' s = (r, s') ->
  inram_at s' k = inram_at s k.
Proof.
  intros Hnd Hne Hrun.
  pose proof (releaserandomizedchunk_paging_only _ _ _ _ Hrun) as Hpo.
  destruct (randomizedchunks s !! k) as [ck|] eqn:Hk.
  2:{ unfold inram_at. by rewrite (po_randomizedchunks _ _ Hpo), Hk. }
  destruct (randomizedchunks s !! k') as [c|] eqn:Hc.
  - eapply inram_at_only_chunk; [by eapply releaserandomizedchunk_only_chunk|done|].
    intros Heq. by apply Hne, (NoDup_uttchunkdata _ _ _ _ _ Hnd Hk Hc).
  - unfold releaserandomizedchunk, sbind, gets, lift, at_ in Hrun. rewrite Hc in Hrun.
    by injection Hrun as <- <-.
Qed.

(** After [releaserandomizedchunk (k)] returns, chunk [k] is not in memory. *)
Lemma releaserandomizedchunk_released k s s' :
  releaserandomizedchunk k s = (Ok (), s') -> inram_at s' k = false.
Proof.
  intros Hrun.
  unfold releaserandomizedchunk, sbind, gets, lift, modify, sret in Hrun. simpl in Hrun.
  destruct (randomizedchunks s !! k) as [c|] eqn:Hc;
    [|by unfold at_ in Hrun; rewrite Hc in Hrun].
  rewrite (at_lookup _ _ _ Hc) in Hrun.
  destruct (getchunkdata (allchunks s) c) as [d| |] eqn:Hd; try done.
  apply at_Ok in Hd.
  destruct (isinram d) eqn:Hram; simpl in Hrun.
  - destruct (releasedata d) as [d'| |] eqn:Hrel; try done.
    injection Hrun as <-. unfold inram_at. simpl. rewrite Hc.
    rewrite list_lookup_insert_eq by (by eapply lookup_lt_Some). simpl.
    unfold releasedata in Hrel. destruct (decide _); [done|]. rewrite Hram in Hrel.
    by injection Hrel as <-.
  - injection Hrun as <-. unfold inram_at. by rewrite Hc, Hd.
Qed.

(** After [requirerandomizedchunk] returns, the chunk is in memory. *)
Lemma requirerandomizedchunk_resident ci wb we s rd s' :
  requirerandomizedchunk io_fails archive_featdim ci wb we s = (Ok rd, s') ->
  inram_at s' ci = true.
Proof.
  intros Hrun. unfold requirerandomizedchunk in Hrun.
  destruct (_ || _); [done|].
  apply sbind_Ok in Hrun as (rcs & s1 & [= <- <-] & Hrun).
  apply sbind_Ok in Hrun as (c & s1 & [Hc%at_Ok ->]%lift_Ok & Hrun).
  apply sbind_Ok in Hrun as (all & s1 & [= <- <-] & Hrun).
  apply sbind_Ok in Hrun as (d & s1 & [Hd%at_Ok ->]%lift_Ok & Hrun).
  destruct (isinram d) eqn:Hram.
  { injection Hrun as <- <-. unfold inram_at. by rewrite Hc, Hd. }
  apply sbind_Ok in Hrun as ([] & s1 & Hatt & Hrun).
  apply sbind_Ok in Hrun as ([] & s2 & [= <-] & [= <- <-]).
  unfold inram_at. simpl.
  assert (randomizedchunks s1 = randomizedchunks s) as ->.
  { assert (preserves paging_only
              (attempt 5 (requiredata_at io_fails archive_featdim (uttchunkdata c)))) as Hp
      by (apply preserves_attempt_loop;
            [apply paging_only_trans|apply requiredata_at_paging_only]).
    by apply (po_randomizedchunks _ _ (Hp _ _ _ Hatt)). }
  rewrite Hc.
  unfold attempt in Hatt.
  apply attempt_loop_spec in Hatt as (k & sk & _ & _ & Hlast & _).
  unfold requiredata_at in Hlast.
  destruct (allchunks sk !! uttchunkdata c) as [dk|] eqn:Hdk; [|done].
  destruct (requiredata _ _ _ _) as [r1 [[d1 fd1] n1]] eqn:Hreq.
  injection Hlast as -> <-. simpl.
  rewrite list_lookup_insert_eq by (by eapply lookup_lt_Some). simpl.
  eapply requiredata_success; [|exact Hreq].
  unfold requiredata in Hreq. by destruct (decide _).
Qed.
End OnlyChunk.

(** ** What a batch keeps in memory *)

Section Residency.
Context `{CRand}.
Variable io_fails : nat -> bool.
Variable archive_featdim : Z.
Variable classid_bits : Z.

Lemma keeps_outside_refl wb we s : keeps_outside wb we s s.
Proof. by intros _. Qed.

Lemma keeps_outside_trans wb we s1 s2 s3 :
  keeps_outside wb we s1 s2 -> keeps_outside wb we s2 s3 -> keeps_outside wb we s1 s3.
Proof.
  intros H12 H23 Hnd. destruct (H12 Hnd) as [Hr1 Ho1].
  destruct H23 as [Hr2 Ho2]; [by rewrite Hr1|]. split; [congruence|].
  intros k Hk. by rewrite Ho2, Ho1.
Qed.

Lemma keeps_resident_refl s : keeps_resident s s.
Proof. by intros _. Qed.

Lemma keeps_resident_trans s1 s2 s3 :
  keeps_resident s1 s2 -> keeps_resident s2 s3 -> keeps_resident s1 s3.
Proof.
  intros H12 H23 Hnd. destruct (H12 Hnd) as [Hr1 Ho1].
  destruct H23 as [Hr2 Ho2]; [by rewrite Hr1|]. split; [congruence|].
  intros k Hk. by apply Ho2, Ho1.
Qed.

Lemma requirerandomizedchunk_unchanged ci wb we s r s' :
  inram_at s ci = true ->
  requirerandomizedchunk io_fails archive_featdim ci wb we s = (r, s') -> s' = s.
Proof.
  intros Hram Hrun. unfold requirerandomizedchunk in Hrun.
  destruct (_ || _); [by injection Hrun as _ <-|].
  unfold inram_at in Hram.
  destruct (randomizedchunks s !! ci) as [c|] eqn:Hc; [|done].
  destruct (allchunks s !! uttchunkdata c) as [d|] eqn:Hd; [|done]. simpl in Hram.
  unfold sbind, gets, lift, sret, getchunkdata, at_ in Hrun.
  rewrite Hc, Hd, Hram in Hrun. by injection Hrun as _ <-.
Qed.

Lemma requirerandomizedchunk_window ci wb we s rd s' :
  requirerandomizedchunk io_fails archive_featdim ci wb we s = (Ok rd, s') ->
  wb <= ci < we.
Proof.
  unfold requirerandomizedchunk.
  destruct (bool_decide (ci < wb)) eqn:H1; [done|].
  destruct (bool_decide (we ≤ ci)) eqn:H2; [done|].
  apply bool_decide_eq_false in H1, H2. lia.
Qed.

Lemma requirerandomizedchunk_keeps_outside ci wb we :
  preserves (keeps_outside wb we)
    (requirerandomizedchunk io_fails archive_featdim ci wb we).
Proof.
  intros s r s' Hrun Hnd.
  split; [by apply (po_randomizedchunks _ _
                      (requirerandomizedchunk_paging_only _ _ _ _ _ _ _ _ Hrun))|].
  intros k Hk.
  destruct (decide (wb <= ci < we)) as [Hin|Hout].
  - eapply requirerandomizedchunk_others; [done| |done]. lia.
  - unfold requirerandomizedchunk in Hrun.
    destruct (bool_decide (ci < wb)) eqn:H1; [by injection Hrun as _ <-|].
    destruct (bool_decide (we ≤ ci)) eqn:H2; [by injection Hrun as _ <-|].
    apply bool_decide_eq_false in H1, H2. lia.
Qed.

Lemma requirerandomizedchunk_keeps_resident ci wb we :
  preserves keeps_resident (requirerandomizedchunk io_fails archive_featdim ci wb we).
Proof.
  intros s r s' Hrun Hnd.
  split; [by apply (po_randomizedchunks _ _
                      (requirerandomizedchunk_paging_only _ _ _ _ _ _ _ _ Hrun))|].
  intros k Hk. destruct (decide (k = ci)) as [->|Hne].
  - by rewrite (requirerandomizedchunk_unchanged _ _ _ _ _ _ Hk Hrun).
  - by rewrite (requirerandomizedchunk_others _ _ _ _ _ _ _ _ _ Hnd Hne Hrun).
Qed.

Lemma require_all_keeps_outside refs wb we : forall rd,
  preserves (keeps_outside wb we) (require_all io_fails archive_featdim refs wb we rd).
Proof.
  induction refs as [|u refs IH]; intros rd.
  - apply preserves_sret, keeps_outside_refl.
  - apply (preserves_sbind (keeps_outside_trans wb we));
      [apply requirerandomizedchunk_keeps_outside|intros rd'; apply IH].
Qed.

Lemma require_range_keeps_outside ks wb we : forall rd,
  preserves (keeps_outside wb we) (require_range io_fails archive_featdim ks wb we rd).
Proof.
  induction ks as [|k ks IH]; intros rd.
  - apply preserves_sret, keeps_outside_refl.
  - apply (preserves_sbind (keeps_outside_trans wb we));
      [apply requirerandomizedchunk_keeps_outside|intros rd'; apply IH].
Qed.

Lemma require_range_keeps_resident ks wb we : forall rd,
  preserves keeps_resident (require_range io_fails archive_featdim ks wb we rd).
Proof.
  induction ks as [|k ks IH]; intros rd.
  - apply preserves_sret, keeps_resident_refl.
  - apply (preserves_sbind keeps_resident_trans);
      [apply requirerandomizedchunk_keeps_resident|intros rd'; apply IH].
Qed.

Ltac keep_auto R Rrefl Rtrans :=
  repeat first
    [ apply (preserves_sbind Rtrans); [|intros ?]
    | apply preserves_sret; apply Rrefl
    | apply preserves_lift; apply Rrefl
    | apply preserves_gets; apply Rrefl
    | apply preserves_throw; apply Rrefl
    | apply requirerandomizedchunk_keeps_outside
    | apply requirerandomizedchunk_keeps_resident
    | match goal with
      | |- preserves _ (match ?x with _ => _ end) => destruct x
      end ].

Lemma copy_frames_keeps_outside g wb we n : forall j rd,
  preserves (keeps_outside wb we)
    (copy_frames io_fails archive_featdim classid_bits g wb we j n rd).
Proof.
  induction n as [|n IH]; intros j rd; simpl.
  - apply preserves_sret, keeps_outside_refl.
  - keep_auto (keeps_outside wb we) (keeps_outside_refl wb we)
      (keeps_outside_trans wb we); apply IH.
Qed.

Lemma copy_frames_keeps_resident g wb we n : forall j rd,
  preserves keeps_resident
    (copy_frames io_fails archive_featdim classid_bits g wb we j n rd).
Proof.
  induction n as [|n IH]; intros j rd; simpl.
  - apply preserves_sret, keeps_resident_refl.
  - keep_auto keeps_resident keeps_resident_refl keeps_resident_trans; apply IH.
Qed.

(** Releasing the chunks [ks]: they are out of memory afterwards, what
    was out stays out, and the other chunks are as before. *)
Lemma release_all_released ks : forall s s',
  NoDup (uttchunkdata <$> randomizedchunks s) ->
  release_all ks s = (Ok (), s') ->
  randomizedchunks s' = randomizedchunks s /\
  (forall k, k ∈ ks -> inram_at s' k = false) /\
  (forall k, inram_at s k = false -> inram_at s' k = false) /\
  (forall k, k ∉ ks -> inram_at s' k = inram_at s k).
Proof.
  induction ks as [|k0 ks IH]; intros s s' Hnd Hrun; simpl in Hrun.
  - injection Hrun as <-. split_and!; try done. intros k Hk. by apply elem_of_nil in Hk.
  - apply sbind_Ok in Hrun as ([] & s1 & Hrel & Hrun).
    pose proof (releaserandomizedchunk_paging_only _ _ _ _ Hrel) as Hpo.
    pose proof (po_randomizedchunks _ _ Hpo) as Hrcs.
    destruct (IH s1 s') as (Hr & Hin & Hmono & Hout); [by rewrite Hrcs|done|].
    pose proof (releaserandomizedchunk_released _ _ _ Hrel) as Hk0.
    assert (forall k, inram_at s k = false -> inram_at s1 k = false) as Hmono1.
    { intros k Hk. destruct (decide (k = k0)) as [->|Hne]; [done|].
      by rewrite (releaserandomizedchunk_others _ _ _ _ _ Hnd Hne Hrel). }
    split_and!.
    + congruence.
    + intros k [->|Hk]%elem_of_cons; [by apply Hmono|by apply Hin].
    + intros k Hk. by apply Hmono, Hmono1.
    + intros k Hk. apply not_elem_of_cons in Hk as [Hne Hk].
      by rewrite (Hout k Hk), (releaserandomizedchunk_others _ _ _ _ _ Hnd Hne Hrel).
Qed.

Lemma require_all_windows refs wb we : forall rd s rd' s',
  require_all io_fails archive_featdim refs wb we rd s = (Ok rd', s') ->
  forall u, u ∈ refs -> wb <= chunkindex u < we.
Proof.
  induction refs as [|u refs IH]; intros rd s rd' s' Hrun v Hv; simpl in Hrun.
  - by apply elem_of_nil in Hv.
  - apply sbind_Ok in Hrun as (rd1 & s1 & Hreq & Hrun).
    apply elem_of_cons in Hv as [->|Hv]; [|by eapply IH].
    by eapply requirerandomizedchunk_window.
Qed.

Lemma copy_utterances_resident s refs out :
  copy_utterances classid_bits s refs = Ok out ->
  forall u, u ∈ refs -> inram_at s (chunkindex u) = true.
Proof.
  revert out. induction refs as [|u refs IH]; intros out Hrun v Hv; simpl in Hrun.
  - by apply elem_of_nil in Hv.
  - apply bind_Ok in Hrun as (c & Hc%at_Ok & Hrun).
    apply bind_Ok in Hrun as (d & Hd%at_Ok & Hrun).
    apply bind_Ok in Hrun as (fr & Hfr & Hrun).
    apply bind_Ok in Hrun as (ids & _ & Hrun).
    apply bind_Ok in Hrun as (lat & _ & Hrun).
    apply bind_Ok in Hrun as ([ids' lats'] & Hrest & _).
    apply elem_of_cons in Hv as [->|Hv]; [|by eapply IH].
    unfold inram_at. rewrite Hc, Hd. simpl.
    unfold getutteranceframes in Hfr. by destruct (isinram d).
Qed.
End Residency.

(** ** The chunks in memory after a batch *)

Section ResidencyTheorems.
Context `{CRand}.
Variable io_fails : nat -> bool.
Variable archive_featdim : Z.
Variable classid_bits : Z.

(** X11.  After a batch in utterance mode, with every chunk of the corpus
    at most once among the randomized chunks: the chunk of every utterance
    of the batch lies in the chunk window of the batch and is in memory,
    and no chunk outside that window is in memory. *)
Theorem getbatch_utterancemode_residency g fr s out s' :
  NoDup (uttchunkdata <$> randomizedchunks s) ->
  getbatch_utterancemode io_fails archive_featdim classid_bits g fr s = (Ok out, s') ->
  exists spos epos wb we,
    randomizedutteranceposmap s !! g = Some spos /\
    batch_extent s spos fr = Ok (epos, feat_cols out) /\
    batch_window s spos epos = Some (wb, we) /\
    (forall u, u ∈ feat_utterances out ->
       wb <= chunkindex u < we /\ inram_at s' (chunkindex u) = true) /\
    (forall k, ~ (wb <= k < we) -> inram_at s' k = false).
Proof.
  intros Hnd Hrun. unfold getbatch_utterancemode in Hrun.
  step_pure Hrun.
  destruct (randomizedutteranceposmap s !! g) as [spos|] eqn:Hpos; [|done].
  step_pure Hrun. unfold id in Hrun.
  step_lift Hrun as [epos mb] Hext.
  step_pure Hrun. step_pure Hrun.
  step_lift Hrun as ks Hks. step_lift Hrun as cs Hcs.
  step_lift Hrun as ke Hke. step_lift Hrun as ce Hce.
  apply sbind_Ok in Hrun as ([] & s1 & Hrel1 & Hrun).
  apply sbind_Ok in Hrun as ([] & s2 & Hrel2 & Hrun).
  step_pure Hrun.
  apply sbind_Ok in Hrun as (rd & s3 & Hreq & Hrun).
  step_pure Hrun. unfold id in Hrun.
  step_lift Hrun as [ids lats] Hcopy.
  destruct (_ && _); [done|]. injection Hrun as <- <-. simpl.
  destruct (release_all_released _ _ _ Hnd Hrel1) as (Hr1 & Hin1 & Hmono1 & _).
  assert (NoDup (uttchunkdata <$> randomizedchunks s1)) as Hnd1 by (by rewrite Hr1).
  destruct (release_all_released _ _ _ Hnd1 Hrel2) as (Hr2 & Hin2 & Hmono2 & _).
  destruct (require_all_keeps_outside io_fails archive_featdim _ _ _ _ _ _ _ Hreq)
    as [Hr3 Hout3]; [by rewrite Hr2, Hr1|].
  pose proof (release_all_paging_only _ _ _ _ Hrel1) as Hpo1.
  pose proof (release_all_paging_only _ _ _ _ Hrel2) as Hpo2.
  destruct (decide (epos = 0)) as [|Hepos]; [done|].
  apply at_Ok in Hks, Hcs, Hke, Hce.
  exists spos, epos, (windowbegin cs), (windowend ce). split_and!; try done.
  - unfold batch_window. rewrite Hks. simpl. rewrite Hcs. simpl. rewrite Hke. simpl.
    by rewrite Hce.
  - intros u Hu. split.
    + by eapply require_all_windows.
    + by eapply copy_utterances_resident.
  - intros k Hk. rewrite (Hout3 k Hk).
    destruct (decide (k < windowbegin cs)) as [Hlt|Hge].
    + apply Hmono2, Hin1. apply elem_of_seq. lia.
    + destruct (decide (k < length (randomizedchunks s))) as [Hlen|Hlen].
      * apply Hin2. apply elem_of_seq. lia.
      * unfold inram_at. rewrite Hr2, Hr1.
        by rewrite lookup_ge_None_2 by lia.
Qed.

Lemma require_range_resident ks wb we : forall rd s rd' s',
  NoDup (uttchunkdata <$> randomizedchunks s) ->
  require_range io_fails archive_featdim ks wb we rd s = (Ok rd', s') ->
  forall k, k ∈ ks -> inram_at s' k = true.
Proof.
  induction ks as [|k0 ks IH]; intros rd s rd' s' Hnd Hrun k Hk; simpl in Hrun.
  - by apply elem_of_nil in Hk.
  - apply sbind_Ok in Hrun as (rd1 & s1 & Hreq & Hrun).
    pose proof (requirerandomizedchunk_paging_only _ _ _ _ _ _ _ _ Hreq) as Hpo.
    assert (NoDup (uttchunkdata <$> randomizedchunks s1)) as Hnd1
      by (by rewrite (po_randomizedchunks _ _ Hpo)).
    apply elem_of_cons in Hk as [->|Hk]; [|by eapply IH].
    destruct (require_range_keeps_resident io_fails archive_featdim _ _ _ _ _ _ _ Hrun Hnd1)
      as [_ Hkeep].
    apply Hkeep. by eapply requirerandomizedchunk_resident.
Qed.

Lemma copy_frames_windows g wb we n : forall j rd s p rd' s',
  copy_frames io_fails archive_featdim classid_bits g wb we j n rd s
  = (Ok (p, rd'), s') ->
  forall f, f ∈ p.1 -> wb <= Z.to_nat (fr_chunkindex f) < we.
Proof.
  induction n as [|n IH]; intros j rd s p rd' s' Hrun f Hf; simpl in Hrun.
  - injection Hrun as <- _ _. by apply elem_of_nil in Hf.
  - step_pure Hrun. step_pure Hrun. step_lift Hrun as f0 Hf0.
    apply sbind_Ok in Hrun as (rd1 & s1 & Hreq & Hrun).
    step_pure Hrun. unfold id in Hrun.
    step_lift Hrun as c Hc. step_lift Hrun as d Hd. step_lift Hrun as fr Hfr.
    apply sbind_Ok in Hrun as (uid & s2 & Huid & Hrun).
    apply sbind_Ok in Hrun as ([p' rd2] & s3 & Hrest & Hrun).
    injection Hrun as <- <- <-. simpl in Hf.
    apply elem_of_cons in Hf as [->|Hf].
    + by eapply requirerandomizedchunk_window.
    + by eapply IH.
Qed.

(** X12.  After a batch in frame mode, with every chunk of the corpus at
    most once among the randomized chunks: every chunk of the window that
    spans the chunks of the first and the last frame position is in
    memory, no chunk outside it is, and every frame of the batch comes from
    a chunk of the window. *)
Theorem getbatch_framemode_residency sweep g fr s out s' :
  NoDup (uttchunkdata <$> randomizedchunks s) ->
  getbatch_framemode io_fails archive_featdim classid_bits sweep g fr s = (Ok out, s') ->
  let sweepte := sz_add (sz_mul sweep (_totalframes s)) (_totalframes s) in
  let globalte := Z.min (sz_add g fr) sweepte in
  exists firstchunk lastchunk cf cl,
    chunkforframepos s g = Ok firstchunk /\
    chunkforframepos s (sz_sub globalte 1) = Ok lastchunk /\
    randomizedchunks s !! firstchunk = Some cf /\
    randomizedchunks s !! lastchunk = Some cl /\
    (forall k, windowbegin cf <= k < windowend cl -> inram_at s' k = true) /\
    (forall k, ~ (windowbegin cf <= k < windowend cl) -> inram_at s' k = false) /\
    (forall f, f ∈ feat_frames out ->
       windowbegin cf <= Z.to_nat (fr_chunkindex f) < windowend cl).
Proof.
  intros Hnd Hrun. cbv zeta. unfold getbatch_framemode in Hrun.
  step_pure Hrun. step_pure Hrun. unfold id in Hrun.
  step_lift Hrun as firstchunk Hfirst. step_lift Hrun as lastchunk Hlast.
  step_pure Hrun.
  step_lift Hrun as cf Hcf. step_lift Hrun as cl Hcl.
  apply sbind_Ok in Hrun as ([] & s1 & Hrel1 & Hrun).
  apply sbind_Ok in Hrun as (rd & s2 & Hreq & Hrun).
  apply sbind_Ok in Hrun as ([] & s3 & Hrel2 & Hrun).
  apply sbind_Ok in Hrun as ([p rd'] & s4 & Hcopy & Hrun).
  injection Hrun as <- <-. simpl.
  apply at_Ok in Hcf, Hcl.
  set (wb := windowbegin cf) in *. set (we := windowend cl) in *.
  destruct (release_all_released _ _ _ Hnd Hrel1) as (Hr1 & Hin1 & _ & _).
  assert (NoDup (uttchunkdata <$> randomizedchunks s1)) as Hnd1 by (by rewrite Hr1).
  pose proof (require_range_resident _ _ _ _ _ _ _ Hnd1 Hreq) as Hres2.
  destruct (require_range_keeps_outside io_fails archive_featdim _ _ _ _ _ _ _ Hreq Hnd1)
    as [Hr2 Hout2].
  assert (NoDup (uttchunkdata <$> randomizedchunks s2)) as Hnd2 by (by rewrite Hr2).
  destruct (release_all_released _ _ _ Hnd2 Hrel2) as (Hr3 & Hin3 & Hmono3 & Hsame3).
  assert (NoDup (uttchunkdata <$> randomizedchunks s3)) as Hnd3 by (by rewrite Hr3).
  destruct (copy_frames_keeps_outside io_fails archive_featdim classid_bits
              _ _ _ _ _ _ _ _ _ Hcopy Hnd3) as [Hr4 Hout4].
  destruct (copy_frames_keeps_resident io_fails archive_featdim classid_bits
              _ _ _ _ _ _ _ _ _ Hcopy Hnd3) as [_ Hres4].
  exists firstchunk, lastchunk, cf, cl. split_and!; try done.
  - intros k Hk. apply Hres4. rewrite Hsame3.
    + apply Hres2. apply elem_of_seq. lia.
    + intros Hin. apply elem_of_seq in Hin. lia.
  - intros k Hk. rewrite (Hout4 k Hk).
    destruct (decide (k < wb)) as [Hlt|Hge].
    + apply Hmono3. rewrite (Hout2 k Hk). apply Hin1. apply elem_of_seq. lia.
    + destruct (decide (k < length (randomizedchunks s))) as [Hlen|Hlen].
      * apply Hin3. apply elem_of_seq. lia.
      * unfold inram_at. rewrite Hr3, Hr2, Hr1.
        by rewrite lookup_ge_None_2 by lia.
  - intros f Hf. by eapply copy_frames_windows.
Qed.
End ResidencyTheorems.

(** ** The chunk of a frame position *)

Section FramePos.
Context `{CRand}.
Variable all : list utterancechunkdata.

(** The binary search of [chunkforframepos], on a timeline: the first
    chunk from [i] on that ends after [t]. *)
Lemma lower_bound_globalte_spec rcs t : timeline all rcs -> forall n i,
  i + n = length rcs ->
  exists k, lower_bound_globalte all (drop i rcs) t i = Ok k /\ i <= k <= length rcs /\
    (forall j, i <= j < k -> (end_of all rcs j <= t)%Z) /\
    (k < length rcs -> (t < end_of all rcs k)%Z).
Proof.
  intros T. induction n as [|n IH]; intros i Hi.
  - rewrite drop_ge by lia. exists i. simpl. split_and!; [done|lia|lia|intros; lia|lia].
  - destruct (lookup_lt_is_Some_2 rcs i ltac:(lia)) as [c Hc].
    rewrite (drop_S _ _ _ Hc). simpl.
    rewrite (globalte_timeline all rcs i c T Hc). simpl.
    destruct (Z.leb_spec (end_of all rcs i) t) as [Hle|Hgt].
    + destruct (IH (S i) ltac:(lia)) as (k & -> & Hk & Hbefore & Hat).
      exists k. split_and!; [done|lia|lia| |done].
      intros j Hj. destruct (decide (j = i)) as [->|]; [done|]. apply Hbefore. lia.
    + exists i. split_and!; [done|lia|lia|intros; lia|done].
Qed.
End FramePos.

Section FramePosTheorem.
Context `{CRand}.

(** X13.  On randomized chunks that lie end to end within [size_t],
    [chunkforframepos] returns the chunk that holds the frame position; a
    position before the first chunk gives the logic error, and a position at
    or after the end of the last chunk makes the subscript leave the
    vector. *)
Theorem chunkforframepos_spec s t :
  timeline (allchunks s) (randomizedchunks s) ->
  (forall k, k < length (randomizedchunks s) ->
     (start_of (randomizedchunks s) k <= t
      < end_of (allchunks s) (randomizedchunks s) k)%Z ->
     chunkforframepos s t = Ok k) /\
  (randomizedchunks s <> [] -> (t < start_of (randomizedchunks s) 0)%Z ->
   chunkforframepos s t = Throw logic_chunkforframepos) /\
  ((end_of (allchunks s) (randomizedchunks s) (length (randomizedchunks s) - 1) <= t)%Z ->
   chunkforframepos s t = Throw undefined_behaviour).
Proof.
  intros T. set (rcs := randomizedchunks s) in *. set (all := allchunks s) in *.
  destruct (lower_bound_globalte_spec all rcs t T (length rcs) 0 eq_refl)
    as (k0 & Hlb & Hk0 & Hbefore & Hat).
  rewrite drop_0 in Hlb.
  split_and!.
  - intros k Hk [Hs He].
    assert (k0 = k) as ->.
    { destruct (decide (k0 < k)) as [Hlt|Hge].
      - pose proof (Hat ltac:(lia)).
        pose proof (end_le_start all rcs k0 k T Hlt Hk). lia.
      - destruct (decide (k < k0)) as [Hlt|]; [|lia].
        pose proof (Hbefore k ltac:(lia)). lia. }
    destruct (lookup_lt_is_Some_2 rcs k Hk) as [c Hc].
    unfold chunkforframepos. fold rcs all. rewrite Hlb. simpl.
    rewrite (at_lookup _ _ _ Hc). simpl.
    rewrite (globalte_timeline all rcs k c T Hc). simpl.
    rewrite <- (start_of_lookup rcs k c Hc).
    destruct (Z.ltb_spec t (start_of rcs k)); [lia|].
    destruct (Z.geb_spec t (end_of all rcs k)); [lia|]. done.
  - intros Hne Hlt.
    assert (0 < length rcs) as Hlen by (destruct rcs; [done|simpl; lia]).
    assert (k0 = 0) as ->.
    { destruct (decide (k0 = 0)) as [|Hpos]; [done|].
      pose proof (Hbefore 0 ltac:(lia)).
      pose proof (start_le_end all rcs 0 T Hlen). lia. }
    destruct (lookup_lt_is_Some_2 rcs 0 Hlen) as [c Hc].
    unfold chunkforframepos. fold rcs all. rewrite Hlb. simpl.
    rewrite (at_lookup _ _ _ Hc). simpl.
    rewrite (globalte_timeline all rcs 0 c T Hc). simpl.
    rewrite <- (start_of_lookup rcs 0 c Hc).
    destruct (Z.ltb_spec t (start_of rcs 0)); [done|lia].
  - intros Hge.
    assert (k0 = length rcs) as ->.
    { destruct (decide (k0 < length rcs)) as [Hlt|]; [|lia].
      pose proof (Hat Hlt).
      pose proof (end_mono all rcs k0 (length rcs - 1) T ltac:(lia) ltac:(lia)). lia. }
    unfold chunkforframepos. fold rcs all. rewrite Hlb. simpl.
    unfold at_. by rewrite lookup_ge_None_2.
Qed.
End FramePosTheorem.

(** ** The extent of a batch in frame mode *)

Section FrameExtent.
Context `{CRand}.
Variable io_fails : nat -> bool.
Variable archive_featdim : Z.
Variable classid_bits : Z.

Lemma issupervised_paging_only s s' :
  paging_only s s' -> issupervised s' = issupervised s.
Proof. intros Hpo. unfold issupervised. by rewrite (po_classids _ _ Hpo). Qed.

(** The copy-out loop reads the frame table at the positions
    [(globalts + j) % _totalframes], one frame and, with labels, one class
    id per column. *)
Lemma copy_frames_spec g wb we n : forall j rd s p rd' s',
  copy_frames io_fails archive_featdim classid_bits g wb we j n rd s
  = (Ok (p, rd'), s') ->
  length p.1 = n /\
  (forall i, i < n ->
     p.1 !! i = randomizedframerefs s
                !! Z.to_nat (sz_add g (Z.of_nat (j + i)) mod _totalframes s)) /\
  length p.2 = (if issupervised s then n else 0).
Proof.
  induction n as [|n IH]; intros j rd s p rd' s' Hrun; simpl in Hrun.
  - injection Hrun as <- _ _. simpl. split_and!; [done|intros; lia|by destruct (issupervised s)].
  - step_pure Hrun. step_pure Hrun. step_lift Hrun as f0 Hf0.
    apply sbind_Ok in Hrun as (rd1 & s1 & Hreq & Hrun).
    pose proof (requirerandomizedchunk_paging_only _ _ _ _ _ _ _ _ Hreq) as Hpo.
    step_pure Hrun. unfold id in Hrun.
    step_lift Hrun as c Hc. step_lift Hrun as d Hd. step_lift Hrun as fr Hfr.
    apply sbind_Ok in Hrun as (uid & s2 & Huid & Hrun).
    assert (s2 = s1 /\ length uid = if issupervised s1 then 1 else 0) as [-> Hlen].
    { destruct (issupervised s1).
      - step_lift Huid as ids Hids.
        destruct (ids !! _); [|done]. by injection Huid as <- <-.
      - by injection Huid as <- <-. }
    apply sbind_Ok in Hrun as ([p' rd2] & s3 & Hrest & Hrun).
    injection Hrun as <- <- <-. simpl.
    destruct (IH _ _ _ _ _ _ Hrest) as (Hl1 & Hat & Hl2).
    rewrite (issupervised_paging_only _ _ Hpo) in Hlen, Hl2.
    rewrite (po_randomizedframerefs _ _ Hpo), (po_totalframes _ _ Hpo) in Hat.
    apply at_Ok in Hf0.
    split_and!.
    + by rewrite Hl1.
    + intros [|i] Hi; simpl.
      * by rewrite Nat.add_0_r.
      * rewrite Hat by lia. do 5 f_equal. lia.
    + rewrite length_app, Hlen, Hl2. by destruct (issupervised s).
Qed.

(** X14.  In frame mode, on a sweep that fits [size_t], a batch that
    starts inside the sweep holds the frames requested but stops at the end
    of the sweep; its frames are those of the frame table at the consecutive
    positions from the start, and with labels there is one class id per
    frame. *)
Theorem getbatch_framemode_extent sweep g fr s out s' :
  getbatch_framemode io_fails archive_featdim classid_bits sweep g fr s = (Ok out, s') ->
  let total := _totalframes s in
  (0 < total)%Z -> (0 <= sweep)%Z -> ((sweep + 1) * total < SIZE_MOD)%Z ->
  (sweep * total <= g < (sweep + 1) * total)%Z ->
  (0 <= fr)%Z -> (g + fr < SIZE_MOD)%Z ->
  feat_cols out = Z.min fr ((sweep + 1) * total - g) /\
  length (feat_frames out) = Z.to_nat (feat_cols out) /\
  (forall j, j < length (feat_frames out) ->
     feat_frames out !! j
     = randomizedframerefs s !! (Z.to_nat (g - sweep * total) + j)) /\
  length (uids out) = (if issupervised s then length (feat_frames out) else 0).
Proof.
  intros Hrun total Htot Hsweep Hfit Hg Hfr Hgfr. unfold getbatch_framemode in Hrun.
  step_pure Hrun. step_pure Hrun. unfold id in Hrun.
  step_lift Hrun as firstchunk Hfirst. step_lift Hrun as lastchunk Hlast.
  step_pure Hrun.
  step_lift Hrun as cf Hcf. step_lift Hrun as cl Hcl.
  apply sbind_Ok in Hrun as ([] & s1 & Hrel1 & Hrun).
  apply sbind_Ok in Hrun as (rd & s2 & Hreq & Hrun).
  apply sbind_Ok in Hrun as ([] & s3 & Hrel2 & Hrun).
  apply sbind_Ok in Hrun as ([p rd'] & s4 & Hcopy & Hrun).
  injection Hrun as <- <-. simpl.
  pose proof (release_all_paging_only _ _ _ _ Hrel1) as Hpo1.
  pose proof (require_range_paging_only _ _ _ _ _ _ _ _ _ Hreq) as Hpo2.
  pose proof (release_all_paging_only _ _ _ _ Hrel2) as Hpo3.
  pose proof (paging_only_trans _ _ _ (paging_only_trans _ _ _ Hpo1 Hpo2) Hpo3) as Hpo.
  fold total in Hcopy |- *.
  assert (sz_mul sweep total = (sweep * total)%Z) as Hsw.
  { unfold sz_mul. apply wrap_small. nia. }
  assert (sz_add (sz_mul sweep total) total = ((sweep + 1) * total)%Z) as Hte.
  { rewrite Hsw. unfold sz_add. rewrite wrap_small; lia. }
  assert (sz_add g fr = (g + fr)%Z) as Hgf.
  { unfold sz_add. apply wrap_small. nia. }
  rewrite Hte, Hgf in Hcopy |- *.
  assert (sz_sub (Z.min (g + fr) ((sweep + 1) * total)) g
          = Z.min fr ((sweep + 1) * total - g)) as Hmb.
  { unfold sz_sub. rewrite wrap_small; lia. }
  rewrite Hmb in Hcopy |- *.
  destruct (copy_frames_spec _ _ _ _ _ _ _ _ _ _ Hcopy) as (Hlen & Hat & Huids).
  rewrite (issupervised_paging_only _ _ Hpo) in Huids.
  rewrite (po_randomizedframerefs _ _ Hpo), (po_totalframes _ _ Hpo) in Hat.
  fold total in Hat.
  split_and!; [done|done| |by rewrite Hlen].
  intros j Hj. rewrite Hlen in Hj. rewrite (Hat j Hj). f_equal. simpl.
  assert (sz_add g (Z.of_nat j) = (g + Z.of_nat j)%Z) as ->.
  { unfold sz_add. apply wrap_small. lia. }
  assert (((g + Z.of_nat j) mod total = g + Z.of_nat j - sweep * total)%Z) as ->.
  { symmetry. apply (Z.mod_unique_pos _ _ sweep); lia. }
  lia.
Qed.
End FrameExtent.

(** ** Round trips *)

Lemma chained_lookup_lt refs : forall t i j u v,
  chained t refs -> sweep_fits refs ->
  refs !! i = Some u -> refs !! j = Some v -> i < j ->
  (ref_globalts u + numframes u <= ref_globalts v)%Z.
Proof.
  induction refs as [|w refs IH]; intros t i j u v Hch Hfit Hu Hv Hij; [done|].
  destruct j as [|j]; [lia|]. simpl in Hv.
  destruct i as [|i].
  - injection Hu as <-. by eapply chained_sorted.
  - simpl in Hu. destruct Hch as [_ Hch].
    eapply (IH _ i j); [exact Hch| |done|done|lia].
    intros x Hx. apply Hfit. by right.
Qed.

Section Posmap.
Context `{CRand}.
Variable b : build.

(** X15.  After a rebuild in utterance mode the lookup table and the
    utterance references agree: a key of the table is the start of the
    utterance at the position it maps to, a time that is no key is the
    start of no utterance, and on a sweep that fits [size_t] with no empty
    utterance the start of the utterance at a position maps to that
    position. *)
Theorem posmap_round_trip fuel g s sweep s' :
  framemode s = false ->
  lazyrandomization b fuel g s = (Ok sweep, s') -> currentsweep s <> sweep ->
  let refs := randomizedutterancerefs s' in
  let m := randomizedutteranceposmap s' in
  (forall ts pos, m !! ts = Some pos ->
     exists u, refs !! pos = Some u /\ ref_globalts u = ts) /\
  (forall ts, m !! ts = None <-> forall u, u ∈ refs -> ref_globalts u <> ts) /\
  (sweep_fits refs -> (forall u, u ∈ refs -> (0 < numframes u)%Z) ->
   forall pos u, refs !! pos = Some u -> m !! ref_globalts u = Some pos).
Proof.
  intros Hfm Hrun Hnew. cbv zeta.
  destruct (lazyrandomization_utterances b _ _ _ _ _ Hfm Hrun)
    as (_ & _ & [[Heq _]|[_ Hre]]); [congruence|].
  destruct Hre as (chunkrefs & r & rcs0 & rcs & pcw & refs & refs1 & r1 & refs2 & Hre).
  destruct Hre as (_ & _ & _ & _ & _ & _ & Hplace & _ & ->). simpl.
  pose proof (place_utterances_chained _ _ _ _ _ Hplace) as Hch.
  assert (Hsome : forall ts pos, build_posmap refs2 0 ∅ !! ts = Some pos ->
            exists u, refs2 !! pos = Some u /\ ref_globalts u = ts).
  { intros ts pos Hpos.
    apply build_posmap_Some in Hpos as [Hpos|(i & u & Hu & -> & Hg)]; [done|].
    by exists u. }
  assert (Hnone : forall ts, build_posmap refs2 0 ∅ !! ts = None <->
            forall u, u ∈ refs2 -> ref_globalts u <> ts).
  { intros ts. rewrite build_posmap_None. split; [by intros [_ ?]|done]. }
  split_and!; [done|done|].
  intros Hfit Hpos pos u Hu.
  destruct (build_posmap refs2 0 ∅ !! ref_globalts u) as [pos'|] eqn:Hlook.
  - destruct (Hsome _ _ Hlook) as (u' & Hu' & Hts).
    f_equal. pose proof (Hpos u (list_elem_of_lookup_2 _ _ _ Hu)).
    pose proof (Hpos u' (list_elem_of_lookup_2 _ _ _ Hu')).
    destruct (Nat.lt_trichotomy pos pos') as [Hlt|[->|Hlt]]; [|done|].
    + pose proof (chained_lookup_lt _ _ _ _ _ _ Hch Hfit Hu Hu' Hlt). lia.
    + pose proof (chained_lookup_lt _ _ _ _ _ _ Hch Hfit Hu' Hu Hlt). lia.
  - exfalso. apply (proj1 (Hnone _) Hlook u); [|done].
    by eapply list_elem_of_lookup_2.
Qed.
End Posmap.

Section RoundTrip.
Context `{CRand}.
Variable io_fails : nat -> bool.
Variable archive_featdim : Z.

(** X16.  Paging a chunk in and out again: when [requirerandomizedchunk]
    has read a chunk, [releaserandomizedchunk] on it returns, the chunk
    has its descriptor and an empty cache, every other chunk and the
    randomization are as before the read, and [chunksinram] is back. *)
Theorem page_in_page_out ci wb we s s1 :
  requirerandomizedchunk io_fails archive_featdim ci wb we s = (Ok true, s1) ->
  exists c d s2,
    randomizedchunks s !! ci = Some c /\ allchunks s !! uttchunkdata c = Some d /\
    isinram d = false /\ inram_at s1 ci = true /\
    releaserandomizedchunk ci s1 = (Ok (), s2) /\
    allchunks s2
    = <[uttchunkdata c := set_lattices (set_frames d (matrix_resize 0 0)) []]>
        (allchunks s) /\
    chunksinram s2 = wrap (chunksinram s) /\ paging_only s s2.
Proof.
  intros Hrun.
  pose proof (requirerandomizedchunk_resident _ _ _ _ _ _ _ _ Hrun) as Hres.
  pose proof (requirerandomizedchunk_paging_only _ _ _ _ _ _ _ _ Hrun) as Hpo.
  pose proof Hrun as Hrun0.
  unfold requirerandomizedchunk in Hrun.
  destruct (_ || _); [done|].
  apply sbind_Ok in Hrun as (rcs & s0 & [= <- <-] & Hrun).
  apply sbind_Ok in Hrun as (c & s0 & [Hc%at_Ok ->]%lift_Ok & Hrun).
  apply sbind_Ok in Hrun as (all & s0 & [= <- <-] & Hrun).
  apply sbind_Ok in Hrun as (d & s0 & [Hd%at_Ok ->]%lift_Ok & Hrun).
  destruct (isinram d) eqn:Hram; [done|].
  apply sbind_Ok in Hrun as ([] & s1' & Hatt & Hrun).
  apply sbind_Ok in Hrun as ([] & s2' & [= <-] & [= <-]).
  pose proof (requirerandomizedchunk_only_chunk _ _ _ _ _ _ _ _ c Hc Hrun0)
    as [Hrcs Hlen Hothers].
  pose proof (po_descriptors _ _ Hpo) as Hdescs.
  unfold inram_at in Hres. rewrite Hrcs, Hc in Hres.
  set (s1 := set_chunksinram s1' (sz_add (chunksinram s1') 1)) in *.
  change (allchunks s1) with (allchunks s1') in *.
  change (randomizedchunks s1) with (randomizedchunks s1') in *.
  destruct (allchunks s1' !! uttchunkdata c) as [d1|] eqn:Hd1; [|done].
  simpl in Hres.
  assert (descriptor d1 = descriptor d) as Hdesc.
  { pose proof (f_equal (fun l => l !! uttchunkdata c) Hdescs) as Hl.
    simpl in Hl. rewrite !list_lookup_fmap, Hd1, Hd in Hl. by apply (inj Some) in Hl. }
  assert (chunkdata_numutterances d1 <> 0) as Hne.
  { unfold chunkdata_numutterances. injection Hdesc as -> _ _.
    intros Hz. unfold attempt in Hatt.
    apply attempt_loop_spec in Hatt as (k & sk & _ & Hfail & Hlast & _).
    unfold requiredata_at in Hlast.
    destruct (allchunks sk !! uttchunkdata c) as [dk|] eqn:Hdk; [|done].
    destruct (requiredata _ _ _ _) as [r1 [[d1' fd1] n1]] eqn:Hreq.
    injection Hlast as -> _.
    assert (preserves paging_only
              (requiredata_at io_fails archive_featdim (uttchunkdata c))) as Hp
      by apply requiredata_at_paging_only.
    assert (paging_only s sk) as Hsk.
    { clear -Hfail Hp. induction Hfail as [|k s0 e s1 s2 Hb _ IH];
        [apply paging_only_refl|].
      eapply paging_only_trans; [by eapply Hp|done]. }
    pose proof (f_equal (fun l => l !! uttchunkdata c) (po_descriptors _ _ Hsk)) as Hl.
    simpl in Hl. rewrite !list_lookup_fmap, Hdk, Hd in Hl. injection Hl as Hu _ _.
    unfold requiredata in Hreq. unfold chunkdata_numutterances in Hreq.
    rewrite Hu, Hz in Hreq. by destruct (decide _). }
  exists c, d.
  eexists. split_and!; [done|done|done| | | | |].
  - unfold inram_at, s1. cbn [randomizedchunks allchunks set_chunksinram].
    by rewrite Hrcs, Hc, Hd1.
  - unfold releaserandomizedchunk, sbind, gets, lift, modify, sret, s1.
    cbn [randomizedchunks allchunks set_chunksinram].
    rewrite Hrcs, (at_lookup _ _ _ Hc). unfold getchunkdata.
    rewrite (at_lookup _ _ _ Hd1), Hres. simpl.
    rewrite (releasedata_resident d1 Hres Hne). reflexivity.
  - simpl. apply list_eq. intros j.
    destruct (decide (j = uttchunkdata c)) as [->|Hj].
    + rewrite !list_lookup_insert_eq by
        (first [by eapply lookup_lt_Some|rewrite length_insert; by eapply lookup_lt_Some]).
      f_equal. destruct d, d1. simpl in *. by injection Hdesc as -> -> ->.
    + rewrite !list_lookup_insert_ne by done. by apply Hothers.
  - simpl. unfold sz_sub, sz_add.
    assert (chunksinram s1' = chunksinram s) as ->.
    { assert (preserves (fun a c => chunksinram c = chunksinram a)
                (requiredata_at io_fails archive_featdim (uttchunkdata c))) as Hp.
      { intros a r c0 Hr. unfold requiredata_at in Hr.
        destruct (allchunks a !! uttchunkdata c); [|by injection Hr as _ <-].
        destruct (requiredata _ _ _ _) as [r1 [[d1' fd1] n1]].
        by injection Hr as _ <-. }
      eapply (preserves_attempt_loop (R := fun a c => chunksinram c = chunksinram a));
        [ |exact Hp|exact Hatt].
      intros ? ? ? ? ?. congruence. }
    unfold wrap. rewrite Zminus_mod_idemp_l. f_equal. lia.
  - eapply paging_only_trans; [exact Hpo|].
    split; try done. simpl. eapply descriptor_insert; [exact Hd1|done].
Qed.
End RoundTrip.

(** ** Loading a chunk *)

Section Load.
Variable io_fails : nat -> bool.
Variable archive_featdim : Z.

(** X17.  When [requiredata] returns, the chunk has its descriptor, a
    frame matrix of [featdim] rows and [totalframes] columns into which the
    stripe of every utterance has been read once, in order, and with a
    lattice source one lattice per utterance, under the utterance's key;
    [featdim] is the one of the archive if it was unset; and every call to
    the outside, counted, has succeeded. *)
Theorem requiredata_loads haslat d fd n d' fd' n' :
  requiredata io_fails archive_featdim haslat (d, fd, n) = (Ok (), (d', fd', n')) ->
  descriptor d' = descriptor d /\
  fd' = (if decide (fd = 0%Z) then archive_featdim else fd) /\
  frames d' = mkmatrix fd' (totalframes d) (seq 0 (length (utteranceset d))) /\
  lattices d' = (if haslat then (fun u => Some (utt_key u)) <$> utteranceset d
                 else lattices d) /\
  n' = n + (if decide (fd = 0%Z) then 1 else 0) + 1
       + length (utteranceset d) * (if haslat then 2 else 1) /\
  (forall k, n <= k < n' -> io_fails k = false).
Proof.
  intros Hrun.
  pose proof (requiredata_descriptor _ _ _ _ _ _ _ _ _ _ Hrun) as Hdesc.
  unfold requiredata in Hrun.
  destruct (decide _); [done|]. destruct (isinram d) eqn:Hram; [done|].
  destruct (requiredata_try _ _ _ _) as [r1 [[d1 fd1] n1]] eqn:Htry.
  assert (r1 = Ok () /\ d1 = d' /\ fd1 = fd' /\ n1 = n') as (-> & -> & -> & ->).
  { destruct r1 as [[]| |]; [by injection Hrun as <- <- <-| |];
      destruct (releasedata d1); done. }
  clear Hrun. rewrite requiredata_try_eq in Htry. simpl in Htry.
  assert (Hread : forall fdx nx,
    read_utterances io_fails haslat (resized haslat d fdx) nx 0
      (utteranceset (resized haslat d fdx)) = (Ok (), (d', n')) ->
    frames d' = mkmatrix fdx (totalframes d) (seq 0 (length (utteranceset d))) /\
    lattices d' = (if haslat then (fun u => Some (utt_key u)) <$> utteranceset d
                   else lattices d) /\
    n' = nx + length (utteranceset d) * (if haslat then 2 else 1) /\
    (forall k, nx <= k < n' -> io_fails k = false)).
  { intros fdx nx Hr.
    assert (utteranceset (resized haslat d fdx) = utteranceset d) as Hus
      by (unfold resized; by destruct haslat).
    rewrite Hus in Hr.
    apply read_utterances_Ok in Hr as (Hfr & Hlen & Hlat & Hn & Hcalls).
    split_and!; [| |done|done].
    - rewrite Hfr. unfold resized. by destruct haslat.
    - destruct haslat.
      + apply list_eq. intros j. rewrite Hlat, list_lookup_fmap. simpl.
        destruct (decide (j < length (utteranceset d))) as [Hj|Hj].
        * rewrite bool_decide_eq_true_2 by lia. by rewrite Nat.sub_0_r.
        * rewrite bool_decide_eq_false_2 by lia.
          rewrite (lookup_ge_None_2 (utteranceset d)) by lia. simpl.
          apply lookup_ge_None_2. unfold resized. simpl.
          rewrite length_take, length_app, length_replicate. lia.
      + apply list_eq. intros j. rewrite Hlat. simpl. done. }
  destruct (decide (fd = 0%Z)).
  - destruct (io_fails n) eqn:Hio0; [done|]. destruct (io_fails (S n)) eqn:Hio1; [done|].
    destruct (read_utterances _ _ _ _ _ _) as [r3 [d3 n3]] eqn:Hr.
    injection Htry as -> -> -> ->.
    destruct (Hread _ _ Hr) as (Hfr & Hlat & Hn & Hcalls).
    split_and!; try done; [lia|].
    intros k Hk. destruct (decide (k = n)) as [->|]; [done|].
    destruct (decide (k = S n)) as [->|]; [done|]. apply Hcalls. lia.
  - destruct (io_fails n) eqn:Hio0; [done|].
    destruct (read_utterances _ _ _ _ _ _) as [r3 [d3 n3]] eqn:Hr.
    injection Htry as -> -> -> ->.
    destruct (Hread _ _ Hr) as (Hfr & Hlat & Hn & Hcalls).
    split_and!; try done; [lia|].
    intros k Hk. destruct (decide (k = n)) as [->|]; [done|]. apply Hcalls. lia.
Qed.
End Load.

(** ** Labels *)

Section Labels.
Variable b : build.
Variable classid_bits : Z.

Lemma expand_labels_Ok udim labseq : forall prev cids counts ncl cids' counts' ncl',
  expand_labels classid_bits udim prev labseq cids counts ncl = Ok (cids', counts', ncl') ->
  cids' = cids ++ expansion labseq /\
  Forall (fun e => (classid e < udim)%Z) labseq /\
  from_option entry_end (from_option entry_end 0%Z prev) (last labseq)
  = (from_option entry_end 0%Z prev + sumZ (entry_numframes <$> labseq))%Z.
Proof.
  induction labseq as [|e rest IH]; intros prev cids counts ncl cids' counts' ncl' Hrun;
    simpl in Hrun.
  - injection Hrun as <- <- <-. rewrite app_nil_r. simpl. split_and!; [done..|].
    unfold sumZ. simpl. lia.
  - destruct (negb (_ =? firstframe e)%Z) eqn:Hcons; [done|].
    destruct (classid e >=? udim)%Z eqn:Hdim; [done|].
    destruct (negb (classid e =? _)%Z) eqn:Hbits; [done|].
    apply bind_Ok in Hrun as (c & _ & Hrun).
    apply IH in Hrun as (-> & Hall & Hend).
    apply negb_false_iff, Z.eqb_eq in Hcons, Hbits. rewrite <- Hbits.
    split_and!.
    + unfold expansion. simpl. by rewrite <- app_assoc.
    + rewrite Z.geb_leb in Hdim. apply Z.leb_gt in Hdim. constructor; [lia|done].
    + rewrite fmap_cons, sumZ_cons.
      assert (from_option entry_end 0%Z prev = firstframe e) as ->
        by (by destruct prev).
      simpl in Hend. rewrite last_cons. destruct (last rest) as [l|]; simpl in *.
      * rewrite Hend. unfold entry_end. lia.
      * unfold entry_end in *. lia.
Qed.

Lemma expansion_length labseq :
  Forall (fun e => (0 <= entry_numframes e)%Z) labseq ->
  Z.of_nat (length (expansion labseq)) = sumZ (entry_numframes <$> labseq).
Proof.
  induction 1 as [|e rest He _ IH]; [done|].
  change (expansion (e :: rest))
    with (replicate (Z.to_nat (entry_numframes e)) (classid e) ++ expansion rest).
  rewrite length_app, length_replicate, fmap_cons, sumZ_cons. lia.
Qed.

Lemma expansion_bound udim labseq :
  Forall (fun e => (classid e < udim)%Z) labseq ->
  Forall (fun x => (x < udim)%Z) (expansion labseq).
Proof.
  induction 1 as [|e rest He _ IH]; [constructor|].
  change (expansion (e :: rest))
    with (replicate (Z.to_nat (entry_numframes e)) (classid e) ++ expansion rest).
  apply Forall_app. split; [|done].
  by apply Forall_replicate.
Qed.

Lemma labelled_app labels udim cids more u :
  labelled classid_bits labels udim cids u ->
  labelled classid_bits labels udim (cids ++ more) u.
Proof.
  intros (labseq & Hl & Hcb & Hn & Hsm & Hlen & Htake & Hmark & Hdim).
  exists labseq. split_and!; try done.
  - apply lookup_lt_Some in Hmark as Hlt.
    rewrite drop_app_le by lia. rewrite take_app_le; [done|].
    rewrite length_drop. lia.
  - by apply lookup_app_l_Some.
Qed.

Lemma scan_file_labelled labels lats udim i f st st' :
  labels <> ∅ -> durations_nonneg labels ->
  scan_file b classid_bits labels lats udim i f st = Ok st' ->
  Forall (labelled classid_bits labels udim (scan_classids st)) (scan_utteranceset st) ->
  Forall (labelled classid_bits labels udim (scan_classids st')) (scan_utteranceset st').
Proof.
  intros Hne Hnn Hrun Hinv. unfold scan_file in Hrun.
  rewrite (bool_decide_eq_false_2 (labels = ∅)) in Hrun by done. simpl in Hrun.
  destruct (file_numframes f) as [uttframes|]; [|done].
  destruct (uttframes <? 2)%Z eqn:Hshort; [done|].
  destruct (uttframes >? maxframesperutterance b)%Z; [by injection Hrun as <-|].
  destruct (labels !! file_key f) as [labseq|] eqn:Hlab.
  - destruct (_ || _); [by injection Hrun as <-|]. simpl in Hrun.
    destruct (negb (_ =? uttframes)%Z) eqn:Hdur; [by injection Hrun as <-|].
    apply negb_false_iff, Z.eqb_eq in Hdur.
    apply bind_Ok in Hrun as ([[cids counts] ncl] & Hexp & Hrun).
    destruct (negb (_ =? _)%Z) eqn:Hchk; [done|]. injection Hrun as <-. simpl.
    apply negb_false_iff, Z.eqb_eq in Hchk.
    apply expand_labels_Ok in Hexp as (-> & Hdim & Hend). simpl in Hend.
    pose proof (expansion_length labseq (Hnn _ _ Hlab)) as Hlen.
    assert (Z.of_nat (length (expansion labseq)) = uttframes) as Hfr.
    { rewrite Hlen. rewrite <- Hdur.
      destruct (last labseq) as [l|]; simpl in *; unfold entry_end in *; lia. }
    apply Forall_app. split.
    + eapply Forall_impl; [exact Hinv|]. intros u Hu.
      rewrite <- app_assoc. by apply labelled_app.
    + apply Forall_singleton. exists labseq. simpl.
      rewrite !length_app in Hchk. simpl in Hchk.
      assert (0 <= sz_add (sz_add (scan_totalframes st) uttframes)
                     (Z.of_nat (length (scan_utteranceset st) + 1)) < SIZE_MOD)%Z
        by (apply Z.mod_pos_bound; done).
      apply Z.ltb_ge in Hshort.
      split_and!; try done; try lia.
      * rewrite Nat2Z.id. rewrite <- app_assoc, drop_app_length.
        rewrite <- Hfr, Nat2Z.id. by rewrite take_app_length.
      * replace (Z.to_nat (Z.of_nat (length (scan_classids st)) + uttframes))
          with (length (scan_classids st ++ expansion labseq) + 0)
          by (rewrite length_app; lia).
        by rewrite lookup_app_r, Nat.add_comm, Nat.add_sub by lia.
      * by apply expansion_bound.
  - rewrite bool_decide_eq_true_2 in Hrun by done. simpl in Hrun.
    by injection Hrun as <-.
Qed.

Lemma scan_files_labelled labels lats udim fs : forall i st st',
  labels <> ∅ -> durations_nonneg labels ->
  scan_files b classid_bits labels lats udim i fs st = Ok st' ->
  Forall (labelled classid_bits labels udim (scan_classids st)) (scan_utteranceset st) ->
  Forall (labelled classid_bits labels udim (scan_classids st')) (scan_utteranceset st').
Proof.
  induction fs as [|f fs IH]; intros i st st' Hne Hnn Hrun Hinv; simpl in Hrun.
  - by injection Hrun as <-.
  - apply bind_Ok in Hrun as (st1 & Hf & Hrun).
    eapply IH; eauto using scan_file_labelled.
Qed.

Context `{CRand}.

(** X18.  With labels whose durations are not negative, in an object that
    the constructor has built, and in every state of it with the same
    class ids and chunk descriptors, [getclassids] returns for every
    utterance the class ids of the label sequence of its key, frame by
    frame: as many as the utterance has frames, each below [udim]. *)
Theorem supervised_labels infiles labels udim rr lats fm r0 s dg :
  labels <> ∅ -> durations_nonneg labels ->
  construct b classid_bits infiles labels udim rr lats fm r0 = Ok (s, dg) ->
  forall s1 ci ui c d u,
    classids s1 = classids s ->
    descriptor <$> allchunks s1 = descriptor <$> allchunks s ->
    randomizedchunks s1 !! ci = Some c ->
    allchunks s1 !! uttchunkdata c = Some d ->
    utteranceset d !! ui = Some u ->
    exists labseq,
      labels !! utt_key u = Some labseq /\
      getclassids classid_bits s1 ci ui = Ok (expansion labseq) /\
      length (expansion labseq) = Z.to_nat (utt_numframes u) /\
      Forall (fun x => (x < udim)%Z) (expansion labseq).
Proof.
  intros Hne Hnn Hrun s1 ci ui c d u Hcids Hdesc Hc Hd Hu.
  pose proof (construct_chunks_ok _ _ _ _ _ _ _ _ _ _ _ Hrun) as (_ & st & Hscan & Hcat).
  apply construct_Ok in Hrun as (st0 & Hscan0 & _ & _ & Hcl & _).
  rewrite Hscan in Hscan0. injection Hscan0 as <-.
  apply scan_files_labelled in Hscan; [|done..|constructor]. simpl in Hscan.
  rewrite <- Hcl, <- Hcat in Hscan.
  assert (u ∈ concat (utteranceset <$> allchunks s)) as Hin.
  { assert ((descriptor <$> allchunks s) !! uttchunkdata c = Some (descriptor d)) as Hd0
      by (by rewrite <- Hdesc, list_lookup_fmap, Hd).
    rewrite list_lookup_fmap in Hd0.
    destruct (allchunks s !! uttchunkdata c) as [d0|] eqn:Hd0'; [|done].
    injection Hd0 as Hus _ _.
    apply list_elem_of_In, in_concat. exists (utteranceset d0).
    split; apply list_elem_of_In.
    - apply list_elem_of_fmap. exists d0. split; [done|].
      by eapply list_elem_of_lookup_2.
    - rewrite Hus. by eapply list_elem_of_lookup_2. }
  rewrite Forall_forall in Hscan.
  destruct (Hscan u Hin) as (labseq & Hl & Hcb & Hn & Hsm & Hlen & Htake & Hmark & Hdim).
  exists labseq. split_and!; try done.
  unfold getclassids, issupervised. rewrite Hcids.
  rewrite bool_decide_eq_false_2 by (intros Hnil; by rewrite Hnil in Hmark). simpl.
  rewrite (at_lookup _ _ _ Hc). simpl. unfold getchunkdata.
  rewrite (at_lookup _ _ _ Hd). simpl.
  unfold getclassidsbegin, chunkdata_numframes. rewrite (at_lookup _ _ _ Hu). simpl.
  unfold sz_add. rewrite wrap_small by lia. rewrite (at_lookup _ _ _ Hmark). simpl.
  rewrite decide_True by done. by rewrite Htake.
Qed.
End Labels.

(** ** The capacity of the frame references *)

Section Capacity.
Variable all : list utterancechunkdata.
Variable b : build.

Lemma checkoverflow_small bits z :
  (0 <= z < 2 ^ bits)%Z -> checkoverflow (trunc bits z) z = Ok ().
Proof.
  intros Hz. unfold checkoverflow, trunc. rewrite Z.mod_small by done.
  by rewrite decide_True.
Qed.

Lemma frameindex_capacity : maxframesperutterance b = (2 ^ frameindex_bits b - 1)%Z.
Proof. by destruct b. Qed.

Lemma utteranceindex_capacity :
  maxutterancesperchunk b = (2 ^ utteranceindex_bits b - 1)%Z.
Proof. by destruct b. Qed.

Lemma chunkindex_capacity : (0 < 2 ^ chunkindex_bits b <= 2 ^ 16)%Z.
Proof. by destruct b. Qed.

Lemma enum_frames_total ci ui i n : forall m,
  (Z.of_nat (m + n) <= 2 ^ frameindex_bits b)%Z -> (Z.of_nat i < 2 ^ 16)%Z ->
  exists l, enum_frames b ci ui i m n = Ok l.
Proof.
  induction n as [|n IH]; intros m Hm Hi; simpl; [by eexists|].
  rewrite checkoverflow_small by lia. simpl.
  rewrite checkoverflow_small by lia. simpl.
  destruct (IH (S m)) as (l & ->); [lia|done|]. simpl. by eexists.
Qed.

Lemma enum_utterances_total ci i utts : forall k,
  Forall (addressable b) utts ->
  (Z.of_nat (k + length utts) <= 2 ^ utteranceindex_bits b)%Z ->
  (Z.of_nat i < 2 ^ 16)%Z ->
  exists l, enum_utterances b ci i utts k = Ok l.
Proof.
  induction utts as [|u utts IH]; intros k Hus Hk Hi; simpl; [by eexists|].
  apply Forall_cons in Hus as [Hu Hus]. simpl in Hk.
  rewrite checkoverflow_small by lia. simpl.
  destruct (enum_frames_total ci (trunc (utteranceindex_bits b) (Z.of_nat k)) i
              (Z.to_nat (utt_numframes u)) 0) as (hd & ->); [|done|].
  { unfold addressable in Hu. rewrite frameindex_capacity in Hu. lia. }
  simpl. destruct (IH (S k)) as (tl & ->); [done|lia|done|]. simpl. by eexists.
Qed.

Lemma enum_chunks_capacity rcs : forall i,
  Forall (chunk_ok b) all -> Forall (fun c => uttchunkdata c < length all) rcs ->
  ((Z.of_nat (i + length rcs) <= 2 ^ chunkindex_bits b)%Z ->
   exists l, enum_chunks all b rcs i = Ok l) /\
  ((Z.of_nat i <= 2 ^ chunkindex_bits b < Z.of_nat (i + length rcs))%Z ->
   enum_chunks all b rcs i = Throw runtime_checkoverflow).
Proof.
  pose proof chunkindex_capacity as Hcap.
  induction rcs as [|c rcs IH]; intros i Hall Hrcs.
  - split; [by eexists|]. simpl. lia.
  - apply Forall_cons in Hrcs as [Hc Hrcs].
    destruct (IH (S i) Hall Hrcs) as [IHok IHthrow].
    destruct (lookup_lt_is_Some_2 _ _ Hc) as [d Hd].
    pose proof (proj1 (Forall_forall _ _) Hall d (list_elem_of_lookup_2 _ _ _ Hd)) as Hok.
    assert (forall ci, (Z.of_nat i < 2 ^ 16)%Z ->
              exists l, enum_utterances b ci i (utteranceset d) 0 = Ok l) as Hutts.
    { intros ci Hi. apply enum_utterances_total; [apply Hok| |done].
      pose proof (ck_capacity _ _ Hok) as Hn. unfold chunkdata_numutterances in Hn.
      rewrite utteranceindex_capacity in Hn. lia. }
    simpl. unfold getchunkdata. rewrite (at_lookup _ _ _ Hd).
    split.
    + intros Hlen. rewrite checkoverflow_small by lia. simpl.
      destruct (Hutts (trunc (chunkindex_bits b) (Z.of_nat i))) as (hd & ->); [lia|].
      simpl. destruct IHok as (tl & ->); [lia|]. simpl. by eexists.
    + intros [Hlo Hhi]. destruct (decide (Z.of_nat i = 2 ^ chunkindex_bits b)%Z) as [Heq|Hne].
      * unfold checkoverflow, trunc. rewrite Heq, Z.mod_same by lia.
        rewrite decide_False by lia. done.
      * rewrite checkoverflow_small by lia. simpl.
        destruct (Hutts (trunc (chunkindex_bits b) (Z.of_nat i))) as (hd & ->); [lia|].
        simpl. rewrite IHthrow by lia. done.
Qed.

(** X19.  The enumeration of the frames in frame mode, over chunks as the
    constructor builds them, returns when there are at most
    [2 ^ chunkindex_bits] randomized chunks, with one entry per frame, and
    throws the overflow error when there are more: no utterance index and
    no frame index overflows its bit field. *)
Theorem frame_enumeration_capacity rcs :
  Forall (chunk_ok b) all -> Forall (fun c => uttchunkdata c < length all) rcs ->
  ((Z.of_nat (length rcs) <= 2 ^ chunkindex_bits b)%Z ->
   exists l, enum_chunks all b rcs 0 = Ok l /\
     length l = sum_list_with (fun r => from_option chunk_frames 0 (all !! r))
                  (uttchunkdata <$> rcs)) /\
  ((2 ^ chunkindex_bits b < Z.of_nat (length rcs))%Z ->
   enum_chunks all b rcs 0 = Throw runtime_checkoverflow).
Proof.
  intros Hall Hrcs. destruct (enum_chunks_capacity rcs 0 Hall Hrcs) as [Hok Hthrow].
  pose proof chunkindex_capacity as Hcap.
  split.
  - intros Hlen. destruct Hok as (l & Hl); [simpl; lia|]. exists l. split; [done|].
    by eapply enum_chunks_length.
  - intros Hlen. apply Hthrow. simpl. lia.
Qed.
End Capacity.

(** ** Examples *)

(** From [long_files] the constructor builds the two chunks of
    [long_chunks]: the first is full with 100000 frames. *)
Lemma construct_chunks_witness :
  chunks_ok WIN64 long_chunks /\ corpus_consistent (@long_source stride 100 0).
Proof.
  exact (@construct_chunks stride WIN64 16 long_files ∅ 0 100 ∅ false 0
           (@long_source stride 100 0) [] eq_refl).
Defined.

Lemma construct_needs_valid_files_witness : Forall valid_file long_files.
Proof.
  exact (@construct_needs_valid_files stride WIN64 16 long_files ∅ 0 100 ∅ false 0
           (@long_source stride 100 0) [] eq_refl).
Defined.

(** With [oversized_file] among [scenario_files] the constructor returns
    and the corpus is that of [scenario_files]. *)
Lemma unsupervised_construction_witness :
  exists s dg,
    @construct stride WIN64 16 (scenario_files ++ [oversized_file]) ∅ 0 100 ∅ false 0
    = Ok (s, dg) /\
    concat (utteranceset <$> allchunks s)
    = [mkutterancedesc 1 100 0; mkutterancedesc 2 150 0; mkutterancedesc 3 80 0].
Proof.
  destruct (@unsupervised_construction stride WIN64 16
              (scenario_files ++ [oversized_file]) 0 100 ∅ false 0) as [Hiff Hcorpus].
  destruct (proj1 Hiff) as (s & dg & Hrun).
  { unfold scenario_files, oversized_file. simpl.
    repeat (constructor; [eexists; split; [reflexivity|lia]|]). constructor. }
  exists s, dg. split; [exact Hrun|].
  exact (proj1 (Hcorpus s dg Hrun)).
Defined.

(** A batch at the third utterance of the first sweep over
    [trio_source]. *)
Lemma getbatch_two_phases_witness :
  exists out s' s1,
    @getbatch stride WIN64 (fun _ => false) 39 16 100 5 5 (@trio_source stride false 14 0)
    = (Ok out, s') /\
    feat_cols out = 4%Z /\
    @lazyrandomization stride WIN64 100 5 (@trio_source stride false 14 0) = (Ok 0%Z, s1) /\
    randomization_only (@trio_source stride false 14 0) s1 /\ paging_only s1 s'.
Proof.
  destruct (@getbatch stride WIN64 (fun _ => false) 39 16 100 5 5
              (@trio_source stride false 14 0)) as [r s'] eqn:Hrun.
  destruct (@getbatch_two_phases stride WIN64 (fun _ => false) 39 16 100 5 5 _ _ _ Hrun)
    as (r1 & s1 & Hlazy & Hro & Hpo & _).
  pose proof Hrun as Hval. vm_compute in Hval. injection Hval as <- _.
  pose proof Hlazy as Hval. vm_compute in Hval. injection Hval as <- _.
  eexists _, s', s1. split_and!; [reflexivity|reflexivity|exact Hlazy|exact Hro|exact Hpo].
Defined.

(** After a batch at the last utterance of the sweep over [trio_source],
    whose chunk is the third randomized chunk, a batch at the first
    utterance has the window of the first chunk only: it reads the first
    chunk and releases the third. *)
Lemma getbatch_utterancemode_residency_witness :
  exists s out s',
    (@getbatch stride WIN64 (fun _ => false) 39 16 100 11 2
       (@trio_source stride false 14 0)).2 = s /\
    @getbatch_utterancemode stride (fun _ => false) 39 16 0 2 s = (Ok out, s') /\
    inram_at s 2 = true /\
    batch_window s 0 1 = Some (0, 1) /\
    inram_at s' 0 = true /\ inram_at s' 1 = false /\ inram_at s' 2 = false.
Proof.
  destruct (@getbatch stride WIN64 (fun _ => false) 39 16 100 11 2
              (@trio_source stride false 14 0)) as [r s] eqn:Hrun.
  pose proof Hrun as Hval. vm_compute in Hval. injection Hval as <- <-.
  match goal with |- exists s0 out s', _.2 = s0 /\ _ => eexists; eexists; eexists; split; [reflexivity|] end.
  match goal with |- context [@getbatch_utterancemode stride ?f ?a ?c ?g ?fr ?s] =>
    destruct (@getbatch_utterancemode stride f a c g fr s) as [r' s'] eqn:Hget;
    pose proof Hget as Hval; vm_compute in Hval; injection Hval as <- <-;
    destruct (@getbatch_utterancemode_residency stride f a c g fr s _ _
                ltac:(apply (bool_decide_unpack _); vm_compute; exact I) Hget)
      as (spos & epos & wb & we & Hpos & Hext & Hwin & Hin & Hout)
  end.
  vm_compute in Hpos. injection Hpos as <-.
  vm_compute in Hext. injection Hext as <-.
  pose proof Hwin as Hw. vm_compute in Hw. injection Hw as <- <-.
  split_and!; [reflexivity|reflexivity|exact Hwin| |apply Hout; lia|apply Hout; lia].
  apply (Hin (mkutteranceref 0 0 2 0)). vm_compute. left.
Defined.

(** In frame mode, after a batch at the start of the sweep over
    [trio_source], a batch of the last two frame positions has the window
    of the third chunk: the second and third chunks are read and the first
    is released. *)
Lemma getbatch_framemode_residency_witness :
  exists s out s',
    (@getbatch stride WIN64 (fun _ => false) 39 16 100 0 2
       (@trio_source stride true 14 0)).2 = s /\
    @getbatch_framemode stride (fun _ => false) 39 16 0 11 5 s = (Ok out, s') /\
    inram_at s 0 = true /\
    chunkforframepos s 11 = Ok 2 /\ chunkforframepos s 12 = Ok 2 /\
    inram_at s' 0 = false /\ inram_at s' 1 = true /\ inram_at s' 2 = true.
Proof.
  destruct (@getbatch stride WIN64 (fun _ => false) 39 16 100 0 2
              (@trio_source stride true 14 0)) as [r s] eqn:Hrun.
  pose proof Hrun as Hval. vm_compute in Hval. injection Hval as <- <-.
  match goal with |- exists s0 out s', _.2 = s0 /\ _ => eexists; eexists; eexists; split; [reflexivity|] end.
  match goal with |- context [@getbatch_framemode stride ?f ?a ?c ?sw ?g ?fr ?s] =>
    destruct (@getbatch_framemode stride f a c sw g fr s) as [r' s'] eqn:Hget;
    pose proof Hget as Hval; vm_compute in Hval; injection Hval as <- <-;
    destruct (@getbatch_framemode_residency stride f a c sw g fr s _ _
                ltac:(apply (bool_decide_unpack _); vm_compute; exact I) Hget)
      as (fc & lc & cf & cl & Hfc & Hlc & Hcf & Hcl & Hin & Hout & _)
  end.
  pose proof Hfc as Hv. vm_compute in Hv. injection Hv as <-.
  pose proof Hlc as Hv. vm_compute in Hv. injection Hv as <-.
  vm_compute in Hcf. injection Hcf as <-. vm_compute in Hcl. injection Hcl as <-.
  cbn [windowbegin windowend] in Hin, Hout.
  split_and!; [reflexivity|reflexivity|exact Hfc|exact Hlc
              |apply Hout; lia|apply Hin; lia|apply Hin; lia].
Defined.

(** In frame mode a request for 5 frames at position 11 of the 13 of the
    sweep over [trio_source] returns the last 2. *)
Lemma getbatch_framemode_extent_witness :
  exists s out s',
    (@lazyrandomization stride WIN64 100 11 (@trio_source stride true 14 0)).2 = s /\
    @getbatch_framemode stride (fun _ => false) 39 16 0 11 5 s = (Ok out, s') /\
    feat_cols out = 2%Z /\
    feat_frames out = [mkframeref 2 0 0; mkframeref 2 0 1] /\
    length (uids out) = 0.
Proof.
  destruct (@lazyrandomization stride WIN64 100 11 (@trio_source stride true 14 0))
    as [r s] eqn:Hrun.
  pose proof Hrun as Hval. vm_compute in Hval. injection Hval as <- <-.
  match goal with |- exists s0 out s', _.2 = s0 /\ _ => eexists; eexists; eexists; split; [reflexivity|] end.
  match goal with |- context [@getbatch_framemode stride ?f ?a ?c ?sw ?g ?fr ?s] =>
    destruct (@getbatch_framemode stride f a c sw g fr s) as [r' s'] eqn:Hget;
    pose proof Hget as Hval; vm_compute in Hval; injection Hval as <- <-;
    destruct (@getbatch_framemode_extent stride f a c sw g fr s _ _ Hget)
      as (Hcols & Hlen & Hfr & Huids)
  end; [vm_compute; reflexivity|vm_compute; discriminate|vm_compute; reflexivity
       |split; vm_compute; [discriminate|reflexivity]|lia|vm_compute; reflexivity|].
  split_and!; [reflexivity|exact Hcols|reflexivity|exact Huids].
Defined.

(** On the first sweep over [trio_source] in frame mode the chunks start
    at 0, 5 and 11: frame position 7 lies in the second randomized chunk,
    and position 13, the end of the sweep, in none. *)
Lemma chunkforframepos_spec_witness :
  exists s,
    (@lazyrandomization stride WIN64 100 0 (@trio_source stride true 14 0)).2 = s /\
    chunkforframepos s 7 = Ok 1 /\
    chunkforframepos s 13 = Throw undefined_behaviour.
Proof.
  destruct (@lazyrandomization stride WIN64 100 0 (@trio_source stride true 14 0))
    as [r s] eqn:Hrun.
  pose proof Hrun as Hval. vm_compute in Hval. injection Hval as <- <-.
  eexists. split; [reflexivity|].
  match goal with |- chunkforframepos ?s _ = _ /\ _ =>
    assert (timeline (allchunks s) (randomizedchunks s)) as T
  end.
  { split.
    - intros i c Hc. destruct i as [|[|[|i]]]; vm_compute in Hc;
        [injection Hc as <-; vm_compute; eauto..|discriminate].
    - intros i Hi. destruct i as [|[|[|i]]]; [vm_compute; discriminate..|].
      vm_compute in Hi. lia.
    - intros i Hi. destruct i as [|[|[|i]]]; [vm_compute; discriminate..|].
      vm_compute in Hi. lia.
    - intros i Hi. destruct i as [|[|[|i]]]; [vm_compute; reflexivity..|].
      vm_compute in Hi. lia.
    - intros i Hi. destruct i as [|[|[|i]]]; [vm_compute; reflexivity..| |];
        vm_compute in Hi; lia. }
  split.
  - apply (proj1 (chunkforframepos_spec _ 7 T) 1); [vm_compute; lia|].
    split; vm_compute; [discriminate|reflexivity].
  - apply (proj2 (proj2 (chunkforframepos_spec _ 13 T))). vm_compute. discriminate.
Defined.

(** On the first sweep over [trio_source] the third utterance starts at
    5: the table maps 5 to position 2, and 6 to nothing. *)
Lemma posmap_round_trip_witness :
  exists s',
    @lazyrandomization stride WIN64 100 0 (@trio_source stride false 14 0) = (Ok 0%Z, s') /\
    randomizedutteranceposmap s' !! 5%Z = Some 2 /\
    randomizedutteranceposmap s' !! 6%Z = None.
Proof.
  destruct (@lazyrandomization stride WIN64 100 0 (@trio_source stride false 14 0))
    as [r s'] eqn:Hrun.
  pose proof Hrun as Hval. vm_compute in Hval. injection Hval as <- <-.
  eexists. split; [reflexivity|].
  destruct (@posmap_round_trip stride WIN64 100 0 (@trio_source stride false 14 0) 0 _
              eq_refl Hrun ltac:(vm_compute; discriminate)) as (_ & Hnone & Hpos).
  split.
  - apply (Hpos ltac:(apply sweep_fitsb_true; vm_compute; reflexivity)
             ltac:(apply Forall_forall, (bool_decide_unpack _); vm_compute; exact I)
             2 (mkutteranceref 1 0 4 5) eq_refl).
  - apply Hnone.
    apply Forall_forall, (bool_decide_unpack _). vm_compute. exact I.
Defined.

(** Reading the second randomized chunk of the first sweep over
    [trio_source] and releasing it gives back the chunks as they were. *)
Lemma page_in_page_out_witness :
  exists s s1 s2,
    (@lazyrandomization stride WIN64 100 0 (@trio_source stride false 14 0)).2 = s /\
    @requirerandomizedchunk stride (fun _ => false) 39 1 0 2 s = (Ok true, s1) /\
    inram_at s1 1 = true /\
    @releaserandomizedchunk stride 1 s1 = (Ok (), s2) /\
    allchunks s2 = trio_chunks /\ chunksinram s2 = 0%Z.
Proof.
  destruct (@lazyrandomization stride WIN64 100 0 (@trio_source stride false 14 0))
    as [r s] eqn:Hrun.
  pose proof Hrun as Hval. vm_compute in Hval. injection Hval as <- <-.
  match type of Hrun with _ = (_, ?s) =>
    destruct (@requirerandomizedchunk stride (fun _ => false) 39 1 0 2 s)
      as [r1 s1] eqn:Hreq;
    pose proof Hreq as Hval; vm_compute in Hval; injection Hval as <- <-;
    destruct (@page_in_page_out stride (fun _ => false) 39 1 0 2 s _ Hreq)
      as (c & d & s2 & Hc & Hd & _ & Hin & Hrel & Hall & Hn & _)
  end.
  vm_compute in Hc. injection Hc as <-. vm_compute in Hd. injection Hd as <-.
  eexists _, _, s2. split_and!; [reflexivity|exact Hreq|exact Hin|exact Hrel| |].
  - rewrite Hall. reflexivity.
  - rewrite Hn. reflexivity.
Defined.
(** Loading the first chunk of [tiny_chunks] with a lattice source takes
    the dimension from the archive and makes six calls. *)
Lemma requiredata_loads_witness :
  exists d',
    requiredata (fun _ => false) 39 true
      (mkutterancechunkdata [mkutterancedesc 1 2 0; mkutterancedesc 2 3 0] [0; 2]%Z
         (mkmatrix 0 0 []) 5 [], 0%Z, 0) = (Ok (), (d', 39%Z, 6)) /\
    frames d' = mkmatrix 39 5 [0; 1] /\ lattices d' = [Some 1; Some 2].
Proof.
  destruct (requiredata (fun _ => false) 39 true
      (mkutterancechunkdata [mkutterancedesc 1 2 0; mkutterancedesc 2 3 0] [0; 2]%Z
         (mkmatrix 0 0 []) 5 [], 0%Z, 0)) as [r [[d' fd'] n']] eqn:Hrun.
  pose proof Hrun as Hval. vm_compute in Hval. injection Hval as <- <- <- <-.
  destruct (requiredata_loads _ _ _ _ _ _ _ _ _ Hrun) as (_ & _ & Hfr & Hlat & _).
  eexists. split_and!; [reflexivity|exact Hfr|exact Hlat].
Defined.

(** The second utterance of [duo_files] has the label 5 on both of its
    frames. *)
Lemma supervised_labels_witness :
  exists s dg s1,
    @construct stride WIN64 16 duo_files duo_labels 10 14 ∅ false 0 = Ok (s, dg) /\
    @lazyrandomization stride WIN64 100 0 s = (Ok 0%Z, s1) /\
    getclassids 16 s1 0 1 = Ok [5; 5]%Z.
Proof.
  destruct (@construct stride WIN64 16 duo_files duo_labels 10 14 ∅ false 0)
    as [[s dg]| |] eqn:Hc; [|discriminate Hc..].
  pose proof Hc as Hval. vm_compute in Hval. injection Hval as <- <-.
  match type of Hc with _ = Ok (?s, _) =>
    destruct (@lazyrandomization stride WIN64 100 0 s) as [r s1] eqn:Hrun;
    pose proof Hrun as Hval; vm_compute in Hval; injection Hval as <- <-
  end.
  match type of Hrun with _ = (_, ?s1) =>
    destruct (@supervised_labels WIN64 16 stride duo_files duo_labels 10 14 ∅ false 0 _ _
                ltac:(vm_compute; discriminate)
                ltac:(apply (bool_decide_unpack _); vm_compute; exact I)
                Hc s1 0 1 _ _ _ eq_refl eq_refl eq_refl eq_refl eq_refl)
      as (labseq & Hl & Hget & _)
  end.
  vm_compute in Hl. injection Hl as <-.
  eexists _, _, _. split_and!; [reflexivity|exact Hrun|exact Hget].
Defined.

(** The 330 frames of the chunk that the constructor builds from
    [scenario_files] are enumerated. *)
Lemma frame_enumeration_capacity_witness :
  exists l,
    enum_chunks [scenario_chunk] WIN64 [mkchunk 0 0 0 0 1] 0 = Ok l /\ length l = 330.
Proof.
  destruct (@frame_enumeration_capacity [scenario_chunk] WIN64 [mkchunk 0 0 0 0 1])
    as [Hok _].
  - exact (proj1 (proj1 (@construct_chunks_ok stride WIN64 16 scenario_files ∅ 0 1000000 ∅
                           false 0 (@scenario_source stride 0) [] eq_refl))).
  - apply (bool_decide_unpack _). vm_compute. exact I.
  - apply Hok. vm_compute. discriminate.
Defined.

(** * Batches that return *)

(** ** Windows and positions never move back *)


Section WindowsMono.
Variable all : list utterancechunkdata.






End WindowsMono.


(** ** Paging that returns *)

Section PagingReturns.
Context `{CRand}.
Variable io_fails : nat -> bool.
Variable archive_featdim : Z.
Hypothesis io_works : forall n, io_fails n = false.
Hypothesis featdim_known : archive_featdim <> 0%Z.










End PagingReturns.

(** ** A batch that returns *)

Section BatchReturns.
Context `{CRand}.
Variable io_fails : nat -> bool.
Variable archive_featdim : Z.
Variable classid_bits : Z.







Hypothesis io_works : forall n, io_fails n = false.
Hypothesis featdim_known : archive_featdim <> 0%Z.

End BatchReturns.

(** ** Objects fit for batches *)

Section ObjectOkLemmas.
Context `{CRand}.
Variable b : build.
Variable classid_bits : Z.






Variable io_fails : nat -> bool.
Variable archive_featdim : Z.

End ObjectOkLemmas.

